(** * A succinct resizable array (modified Brodnik array), verified

    The development embeds [succinct::vector] (succinct_vector.hpp) and the
    earlier draft [space] (space.hpp) over an explicit heap of buffers and
    buffer directories, in the build where assertions are compiled in.

    Conventions of the embedding.
    - [length_t] is [std::uint32_t] and [size_t] is 64 bits wide; both are
      carried as [Z] with the reduction modulo 2^32 resp. 2^64 written at
      every arithmetic operation.  [log_buffer_capacity] is a 5-bit field.
    - [new T[n]] and [new T*[n]] return a block that was never handed out
      before, with every cell uninitialised ([None]); allocation does not
      fail.  [delete[]] removes the block; touching a removed block, an
      uninitialised pointer or a cell outside a block is undefined
      behaviour ([Undef]).  Copying an uninitialised cell is allowed, as the
      source does it on purpose (see [construct] and [upsize_dir]).
    - A failed [assert] stops the program ([Failed]) in the state it was
      evaluated in. *)

From stdpp Require Import gmap list.
From Stdlib Require Import ZArith Lia.

#[local] Set Warnings "-clear-no-such-hyp".
Local Open Scope Z_scope.

(** ** Outcomes and the state-and-failure monad *)

Inductive outcome (S A : Type) : Type :=
| Done (a : A) (s : S)
| Failed (s : S)
| Undef.
Arguments Done {S A} a s.
Arguments Failed {S A} s.
Arguments Undef {S A}.

Definition M (S A : Type) : Type := S → outcome S A.

Definition ret {S A} (a : A) : M S A := λ s, Done a s.

Definition bind {S A B} (m : M S A) (k : A → M S B) : M S B :=
  λ s, match m s with
       | Done a s' => k a s'
       | Failed s' => Failed s'
       | Undef => Undef
       end.

Definition undef {S A} : M S A := λ _, Undef.

(** [assert (b)] of <cassert>. *)
Definition assert {S} (b : bool) : M S unit :=
  λ s, if b then Done tt s else Failed s.

Declare Scope prog_scope.
Delimit Scope prog_scope with prog.
Notation "'let*' x := m 'in' k" := (bind m (λ x, k))
  (at level 10, x name, m at level 100, k at level 200,
   format "'[v' 'let*'  x  :=  m  'in' '/' k ']'") : prog_scope.
Notation "m ;;; k" := (bind m (λ _, k))
  (at level 100, k at level 200, right associativity,
   format "'[v' m  ;;; '/' k ']'") : prog_scope.
Notation "'when' b 'then' m" := (if b then m else ret tt)
  (at level 10, b at level 100, m at level 200) : prog_scope.
Local Open Scope prog_scope.

(** Running a program on a component of the state. *)
Definition zoom {S S' A} (get : S → S') (put : S' → S → S) (m : M S' A) : M S A :=
  λ s, match m (get s) with
       | Done a s' => Done a (put s' s)
       | Failed s' => Failed (put s' s)
       | Undef => Undef
       end.

(** A counted loop: [body i] for [n] successive values of [i] starting at
    [i], the successor being computed by [step]. *)
Fixpoint repeat_from {S} (n : nat) (step : Z → Z) (i : Z) (body : Z → M S unit) : M S unit :=
  match n with
  | O => ret tt
  | S n' => body i ;;; repeat_from n' step (step i) body
  end.

(** [m], started in [s], ends normally, with a result and a state that
    satisfy [Q]. *)
Definition wp {S A} (m : M S A) (s : S) (Q : A → S → Prop) : Prop :=
  match m s with
  | Done a s' => Q a s'
  | _ => False
  end.

(** ** Machine arithmetic *)

Definition wrap5 (x : Z) : Z := x mod 2 ^ 5.
Definition wrap32 (x : Z) : Z := x mod 2 ^ 32.
Definition wrap64 (x : Z) : Z := x mod 2 ^ 64.

Definition b2z (b : bool) : Z := if b then 1 else 0.

(** [static_cast<length_t>(1) << k]; shifting a 32-bit value by 32 or more
    is undefined. *)
Definition shl32_one {S} (k : Z) : M S Z :=
  if bool_decide (0 ≤ k < 32) then ret (wrap32 (Z.shiftl 1 k)) else undef.

(** ** The heap *)

Definition loc := nat.

Section memory.
Context {T : Type}.

(** [bufs] holds the arrays made by [new T[n]], [dirs] those made by
    [new T*[n]].  A pointer value is [Some l]; [Some 0] is the null
    pointer, [None] an uninitialised pointer. *)
Record heap : Type := Heap {
  bufs : gmap loc (list (option T));
  dirs : gmap loc (list (option loc));
  next : loc
}.

Definition empty_heap : heap := Heap ∅ ∅ 1%nat.

Definition new_buf (n : Z) : M heap (option loc) :=
  λ h, Done (Some (next h))
         (Heap (<[next h := replicate (Z.to_nat n) None]> (bufs h)) (dirs h) (S (next h))).

Definition new_dir (n : Z) : M heap loc :=
  λ h, Done (next h)
         (Heap (bufs h) (<[next h := replicate (Z.to_nat n) None]> (dirs h)) (S (next h))).

(** [delete[] p] for a [T*]; deleting the null pointer does nothing. *)
Definition delete_buf (p : option loc) : M heap unit :=
  λ h, match p with
       | None => Undef
       | Some O => Done tt h
       | Some l =>
           match bufs h !! l with
           | Some _ => Done tt (Heap (delete l (bufs h)) (dirs h) (next h))
           | None => Undef
           end
       end.

Definition delete_dir (l : loc) : M heap unit :=
  λ h, match l with
       | O => Done tt h
       | _ =>
           match dirs h !! l with
           | Some _ => Done tt (Heap (bufs h) (delete l (dirs h)) (next h))
           | None => Undef
           end
       end.

(** [d[i]] read as an rvalue, for a directory [d]. *)
Definition load_slot (d : loc) (i : Z) : M heap (option loc) :=
  λ h, match dirs h !! d with
       | Some slots =>
           if bool_decide (0 ≤ i) then
             match slots !! Z.to_nat i with
             | Some p => Done p h
             | None => Undef
             end
           else Undef
       | None => Undef
       end.

(** [d[i] = p]. *)
Definition store_slot (d : loc) (i : Z) (p : option loc) : M heap unit :=
  λ h, match dirs h !! d with
       | Some slots =>
           if bool_decide (0 ≤ i < Z.of_nat (length slots)) then
             Done tt (Heap (bufs h) (<[d := <[Z.to_nat i := p]> slots]> (dirs h)) (next h))
           else Undef
       | None => Undef
       end.

(** [p[i]] read as an rvalue, for a buffer pointer [p]. *)
Definition load_cell (p : option loc) (i : Z) : M heap (option T) :=
  λ h, match p with
       | Some l =>
           match bufs h !! l with
           | Some cells =>
               if bool_decide (0 ≤ i) then
                 match cells !! Z.to_nat i with
                 | Some c => Done c h
                 | None => Undef
                 end
               else Undef
           | None => Undef
           end
       | None => Undef
       end.

(** [p[i] = c]. *)
Definition store_cell (p : option loc) (i : Z) (c : option T) : M heap unit :=
  λ h, match p with
       | Some l =>
           match bufs h !! l with
           | Some cells =>
               if bool_decide (0 ≤ i < Z.of_nat (length cells)) then
                 Done tt (Heap (<[l := <[Z.to_nat i := c]> cells]> (bufs h)) (dirs h) (next h))
               else Undef
           | None => Undef
           end
       | None => Undef
       end.

(** [std::copy(src + first, src + first + n, dst + dfirst)] on buffers,
    one cell after the other in increasing order. *)
Definition copy_cells (src : option loc) (first : Z) (n : Z) (dst : option loc) (dfirst : Z)
  : M heap unit :=
  repeat_from (Z.to_nat n) Z.succ 0
    (λ j, let* c := load_cell src (first + j) in store_cell dst (dfirst + j) c).

(** [std::copy(src, src + n, dst)] on directories. *)
Definition copy_slots (src : loc) (n : Z) (dst : loc) : M heap unit :=
  repeat_from (Z.to_nat n) Z.succ 0
    (λ j, let* p := load_slot src j in store_slot dst j p).

(** A [T &]: the buffer and the offset of the item in it. *)
Definition ref : Type := loc * Z.

(** Binding a reference to [p[i]]: the item has to exist. *)
Definition item (p : option loc) (i : Z) : M heap ref :=
  λ h, match p with
       | Some l =>
           match bufs h !! l with
           | Some cells =>
               if bool_decide (0 ≤ i < Z.of_nat (length cells)) then Done (l, i) h else Undef
           | None => Undef
           end
       | None => Undef
       end.

Definition load_ref (r : ref) : M heap (option T) := load_cell (Some r.1) r.2.
Definition store_ref (r : ref) (x : T) : M heap unit := store_cell (Some r.1) r.2 (Some x).

(** The body of the loop of [upsize_buffers], in both structs: the
    buffers in slots [i] and [i+1] of directory [d] are merged into a new
    buffer of twice the capacity, which goes to slot [i/2].  (space.hpp
    spells the two [std::copy] calls as loops.) *)
Definition merge_pair (d : loc) (buf_cap i : Z) : M heap unit :=
  let* buf1 := load_slot d i in
  let* buf2 := load_slot d (wrap32 (i + 1)) in
  let* bigdir := new_buf (wrap32 (2 * buf_cap)) in
  store_slot d (i / 2) bigdir ;;;
  copy_cells buf1 0 buf_cap bigdir 0 ;;;
  copy_cells buf2 0 buf_cap bigdir buf_cap ;;;
  delete_buf buf1 ;;;
  delete_buf buf2.

(** The body of the loop of [downsize_buffers], in both structs: the
    buffer in slot [k] of directory [d] is split into two new buffers of
    half the capacity, which go to slots [2k] and [2k+1]. *)
Definition split_buffer (d : loc) (buf_cap k : Z) : M heap unit :=
  let* oldbuf := load_slot d k in
  let* b0 := new_buf (buf_cap / 2) in
  store_slot d (wrap32 (2 * k)) b0 ;;;
  let* b1 := new_buf (buf_cap / 2) in
  store_slot d (wrap32 (wrap32 (2 * k) + 1)) b1 ;;;
  let* b0 := load_slot d (wrap32 (2 * k)) in
  copy_cells oldbuf 0 (buf_cap / 2) b0 0 ;;;
  let* b1 := load_slot d (wrap32 (wrap32 (2 * k) + 1)) in
  copy_cells oldbuf (buf_cap / 2) (buf_cap - buf_cap / 2) b1 0 ;;;
  delete_buf oldbuf.

End memory.
Arguments heap : clear implicits.

(** ** succinct::vector (succinct_vector.hpp) *)

(** The data members.  [struct space] of space.hpp declares the same six,
    so the record serves both. *)
Record vector : Type := Vector {
  dir : loc;
  dir_size : Z;
  last_buffer_size : Z;
  log_buffer_capacity : Z;
  big_buffer : bool;
  extra_buffer : bool
}.

Definition set_dir (x : loc) (v : vector) : vector :=
  Vector x (dir_size v) (last_buffer_size v) (log_buffer_capacity v) (big_buffer v) (extra_buffer v).
Definition set_dir_size (x : Z) (v : vector) : vector :=
  Vector (dir v) x (last_buffer_size v) (log_buffer_capacity v) (big_buffer v) (extra_buffer v).
Definition set_last_buffer_size (x : Z) (v : vector) : vector :=
  Vector (dir v) (dir_size v) x (log_buffer_capacity v) (big_buffer v) (extra_buffer v).
Definition set_log_buffer_capacity (x : Z) (v : vector) : vector :=
  Vector (dir v) (dir_size v) (last_buffer_size v) x (big_buffer v) (extra_buffer v).
Definition set_big_buffer (x : bool) (v : vector) : vector :=
  Vector (dir v) (dir_size v) (last_buffer_size v) (log_buffer_capacity v) x (extra_buffer v).
Definition set_extra_buffer (x : bool) (v : vector) : vector :=
  Vector (dir v) (dir_size v) (last_buffer_size v) (log_buffer_capacity v) (big_buffer v) x.

Section methods.
Context {T : Type}.

(** A method runs on the members of [*this] and on the heap. *)
Definition state : Type := vector * heap T.
Definition Mv (A : Type) : Type := M state A.

Definition rd {A} (f : vector → A) : Mv A := λ s, Done (f s.1) s.
Definition wr (f : vector → vector) : Mv unit := λ s, Done tt (f s.1, s.2).
Definition mem {A} (m : M (heap T) A) : Mv A := zoom snd (λ h s, (s.1, h)) m.

(** A call of a const method on another object [that]. *)
Definition const_call {A} (that : vector) (m : Mv A) : Mv A :=
  zoom (λ s, (that, s.2)) (λ _ s, s) m.

Definition dir_capacity : Mv Z :=
  let* L := rd log_buffer_capacity in
  assert (0 <? L) ;;;
  let* big := rd big_buffer in
  let log_dir_capacity := wrap32 (L - (if big then 1 else 0)) in
  shl32_one log_dir_capacity.

Definition buffer_capacity : Mv Z :=
  let* L := rd log_buffer_capacity in
  shl32_one L.

Definition assert_valid : Mv unit :=
  let* d := rd dir in
  assert (negb (Nat.eqb 0 d)) ;;;
  let* L := rd log_buffer_capacity in
  assert (0 <? L) ;;;
  let* ds := rd dir_size in
  let* D := dir_capacity in
  assert (ds <=? D) ;;;
  assert (0 <? ds) ;;;
  let* lbs := rd last_buffer_size in
  let* B := buffer_capacity in
  assert (lbs <? B) ;;;
  let* e := rd extra_buffer in
  (when (0 =? lbs) then assert (negb e)) ;;;
  (when e then
     (assert (0 <? lbs) ;;;
      let* D := dir_capacity in
      assert (ds <? D))) ;;;
  let* D := dir_capacity in
  assert (D <=? wrap32 (wrap32 (ds + b2z e) * 4)).

Definition size : Mv Z :=
  let* ds := rd dir_size in
  assert (0 <? ds) ;;;
  let* L := rd log_buffer_capacity in
  let* lbs := rd last_buffer_size in
  ret (wrap64 (wrap64 (Z.shiftl (wrap32 (ds - 1)) L) + lbs)).

Definition pget (i : Z) : Mv ref :=
  assert_valid ;;;
  let* n := size in
  assert (i <? n) ;;;
  let* L := rd log_buffer_capacity in
  let big := Z.shiftr i L in
  let* B := buffer_capacity in
  let little := Z.land i (wrap32 (B - 1)) in
  assert (wrap64 (wrap64 (Z.shiftl big L) + little) =? i) ;;;
  let* ds := rd dir_size in
  assert (big <? ds) ;;;
  let* B := buffer_capacity in
  assert (little <? B) ;;;
  let* d := rd dir in
  let* p := mem (load_slot d big) in
  mem (item p little).

(** Both [operator[]]s return [pget(i)]. *)
Definition index (i : Z) : Mv ref := pget i.

(** [... = v[i]] and [v[i] = x]. *)
Definition get (i : Z) : Mv (option T) :=
  let* r := index i in mem (load_ref r).
Definition put (i : Z) (x : T) : Mv unit :=
  let* r := index i in mem (store_ref r x).

Definition upsize_dir : Mv unit :=
  let* big := rd big_buffer in
  assert big ;;;
  let* old_dir_capacity := dir_capacity in
  let* old_dir := rd dir in
  let* d := mem (new_dir (wrap32 (2 * old_dir_capacity))) in
  wr (set_dir d) ;;;
  let* d := rd dir in
  mem (copy_slots old_dir old_dir_capacity d) ;;;
  mem (delete_dir old_dir) ;;;
  wr (set_big_buffer false).

Definition downsize_dir : Mv unit :=
  let* old_dir_capacity := dir_capacity in
  let* old_dir := rd dir in
  let* d := mem (new_dir (old_dir_capacity / 2)) in
  wr (set_dir d) ;;;
  let* ds := rd dir_size in
  let* d := rd dir in
  mem (copy_slots old_dir ds d) ;;;
  mem (delete_dir old_dir) ;;;
  wr (set_big_buffer true).

(** The loop [for (i = 0; i < dir_size; i += 2)] makes
    [(dir_size + 1) / 2] rounds. *)
Definition upsize_buffers : Mv unit :=
  let* big := rd big_buffer in
  assert (negb big) ;;;
  let* e := rd extra_buffer in
  assert (negb e) ;;;
  (* assert (dir_size = dir_capacity()): an assignment under the assert *)
  let* D := dir_capacity in
  wr (set_dir_size D) ;;;
  assert (negb (D =? 0)) ;;;
  let* D := dir_capacity in
  assert (Z.land D 1 =? 0) ;;;
  let* lbs := rd last_buffer_size in
  let* B := buffer_capacity in
  assert (lbs =? B) ;;;
  let* buf_cap := buffer_capacity in
  let* ds := rd dir_size in
  repeat_from (Z.to_nat ((ds + 1) / 2)) (λ i, wrap32 (i + 2)) 0
    (λ i, let* d := rd dir in mem (merge_pair d buf_cap i)) ;;;
  let* L := rd log_buffer_capacity in
  wr (set_log_buffer_capacity (wrap5 (L + 1))) ;;;
  let* lbs := rd last_buffer_size in
  wr (set_last_buffer_size (wrap32 (lbs * 2))) ;;;
  wr (set_big_buffer true) ;;;
  let* ds := rd dir_size in
  wr (set_dir_size (ds / 2)).

(** The loop [for (i = 1; i < dir_size; ++i)] makes [dir_size - 1]
    rounds. *)
Definition downsize_buffers : Mv unit :=
  let* lbs := rd last_buffer_size in
  assert (0 =? lbs) ;;;
  let* e := rd extra_buffer in
  assert (negb e) ;;;
  let* B := buffer_capacity in
  assert (Z.land B 1 =? 0) ;;;
  let* ds := rd dir_size in
  let* D := dir_capacity in
  assert (wrap32 (ds * 2) <? D) ;;;
  let* big := rd big_buffer in
  assert big ;;;
  let* buf_cap := buffer_capacity in
  let* d := rd dir in
  let* last := mem (load_slot d (wrap32 (ds - 1))) in
  mem (delete_buf last) ;;;
  repeat_from (Z.to_nat (ds - 1)) (λ i, wrap32 (i + 1)) 1
    (λ i,
       let* ds := rd dir_size in
       let k := wrap32 (wrap32 (ds - i) - 1) in
       assert (k <? wrap32 (ds - 1)) ;;;
       let* d := rd dir in
       mem (split_buffer d buf_cap k)) ;;;
  wr (set_big_buffer false) ;;;
  let* L := rd log_buffer_capacity in
  wr (set_log_buffer_capacity (wrap5 (L - 1))) ;;;
  let* ds := rd dir_size in
  wr (set_dir_size (wrap32 (wrap32 (2 * ds) - 1))) ;;;
  let* B := buffer_capacity in
  let* b := mem (new_buf B) in
  let* d := rd dir in
  let* ds := rd dir_size in
  mem (store_slot d (wrap32 (ds - 1)) b) ;;;
  let* lbs := rd last_buffer_size in
  assert (0 =? lbs).

Definition upsize : Mv unit :=
  let* old_size := size in
  let* big := rd big_buffer in
  (if big then upsize_dir else upsize_buffers) ;;;
  let* n := size in
  assert (n =? old_size).

Definition downsize : Mv unit :=
  let* old_size := size in
  let* big := rd big_buffer in
  (if big then downsize_buffers else downsize_dir) ;;;
  let* n := size in
  assert (n =? old_size).

Definition push_back (x : T) : Mv unit :=
  let* old_size := size in
  assert_valid ;;;
  let* lbs := rd last_buffer_size in
  let* B := buffer_capacity in
  assert (lbs <? B) ;;;
  let* d := rd dir in
  let* ds := rd dir_size in
  let* p := mem (load_slot d (wrap32 (ds - 1))) in
  mem (store_cell p lbs (Some x)) ;;;
  wr (set_last_buffer_size (wrap32 (lbs + 1))) ;;;
  let* lbs := rd last_buffer_size in
  let* B := buffer_capacity in
  (when (lbs =? B) then
     (let* e := rd extra_buffer in
      (when (negb e) then
         (let* ds := rd dir_size in
          let* D := dir_capacity in
          (when (ds =? D) then upsize) ;;;
          let* ds := rd dir_size in
          let* D := dir_capacity in
          assert (ds <? D) ;;;
          let* B := buffer_capacity in
          let* b := mem (new_buf B) in
          let* d := rd dir in
          let* ds := rd dir_size in
          mem (store_slot d ds b))) ;;;
      let* ds := rd dir_size in
      wr (set_dir_size (wrap32 (ds + 1))) ;;;
      wr (set_extra_buffer false) ;;;
      wr (set_last_buffer_size 0))) ;;;
  assert_valid ;;;
  let* n := size in
  assert (n =? wrap64 (old_size + 1)).

(** The two branches of [pop_back] before the downsizing test. *)
Definition pop_back_shrink : Mv unit :=
  let* lbs := rd last_buffer_size in
  if 0 =? lbs then
    let* e := rd extra_buffer in
    assert (negb e) ;;;
    let* B := buffer_capacity in
    wr (set_last_buffer_size (wrap32 (B - 1))) ;;;
    let* ds := rd dir_size in
    wr (set_dir_size (wrap32 (ds - 1))) ;;;
    wr (set_extra_buffer true)
  else
    wr (set_last_buffer_size (wrap32 (lbs - 1))) ;;;
    let* lbs := rd last_buffer_size in
    let* e := rd extra_buffer in
    when ((0 =? lbs) && e) then
      (let* d := rd dir in
       let* ds := rd dir_size in
       let* p := mem (load_slot d ds) in
       mem (delete_buf p) ;;;
       wr (set_extra_buffer false)).

Definition pop_back : Mv unit :=
  let* old_size := size in
  assert_valid ;;;
  let* n := size in
  assert (0 <? n) ;;;
  pop_back_shrink ;;;
  let* ds := rd dir_size in
  let* e := rd extra_buffer in
  let* D := dir_capacity in
  (when (wrap32 (wrap32 (ds + b2z e) * 4) <=? D) then
     (let* ds := rd dir_size in
      let* e := rd extra_buffer in
      let* D := dir_capacity in
      assert (wrap32 (wrap32 (ds + b2z e) * 4) =? D) ;;;
      downsize)) ;;;
  assert_valid ;;;
  let* n := size in
  assert (wrap64 (n + 1) =? old_size).

(** [construct(that)]: [that] is a reference; no member of any object
    is written while it runs, so the members of [that] are taken as they
    are at the call, and its buffers are read from the heap as the loop
    goes. *)
Definition construct (that : vector) : Mv unit :=
  assert_valid ;;;
  let* ds := rd dir_size in
  repeat_from (Z.to_nat ds) (λ i, wrap32 (i + 1)) 0
    (λ i,
       let* B := buffer_capacity in
       let* b := mem (new_buf B) in
       let* d := rd dir in
       mem (store_slot d i b) ;;;
       let* src := mem (load_slot (dir that) i) in
       let* n := const_call that buffer_capacity in
       let* d := rd dir in
       let* dst := mem (load_slot d i) in
       mem (copy_cells src 0 n dst 0)) ;;;
  let* e := rd extra_buffer in
  (when e then
     (let* B := buffer_capacity in
      let* b := mem (new_buf B) in
      let* d := rd dir in
      let* ds := rd dir_size in
      mem (store_slot d ds b))) ;;;
  assert_valid.

(** [destuct()]; its counter is a [size_t]. *)
Definition destuct : Mv unit :=
  let* ds := rd dir_size in
  repeat_from (Z.to_nat ds) (λ i, wrap64 (i + 1)) 0
    (λ i,
       let* d := rd dir in
       let* p := mem (load_slot d i) in
       mem (delete_buf p)) ;;;
  let* e := rd extra_buffer in
  (when e then
     (let* d := rd dir in
      let* ds := rd dir_size in
      let* p := mem (load_slot d ds) in
      mem (delete_buf p))) ;;;
  let* d := rd dir in
  mem (delete_dir d).

(** The body of a constructor, run on the members as the initialiser
    list left them. *)
Definition construct_with (v : vector) (body : Mv unit) : M (heap T) vector :=
  λ h, match body (v, h) with
       | Done _ s => Done s.1 s.2
       | Failed s => Failed s.2
       | Undef => Undef
       end.

(** A call of a const method on the object with members [v], for its
    result. *)
Definition eval_on {A} (v : vector) (m : Mv A) : M (heap T) A :=
  zoom (λ h, (v, h)) (λ s _, s.2) m.

(** The default constructor. *)
Definition vector_new : M (heap T) vector :=
  let* d := new_dir 1 in
  construct_with (Vector d 1 0 1 true false)
    (let* B := buffer_capacity in
     let* b := mem (new_buf B) in
     let* d := rd dir in
     mem (store_slot d 0 b) ;;;
     assert_valid).

(** The copy constructor.  The object under construction is new, so
    [that] is another object and its members stay as they are. *)
Definition vector_copy (that : vector) : M (heap T) vector :=
  let* cap := eval_on that dir_capacity in
  let* d := new_dir cap in
  construct_with
    (Vector d (dir_size that) (last_buffer_size that) (log_buffer_capacity that)
       (big_buffer that) (extra_buffer that))
    (construct that).

(** *** Several vectors in one program

    The objects of a client are named by numbers; [this] and [that] of
    [operator=] are such names, and may be the same. *)
Record store : Type := Store {
  objs : gmap nat vector;
  hp : heap T
}.

Definition empty_store : store := Store ∅ empty_heap.

Definition on {A} (o : nat) (m : Mv A) : M store A :=
  λ st, match objs st !! o with
        | Some v =>
            match m (v, hp st) with
            | Done a s => Done a (Store (<[o := s.1]> (objs st)) s.2)
            | Failed s => Failed (Store (<[o := s.1]> (objs st)) s.2)
            | Undef => Undef
            end
        | None => Undef
        end.

Definition alloc {A} (m : M (heap T) A) : M store A :=
  zoom hp (λ h st, Store (objs st) h) m.

(** A declaration brings a new name into scope. *)
Definition declare (o : nat) (v : vector) : M store unit :=
  λ st, match objs st !! o with
        | Some _ => Undef
        | None => Done tt (Store (<[o := v]> (objs st)) (hp st))
        end.

Definition forget (o : nat) : M store unit :=
  λ st, Done tt (Store (delete o (objs st)) (hp st)).

(** [vector<T> o;] *)
Definition declare_default (this : nat) : M store unit :=
  let* v := alloc vector_new in
  declare this v.

(** [vector<T> o(that);] *)
Definition declare_copy (this that : nat) : M store unit :=
  let* thatv := on that (rd id) in
  let* v := alloc (vector_copy thatv) in
  declare this v.

(** [this = that;]  Every member of [that] is read from the store at
    the point where the source reads it. *)
Definition assign (this that : nat) : M store unit :=
  on this destuct ;;;
  let* cap := on that dir_capacity in
  let* d := alloc (new_dir cap) in
  on this (wr (set_dir d)) ;;;
  let* x := on that (rd dir_size) in
  on this (wr (set_dir_size x)) ;;;
  let* x := on that (rd last_buffer_size) in
  on this (wr (set_last_buffer_size x)) ;;;
  let* x := on that (rd log_buffer_capacity) in
  on this (wr (set_log_buffer_capacity x)) ;;;
  let* x := on that (rd big_buffer) in
  on this (wr (set_big_buffer x)) ;;;
  let* x := on that (rd extra_buffer) in
  on this (wr (set_extra_buffer x)) ;;;
  let* thatv := on that (rd id) in
  on this (construct thatv).

(** The end of the lifetime of [this]. *)
Definition destroy (this : nat) : M store unit :=
  on this destuct ;;;
  forget this.

(** The public operations, as a client calls them. *)
Inductive call : Type :=
| NewVector (o : nat)
| CopyVector (o that : nat)
| Assign (o that : nat)
| Destroy (o : nat)
| PushBack (o : nat) (x : T)
| PopBack (o : nat)
| Size (o : nat)
| Get (o : nat) (i : Z)
| Put (o : nat) (i : Z) (x : T).

Inductive answer : Type :=
| Nothing
| Count (n : Z)
| Cell (c : option T).

Definition exec (c : call) : M store answer :=
  match c with
  | NewVector o => declare_default o ;;; ret Nothing
  | CopyVector o that => declare_copy o that ;;; ret Nothing
  | Assign o that => assign o that ;;; ret Nothing
  | Destroy o => destroy o ;;; ret Nothing
  | PushBack o x => on o (push_back x) ;;; ret Nothing
  | PopBack o => on o pop_back ;;; ret Nothing
  | Size o => let* n := on o size in ret (Count n)
  | Get o i => let* c := on o (get i) in ret (Cell c)
  | Put o i x => on o (put i x) ;;; ret Nothing
  end.

End methods.
Arguments store : clear implicits.
Arguments call : clear implicits.
Arguments answer : clear implicits.

(** ** struct space (space.hpp) *)

Module Space.
Section methods.
Context {T : Type}.

Definition space : Type := vector.

(** The shift count is an [int] here, and nothing is asserted. *)
Definition dir_capacity : Mv (T:=T) Z :=
  let* L := rd log_buffer_capacity in
  let* big := rd big_buffer in
  shl32_one (L - (if big then 1 else 0)).

Definition buffer_capacity : Mv (T:=T) Z :=
  let* L := rd log_buffer_capacity in
  shl32_one L.

Definition valid : Mv (T:=T) bool :=
  let* d := rd dir in
  assert (negb (Nat.eqb 0 d)) ;;;
  let* L := rd log_buffer_capacity in
  assert (0 <? L) ;;;
  let* ds := rd dir_size in
  let* D := dir_capacity in
  assert (ds <=? D) ;;;
  assert (0 <? ds) ;;;
  let* lbs := rd last_buffer_size in
  let* e := rd extra_buffer in
  (when (0 =? lbs) then assert (negb e)) ;;;
  let* B := buffer_capacity in
  assert (lbs <? B) ;;;
  (when e then
     (assert (0 <? lbs) ;;;
      let* D := dir_capacity in
      assert (ds <? D))) ;;;
  ret true.

Definition size : Mv (T:=T) Z :=
  let* ds := rd dir_size in
  assert (0 <? ds) ;;;
  let* L := rd log_buffer_capacity in
  let* lbs := rd last_buffer_size in
  ret (wrap64 (wrap64 (Z.shiftl (wrap32 (ds - 1)) L) + lbs)).

Definition get (i : Z) : Mv (T:=T) ref :=
  let* ok := valid in
  assert ok ;;;
  let* n := size in
  assert (i <? n) ;;;
  let* L := rd log_buffer_capacity in
  let big := Z.shiftr i L in
  let little := Z.land i (wrap64 (wrap64 (Z.shiftl 1 L) - 1)) in
  assert (wrap64 (wrap64 (Z.shiftl big L) + little) =? i) ;;;
  let* ds := rd dir_size in
  assert (big <? ds) ;;;
  let* B := buffer_capacity in
  assert (little <? B) ;;;
  let* d := rd dir in
  let* p := mem (load_slot d big) in
  mem (item p little).

(** [... = s.get(i)] and [s.get(i) = x]. *)
Definition read (i : Z) : Mv (T:=T) (option T) :=
  let* r := get i in mem (load_ref r).
Definition write (i : Z) (x : T) : Mv (T:=T) unit :=
  let* r := get i in mem (store_ref r x).

(** The copying loops of this file are written with [copy_slots], the
    loops over a buffer with [copy_cells] (inside [merge_pair] and
    [split_buffer]). *)
Definition upsize_dir : Mv (T:=T) unit :=
  let* old_dir_capacity := dir_capacity in
  let* old_dir := rd dir in
  let* d := mem (new_dir (wrap32 (2 * old_dir_capacity))) in
  wr (set_dir d) ;;;
  let* d := rd dir in
  mem (copy_slots old_dir old_dir_capacity d) ;;;
  mem (delete_dir old_dir) ;;;
  wr (set_big_buffer false).

Definition downsize_dir : Mv (T:=T) unit :=
  let* old_dir_capacity := dir_capacity in
  let* old_dir := rd dir in
  let* d := mem (new_dir (old_dir_capacity / 2)) in
  wr (set_dir d) ;;;
  let* ds := rd dir_size in
  let* d := rd dir in
  mem (copy_slots old_dir ds d) ;;;
  mem (delete_dir old_dir) ;;;
  wr (set_big_buffer true).

Definition upsize_buffers : Mv (T:=T) unit :=
  let* buf_cap := buffer_capacity in
  let* ds := rd dir_size in
  repeat_from (Z.to_nat ((ds + 1) / 2)) (λ i, wrap32 (i + 2)) 0
    (λ i, let* d := rd dir in mem (merge_pair d buf_cap i)) ;;;
  let* L := rd log_buffer_capacity in
  wr (set_log_buffer_capacity (wrap5 (L + 1))) ;;;
  let* lbs := rd last_buffer_size in
  wr (set_last_buffer_size (wrap32 (lbs * 2))) ;;;
  wr (set_big_buffer true) ;;;
  let* ds := rd dir_size in
  wr (set_dir_size (ds / 2)).

(** Here the loop starts at 0 and splits the last buffer as well. *)
Definition downsize_buffers : Mv (T:=T) unit :=
  let* lbs := rd last_buffer_size in
  assert (0 =? lbs) ;;;
  let* e := rd extra_buffer in
  assert (negb e) ;;;
  let* buf_cap := buffer_capacity in
  let* ds := rd dir_size in
  repeat_from (Z.to_nat ds) (λ i, wrap32 (i + 1)) 0
    (λ i,
       let* ds := rd dir_size in
       let k := wrap32 (wrap32 (ds - i) - 1) in
       let* d := rd dir in
       mem (split_buffer d buf_cap k)) ;;;
  let* L := rd log_buffer_capacity in
  wr (set_log_buffer_capacity (wrap5 (L - 1))) ;;;
  wr (set_big_buffer false) ;;;
  let* ds := rd dir_size in
  wr (set_dir_size (wrap32 (wrap32 (2 * ds) - 1))) ;;;
  let* d := rd dir in
  let* ds := rd dir_size in
  let* p := mem (load_slot d ds) in
  mem (delete_buf p).

Definition upsize : Mv (T:=T) unit :=
  let* old_size := size in
  let* big := rd big_buffer in
  (if big then upsize_dir else upsize_buffers) ;;;
  let* n := size in
  assert (n =? old_size).

Definition downsize : Mv (T:=T) unit :=
  let* old_size := size in
  let* big := rd big_buffer in
  (if big then downsize_buffers else downsize_dir) ;;;
  let* n := size in
  assert (n =? old_size).

Definition push_back (x : T) : Mv (T:=T) unit :=
  let* old_size := size in
  let* ok := valid in
  assert ok ;;;
  let* d := rd dir in
  let* ds := rd dir_size in
  let* lbs := rd last_buffer_size in
  let* p := mem (load_slot d (wrap32 (ds - 1))) in
  mem (store_cell p lbs (Some x)) ;;;
  wr (set_last_buffer_size (wrap32 (lbs + 1))) ;;;
  let* lbs := rd last_buffer_size in
  let* B := buffer_capacity in
  (when (lbs =? B) then
     (let* e := rd extra_buffer in
      (when (negb e) then
         (let* ds := rd dir_size in
          let* D := dir_capacity in
          (when (ds =? D) then upsize) ;;;
          let* B := buffer_capacity in
          let* b := mem (new_buf B) in
          let* d := rd dir in
          let* ds := rd dir_size in
          mem (store_slot d ds b))) ;;;
      let* ds := rd dir_size in
      wr (set_dir_size (wrap32 (ds + 1))) ;;;
      wr (set_extra_buffer false) ;;;
      wr (set_last_buffer_size 0))) ;;;
  let* ok := valid in
  assert ok ;;;
  let* n := size in
  assert (n =? wrap64 (old_size + 1)).

(** The downsizing test of [pop_back], which stands in the branch that
    has given back the extra buffer. *)
Definition pop_back_test : Mv (T:=T) unit :=
  let* ds := rd dir_size in
  let* D := dir_capacity in
  when (wrap32 (ds * 4) <=? D) then
    (let* ds := rd dir_size in
     let* D := dir_capacity in
     assert (wrap32 (ds * 4) =? D) ;;;
     downsize).

(** The two branches of [pop_back]. *)
Definition pop_back_branches : Mv (T:=T) unit :=
  let* lbs := rd last_buffer_size in
  if 0 =? lbs then
    let* e := rd extra_buffer in
    assert (negb e) ;;;
    let* B := buffer_capacity in
    wr (set_last_buffer_size (wrap32 (B - 1))) ;;;
    let* ds := rd dir_size in
    wr (set_dir_size (wrap32 (ds - 1))) ;;;
    wr (set_extra_buffer true)
  else
    wr (set_last_buffer_size (wrap32 (lbs - 1))) ;;;
    let* lbs := rd last_buffer_size in
    let* e := rd extra_buffer in
    when ((0 =? lbs) && e) then
      (let* d := rd dir in
       let* ds := rd dir_size in
       let* p := mem (load_slot d ds) in
       mem (delete_buf p) ;;;
       wr (set_extra_buffer false) ;;;
       pop_back_test).

Definition pop_back : Mv (T:=T) unit :=
  let* old_size := size in
  let* ok := valid in
  assert ok ;;;
  let* n := size in
  assert (0 <? n) ;;;
  pop_back_branches ;;;
  let* ok := valid in
  assert ok ;;;
  let* n := size in
  assert (wrap64 (n + 1) =? old_size).

(** The constructor. *)
Definition space_new : M (heap T) space :=
  let* d := new_dir 1 in
  construct_with (Vector d 1 0 1 true false)
    (let* B := buffer_capacity in
     let* b := mem (new_buf B) in
     let* d := rd dir in
     mem (store_slot d 0 b) ;;;
     let* ok := valid in
     assert ok).

End methods.
End Space.

(** ** What the members mean *)

Definition Bcap (v : vector) : Z := 2 ^ log_buffer_capacity v.
Definition Dcap (v : vector) : Z := 2 ^ (log_buffer_capacity v - b2z (big_buffer v)).

(** The number of items, and of buffers held. *)
Definition sz (v : vector) : Z := (dir_size v - 1) * Bcap v + last_buffer_size v.
Definition held (v : vector) : Z := dir_size v + b2z (extra_buffer v).

(** Invariants 1 to 5, as [assert_valid] checks them, with the range of
    [log_buffer_capacity] in which no 32-bit operation of the methods
    wraps around. *)
Record wf (v : vector) : Prop := {
  wf_log : 1 ≤ log_buffer_capacity v ≤ 29;
  wf_dir_size : 1 ≤ dir_size v ≤ Dcap v;
  wf_last : 0 ≤ last_buffer_size v < Bcap v;
  wf_empty : last_buffer_size v = 0 → extra_buffer v = false;
  wf_extra : extra_buffer v = true → dir_size v < Dcap v;
  wf_space : Dcap v ≤ held v * 4
}.

(** Between two public operations the space bound is strict, except in
    the one shape that [downsize_buffers] leaves behind on an array that
    has become empty. *)
Definition settled (v : vector) : Prop :=
  held v * 4 = Dcap v → big_buffer v = false ∧ log_buffer_capacity v = 2.

(** The members after the first step of [pop_back], as the description
    of the operation has it: an empty last buffer is left behind as the
    extra buffer; otherwise the last buffer loses an item, and when that
    empties it an extra buffer is not kept. *)
Definition shrunk (v : vector) : vector :=
  if last_buffer_size v =? 0 then
    Vector (dir v) (dir_size v - 1) (Bcap v - 1) (log_buffer_capacity v)
      (big_buffer v) true
  else
    Vector (dir v) (dir_size v) (last_buffer_size v - 1) (log_buffer_capacity v)
      (big_buffer v) (extra_buffer v && negb (last_buffer_size v - 1 =? 0)).

(** The arrays this development speaks about hold fewer than 2^57 items:
    a [push_back] beyond that would need more memory than a 64-bit
    address space has, and is left out. *)
Definition max_items : Z := 2 ^ 57.

(** The members of [v] are those of [that], but for the directory. *)
Definition same_members (v that : vector) : Prop :=
  dir_size v = dir_size that ∧ last_buffer_size v = last_buffer_size that ∧
  log_buffer_capacity v = log_buffer_capacity that ∧
  big_buffer v = big_buffer that ∧ extra_buffer v = extra_buffer that.

Section representation.
Context {T : Type}.

(** The slots from [off] on hold the pointers [ptrs]. *)
Definition slotted (slots : list (option loc)) (off : nat) (ptrs : list loc) : Prop :=
  ∀ i p, ptrs !! i = Some p → slots !! (off + i)%nat = Some (Some p).

(** The pointers [ptrs] are distinct, not null, and were handed out. *)
Definition sound (h : heap T) (ptrs : list loc) : Prop :=
  NoDup ptrs ∧ Forall (λ p, p ≠ 0%nat ∧ (p < next h)%nat) ptrs.

(** The pointers [ptrs] lead to blocks of [B] cells with contents [bs]. *)
Definition blocks (h : heap T) (B : Z) (ptrs : list loc) (bs : list (list (option T))) : Prop :=
  Forall2 (λ p b, bufs h !! p = Some b ∧ Z.of_nat (length b) = B) ptrs bs.

(** The directory [d], of [cap] slots, holds the buffers [ptrs] in its
    first slots; the buffers are distinct blocks of [B] cells with the
    contents [bs]. *)
Definition owns (h : heap T) (d : loc) (cap B : Z)
    (ptrs : list loc) (bs : list (list (option T))) : Prop :=
  d ≠ 0%nat ∧ (d < next h)%nat ∧
  (∃ slots, dirs h !! d = Some slots ∧ Z.of_nat (length slots) = cap ∧
            slotted slots 0 ptrs) ∧
  sound h ptrs ∧ blocks h B ptrs bs.

Definition shape (v : vector) (h : heap T)
    (ptrs : list loc) (bs : list (list (option T))) : Prop :=
  wf v ∧ owns h (dir v) (Dcap v) (Bcap v) ptrs bs ∧ Z.of_nat (length ptrs) = held v.

(** The cells of the array, in order of index; a cell never written is
    [None]. *)
Definition cells_of (v : vector) (bs : list (list (option T))) : list (option T) :=
  take (Z.to_nat (sz v)) (concat bs).

Definition repr (v : vector) (h : heap T) (cs : list (option T)) : Prop :=
  ∃ ptrs bs, shape v h ptrs bs ∧ cs = cells_of v bs.

(** Pairs of buffers put end to end, and buffers cut in two. *)
Fixpoint merged (bs : list (list (option T))) : list (list (option T)) :=
  match bs with
  | b1 :: b2 :: bs' => (b1 ++ b2) :: merged bs'
  | _ => []
  end.

Definition halved (n : nat) (bs : list (list (option T))) : list (list (option T)) :=
  bs ≫= λ b, [take n b; drop n b].

End representation.

(** ** Clients *)

Section clients.
Context {T : Type}.

(** *** One vector *)

Inductive op : Type :=
| Push (x : T)
| Pop.

Definition run_op (o : op) : Mv (T:=T) unit :=
  match o with
  | Push x => push_back x
  | Pop => pop_back
  end.

Fixpoint run_ops (ops : list op) : Mv (T:=T) unit :=
  match ops with
  | [] => ret tt
  | o :: rest => run_op o ;;; run_ops rest
  end.

(** [{ vector<T> v; body }], stopped before the destructor runs: the
    members of [v] at that point. *)
Definition client (body : Mv (T:=T) unit) : M (heap T) vector :=
  let* v := vector_new in
  construct_with v body.

(** The same client of a [space]. *)
Definition space_op (o : op) : Mv (T:=T) unit :=
  match o with
  | Push x => Space.push_back x
  | Pop => Space.pop_back
  end.

Fixpoint space_ops (ops : list op) : Mv (T:=T) unit :=
  match ops with
  | [] => ret tt
  | o :: rest => space_op o ;;; space_ops rest
  end.

Definition space_client (body : Mv (T:=T) unit) : M (heap T) Space.space :=
  let* v := Space.space_new in
  construct_with v body.

(** The plain sequence that the array stands for.  [None]: an item was
    taken from the empty sequence. *)
Definition model_op (o : op) (l : list T) : option (list T) :=
  match o with
  | Push x => Some (l ++ [x])
  | Pop => if decide (l = []) then None else Some (removelast l)
  end.

Fixpoint model (ops : list op) (l : list T) : option (list T) :=
  match ops with
  | [] => Some l
  | o :: rest =>
      match model_op o l with
      | Some l' => model rest l'
      | None => None
      end
  end.

(** *** Several vectors *)

(** A call within the range of this development: an index is a
    [size_t], and [push_back] is not called on a vector of [max_items]
    items. *)
Definition within (c : call T) (st : store T) : Prop :=
  match c with
  | PushBack o _ =>
      match objs st !! o with
      | Some v => sz v < max_items
      | None => True
      end
  | Get _ i | Put _ i _ => 0 ≤ i < 2 ^ 64
  | _ => True
  end.

(** [steps st cs rs st']: the calls [cs], made one after the other from
    [st], all return, with the answers [rs], and leave [st']. *)
Inductive steps : store T → list (call T) → list (answer T) → store T → Prop :=
| steps_nil st : steps st [] [] st
| steps_cons st c r st1 cs rs st' :
    within c st → exec c st = Done r st1 → steps st1 cs rs st' →
    steps st (c :: cs) (r :: rs) st'.

Definition reachable (st : store T) : Prop :=
  ∃ cs rs, steps empty_store cs rs st.

(** A program given as the list of its calls; the store it leaves. *)
Fixpoint run_calls (cs : list (call T)) : M (store T) (list (answer T)) :=
  match cs with
  | [] => ret []
  | c :: cs' =>
      let* r := exec c in
      let* rs := run_calls cs' in
      ret (r :: rs)
  end.

Fixpoint all_within (cs : list (call T)) (st : store T) : Prop :=
  match cs with
  | [] => True
  | c :: cs' =>
      within c st ∧
      match exec c st with
      | Done _ st1 => all_within cs' st1
      | _ => False
      end
  end.

Definition store_after (cs : list (call T)) : store T :=
  match run_calls cs empty_store with
  | Done _ st => st
  | _ => empty_store
  end.

(** The object that a call may change. *)
Definition target (c : call T) : option nat :=
  match c with
  | NewVector o | CopyVector o _ | Assign o _ | Destroy o
  | PushBack o _ | PopBack o | Put o _ _ => Some o
  | Size _ | Get _ _ => None
  end.

(** What a call returns, if it returns. *)
Definition observe (c : call T) (st : store T) : option (answer T) :=
  match exec c st with
  | Done r _ => Some r
  | _ => None
  end.

(** The contents of the vectors of a program, and what a call does to
    them and answers, as the code has it: a vector assigned to itself
    keeps its size, and all its cells are uninitialised afterwards.
    [None]: the call does not return. *)
Definition contents : Type := gmap nat (list (option T)).

Definition effect (c : call T) (a : contents) : option (answer T * contents) :=
  match c with
  | NewVector o =>
      match a !! o with
      | None => Some (Nothing, <[o := []]> a)
      | Some _ => None
      end
  | CopyVector o that =>
      match a !! o, a !! that with
      | None, Some cs => Some (Nothing, <[o := cs]> a)
      | _, _ => None
      end
  | Assign o that =>
      match a !! o, a !! that with
      | Some _, Some cs =>
          Some (Nothing,
                <[o := if decide (o = that) then replicate (length cs) None else cs]> a)
      | _, _ => None
      end
  | Destroy o =>
      match a !! o with
      | Some _ => Some (Nothing, delete o a)
      | None => None
      end
  | PushBack o x =>
      match a !! o with
      | Some cs => Some (Nothing, <[o := cs ++ [Some x]]> a)
      | None => None
      end
  | PopBack o =>
      match a !! o with
      | Some cs => if decide (cs = []) then None else Some (Nothing, <[o := removelast cs]> a)
      | None => None
      end
  | Size o =>
      match a !! o with
      | Some cs => Some (Count (Z.of_nat (length cs)), a)
      | None => None
      end
  | Get o i =>
      match a !! o with
      | Some cs =>
          if decide (0 ≤ i) then
            match cs !! Z.to_nat i with
            | Some c => Some (Cell c, a)
            | None => None
            end
          else None
      | None => None
      end
  | Put o i x =>
      match a !! o with
      | Some cs =>
          if decide (0 ≤ i < Z.of_nat (length cs))
          then Some (Nothing, <[o := <[Z.to_nat i := Some x]> cs]> a)
          else None
      | None => None
      end
  end.

End clients.

(** A program with two vectors, for examples: [a] is object 0 and [b]
    is object 1. *)
Definition example_calls : list (call Z) :=
  [NewVector 0%nat; PushBack 0%nat 7; PushBack 0%nat 8; CopyVector 1%nat 0%nat;
   PushBack 0%nat 9; Assign 1%nat 0%nat; PopBack 1%nat].

Definition example_store : store Z := store_after example_calls.

(** The members of [a] and [b] at the end of it. *)
Definition example_a : vector := Vector 3%nat 2 1 1 false false.
Definition example_b : vector := Vector 8%nat 2 0 1 false false.

(** A vector that sixteen items went into and fifteen came out of; taking
    the last one leaves a directory that is a quarter full. *)
Definition shrinking_calls : list (call Z) :=
  NewVector 0%nat :: replicate 16 (PushBack 0%nat 1) ++ replicate 15 (PopBack 0%nat).

Definition shrinking_store : store Z := store_after shrinking_calls.

Definition shrinking_v : vector := Vector 7%nat 1 1 3 true true.

(** A vector after four calls of [push_back]: one full buffer and an
    empty one, in a directory of two slots. *)
Definition full_calls : list (call Z) :=
  [NewVector 0%nat; PushBack 0%nat 0; PushBack 0%nat 1; PushBack 0%nat 2; PushBack 0%nat 3].

Definition full_store : store Z := store_after full_calls.

Definition full_v : vector := Vector 3%nat 2 0 2 true false.

(** Sixteen items in one full buffer and an empty buffer, in a directory
    of eight slots: members and heap as [pop_back] has them when it calls
    [downsize()] on a vector that held seventeen items. *)
Definition quarter_items : list (option Z) := map (λ i, Some (Z.of_nat i)) (seq 0 16).

Definition quarter_v : vector := Vector 1%nat 2 0 4 true false.

Definition quarter_h : heap Z :=
  Heap (<[2%nat := quarter_items]> (<[3%nat := replicate 16 None]> ∅))
       (<[1%nat := [Some 2%nat; Some 3%nat; None; None; None; None; None; None]]> ∅)
       4%nat.

(** ** Framing

    What a program does to the blocks it uses does not depend on the
    other blocks of the heap, and leaves them alone. *)

Section framing.
Context {T : Type}.

(** The heap [h] with the blocks of [f] next to its own. *)
Definition hplus (h f : heap T) : heap T :=
  Heap (bufs h ∪ bufs f) (dirs h ∪ dirs f) (next h).

(** Every block of [h] was handed out before [n]. *)
Definition below (n : loc) (h : heap T) : Prop :=
  ∀ l, is_Some (bufs h !! l) ∨ is_Some (dirs h !! l) → (l < n)%nat.

Definition apart (h f : heap T) : Prop :=
  bufs h ##ₘ bufs f ∧ dirs h ##ₘ dirs f ∧ below (next h) h ∧ below (next h) f.

(** The blocks of [h] named in [X] (buffers) and [Y] (directories), and
    the others. *)
Definition part (X Y : list loc) (h : heap T) : heap T :=
  Heap (filter (λ kv, kv.1 ∈ X) (bufs h)) (filter (λ kv, kv.1 ∈ Y) (dirs h)) (next h).

Definition rest (X Y : list loc) (h : heap T) : heap T :=
  Heap (filter (λ kv, ¬ kv.1 ∈ X) (bufs h)) (filter (λ kv, ¬ kv.1 ∈ Y) (dirs h)) (next h).

End framing.

(** States with a heap in them. *)
Class Heaped (T S : Type) : Type := {
  the_heap : S → heap T;
  set_heap : heap T → S → S
}.

#[export] Instance heap_heaped {T} : Heaped T (heap T) :=
  {| the_heap h := h; set_heap h _ := h |}.
#[export] Instance state_heaped {T} : Heaped T (state (T:=T)) :=
  {| the_heap s := s.2; set_heap h s := (s.1, h) |}.
#[export] Instance store_heaped {T} : Heaped T (store T) :=
  {| the_heap := hp; set_heap h st := Store (objs st) h |}.

Definition local {T S} `{Heaped T S} {A} (m : M S A) : Prop :=
  ∀ s f a s', m s = Done a s' → apart (the_heap s) f →
    m (set_heap (hplus (the_heap s) f) s) = Done a (set_heap (hplus (the_heap s') f) s') ∧
    apart (the_heap s') f.

(** ** The invariant of a program with several vectors *)

Section invariant.
Context {T : Type}.

(** For every vector, its buffers and what they hold. *)
Definition ghost : Type := gmap nat (list loc * list (list (option T))).

Definition inv_with (g : ghost) (st : store T) (a : contents (T:=T)) : Prop :=
  (∀ o, objs st !! o = None → a !! o = None) ∧
  (∀ o v, objs st !! o = Some v →
     ∃ ptrs bs, g !! o = Some (ptrs, bs) ∧ shape v (hp st) ptrs bs ∧ settled v ∧
                a !! o = Some (cells_of v bs)) ∧
  (∀ o1 o2 v1 v2 ptrs1 bs1 ptrs2 bs2,
     o1 ≠ o2 → objs st !! o1 = Some v1 → objs st !! o2 = Some v2 →
     g !! o1 = Some (ptrs1, bs1) → g !! o2 = Some (ptrs2, bs2) →
     dir v1 ≠ dir v2 ∧ ∀ p, p ∈ ptrs1 → p ∉ ptrs2).

Definition inv (st : store T) (a : contents (T:=T)) : Prop :=
  below (next (hp st)) (hp st) ∧ (0 < next (hp st))%nat ∧ ∃ g, inv_with g st a.

End invariant.

(** ** A client of one array

    What a client may ask of an array, of either struct; [serve] is the
    call that each request stands for. *)

Section sessions.
Context {T : Type}.

Inductive request : Type :=
| Append (x : T)
| Remove
| Length
| Fetch (i : Z)
| Change (i : Z) (x : T).

Definition vector_serve (r : request) : Mv (T:=T) (answer T) :=
  match r with
  | Append x => push_back x ;;; ret Nothing
  | Remove => pop_back ;;; ret Nothing
  | Length => let* n := size in ret (Count n)
  | Fetch i => let* c := get i in ret (Cell c)
  | Change i x => put i x ;;; ret Nothing
  end.

Definition space_serve (r : request) : Mv (T:=T) (answer T) :=
  match r with
  | Append x => Space.push_back x ;;; ret Nothing
  | Remove => Space.pop_back ;;; ret Nothing
  | Length => let* n := Space.size in ret (Count n)
  | Fetch i => let* c := Space.read i in ret (Cell c)
  | Change i x => Space.write i x ;;; ret Nothing
  end.

Fixpoint session (serve : request → Mv (T:=T) (answer T)) (rs : list request)
  : Mv (T:=T) (list (answer T)) :=
  match rs with
  | [] => ret []
  | r :: rs' =>
      let* a := serve r in
      let* rest := session serve rs' in
      ret (a :: rest)
  end.

(** [{ vector<T> a; ... }] and [{ space<T> a; ... }], from an empty heap,
    for the answers. *)
Definition vector_session (rs : list request) : M (heap T) (list (answer T)) :=
  let* v := vector_new in
  eval_on v (session vector_serve rs).

Definition space_session (rs : list request) : M (heap T) (list (answer T)) :=
  let* v := Space.space_new in
  eval_on v (session space_serve rs).

(** The same requests served by a plain sequence.  [None]: the request
    has no meaning for the sequence (an item taken from the empty
    sequence, an index that is not below the length). *)
Definition plain_serve (r : request) (l : list T) : option (answer T * list T) :=
  match r with
  | Append x => Some (Nothing, l ++ [x])
  | Remove => if decide (l = []) then None else Some (Nothing, removelast l)
  | Length => Some (Count (Z.of_nat (length l)), l)
  | Fetch i =>
      if decide (0 ≤ i) then
        match l !! Z.to_nat i with
        | Some x => Some (Cell (Some x), l)
        | None => None
        end
      else None
  | Change i x =>
      if decide (0 ≤ i < Z.of_nat (length l))
      then Some (Nothing, <[Z.to_nat i := x]> l)
      else None
  end.

Fixpoint plain_session (rs : list request) (l : list T) : option (list (answer T)) :=
  match rs with
  | [] => Some []
  | r :: rs' =>
      match plain_serve r l with
      | Some (a, l') =>
          match plain_session rs' l' with
          | Some rest => Some (a :: rest)
          | None => None
          end
      | None => None
      end
  end.

(** An index is a [size_t]. *)
Definition indexed (r : request) : Prop :=
  match r with
  | Fetch i | Change i _ => 0 ≤ i < 2 ^ 64
  | _ => True
  end.

(** [serve] does as the plain sequence does, on an array that stands
    for the sequence [l]: it returns what [plain_serve] answers and leaves
    an array that stands for the new sequence, or stops at an assertion,
    with the array as it was, where [plain_serve] has no answer. *)
Definition serves (serve : request → Mv (T:=T) (answer T)) : Prop :=
  ∀ r v h ptrs bs l,
    shape v h ptrs bs → settled v → cells_of v bs = Some <$> l →
    indexed r → sz v < max_items →
    match plain_serve r l with
    | Some (a, l') =>
        ∃ v' h' ptrs' bs',
          serve r (v, h) = Done a (v', h') ∧ shape v' h' ptrs' bs' ∧ settled v' ∧
          cells_of v' bs' = Some <$> l' ∧ sz v' ≤ sz v + 1
    | None => serve r (v, h) = Failed (v, h)
    end.

(** How a program ended: with a result, at a failed assertion, or in
    undefined behaviour. *)
Inductive verdict (A : Type) : Type :=
| Returned (a : A)
| Stopped
| Lost.

End sessions.
Arguments request : clear implicits.
Arguments Returned {A} a.
Arguments Stopped {A}.
Arguments Lost {A}.

Definition verdict_of {S A} (o : outcome S A) : verdict A :=
  match o with
  | Done a _ => Returned a
  | Failed _ => Stopped
  | Undef => Lost
  end.

Definition plain_verdict {A} (o : option A) : verdict A :=
  match o with
  | Some a => Returned a
  | None => Stopped
  end.

(** Requests for examples: the last one takes an item from an array that
    has none left. *)
Definition example_requests : list (request Z) :=
  [Append 4; Append 5; Fetch 1; Change 0 6; Remove; Fetch 0; Length; Remove; Remove].

(** The names that a call uses are in scope, and the name that a
    declaration brings in is new. *)
Definition in_scope {T} (c : call T) (st : store T) : Prop :=
  match c with
  | NewVector o => objs st !! o = None
  | CopyVector o that => objs st !! o = None ∧ is_Some (objs st !! that)
  | Assign o that => is_Some (objs st !! o) ∧ is_Some (objs st !! that)
  | Destroy o | PushBack o _ | PopBack o | Size o | Get o _ | Put o _ _ =>
      is_Some (objs st !! o)
  end.

(** A vector with a full directory of one slot and a full buffer, as
    [push_back] has it when it calls [upsize()]; and one with a full
    directory of two slots. *)
Definition brim_v : vector := Vector 1%nat 1 2 1 true false.

Definition brim_h : heap Z :=
  Heap (<[2%nat := [Some 7; Some 8]]> ∅) (<[1%nat := [Some 2%nat]]> ∅) 3%nat.

Definition brim2_v : vector := Vector 1%nat 2 2 1 false false.

Definition brim2_h : heap Z :=
  Heap (<[2%nat := [Some 5; Some 6]]> (<[3%nat := [Some 7; Some 8]]> ∅))
       (<[1%nat := [Some 2%nat; Some 3%nat]]> ∅) 4%nat.

(** One buffer in use in a directory of two slots. *)
Definition slack_v : vector := Vector 1%nat 1 1 1 false false.

Definition slack_h : heap Z :=
  Heap (<[2%nat := [Some 5; None]]> ∅) (<[1%nat := [Some 2%nat; None]]> ∅) 3%nat.

(** ** The test program

    [qux()] of the test program works on a [space<double>].  Of [double]
    it uses the conversion from an integer ([push_back(i)] with an
    [unsigned], [k == foo.get(k)] with a [size_t]) and [==]; [to_double]
    and [double_eqb] stand for the two.  [sqrt] is applied to integers
    below [2 ^ 32], and its result is compared with an integer or cut
    down to one: [Z.sqrt], the root rounded down, gives the same.
    [rand i j] is what [rand()] returns at its call in round [j] of the
    inner loop of round [i]. *)

Section test_program.
Variables (double : Type) (to_double : Z → double) (double_eqb : double → double → bool).
Variable rand : Z → Z → Z.

Definition limit : Z := 52311.

(** [const auto k = rand() % foo.size(); assert (k == foo.get(k));] *)
Definition qux_probe (i j : Z) : Mv (T:=double) unit :=
  let* n := Space.size in
  if n =? 0 then undef
  else
    let k := rand i j mod n in
    let* c := Space.read k in
    match c with
    | Some x => assert (double_eqb (to_double k) x)
    | None => undef
    end.

(** The body of the outer loop. *)
Definition qux_round (i : Z) : Mv (T:=double) unit :=
  Space.push_back (to_double i) ;;;
  let* n := Space.size in
  assert (n =? wrap32 (i + 1)) ;;;
  repeat_from (Z.to_nat (Z.sqrt i + 1)) (λ j, wrap32 (j + 1)) 0 (qux_probe i) ;;;
  let little := Z.min (Z.sqrt limit) i in
  repeat_from (Z.to_nat (little + 1)) (λ j, wrap32 (j + 1)) 0 (λ _, Space.pop_back) ;;;
  let first := wrap32 (i - little) in
  repeat_from (Z.to_nat (i + 1 - first)) (λ j, wrap32 (j + 1)) first
    (λ j, Space.push_back (to_double j)).

(** The integers below [n] as [double]s, in order. *)
Definition upto (n : Z) : list double := to_double <$> seqZ 0 n.

Definition qux : M (heap double) unit :=
  let* foo := Space.space_new in
  eval_on foo (repeat_from (Z.to_nat limit) (λ i, wrap32 (i + 1)) 0 qux_round).
End test_program.
Arguments upto {double} to_double n.
Arguments qux_probe {double} to_double double_eqb rand i j.
Arguments qux_round {double} to_double double_eqb rand i.
Arguments qux {double} to_double double_eqb rand.

(** The array with members and heap [s] stands for the plain sequence
    [l]. *)
Definition stands {T} (s : state (T:=T)) (l : list T) : Prop :=
  ∃ ptrs bs, shape s.1 s.2 ptrs bs ∧ settled s.1 ∧ cells_of s.1 bs = Some <$> l.

(** ** Counting blocks

    No block sits at the null pointer, or at a place that has not been
    handed out. *)
Definition tidy {T} (h : heap T) : Prop :=
  (0 < next h)%nat ∧
  ∀ l : loc, is_Some (bufs h !! l) ∨ is_Some (dirs h !! l) → (0 < l < next h)%nat.

(** The buffers and the directories in the heap. *)
Definition nbufs {T} (h : heap T) : Z := Z.of_nat (base.size (bufs h)).
Definition ndirs {T} (h : heap T) : Z := Z.of_nat (base.size (dirs h)).

(** The buffers that the vectors of a program hold, all together. *)
Definition buffers_held (os : gmap nat vector) : Z :=
  map_fold (λ _ v n, held v + n) 0 os.

(** [h'] has as many blocks as [h] and [db] buffers, [dd] directories
    more. *)
Definition tally {T} (h : heap T) (db dd : Z) (h' : heap T) : Prop :=
  tidy h' ∧ nbufs h' = nbufs h + db ∧ ndirs h' = ndirs h + dd.

(** The heap of a program holds the blocks of its vectors, and no
    others: a directory for each vector, and the buffers that the
    vectors hold. *)
Definition no_garbage {T} (st : store T) : Prop :=
  tidy (hp st) ∧ nbufs (hp st) = buffers_held (objs st) ∧
  ndirs (hp st) = Z.of_nat (base.size (objs st)).

(** ** Stepping through programs *)

Section stepping.
Context {S : Type}.
Implicit Types s : S.

Lemma bind_ret {A B} (a : A) (k : A → M S B) s : bind (ret a) k s = k a s.
Proof. reflexivity. Qed.

Lemma bind_bind {A B C} (m : M S A) (k1 : A → M S B) (k2 : B → M S C) s :
  bind (bind m k1) k2 s = bind m (λ a, bind (k1 a) k2) s.
Proof. unfold bind. destruct (m s); reflexivity. Qed.

Lemma bind_done {A B} (m : M S A) (k : A → M S B) s a s' :
  m s = Done a s' → bind m k s = k a s'.
Proof. unfold bind. intros ->. reflexivity. Qed.

Lemma bind_assert {B} (b : bool) (k : unit → M S B) s :
  b = true → bind (assert b) k s = k tt s.
Proof. intros ->. reflexivity. Qed.

Lemma assert_done (b : bool) s : b = true → assert b s = Done tt s.
Proof. intros ->. reflexivity. Qed.

Lemma shl32_one_run (k0 : Z) s :
  0 ≤ k0 ≤ 31 → shl32_one k0 s = Done (2 ^ k0) s.
Proof.
  intros Hk. unfold shl32_one. rewrite bool_decide_true by lia.
  unfold ret. rewrite Z.shiftl_1_l. unfold wrap32.
  rewrite Z.mod_small; [done|]. split; [apply Z.pow_nonneg; lia|].
  apply Z.pow_lt_mono_r; lia.
Qed.
End stepping.

Section stepping_methods.
Context {T : Type}.
Implicit Types (v : vector) (h : heap T).

Lemma bind_rd {A B} (f : vector → A) (k : A → Mv (T:=T) B) v h :
  bind (rd f) k (v, h) = k (f v) (v, h).
Proof. reflexivity. Qed.

Lemma bind_wr {B} (f : vector → vector) (k : unit → Mv (T:=T) B) v h :
  bind (wr f) k (v, h) = k tt (f v, h).
Proof. reflexivity. Qed.

Lemma bind_mem {A B} (m : M (heap T) A) (k : A → Mv (T:=T) B) v h a h' :
  m h = Done a h' → bind (mem m) k (v, h) = k a (v, h').
Proof. intros H. unfold bind, mem, zoom. cbn. rewrite H. reflexivity. Qed.

Lemma mem_done {A} (m : M (heap T) A) v h a h' :
  m h = Done a h' → mem m (v, h) = Done a (v, h').
Proof. intros H. unfold mem, zoom. cbn. rewrite H. reflexivity. Qed.
End stepping_methods.

(** ** Powers of two *)

Lemma pow2_pos n : 0 ≤ n → 1 ≤ 2 ^ n.
Proof. intros. assert (0 < 2 ^ n) by (apply Z.pow_pos_nonneg; lia). lia. Qed.

Lemma pow2_succ n : 0 ≤ n → 2 ^ (n + 1) = 2 * 2 ^ n.
Proof. intros. replace (n + 1) with (Z.succ n) by lia. rewrite Z.pow_succ_r by lia. reflexivity. Qed.

Lemma pow2_pred n : 1 ≤ n → 2 ^ n = 2 * 2 ^ (n - 1).
Proof. intros. rewrite <- pow2_succ by lia. f_equal. lia. Qed.

Lemma pow2_le n m : 0 ≤ n ≤ m → 2 ^ n ≤ 2 ^ m.
Proof. intros. apply Z.pow_le_mono_r; lia. Qed.

(** The facts about the capacities that linear arithmetic needs. *)
Lemma caps_facts v :
  1 ≤ log_buffer_capacity v ≤ 29 →
  2 ≤ Bcap v ≤ 2 ^ 29 ∧ 1 ≤ Dcap v ≤ Bcap v ∧
  (if big_buffer v then Bcap v = 2 * Dcap v else Bcap v = Dcap v).
Proof.
  intros HL. unfold Bcap, Dcap.
  pose proof (pow2_le 1 (log_buffer_capacity v) ltac:(lia)).
  pose proof (pow2_le (log_buffer_capacity v) 29 ltac:(lia)).
  destruct (big_buffer v); cbn [b2z].
  - pose proof (pow2_pred (log_buffer_capacity v) ltac:(lia)).
    pose proof (pow2_pos (log_buffer_capacity v - 1) ltac:(lia)). lia.
  - rewrite Z.sub_0_r. lia.
Qed.

Ltac caps v :=
  let H := fresh "Hcaps" in
  match goal with
  | Hwf : wf v |- _ =>
      pose proof (caps_facts v (wf_log v Hwf)) as H;
      pose proof (wf_dir_size v Hwf); pose proof (wf_last v Hwf);
      pose proof (wf_empty v Hwf); pose proof (wf_extra v Hwf);
      pose proof (wf_space v Hwf); pose proof (wf_log v Hwf)
  end.

Lemma wrap32_small x : 0 ≤ x < 2 ^ 32 → wrap32 x = x.
Proof. intros. unfold wrap32. apply Z.mod_small. done. Qed.
Lemma wrap64_small x : 0 ≤ x < 2 ^ 64 → wrap64 x = x.
Proof. intros. unfold wrap64. apply Z.mod_small. done. Qed.
Lemma wrap5_small x : 0 ≤ x < 32 → wrap5 x = x.
Proof. intros. unfold wrap5. apply Z.mod_small. lia. Qed.

Lemma sz_bounds v : wf v → 0 ≤ sz v < Dcap v * Bcap v ∧ Dcap v * Bcap v ≤ 2 ^ 58.
Proof.
  intros Hwf. caps v. unfold sz.
  split; [nia|]. 
  replace (2 ^ 58) with (2 ^ 29 * 2 ^ 29) by reflexivity.
  apply Z.mul_le_mono_nonneg; lia.
Qed.


Ltac unwrap :=
  repeat match goal with
    | |- context [wrap32 ?x] => rewrite (wrap32_small x) by lia
    | |- context [wrap64 ?x] => rewrite (wrap64_small x) by lia
    | |- context [wrap5 ?x] => rewrite (wrap5_small x) by lia
    end.

Ltac bool_side :=
  first [ reflexivity | assumption
        | apply Z.ltb_lt | apply Z.leb_le | apply Z.eqb_eq
        | apply negb_true_iff;
          first [ assumption | apply Z.eqb_neq | apply Nat.eqb_neq | reflexivity ] ].

Section evaluation.
Context {T : Type}.
Implicit Types (v : vector) (h : heap T).

Lemma dir_capacity_run v h :
  1 ≤ log_buffer_capacity v ≤ 31 →
  dir_capacity (v, h) = Done (Dcap v) (v, h).
Proof.
  intros HL. unfold dir_capacity.
  rewrite bind_rd, bind_assert by (apply Z.ltb_lt; lia).
  rewrite bind_rd. cbv zeta.
  rewrite wrap32_small by (destruct (big_buffer v); lia).
  rewrite shl32_one_run by (destruct (big_buffer v); lia).
  unfold Dcap. by destruct (big_buffer v).
Qed.

Lemma buffer_capacity_run v h :
  0 ≤ log_buffer_capacity v ≤ 31 →
  buffer_capacity (v, h) = Done (Bcap v) (v, h).
Proof.
  intros HL. unfold buffer_capacity.
  rewrite bind_rd. by rewrite shl32_one_run by lia.
Qed.

Lemma size_run v h : wf v → size (v, h) = Done (sz v) (v, h).
Proof.
  intros Hwf. caps v. pose proof (sz_bounds v Hwf) as [Hsz Hmax].
  unfold size.
  rewrite bind_rd, bind_assert by (bool_side; lia).
  rewrite !bind_rd. unfold ret. f_equal.
  rewrite wrap32_small by lia.
  rewrite Z.shiftl_mul_pow2 by lia. fold (Bcap v).
  assert (0 ≤ (dir_size v - 1) * Bcap v) by nia.
  unfold sz in *.
  rewrite (wrap64_small ((dir_size v - 1) * Bcap v)) by lia.
  rewrite wrap64_small by lia. done.
Qed.

Lemma assert_valid_run v h :
  wf v → dir v ≠ 0%nat → assert_valid (v, h) = Done tt (v, h).
Proof.
  intros Hwf Hd. caps v. unfold assert_valid.
  rewrite bind_rd, bind_assert by (bool_side; lia).
  rewrite bind_rd, bind_assert by (bool_side; lia).
  rewrite bind_rd.
  rewrite (bind_done _ _ _ _ _ (dir_capacity_run v h ltac:(lia))).
  rewrite !bind_assert by (bool_side; lia).
  rewrite bind_rd.
  rewrite (bind_done _ _ _ _ _ (buffer_capacity_run v h ltac:(lia))).
  rewrite bind_assert by (bool_side; lia).
  rewrite bind_rd.
  assert (Hheld : 0 ≤ held v ≤ 2 ^ 29).
  { unfold held. destruct (extra_buffer v); cbn [b2z]; lia. }
  unfold held in *.
  destruct (Z.eqb_spec 0 (last_buffer_size v)) as [Hz|Hz].
  - rewrite (wf_empty v Hwf) in * by done. cbn [negb b2z] in *.
    rewrite bind_assert by done. rewrite bind_ret.
    rewrite (bind_done _ _ _ _ _ (dir_capacity_run v h ltac:(lia))).
    unwrap.
    apply assert_done. bool_side. lia.
  - rewrite bind_ret. destruct (extra_buffer v) eqn:He; cbn [b2z] in *.
    + rewrite bind_bind, bind_assert by (bool_side; lia).
      rewrite bind_bind.
      rewrite (bind_done _ _ _ _ _ (dir_capacity_run v h ltac:(lia))).
      rewrite bind_assert by (bool_side; lia).
      rewrite (bind_done _ _ _ _ _ (dir_capacity_run v h ltac:(lia))).
      unwrap.
      apply assert_done. bool_side. lia.
    + rewrite bind_ret.
      rewrite (bind_done _ _ _ _ _ (dir_capacity_run v h ltac:(lia))).
      unwrap.
      apply assert_done. bool_side. lia.
Qed.
End evaluation.

(** ** The heap operations *)

Section heap_lemmas.
Context {T : Type}.
Implicit Types (h : heap T) (l d : loc).

Lemma heap_eta h : Heap (bufs h) (dirs h) (next h) = h.
Proof. by destruct h. Qed.

Lemma load_slot_run h d slots i p :
  dirs h !! d = Some slots → 0 ≤ i → slots !! Z.to_nat i = Some p →
  load_slot d i h = Done p h.
Proof.
  intros Hd Hi Hp. unfold load_slot. rewrite Hd.
  rewrite bool_decide_true by done. by rewrite Hp.
Qed.

Lemma store_slot_run h d slots i p :
  dirs h !! d = Some slots → 0 ≤ i < Z.of_nat (length slots) →
  store_slot d i p h =
    Done tt (Heap (bufs h) (<[d := <[Z.to_nat i := p]> slots]> (dirs h)) (next h)).
Proof.
  intros Hd Hi. unfold store_slot. rewrite Hd.
  by rewrite bool_decide_true by done.
Qed.

Lemma load_cell_run h l cells i c :
  bufs h !! l = Some cells → 0 ≤ i → cells !! Z.to_nat i = Some c →
  load_cell (Some l) i h = Done c h.
Proof.
  intros Hl Hi Hc. unfold load_cell. rewrite Hl.
  rewrite bool_decide_true by done. by rewrite Hc.
Qed.

Lemma store_cell_run h l cells i c :
  bufs h !! l = Some cells → 0 ≤ i < Z.of_nat (length cells) →
  store_cell (Some l) i c h =
    Done tt (Heap (<[l := <[Z.to_nat i := c]> cells]> (bufs h)) (dirs h) (next h)).
Proof.
  intros Hl Hi. unfold store_cell. rewrite Hl.
  by rewrite bool_decide_true by done.
Qed.

Lemma item_run h l cells i :
  bufs h !! l = Some cells → 0 ≤ i < Z.of_nat (length cells) →
  item (Some l) i h = Done (l, i) h.
Proof.
  intros Hl Hi. unfold item. rewrite Hl.
  by rewrite bool_decide_true by done.
Qed.

Lemma delete_buf_run h l cells :
  l ≠ 0%nat → bufs h !! l = Some cells →
  delete_buf (Some l) h = Done tt (Heap (delete l (bufs h)) (dirs h) (next h)).
Proof.
  intros Hl Hc. unfold delete_buf. destruct l; [done|]. by rewrite Hc.
Qed.

Lemma delete_dir_run h d slots :
  d ≠ 0%nat → dirs h !! d = Some slots →
  delete_dir d h = Done tt (Heap (bufs h) (delete d (dirs h)) (next h)).
Proof.
  intros Hl Hc. unfold delete_dir. destruct d; [done|]. by rewrite Hc.
Qed.

(** [std::copy] between two different buffers. *)
Lemma copy_cells_from h src dst sc first dfirst (k : nat) : ∀ (j : Z) dc,
  bufs h !! src = Some sc → src ≠ dst →
  0 ≤ first → 0 ≤ dfirst → 0 ≤ j →
  first + j + Z.of_nat k ≤ Z.of_nat (length sc) →
  dfirst + j + Z.of_nat k ≤ Z.of_nat (length dc) →
  repeat_from k Z.succ j
    (λ j, let* c := load_cell (Some src) (first + j) in
          store_cell (Some dst) (dfirst + j) c)
    (Heap (<[dst := dc]> (bufs h)) (dirs h) (next h)) =
  Done tt (Heap (<[dst := take (Z.to_nat (dfirst + j)) dc
                          ++ take k (drop (Z.to_nat (first + j)) sc)
                          ++ drop (Z.to_nat (dfirst + j) + k) dc]> (bufs h))
             (dirs h) (next h)).
Proof.
  induction k as [|k IH]; intros j dc Hs Hne Hf Hdf Hj Hsl Hdl.
  - cbn [repeat_from]. unfold ret. rewrite take_0, app_nil_l.
    rewrite Nat.add_0_r, take_drop. done.
  - cbn [repeat_from].
    destruct (lookup_lt_is_Some_2 sc (Z.to_nat (first + j))) as [c Hc]; [lia|].
    rewrite bind_bind.
    erewrite bind_done; [|eapply load_cell_run; [|lia|exact Hc]];
      [|cbn; by rewrite lookup_insert_ne].
    erewrite bind_done;
      [|eapply store_cell_run; [cbn; by rewrite lookup_insert_eq|lia]].
    cbn [bufs dirs next]. rewrite insert_insert_eq.
    rewrite IH; [|done|done|lia|lia|lia|lia|rewrite length_insert; lia].
    do 3 f_equal.
    replace (Z.to_nat (dfirst + Z.succ j)) with (S (Z.to_nat (dfirst + j))) by lia.
    replace (Z.to_nat (first + Z.succ j)) with (S (Z.to_nat (first + j))) by lia.
    rewrite (take_S_r _ _ c) by (apply list_lookup_insert_eq; lia).
    rewrite take_insert_ge by lia.
    rewrite drop_insert_lt by lia.
    rewrite <- app_assoc. f_equal. cbn [app].
    rewrite (drop_S sc c (Z.to_nat (first + j))) by done.
    cbn [take app]. do 3 f_equal. lia.
Qed.

Lemma copy_cells_run h src dst sc dc first n dfirst :
  bufs h !! src = Some sc → bufs h !! dst = Some dc → src ≠ dst →
  0 ≤ first → 0 ≤ dfirst → 0 ≤ n →
  first + n ≤ Z.of_nat (length sc) → dfirst + n ≤ Z.of_nat (length dc) →
  copy_cells (Some src) first n (Some dst) dfirst h =
  Done tt (Heap (<[dst := take (Z.to_nat dfirst) dc
                          ++ take (Z.to_nat n) (drop (Z.to_nat first) sc)
                          ++ drop (Z.to_nat (dfirst + n)) dc]> (bufs h))
             (dirs h) (next h)).
Proof.
  intros Hs Hd Hne Hf Hdf Hn Hsl Hdl. unfold copy_cells.
  pose proof (copy_cells_from h src dst sc first dfirst (Z.to_nat n) 0 dc
                Hs Hne Hf Hdf ltac:(lia) ltac:(lia) ltac:(lia)) as Hrun.
  rewrite insert_id, heap_eta in Hrun by done. rewrite Hrun.
  rewrite !Z.add_0_r.
  by replace (Z.to_nat (dfirst + n)) with (Z.to_nat dfirst + Z.to_nat n)%nat by lia.
Qed.
End heap_lemmas.

Section heap_lemmas_dirs.
Context {T : Type}.
Implicit Types (h : heap T) (l d : loc).

(** [std::copy] between two different directories. *)
Lemma copy_slots_from h src dst ss (k : nat) : ∀ (j : Z) dsl,
  dirs h !! src = Some ss → src ≠ dst → 0 ≤ j →
  j + Z.of_nat k ≤ Z.of_nat (length ss) →
  j + Z.of_nat k ≤ Z.of_nat (length dsl) →
  repeat_from k Z.succ j
    (λ j, let* p := load_slot src j in store_slot dst j p)
    (Heap (bufs h) (<[dst := dsl]> (dirs h)) (next h)) =
  Done tt (Heap (bufs h)
             (<[dst := take (Z.to_nat j) dsl ++ take k (drop (Z.to_nat j) ss)
                       ++ drop (Z.to_nat j + k) dsl]> (dirs h))
             (next h)).
Proof.
  induction k as [|k IH]; intros j dsl Hs Hne Hj Hsl Hdl.
  - cbn [repeat_from]. unfold ret. rewrite take_0, app_nil_l.
    rewrite Nat.add_0_r, take_drop. done.
  - cbn [repeat_from].
    destruct (lookup_lt_is_Some_2 ss (Z.to_nat j)) as [c Hc]; [lia|].
    rewrite bind_bind.
    erewrite bind_done; [|eapply load_slot_run; [|lia|exact Hc]];
      [|cbn; by rewrite lookup_insert_ne].
    erewrite bind_done;
      [|eapply store_slot_run; [cbn; by rewrite lookup_insert_eq|lia]].
    cbn [bufs dirs next]. rewrite insert_insert_eq.
    rewrite IH; [|done|done|lia|lia|rewrite length_insert; lia].
    do 3 f_equal.
    replace (Z.to_nat (Z.succ j)) with (S (Z.to_nat j)) by lia.
    rewrite (take_S_r _ _ c) by (apply list_lookup_insert_eq; lia).
    rewrite take_insert_ge by lia.
    rewrite drop_insert_lt by lia.
    rewrite <- app_assoc. f_equal.
    rewrite (drop_S ss c (Z.to_nat j)) by done.
    cbn [take app]. do 3 f_equal. lia.
Qed.

Lemma copy_slots_run h src dst ss dsl n :
  dirs h !! src = Some ss → dirs h !! dst = Some dsl → src ≠ dst →
  0 ≤ n → n ≤ Z.of_nat (length ss) → n ≤ Z.of_nat (length dsl) →
  copy_slots src n dst h =
  Done tt (Heap (bufs h)
             (<[dst := take (Z.to_nat n) ss ++ drop (Z.to_nat n) dsl]> (dirs h))
             (next h)).
Proof.
  intros Hs Hd Hne Hn Hsl Hdl. unfold copy_slots.
  pose proof (copy_slots_from h src dst ss (Z.to_nat n) 0 dsl
                Hs Hne ltac:(lia) ltac:(lia) ltac:(lia)) as Hrun.
  rewrite insert_id, heap_eta in Hrun by done. rewrite Hrun.
  by rewrite take_0, drop_0.
Qed.
End heap_lemmas_dirs.

(** ** Ownership of the directory and the buffers *)

Section ownership.
Context {T : Type}.
Implicit Types (h : heap T) (d p : loc) (ptrs : list loc).
Implicit Types (bs : list (list (option T))).

Lemma blocks_length h B ptrs bs : blocks h B ptrs bs → length ptrs = length bs.
Proof. apply Forall2_length. Qed.

Lemma blocks_lookup h B ptrs bs i p :
  blocks h B ptrs bs → ptrs !! i = Some p →
  ∃ b, bs !! i = Some b ∧ bufs h !! p = Some b ∧ Z.of_nat (length b) = B.
Proof.
  intros Hb Hp. destruct (Forall2_lookup_l _ _ _ _ _ Hb Hp) as (b & ? & ? & ?).
  by exists b.
Qed.

Lemma blocks_sizes h B ptrs bs :
  blocks h B ptrs bs → Forall (λ b, Z.of_nat (length b) = B) bs.
Proof.
  intros Hb. apply Forall_forall. intros b Hin.
  apply list_elem_of_lookup in Hin as [i Hi].
  destruct (Forall2_lookup_r _ _ _ _ _ Hb Hi) as (p & _ & _ & ?). done.
Qed.

Lemma blocks_agree h h' B ptrs bs :
  blocks h B ptrs bs → Forall (λ p, bufs h' !! p = bufs h !! p) ptrs →
  blocks h' B ptrs bs.
Proof.
  induction 1 as [|p b ptrs bs [Hpb HB] Hrest IH]; intros Hag; [constructor|].
  apply Forall_cons in Hag as [Hp ?]. constructor; [|by apply IH].
  by rewrite Hp.
Qed.

Lemma sound_mono h h' ptrs : sound h ptrs → (next h ≤ next h')%nat → sound h' ptrs.
Proof.
  intros [? Hf] ?. split; [done|]. eapply Forall_impl; [exact Hf|].
  cbn. intros ? [??]. split; [done|lia].
Qed.

Lemma sound_lookup_ne ptrs h i j p q :
  sound h ptrs → ptrs !! i = Some p → ptrs !! j = Some q → i ≠ j → p ≠ q.
Proof.
  intros [Hnd _] Hi Hj Hne ->. apply Hne. eapply NoDup_lookup; eauto.
Qed.

Lemma sound_fresh h ptrs p : sound h ptrs → p ∈ ptrs → p ≠ 0%nat ∧ (p < next h)%nat.
Proof. intros [_ Hf] Hp. by apply (proj1 (Forall_forall _ _) Hf). Qed.

Lemma owns_load h d cap B ptrs bs i p :
  owns h d cap B ptrs bs → ptrs !! i = Some p →
  load_slot d (Z.of_nat i) h = Done (Some p) h.
Proof.
  intros (_ & _ & (slots & Hd & _ & Hsl) & _) Hp.
  eapply load_slot_run; [done|lia|]. rewrite Nat2Z.id. by apply (Hsl i p).
Qed.

Lemma owns_store_cell h d cap B ptrs bs i p b k c :
  owns h d cap B ptrs bs → ptrs !! i = Some p → bs !! i = Some b → 0 ≤ k < B →
  ∃ h', store_cell (Some p) k c h = Done tt h' ∧ next h' = next h ∧
        owns h' d cap B ptrs (<[i := <[Z.to_nat k := c]> b]> bs).
Proof.
  intros (Hd0 & Hdn & Hdir & Hsound & Hblocks) Hp Hb Hk.
  destruct (blocks_lookup _ _ _ _ _ _ Hblocks Hp) as (b' & Hb' & Hbuf & Hlen).
  assert (b' = b) as -> by congruence.
  eexists. split; [eapply store_cell_run; [exact Hbuf|lia]|]. split; [done|].
  split; [done|]. split; [done|]. split; [done|]. split; [done|].
  apply Forall2_same_length_lookup. split.
  { rewrite length_insert. by apply blocks_length in Hblocks. }
  intros j q c' Hq Hc'. cbn [bufs]. destruct (decide (j = i)) as [->|Hne].
  - assert (q = p) as -> by congruence.
    rewrite list_lookup_insert_eq in Hc' by (by eapply lookup_lt_Some).
    injection Hc' as <-. rewrite lookup_insert_eq, length_insert. done.
  - rewrite list_lookup_insert_ne in Hc' by done.
    rewrite lookup_insert_ne by (eapply sound_lookup_ne; eauto).
    destruct (blocks_lookup _ _ _ _ _ _ Hblocks Hq) as (b'' & ? & ? & ?).
    assert (b'' = c') as -> by congruence. done.
Qed.

(** A buffer allocated and put into the first free slot. *)
Lemma owns_append h d cap B ptrs bs :
  owns h d cap B ptrs bs → 0 ≤ B → Z.of_nat (length ptrs) < cap →
  ∃ h', store_slot d (Z.of_nat (length ptrs)) (Some (next h))
          (Heap (<[next h := replicate (Z.to_nat B) None]> (bufs h)) (dirs h) (S (next h)))
        = Done tt h' ∧ next h' = S (next h) ∧
        owns h' d cap B (ptrs ++ [next h]) (bs ++ [replicate (Z.to_nat B) None]).
Proof.
  intros (Hd0 & Hdn & (slots & Hd & Hcap & Hsl) & Hsound & Hblocks) HB Hlen.
  eexists. split; [apply (store_slot_run _ _ slots); [exact Hd|lia]|].
  split; [done|]. cbn [dirs bufs next].
  assert (Hfresh : ∀ p, p ∈ ptrs → p ≠ next h).
  { intros p Hp. apply (sound_fresh _ _ _ Hsound) in Hp. lia. }
  split; [done|]. split; [cbn; lia|]. split; [|split]; cbn [dirs bufs next].
  - eexists. split; [by rewrite lookup_insert_eq|]. split.
    { by rewrite length_insert. }
    intros i p Hp. cbn [Nat.add]. rewrite Nat2Z.id.
    apply lookup_app_Some in Hp as [Hp|[Hge Hp]].
    + rewrite list_lookup_insert_ne by (apply lookup_lt_Some in Hp; lia).
      by apply (Hsl i p).
    + apply list_lookup_singleton_Some in Hp as [Hi <-].
      replace i with (length ptrs) by lia. apply list_lookup_insert_eq. lia.
  - destruct Hsound as [Hnd Hf]. split.
    + apply NoDup_app. split; [done|]. split; [|apply NoDup_singleton].
      intros p Hp Hin. apply list_elem_of_singleton in Hin. by apply (Hfresh p).
    + apply Forall_app. split.
      * eapply Forall_impl; [exact Hf|]. cbn. intros ? [??]. split; [done|lia].
      * apply Forall_singleton. cbn. lia.
  - apply Forall2_app.
    + eapply blocks_agree; [done|]. apply Forall_forall. intros p Hp. cbn.
      apply lookup_insert_ne. intros Heq. by apply (Hfresh p Hp).
    + apply Forall2_cons. split; [|constructor]. cbn.
      rewrite lookup_insert_eq, length_replicate. split; [done|lia].
Qed.

(** The buffer in the last slot held is given back. *)
Lemma owns_drop_last h d cap B ptrs bs (n : nat) :
  owns h d cap B ptrs bs → length ptrs = S n →
  ∃ p h', load_slot d (Z.of_nat n) h = Done (Some p) h ∧
          delete_buf (Some p) h = Done tt h' ∧ next h' = next h ∧
          owns h' d cap B (take n ptrs) (take n bs).
Proof.
  intros Hown Hlen.
  destruct (lookup_lt_is_Some_2 ptrs n) as [p Hp]; [lia|].
  pose proof (owns_load _ _ _ _ _ _ _ _ Hown Hp) as Hload.
  destruct Hown as (Hd0 & Hdn & (slots & Hd & Hcap & Hsl) & Hsound & Hblocks).
  destruct (blocks_lookup _ _ _ _ _ _ Hblocks Hp) as (b & Hb & Hbuf & HbB).
  destruct (sound_fresh _ _ _ Hsound (list_elem_of_lookup_2 _ _ _ Hp)) as [Hp0 _].
  exists p. eexists. split; [done|]. split; [by eapply delete_buf_run|].
  split; [done|]. split; [done|]. split; [done|]. split; [|split].
  - exists slots. split; [done|]. split; [done|].
    intros i q Hq. apply lookup_take_Some in Hq as [Hq _]. by apply Hsl.
  - split.
    + eapply sublist_NoDup; [apply Hsound|apply sublist_take].
    + apply Forall_take, Hsound.
  - apply Forall2_take with (n := n) in Hblocks.
    eapply blocks_agree; [exact Hblocks|].
    apply Forall_forall. intros q Hq. cbn.
    apply lookup_delete_ne. intros <-.
    apply list_elem_of_lookup in Hq as [i Hq].
    apply lookup_take_Some in Hq as [Hq Hi].
    assert (i = n) by (eapply NoDup_lookup; [apply Hsound|done..]). lia.
Qed.

(** The directory moved into a new block of [cap'] slots, of which the
    first [n] are copied. *)
Lemma owns_move_dir h d cap B ptrs bs n cap' :
  owns h d cap B ptrs bs → Z.of_nat (length ptrs) ≤ n → n ≤ cap → n ≤ cap' →
  ∃ h1 h2 h',
    new_dir cap' h = Done (next h) h1 ∧
    copy_slots d n (next h) h1 = Done tt h2 ∧
    delete_dir d h2 = Done tt h' ∧ next h' = S (next h) ∧
    owns h' (next h) cap' B ptrs bs.
Proof.
  intros (Hd0 & Hdn & (slots & Hd & Hcap & Hsl) & Hsound & Hblocks) Hn Hcapn Hcap'.
  assert (d ≠ next h) by lia.
  do 3 eexists. split; [reflexivity|].
  split.
  { eapply (copy_slots_run _ _ _ slots (replicate (Z.to_nat cap') None)); cbn [dirs].
    - by rewrite lookup_insert_ne by done.
    - by rewrite lookup_insert_eq.
    - done.
    - lia.
    - lia.
    - rewrite length_replicate. lia. }
  cbn [bufs dirs next]. rewrite insert_insert_eq.
  split.
  { eapply delete_dir_run; [done|]. cbn [dirs]. by rewrite lookup_insert_ne. }
  split; [done|]. unfold owns. cbn [bufs dirs next].
  split; [lia|]. split; [lia|]. split; [|split].
  - eexists. split; [by rewrite lookup_delete_ne, lookup_insert_eq|]. split.
    + rewrite length_app, length_take, length_drop, length_replicate. lia.
    + intros i p Hp. cbn [Nat.add]. pose proof (lookup_lt_Some _ _ _ Hp).
      rewrite lookup_app_l by (rewrite length_take; lia).
      rewrite lookup_take_lt by lia. by apply (Hsl i p).
  - eapply sound_mono; [done|]. cbn. lia.
  - done.
Qed.
End ownership.

(** ** Merging and splitting buffers *)

Section rebuild.
Context {T : Type}.
Implicit Types (h : heap T) (d p : loc) (ptrs : list loc).
Implicit Types (bs : list (list (option T))).

Lemma new_buf_run h n :
  new_buf n h =
    Done (Some (next h))
      (Heap (<[next h := replicate (Z.to_nat n) None]> (bufs h)) (dirs h) (S (next h))).
Proof. reflexivity. Qed.

Lemma merge_pair_run h d slots (j : nat) p1 p2 b1 b2 B :
  dirs h !! d = Some slots →
  slots !! (2 * j)%nat = Some (Some p1) → slots !! (2 * j + 1)%nat = Some (Some p2) →
  bufs h !! p1 = Some b1 → bufs h !! p2 = Some b2 →
  Z.of_nat (length b1) = B → Z.of_nat (length b2) = B →
  p1 ≠ p2 → p1 ≠ 0%nat → p2 ≠ 0%nat → (p1 < next h)%nat → (p2 < next h)%nat →
  2 * Z.of_nat j + 1 < 2 ^ 32 → 2 * B < 2 ^ 32 →
  merge_pair d B (Z.of_nat (2 * j)) h =
    Done tt (Heap (delete p2 (delete p1 (<[next h := b1 ++ b2]> (bufs h))))
               (<[d := <[j := Some (next h)]> slots]> (dirs h))
               (S (next h))).
Proof.
  intros Hd Hs1 Hs2 Hb1 Hb2 Hl1 Hl2 Hne Hp1 Hp2 Hf1 Hf2 Hj HB.
  unfold merge_pair.
  erewrite bind_done; [|eapply load_slot_run; [done|lia|by rewrite Nat2Z.id]].
  rewrite wrap32_small by lia.
  erewrite bind_done; [|eapply load_slot_run; [done|lia|]]; cycle 1.
  { by replace (Z.to_nat (Z.of_nat (2 * j) + 1)) with (2 * j + 1)%nat by lia. }
  rewrite wrap32_small by lia.
  erewrite bind_done; [|apply new_buf_run].
  assert (j < length slots)%nat by (apply lookup_lt_Some in Hs1; lia).
  erewrite bind_done; [|eapply store_slot_run; [done|]]; cycle 1.
  { split; [apply Z.div_pos; lia|]. apply Z.div_lt_upper_bound; lia. }
  replace (Z.to_nat (Z.of_nat (2 * j) / 2)) with j; cycle 1.
  { replace (Z.of_nat (2 * j)) with (Z.of_nat j * 2) by lia.
    rewrite Z.div_mul by lia. lia. }
  erewrite bind_done; cycle 1.
  { eapply copy_cells_run; cbn [bufs].
    - by rewrite lookup_insert_ne by lia.
    - by rewrite lookup_insert_eq.
    - lia.
    - lia.
    - lia.
    - lia.
    - lia.
    - rewrite length_replicate. lia. }
  cbn [bufs dirs next]. rewrite insert_insert_eq.
  erewrite bind_done; cycle 1.
  { eapply copy_cells_run; cbn [bufs].
    - by rewrite lookup_insert_ne by lia.
    - by rewrite lookup_insert_eq.
    - lia.
    - lia.
    - lia.
    - lia.
    - lia.
    - rewrite !length_app, !length_take, !length_drop, !length_replicate. lia. }
  cbn [bufs dirs next]. rewrite insert_insert_eq.
  erewrite bind_done; cycle 1.
  { eapply delete_buf_run; [done|]. cbn [bufs]. by rewrite lookup_insert_ne by lia. }
  cbn [bufs dirs next].
  erewrite delete_buf_run; [|done|]; cycle 1.
  { cbn [bufs]. rewrite lookup_delete_ne by done. by rewrite lookup_insert_ne by lia. }
  cbn [bufs dirs next]. do 4 f_equal.
  rewrite !drop_0, take_0, app_nil_l.
  rewrite (take_ge b1) by lia. rewrite (take_ge b2) by lia.
  rewrite take_app_length' by lia.
  rewrite (drop_ge _ (Z.to_nat (B + B))); cycle 1.
  { rewrite length_app, length_drop, length_replicate. lia. }
  by rewrite app_nil_r.
Qed.

Lemma split_buffer_run h d slots (k : nat) p b B :
  dirs h !! d = Some slots → slots !! k = Some (Some p) →
  bufs h !! p = Some b → Z.of_nat (length b) = B → B = 2 * (B / 2) →
  p ≠ 0%nat → (p < next h)%nat →
  (2 * k + 1 < length slots)%nat → 2 * Z.of_nat k + 1 < 2 ^ 32 →
  split_buffer d B (Z.of_nat k) h =
    Done tt (Heap (delete p (<[S (next h) := drop (Z.to_nat (B / 2)) b]>
                               (<[next h := take (Z.to_nat (B / 2)) b]> (bufs h))))
               (<[d := <[(2 * k + 1)%nat := Some (S (next h))]>
                         (<[(2 * k)%nat := Some (next h)]> slots)]> (dirs h))
               (S (S (next h)))).
Proof.
  intros Hd Hs Hb Hl HB Hp0 Hpf Hk Hk32.
  unfold split_buffer.
  erewrite bind_done; [|eapply load_slot_run; [done|lia|by rewrite Nat2Z.id]].
  erewrite bind_done; [|apply new_buf_run].
  rewrite (wrap32_small (2 * Z.of_nat k)) by lia.
  rewrite (wrap32_small (2 * Z.of_nat k + 1)) by lia.
  erewrite bind_done; [|eapply store_slot_run; [done|lia]].
  erewrite bind_done; [|apply new_buf_run].
  cbn [bufs dirs next].
  erewrite bind_done; cycle 1.
  { eapply store_slot_run; cbn [dirs]; [by rewrite lookup_insert_eq|].
    rewrite length_insert. lia. }
  cbn [bufs dirs next]. rewrite insert_insert_eq.
  replace (Z.to_nat (2 * Z.of_nat k)) with (2 * k)%nat by lia.
  replace (Z.to_nat (2 * Z.of_nat k + 1)) with (2 * k + 1)%nat by lia.
  erewrite bind_done; cycle 1.
  { eapply load_slot_run; cbn [dirs]; [by rewrite lookup_insert_eq|lia|].
    replace (Z.to_nat (2 * Z.of_nat k)) with (2 * k)%nat by lia.
    rewrite list_lookup_insert_ne by lia.
    apply list_lookup_insert_eq. lia. }
  assert (0 ≤ B / 2) by lia.
  erewrite bind_done; cycle 1.
  { eapply copy_cells_run; cbn [bufs].
    - rewrite !lookup_insert_ne by lia. done.
    - rewrite lookup_insert_ne by lia. by rewrite lookup_insert_eq.
    - lia.
    - lia.
    - lia.
    - lia.
    - lia.
    - rewrite length_replicate. lia. }
  cbn [bufs dirs next].
  erewrite bind_done; cycle 1.
  { eapply load_slot_run; cbn [dirs]; [by rewrite lookup_insert_eq|lia|].
    replace (Z.to_nat (2 * Z.of_nat k + 1)) with (2 * k + 1)%nat by lia.
    apply list_lookup_insert_eq. rewrite length_insert. lia. }
  erewrite bind_done; cycle 1.
  { eapply copy_cells_run; cbn [bufs].
    - rewrite !lookup_insert_ne by lia. done.
    - rewrite lookup_insert_ne by lia. by rewrite lookup_insert_eq.
    - lia.
    - lia.
    - lia.
    - lia.
    - lia.
    - rewrite length_replicate. lia. }
  cbn [bufs dirs next].
  erewrite delete_buf_run; [|done|]; cycle 1.
  { cbn [bufs]. rewrite !lookup_insert_ne by lia. done. }
  cbn [bufs dirs next]. f_equal. f_equal.
  rewrite !take_0, !drop_0, !app_nil_l.
  rewrite (drop_ge (replicate _ _)) by (rewrite length_replicate; lia).
  rewrite (drop_ge (replicate _ _)) by (rewrite length_replicate; lia).
  rewrite !app_nil_r.
  rewrite (take_ge (drop _ _)) by (rewrite length_drop; lia).
  apply map_eq. intros l.
  rewrite !lookup_delete, !lookup_insert.
  repeat case_decide; try done; lia.
Qed.

Lemma sound_insert_fresh h ptrs1 ptrs2 q n :
  NoDup (ptrs1 ++ ptrs2) →
  Forall (λ p, p ≠ 0%nat ∧ (p < q)%nat) (ptrs1 ++ ptrs2) →
  q ≠ 0%nat → (q < n)%nat → next h = n →
  sound h ((ptrs1 ++ [q]) ++ ptrs2).
Proof.
  intros Hnd Hf Hq0 Hqn Hn. split.
  - rewrite <- app_assoc. cbn [app].
    rewrite <- Permutation_middle. apply NoDup_cons. split; [|done].
    intros Hin. apply (proj1 (Forall_forall _ _) Hf) in Hin. lia.
  - rewrite <- app_assoc. cbn [app].
    rewrite <- Permutation_middle. apply Forall_cons. split; [lia|].
    eapply Forall_impl; [exact Hf|]. cbn. intros ? [??]. split; [done|lia].
Qed.

Lemma merge_loop d B (m : nat) : ∀ (j : nat) h slots newps newbs oldps oldbs,
  dirs h !! d = Some slots →
  length newps = j → length oldps = (2 * m)%nat →
  (2 * j + 2 * m ≤ length slots)%nat →
  2 * Z.of_nat (j + m) < 2 ^ 32 → 0 ≤ B → 2 * B < 2 ^ 32 →
  slotted slots 0 newps → slotted slots (2 * j) oldps →
  sound h (newps ++ oldps) →
  blocks h (2 * B) newps newbs → blocks h B oldps oldbs →
  ∃ h' slots' more,
    repeat_from m (λ i, wrap32 (i + 2)) (Z.of_nat (2 * j)) (merge_pair d B) h
      = Done tt h' ∧
    dirs h' !! d = Some slots' ∧ length slots' = length slots ∧
    slotted slots' 0 (newps ++ more) ∧ sound h' (newps ++ more) ∧
    blocks h' (2 * B) (newps ++ more) (newbs ++ merged oldbs) ∧
    length more = m ∧ (next h ≤ next h')%nat.
Proof.
  induction m as [|m IH];
    intros j h slots newps newbs oldps oldbs Hd Hj Hm Hcap H32 HB0 HB Hsn Hso Hsound Hbn Hbo.
  - destruct oldps; [|done]. apply Forall2_nil_inv_l in Hbo as ->.
    exists h, slots, []. cbn [merged repeat_from]. rewrite !app_nil_r in *.
    repeat split; try done; apply Hsound.
  - destruct oldps as [|p1 [|p2 rest]]; [done|cbn in Hm; lia|].
    apply Forall2_cons_inv_l in Hbo as (b1 & brest0 & [Hb1 Hl1] & Hbo & ->).
    apply Forall2_cons_inv_l in Hbo as (b2 & brest & [Hb2 Hl2] & Hbo & ->).
    destruct Hsound as [Hnd Hfresh].
    pose proof Hnd as Hnd0.
    apply NoDup_app in Hnd as (Hndn & Hdisj & Hndo).
    apply NoDup_cons in Hndo as [Hp1 Hndo].
    apply NoDup_cons in Hndo as [Hp2 Hndo].
    pose proof (proj1 (Forall_forall _ _) Hfresh) as Hfr.
    destruct (Hfr p1) as [Hp10 Hp1f]; [set_solver|].
    destruct (Hfr p2) as [Hp20 Hp2f]; [set_solver|].
    assert (p1 ≠ p2) by set_solver.
    cbn [repeat_from].
    erewrite bind_done; cycle 1.
    { eapply (merge_pair_run h d slots j p1 p2 b1 b2); try done; try lia.
      - specialize (Hso 0%nat p1 eq_refl). by rewrite Nat.add_0_r in Hso.
      - by apply (Hso 1%nat p2). }
    assert (j < length slots)%nat by lia.
    replace (wrap32 (Z.of_nat (2 * j) + 2)) with (Z.of_nat (2 * S j))
      by (rewrite wrap32_small; lia).
    set (q := next h) in *.
    set (h1 := Heap _ _ _).
    assert (Hagree : ∀ p, p ∈ newps ++ rest → bufs h1 !! p = bufs h !! p).
    { intros p Hp. cbn [bufs h1].
      assert (p ≠ p1 ∧ p ≠ p2) as [??].
      { apply elem_of_app in Hp as [Hp|Hp].
        - specialize (Hdisj p Hp). set_solver.
        - set_solver. }
      assert (p ≠ q) by (destruct (Hfr p); [set_solver|lia]).
      rewrite !lookup_delete_ne by done. by rewrite lookup_insert_ne. }
    destruct (IH (S j) h1 (<[j := Some q]> slots) (newps ++ [q])
                (newbs ++ [b1 ++ b2]) rest brest)
      as (h' & slots' & more & Hrun & Hd' & Hlen' & Hsl' & Hsound' & Hb' & Hmore & Hnext).
    + cbn [dirs h1]. by rewrite lookup_insert_eq.
    + rewrite length_app. cbn. lia.
    + cbn in Hm. lia.
    + rewrite length_insert. lia.
    + lia.
    + done.
    + done.
    + intros i p Hp. cbn [Nat.add].
      apply lookup_app_Some in Hp as [Hp|[Hge Hp]].
      * rewrite list_lookup_insert_ne by (apply lookup_lt_Some in Hp; lia).
        by apply (Hsn i p).
      * apply list_lookup_singleton_Some in Hp as [Hi <-].
        replace i with j by lia. by apply list_lookup_insert_eq.
    + intros i p Hp. rewrite list_lookup_insert_ne by lia.
      replace (2 * S j + i)%nat with (2 * j + S (S i))%nat by lia.
      by apply Hso.
    + apply (sound_insert_fresh _ _ _ _ (S q)); [|  |lia|lia|done].
      * apply NoDup_app. split; [done|]. split; [|done].
        intros p Hp. specialize (Hdisj p Hp). set_solver.
      * apply Forall_forall. intros p Hp. apply Hfr. set_solver.
    + apply Forall2_app.
      * eapply blocks_agree; [exact Hbn|]. apply Forall_forall.
        intros p Hp. apply Hagree. set_solver.
      * apply Forall2_cons. split; [|constructor]. cbn [bufs h1].
        rewrite !lookup_delete_ne by lia. rewrite lookup_insert_eq.
        split; [done|]. rewrite length_app. lia.
    + eapply blocks_agree; [exact Hbo|]. apply Forall_forall.
      intros p Hp. apply Hagree. set_solver.
    + exists h', slots', (q :: more). rewrite Hrun.
      rewrite <- !app_assoc in *. cbn [app merged] in *.
      rewrite length_insert in Hlen'. cbn [next h1] in Hnext.
      repeat split; try done; try (cbn; lia). apply Hsound'. apply Hsound'.
Qed.

Lemma halved_snoc n bs (b : list (option T)) :
  halved n (bs ++ [b]) = halved n bs ++ [take n b; drop n b].
Proof. unfold halved. rewrite bind_app. done. Qed.

Lemma split_loop d B N (r : nat) : ∀ h slots olds oldbs news newbs,
  dirs h !! d = Some slots →
  length olds = r → Z.of_nat r ≤ N → N < 2 ^ 32 →
  (2 * r + length news ≤ length slots)%nat →
  Z.of_nat (2 * r + length news) < 2 ^ 32 →
  0 < B → B = 2 * (B / 2) →
  slotted slots 0 olds → slotted slots (2 * r) news →
  sound h (olds ++ news) →
  blocks h B olds oldbs → blocks h (B / 2) news newbs →
  ∃ h' slots' more,
    repeat_from r (λ i, wrap32 (i + 1)) (N - Z.of_nat r)
      (λ i, split_buffer d B (wrap32 (wrap32 (N - i) - 1))) h = Done tt h' ∧
    dirs h' !! d = Some slots' ∧ length slots' = length slots ∧
    slotted slots' 0 (more ++ news) ∧ sound h' (more ++ news) ∧
    blocks h' (B / 2) (more ++ news) (halved (Z.to_nat (B / 2)) oldbs ++ newbs) ∧
    length more = (2 * r)%nat ∧ (next h ≤ next h')%nat.
Proof.
  induction r as [|r IH];
    intros h slots olds oldbs news newbs Hd Hr HN HN32 Hcap H32 HB0 HB Hso Hsn Hsound Hbo Hbn.
  - destruct olds; [|done]. apply Forall2_nil_inv_l in Hbo as ->.
    exists h, slots, []. cbn [halved mbind list_bind app repeat_from].
    repeat split; try done; apply Hsound.
  - destruct olds as [|p olds _] using rev_ind; [done|].
    rewrite length_app in Hr. cbn in Hr.
    assert (Holds : length olds = r) by lia.
    apply Forall2_app_inv_l in Hbo as (oldbs' & bl & Hbo & Hbl & ->).
    apply Forall2_cons_inv_l in Hbl as (b & bnil & [Hb Hl] & Hnil & ->).
    apply Forall2_nil_inv_l in Hnil as ->.
    destruct Hsound as [Hnd Hfresh].
    pose proof (proj1 (Forall_forall _ _) Hfresh) as Hfr.
    destruct (Hfr p) as [Hp0 Hpf]; [set_solver|].
    rewrite <- app_assoc in Hnd. cbn [app] in Hnd.
    pose proof Hnd as Hnd0.
    rewrite <- Permutation_middle in Hnd0.
    apply NoDup_cons in Hnd0 as [Hpnot Hnd0].
    assert (Hsp : slots !! r = Some (Some p)).
    { specialize (Hso r p). cbn [Nat.add] in Hso. apply Hso.
      rewrite lookup_app_r by lia. by replace (r - length olds)%nat with 0%nat by lia. }
    cbn [repeat_from].
    replace (wrap32 (wrap32 (N - (N - Z.of_nat (S r))) - 1)) with (Z.of_nat r)
      by (unwrap; lia).
    erewrite bind_done; cycle 1.
    { eapply (split_buffer_run h d slots r p b); try done; lia. }
    replace (wrap32 (N - Z.of_nat (S r) + 1)) with (N - Z.of_nat r)
      by (rewrite wrap32_small; lia).
    set (q := next h) in *.
    set (h1 := Heap _ _ _).
    assert (Hagree : ∀ p', p' ∈ olds ++ news → bufs h1 !! p' = bufs h !! p').
    { intros p' Hp'. cbn [bufs h1].
      assert (p' ≠ p) by (intros ->; done).
      assert (p' < q)%nat by (destruct (Hfr p'); [set_solver|lia]).
      rewrite lookup_delete_ne by done. rewrite !lookup_insert_ne by lia. done. }
    destruct (IH h1 (<[(2 * r + 1)%nat := Some (S q)]> (<[(2 * r)%nat := Some q]> slots))
                olds oldbs' (q :: S q :: news)
                (take (Z.to_nat (B / 2)) b :: drop (Z.to_nat (B / 2)) b :: newbs))
      as (h' & slots' & more & Hrun & Hd' & Hlen' & Hsl' & Hsound' & Hb' & Hmore & Hnext).
    + cbn [dirs h1]. by rewrite lookup_insert_eq.
    + done.
    + lia.
    + done.
    + rewrite !length_insert. cbn [length]. lia.
    + cbn [length]. lia.
    + done.
    + done.
    + intros i p' Hp'. cbn [Nat.add]. pose proof (lookup_lt_Some _ _ _ Hp').
      rewrite !list_lookup_insert_ne by lia.
      apply (Hso i p'). by apply lookup_app_l_Some.
    + intros i p' Hp'. destruct i as [|[|i]]; cbn in Hp'.
      * injection Hp' as <-. rewrite Nat.add_0_r.
        rewrite list_lookup_insert_ne by lia. apply list_lookup_insert_eq. lia.
      * injection Hp' as <-. apply list_lookup_insert_eq. rewrite length_insert. lia.
      * rewrite !list_lookup_insert_ne by lia.
        replace (2 * r + S (S i))%nat with (2 * S r + i)%nat by lia. by apply Hsn.
    + split.
      * rewrite <- Permutation_middle. apply NoDup_cons. split.
        { intros Hin. apply elem_of_app in Hin as [Hin|Hin].
          - destruct (Hfr q); [set_solver|lia].
          - apply elem_of_cons in Hin as [Hin|Hin]; [lia|].
            destruct (Hfr q); [set_solver|lia]. }
        rewrite <- Permutation_middle. apply NoDup_cons. split; [|done].
        intros Hin. destruct (Hfr (S q)); [set_solver|lia].
      * rewrite <- !Permutation_middle. cbn [next h1].
        apply Forall_cons. split; [lia|]. apply Forall_cons. split; [lia|].
        apply Forall_forall. intros p' Hp'. destruct (Hfr p'); [set_solver|lia].
    + eapply blocks_agree; [exact Hbo|]. apply Forall_forall.
      intros p' Hp'. apply Hagree. set_solver.
    + assert (Hqp : q ≠ p) by lia. assert (Hqp' : S q ≠ p) by lia.
      apply Forall2_cons. split.
      { cbn [bufs h1]. rewrite lookup_delete_ne by done.
        rewrite lookup_insert_ne by lia. rewrite lookup_insert_eq.
        split; [done|]. rewrite length_take. lia. }
      apply Forall2_cons. split.
      { cbn [bufs h1]. rewrite lookup_delete_ne by done. rewrite lookup_insert_eq.
        split; [done|]. rewrite length_drop. lia. }
      eapply blocks_agree; [exact Hbn|]. apply Forall_forall.
      intros p' Hp'. apply Hagree. set_solver.
    + exists h', slots', (more ++ [q; S q]). rewrite Hrun.
      rewrite halved_snoc. rewrite <- !app_assoc. cbn [app].
      rewrite !length_insert in Hlen'. cbn [next h1] in Hnext.
      rewrite length_app. cbn [length].
      repeat split; try done; try lia; apply Hsound'.
Qed.
End rebuild.

(** ** Buffers laid end to end *)

Section uniform.
Context {A : Type}.
Implicit Types (bs : list (list A)) (b : list A).

Lemma concat_uniform_length (B : nat) bs :
  Forall (λ b, length b = B) bs → length (concat bs) = (length bs * B)%nat.
Proof.
  induction 1 as [|b bs Hb _ IH]; [done|].
  cbn [concat length]. rewrite length_app, IH, Hb. lia.
Qed.

Lemma concat_uniform_lookup (B : nat) bs (q r : nat) b :
  Forall (λ b, length b = B) bs → bs !! q = Some b → (r < B)%nat →
  concat bs !! (q * B + r)%nat = b !! r.
Proof.
  intros Hall. revert q. induction Hall as [|b0 bs Hb _ IH]; intros q Hq Hr; [done|].
  cbn [concat]. destruct q as [|q]; cbn in Hq.
  - injection Hq as ->. cbn [Nat.mul Nat.add]. apply lookup_app_l. lia.
  - rewrite lookup_app_r by lia.
    replace (S q * B + r - length b0)%nat with (q * B + r)%nat by lia.
    by apply IH.
Qed.

Lemma concat_uniform_insert (B : nat) bs (q r : nat) b c :
  Forall (λ b, length b = B) bs → bs !! q = Some b → (r < B)%nat →
  concat (<[q := <[r := c]> b]> bs) = <[(q * B + r)%nat := c]> (concat bs).
Proof.
  intros Hall. revert q. induction Hall as [|b0 bs Hb _ IH]; intros q Hq Hr; [done|].
  destruct q as [|q]; cbn in Hq.
  - injection Hq as ->. cbn [concat Nat.mul Nat.add]. cbn.
    by rewrite insert_app_l by lia.
  - cbn. rewrite IH by done.
    replace (B + q * B + r)%nat with (length b0 + (q * B + r))%nat by lia.
    by rewrite insert_app_r.
Qed.

Lemma concat_uniform_take (B : nat) bs (k : nat) :
  Forall (λ b, length b = B) bs →
  concat (take k bs) = take (k * B) (concat bs).
Proof.
  intros Hall. revert k. induction Hall as [|b0 bs Hb _ IH]; intros k.
  - rewrite take_nil. cbn [concat]. by rewrite take_nil.
  - destruct k as [|k]; [done|]. cbn [take concat].
    rewrite IH. rewrite take_app_ge by lia.
    do 2 f_equal. lia.
Qed.
End uniform.

Section reshaping.
Context {T : Type}.
Implicit Types (bs : list (list (option T))).

Lemma concat_merged bs (m : nat) :
  length bs = (2 * m)%nat → concat (merged bs) = concat bs.
Proof.
  revert bs. induction m as [|m IH]; intros bs Hlen.
  - by destruct bs.
  - destruct bs as [|b1 [|b2 bs]]; [done|cbn in Hlen; lia|].
    cbn [merged concat]. rewrite IH by (cbn in Hlen; lia).
    by rewrite app_assoc.
Qed.

Lemma concat_halved n bs : concat (halved n bs) = concat bs.
Proof.
  induction bs as [|b bs IH]; [done|].
  unfold halved in *. cbn [mbind list_bind]. cbn [concat app].
  rewrite app_assoc, take_drop. cbn in IH. by rewrite IH.
Qed.

Lemma length_halved n bs : length (halved n bs) = (2 * length bs)%nat.
Proof.
  induction bs as [|b bs IH]; [done|].
  unfold halved in *. cbn [mbind list_bind]. cbn in *. rewrite IH. lia.
Qed.
End reshaping.

Section loops.
Context {T : Type}.

Lemma mem_bind {A B} (m : M (heap T) A) (k : A → M (heap T) B) (s : state) :
  mem (bind m k) s = bind (mem m) (λ a, mem (k a)) s.
Proof.
  unfold mem, zoom, bind. cbn. destruct (m s.2); reflexivity.
Qed.

(** A loop of a method whose rounds only touch the heap. *)
Lemma repeat_from_mem (v : vector) step (body : Z → Mv unit) (hbody : Z → M (heap T) unit)
    (n : nat) : ∀ i h,
  (∀ k h', (k < n)%nat →
     body (Nat.iter k step i) (v, h') = mem (hbody (Nat.iter k step i)) (v, h')) →
  repeat_from n step i body (v, h) = mem (repeat_from n step i hbody) (v, h).
Proof.
  induction n as [|n IH]; intros i h Hbody; [done|].
  cbn [repeat_from]. rewrite mem_bind.
  pose proof (Hbody 0%nat h ltac:(lia)) as H0. simpl in H0.
  unfold bind. rewrite H0.
  destruct (mem (hbody i) (v, h)) as [[] s1| |] eqn:E; [|done|done].
  assert (∃ h1, s1 = (v, h1)) as [h1 ->].
  { unfold mem, zoom in E. cbn in E. destruct (hbody i h); [|done|done].
    injection E as _ <-. by eexists. }
  apply IH. intros k h' Hk. specialize (Hbody (S k) h' ltac:(lia)).
  by rewrite Nat.iter_succ_r in Hbody.
Qed.

Lemma iter_succ_wrap32 (k : nat) (i : Z) :
  0 ≤ i → i + Z.of_nat k < 2 ^ 32 →
  Nat.iter k (λ i, wrap32 (i + 1)) i = i + Z.of_nat k.
Proof.
  induction k as [|k IH]; intros Hi Hk; [cbn; lia|].
  rewrite Nat.iter_succ. rewrite IH by lia. rewrite wrap32_small by lia. lia.
Qed.
End loops.

(** ** Reasoning forward through a method *)

Section wp_rules.
Context {S : Type}.
Implicit Types s : S.

Lemma wp_bind {A B} (m : M S A) (k : A → M S B) s Q :
  wp m s (λ a s', wp (k a) s' Q) → wp (bind m k) s Q.
Proof. unfold wp, bind. by destruct (m s). Qed.

Lemma wp_ret {A} (a : A) s (Q : A → S → Prop) : Q a s → wp (ret a) s Q.
Proof. done. Qed.

Lemma wp_assert (b : bool) s (Q : unit → S → Prop) :
  b = true → Q tt s → wp (assert b) s Q.
Proof. by intros ->. Qed.

Lemma wp_done {A} (m : M S A) s a s' (Q : A → S → Prop) :
  m s = Done a s' → Q a s' → wp m s Q.
Proof. unfold wp. by intros ->. Qed.

Lemma wp_mono {A} (m : M S A) s (Q Q' : A → S → Prop) :
  wp m s Q → (∀ a s', Q a s' → Q' a s') → wp m s Q'.
Proof. unfold wp. destruct (m s); naive_solver. Qed.

Lemma wp_elim {A} (m : M S A) s (Q : A → S → Prop) :
  wp m s Q → ∃ a s', m s = Done a s' ∧ Q a s'.
Proof. unfold wp. destruct (m s); naive_solver. Qed.

Lemma wp_shl32_one (k : Z) s (Q : Z → S → Prop) :
  0 ≤ k ≤ 31 → Q (2 ^ k) s → wp (shl32_one k) s Q.
Proof. intros. eapply wp_done; [by apply shl32_one_run|done]. Qed.
End wp_rules.

Section wp_methods.
Context {T : Type}.
Implicit Types (v : vector) (h : heap T).

Lemma wp_rd {A} (f : vector → A) v h (Q : A → state (T:=T) → Prop) :
  Q (f v) (v, h) → wp (rd f) (v, h) Q.
Proof. done. Qed.

Lemma wp_wr (f : vector → vector) v h (Q : unit → state (T:=T) → Prop) :
  Q tt (f v, h) → wp (wr f) (v, h) Q.
Proof. done. Qed.

Lemma wp_mem {A} (m : M (heap T) A) v h (Q : A → state (T:=T) → Prop) :
  wp m h (λ a h', Q a (v, h')) → wp (mem m) (v, h) Q.
Proof. unfold wp, mem, zoom. cbn. by destruct (m h). Qed.

Lemma wp_mem_done {A} (m : M (heap T) A) v h a h' (Q : A → state (T:=T) → Prop) :
  m h = Done a h' → Q a (v, h') → wp (mem m) (v, h) Q.
Proof. intros Hm HQ. apply wp_mem. by eapply wp_done. Qed.
End wp_methods.

Ltac fields :=
  cbn [dir dir_size last_buffer_size log_buffer_capacity big_buffer extra_buffer
       set_dir set_dir_size set_last_buffer_size set_log_buffer_capacity
       set_big_buffer set_extra_buffer fst snd b2z negb] in *.

(** Everything in terms of the members. *)
Ltac explicit := unfold cells_of, sz, held in *; unfold Dcap, Bcap in *; fields.

(** One step through the program text. *)
Ltac wp_step_basic :=
  lazymatch goal with
  | |- wp (bind _ _) _ _ => apply wp_bind
  | |- wp (rd _) _ _ => apply wp_rd; cbv beta; fields
  | |- wp (wr _) _ _ => apply wp_wr; cbv beta; fields
  | |- wp (ret _) _ _ => apply wp_ret; cbv beta
  | |- wp (mem (new_buf _)) _ _ => eapply wp_mem_done; [apply new_buf_run|]; cbv beta
  | |- wp (shl32_one _) _ _ => apply wp_shl32_one; [lia|]; cbv beta
  end.

Ltac wp_assert_by tac :=
  lazymatch goal with
  | |- wp (bind (assert _) _) _ _ =>
      apply wp_bind; apply wp_assert; [bool_side; tac|]; cbv beta
  | |- wp (assert _) _ _ => apply wp_assert; [bool_side; tac|]; cbv beta
  end.

Section capacities.
Context {T : Type}.
Implicit Types (v : vector) (h : heap T).

Lemma wp_dir_capacity v h (Q : Z → state (T:=T) → Prop) :
  1 ≤ log_buffer_capacity v ≤ 31 → Q (Dcap v) (v, h) → wp dir_capacity (v, h) Q.
Proof. intros. eapply wp_done; [by apply dir_capacity_run|done]. Qed.

Lemma wp_buffer_capacity v h (Q : Z → state (T:=T) → Prop) :
  0 ≤ log_buffer_capacity v ≤ 31 → Q (Bcap v) (v, h) → wp buffer_capacity (v, h) Q.
Proof. intros. eapply wp_done; [by apply buffer_capacity_run|done]. Qed.

Lemma wp_size v h (Q : Z → state (T:=T) → Prop) :
  0 ≤ log_buffer_capacity v ≤ 30 → 1 ≤ dir_size v ≤ 2 ^ 30 →
  0 ≤ last_buffer_size v ≤ 2 ^ 31 →
  Q (sz v) (v, h) → wp size (v, h) Q.
Proof.
  intros HL Hds Hlbs HQ. unfold size.
  repeat wp_step_basic. wp_assert_by lia. repeat wp_step_basic.
  pose proof (pow2_le 0 (log_buffer_capacity v) ltac:(lia)).
  pose proof (pow2_le (log_buffer_capacity v) 30 ltac:(lia)).
  rewrite (wrap32_small (dir_size v - 1)) by lia.
  rewrite Z.shiftl_mul_pow2 by lia.
  assert (0 ≤ (dir_size v - 1) * 2 ^ log_buffer_capacity v ≤ 2 ^ 30 * 2 ^ 30).
  { split; [nia|]. apply Z.mul_le_mono_nonneg; lia. }
  change (2 ^ 30 * 2 ^ 30) with (2 ^ 60) in *.
  unwrap. done.
Qed.

Lemma wp_assert_valid v h (Q : unit → state (T:=T) → Prop) :
  wf v → dir v ≠ 0%nat → Q tt (v, h) → wp assert_valid (v, h) Q.
Proof. intros. eapply wp_done; [by apply assert_valid_run|done]. Qed.
End capacities.

(** The capacities do not depend on the members a setter has changed. *)
Ltac caps_simpl :=
  repeat match goal with
    | |- context [Dcap (?f ?x ?v)] => progress change (Dcap (f x v)) with (Dcap v)
    | |- context [Bcap (?f ?x ?v)] => progress change (Bcap (f x v)) with (Bcap v)
    end.

Ltac wp_step :=
  first
    [ lazymatch goal with
      | |- wp (wr _) _ _ => apply wp_wr; cbv beta; fields; unwrap
      end
    | wp_step_basic
    | lazymatch goal with
      | |- wp dir_capacity _ _ =>
          apply wp_dir_capacity; [fields; lia|]; cbv beta; caps_simpl
      | |- wp buffer_capacity _ _ =>
          apply wp_buffer_capacity; [fields; lia|]; cbv beta; caps_simpl
      | |- wp (assert _) _ _ =>
          apply wp_assert; [solve [bool_side; try (fields; unwrap; lia)]|]; cbv beta
      end ].
Ltac wp_steps := repeat wp_step.

(** ** Indexed access *)

Ltac hide_divmod :=
  repeat match goal with
    | |- context [?a / ?b] => let q := fresh "q" in set (q := a / b) in *; clearbody q
    | |- context [?a mod ?b] => let r := fresh "r" in set (r := a mod b) in *; clearbody r
    | H : context [?a / ?b] |- _ => let q := fresh "q" in set (q := a / b) in *; clearbody q
    | H : context [?a mod ?b] |- _ => let r := fresh "r" in set (r := a mod b) in *; clearbody r
    end.
Ltac dlia := hide_divmod; lia.

Section access.
Context {T : Type}.
Implicit Types (v : vector) (h : heap T) (ptrs : list loc).
Implicit Types (bs : list (list (option T))).

Lemma shape_wf v h ptrs bs : shape v h ptrs bs → wf v.
Proof. by intros (? & ? & ?). Qed.

Lemma shape_dir v h ptrs bs : shape v h ptrs bs → dir v ≠ 0%nat.
Proof. by intros (? & (? & ?) & ?). Qed.

Lemma shape_sizes v h ptrs bs :
  shape v h ptrs bs → Forall (λ b, length b = Z.to_nat (Bcap v)) bs.
Proof.
  intros (_ & (_ & _ & _ & _ & Hb) & _). apply blocks_sizes in Hb.
  eapply Forall_impl; [exact Hb|]. cbn. lia.
Qed.

Lemma shape_length v h ptrs bs :
  shape v h ptrs bs → Z.of_nat (length bs) = held v.
Proof.
  intros (_ & (_ & _ & _ & _ & Hb) & Hlen). apply blocks_length in Hb. lia.
Qed.

(** Where item [i] lives. *)
Lemma locate v i :
  wf v → 0 ≤ i < sz v →
  0 ≤ i / Bcap v < dir_size v ∧ 0 ≤ i mod Bcap v < Bcap v ∧
  i = i / Bcap v * Bcap v + i mod Bcap v.
Proof.
  intros Hwf Hi. caps v. unfold sz in Hi.
  pose proof (Z.mod_pos_bound i (Bcap v) ltac:(lia)).
  pose proof (Z.div_mod i (Bcap v) ltac:(lia)).
  split; [|split; [done|lia]]. split; [apply Z.div_pos; lia|].
  apply Z.div_lt_upper_bound; [lia|]. nia.
Qed.

Lemma wp_pget v h ptrs bs i (Q : ref → state (T:=T) → Prop) :
  shape v h ptrs bs → 0 ≤ i < sz v →
  (∀ p b, ptrs !! Z.to_nat (i / Bcap v) = Some p →
          bs !! Z.to_nat (i / Bcap v) = Some b →
          bufs h !! p = Some b → Z.of_nat (length b) = Bcap v →
          Q (p, i mod Bcap v) (v, h)) →
  wp (pget i) (v, h) Q.
Proof.
  intros Hsh Hi HQ.
  pose proof (shape_wf _ _ _ _ Hsh) as Hwf.
  pose proof (shape_dir _ _ _ _ Hsh) as Hdir.
  destruct Hsh as (_ & Hown & Hlen).
  destruct (locate v i Hwf Hi) as (Hq & Hr & Hqr).
  caps v. pose proof (sz_bounds v Hwf) as [Hsz Hmax].
  unfold pget.
  apply wp_bind, wp_assert_valid; [done..|].
  apply wp_bind, wp_size; [lia..|].
  wp_steps. cbv zeta.
  rewrite Z.shiftr_div_pow2 by lia. fold (Bcap v).
  rewrite (wrap32_small (Bcap v - 1)) by lia.
  replace (Bcap v - 1) with (Z.ones (log_buffer_capacity v))
    by (rewrite Z.ones_equiv; unfold Bcap; lia).
  rewrite Z.land_ones by lia. fold (Bcap v).
  rewrite Z.shiftl_mul_pow2 by lia. fold (Bcap v).
  assert (0 ≤ i / Bcap v * Bcap v) by nia.
  wp_steps.
  destruct (lookup_lt_is_Some_2 ptrs (Z.to_nat (i / Bcap v))) as [p Hp].
  { unfold held in Hlen. destruct (extra_buffer v); cbn [b2z] in Hlen; lia. }
  destruct Hown as (Hd0 & Hdn & Hslots & Hsound & Hblocks).
  destruct (blocks_lookup _ _ _ _ _ _ Hblocks Hp) as (b & Hb & Hbuf & HbB).
  pose proof (owns_load h (dir v) _ _ ptrs bs _ p
                (conj Hd0 (conj Hdn (conj Hslots (conj Hsound Hblocks)))) Hp) as Hload.
  rewrite Z2Nat.id in Hload by lia.
  eapply wp_mem_done; [exact Hload|]. cbv beta.
  eapply wp_mem_done; [eapply item_run; [exact Hbuf|lia]|].
  by eapply HQ.
Qed.

Lemma cells_lookup v h ptrs bs i b :
  shape v h ptrs bs → 0 ≤ i < sz v →
  bs !! Z.to_nat (i / Bcap v) = Some b →
  cells_of v bs !! Z.to_nat i = b !! Z.to_nat (i mod Bcap v).
Proof.
  intros Hsh Hi Hb. pose proof (shape_wf _ _ _ _ Hsh) as Hwf.
  destruct (locate v i Hwf Hi) as (Hq & Hr & Hqr).
  unfold cells_of. rewrite lookup_take_lt by lia.
  rewrite <- (concat_uniform_lookup (Z.to_nat (Bcap v)) bs (Z.to_nat (i / Bcap v))
                (Z.to_nat (i mod Bcap v)) b);
    [|by eapply shape_sizes|done|lia].
  f_equal. rewrite Hqr at 1. caps v. nia.
Qed.

Lemma get_run v h ptrs bs i :
  shape v h ptrs bs → 0 ≤ i < sz v →
  ∃ c, cells_of v bs !! Z.to_nat i = Some c ∧ get i (v, h) = Done c (v, h).
Proof.
  intros Hsh Hi. pose proof (shape_wf _ _ _ _ Hsh) as Hwf.
  destruct (locate v i Hwf Hi) as (Hq & Hr & Hqr).
  assert (wp (get i) (v, h)
            (λ c s, cells_of v bs !! Z.to_nat i = Some c ∧ s = (v, h))) as Hwp.
  { unfold get, index. apply wp_bind. eapply (wp_pget v h ptrs bs); [done|done|].
    intros p b Hp Hb Hbuf HbB. unfold load_ref. cbn [fst snd].
    destruct (lookup_lt_is_Some_2 b (Z.to_nat (i mod Bcap v))) as [c Hc];
      [dlia|].
    eapply wp_mem_done; [eapply load_cell_run; [exact Hbuf|dlia|exact Hc]|].
    split; [|done]. by erewrite cells_lookup. }
  apply wp_elim in Hwp as (c & s' & Hrun & Hc & ->). by exists c.
Qed.

Lemma put_run v h ptrs bs i x :
  shape v h ptrs bs → 0 ≤ i < sz v →
  ∃ h' bs', put i x (v, h) = Done tt (v, h') ∧ next h' = next h ∧
            shape v h' ptrs bs' ∧
            cells_of v bs' = <[Z.to_nat i := Some x]> (cells_of v bs).
Proof.
  intros Hsh Hi. pose proof (shape_wf _ _ _ _ Hsh) as Hwf.
  destruct (locate v i Hwf Hi) as (Hq & Hr & Hqr).
  assert (wp (put i x) (v, h)
            (λ _ s, ∃ h' bs', s = (v, h') ∧ next h' = next h ∧
               shape v h' ptrs bs' ∧
               cells_of v bs' = <[Z.to_nat i := Some x]> (cells_of v bs))) as Hwp.
  { unfold put, index. apply wp_bind. eapply (wp_pget v h ptrs bs); [done|done|].
    intros p b Hp Hb Hbuf HbB. unfold store_ref. cbn [fst snd].
    destruct Hsh as (_ & Hown & Hlen).
    destruct (owns_store_cell _ _ _ _ _ _ _ _ _ (i mod Bcap v) (Some x) Hown Hp Hb Hr)
      as (h' & Hst & Hnext & Hown').
    eapply wp_mem_done; [exact Hst|].
    exists h'. eexists. split; [done|]. split; [done|]. split; [done|].
    unfold cells_of.
    rewrite (concat_uniform_insert (Z.to_nat (Bcap v))); [|  |done|lia].
    - rewrite take_insert_lt by lia. f_equal. rewrite Hqr at 3. caps v. nia.
    - apply shape_sizes with (h := h) (ptrs := ptrs). done. }
  apply wp_elim in Hwp as ([] & s' & Hrun & h' & bs' & -> & ?). by exists h', bs'.
Qed.
End access.

(** ** pop_back *)

Lemma wp_eq {S A} (m : M S A) (s : S) a s' :
  wp m s (λ a' s'', a' = a ∧ s'' = s') → m s = Done a s'.
Proof. intros Hwp. apply wp_elim in Hwp as (? & ? & -> & -> & ->). done. Qed.

Lemma wp_unbind {S A B} (m : M S A) (k : A → M S B) (s : S) Q :
  wp (bind m k) s Q → wp m s (λ a s', wp (k a) s' Q).
Proof. unfold wp, bind. by destruct (m s). Qed.

Lemma Dcap_cases v :
  1 ≤ log_buffer_capacity v ≤ 29 →
  Dcap v = 1 ∨ Dcap v = 2 ∨ ∃ k, 1 ≤ k ∧ Dcap v = 4 * k.
Proof.
  intros HL. unfold Dcap.
  set (n := log_buffer_capacity v - b2z (big_buffer v)).
  assert (0 ≤ n) by (subst n; destruct (big_buffer v); cbn [b2z]; lia).
  destruct (decide (n = 0)) as [->|?]; [by left|].
  destruct (decide (n = 1)) as [->|?]; [by right; left|].
  right; right. exists (2 ^ (n - 2)). split; [apply pow2_pos; lia|].
  rewrite (pow2_pred n) by lia. rewrite (pow2_pred (n - 1)) by lia.
  replace (n - 1 - 1) with (n - 2) by lia. lia.
Qed.

Lemma settled_small v :
  wf v → settled v → held v * 4 = Dcap v →
  big_buffer v = false ∧ log_buffer_capacity v = 2 ∧ Dcap v = 4 ∧ Bcap v = 4 ∧
  dir_size v = 1 ∧ extra_buffer v = false.
Proof.
  intros Hwf Hs Heq. destruct (Hs Heq) as [Hbig HL].
  caps v. unfold held, Dcap, Bcap in *. rewrite Hbig, HL in *. cbn [b2z] in *.
  change (2 ^ (2 - 0)) with 4 in *. change (2 ^ 2) with 4 in *.
  destruct (extra_buffer v); cbn [b2z] in *; repeat split; lia.
Qed.

Section pop_back.
Context {T : Type}.
Implicit Types (v : vector) (h : heap T) (ptrs : list loc).
Implicit Types (bs : list (list (option T))).

Lemma wp_pop_back_shrink v h ptrs bs (Q : unit → state (T:=T) → Prop) :
  shape v h ptrs bs → settled v → 0 < sz v →
  (∀ h1 ptrs1 bs1,
     shape (shrunk v) h1 ptrs1 bs1 →
     sz (shrunk v) = sz v - 1 →
     cells_of (shrunk v) bs1 = take (Z.to_nat (sz v - 1)) (cells_of v bs) →
     (held (shrunk v) * 4 = Dcap (shrunk v) →
      extra_buffer (shrunk v) = false ∧
      (big_buffer (shrunk v) = true → last_buffer_size (shrunk v) = 0)) →
     next h1 = next h →
     ((last_buffer_size v = 1 ∧ extra_buffer v = true →
       ∃ p, load_slot (dir v) (dir_size v) h = Done (Some p) h ∧
            delete_buf (Some p) h = Done tt h1) ∧
      (¬ (last_buffer_size v = 1 ∧ extra_buffer v = true) → h1 = h)) →
     Q tt (shrunk v, h1)) →
  wp pop_back_shrink (v, h) Q.
Proof.
  intros Hsh Hset Hsz HQ.
  pose proof (shape_wf _ _ _ _ Hsh) as Hwf.
  pose proof (shape_sizes _ _ _ _ Hsh) as Hsizes.
  pose proof (shape_length _ _ _ _ Hsh) as Hbslen.
  destruct Hsh as (_ & Hown & Hlen). caps v.
  pose proof (Dcap_cases v ltac:(lia)) as HD.
  unfold pop_back_shrink. wp_steps.
  destruct (Z.eqb_spec 0 (last_buffer_size v)) as [Hz|Hz].
  - (* the last buffer becomes the extra buffer *)
    assert (He : extra_buffer v = false) by (apply (wf_empty v Hwf); lia).
    assert (2 ≤ dir_size v) by (unfold sz in Hsz; nia).
    assert (held v * 4 ≠ Dcap v).
    { intros Heq. destruct (settled_small v Hwf Hset Heq) as (_ & _ & _ & _ & ? & _). lia. }
    wp_steps. unwrap.
    match goal with |- Q tt (?v1, _) => assert (Hv1 : v1 = shrunk v) end.
    { unfold shrunk. destruct (Z.eqb_spec (last_buffer_size v) 0); [|lia].
      by destruct v. }
    rewrite Hv1. apply (HQ h ptrs bs); [..|split; [intros [? ?]; first [lia|congruence]|done]];
      rewrite <- ?Hv1; clear Hv1 HQ.
    all: destruct v as [d ds lbs L big e]; explicit; subst e; cbn [b2z] in *.
    + split; [|split; [done|explicit; lia]].
      constructor; explicit; try lia; try done.
    + lia.
    + rewrite take_take. f_equal. lia.
    + lia.
    + done.
  - wp_steps.
    destruct (Z.eqb_spec 0 (last_buffer_size v - 1)) as [Hz1|Hz1];
      [destruct (extra_buffer v) eqn:He|]; cbn [andb].
    + (* the extra buffer is given back *)
      destruct (owns_drop_last h (dir v) _ _ ptrs bs (Z.to_nat (dir_size v)) Hown)
        as (p & h' & Hload & Hdel & Hnext & Hown').
      { unfold held in Hlen. rewrite He in Hlen. cbn [b2z] in Hlen. lia. }
      rewrite Z2Nat.id in Hload by lia.
      wp_steps. eapply wp_mem_done; [exact Hload|]. cbv beta.
      wp_step. eapply wp_mem_done; [exact Hdel|]. cbv beta. wp_steps.
      assert (held v * 4 ≠ Dcap v).
      { intros Heq. destruct (settled_small v Hwf Hset Heq) as (_&_&_&_&_&?). congruence. }
      match goal with |- Q tt (?v1, _) => assert (Hv1 : v1 = shrunk v) end.
      { unfold shrunk. destruct (Z.eqb_spec (last_buffer_size v) 0); [lia|].
        destruct (Z.eqb_spec (last_buffer_size v - 1) 0); [|lia].
        rewrite He. by destruct v. }
      rewrite Hv1.
      apply (HQ h' (take (Z.to_nat (dir_size v)) ptrs) (take (Z.to_nat (dir_size v)) bs));
        [..|split; [intros _; by exists p|intros Hn; destruct Hn; split; [lia|done]]];
        rewrite <- ?Hv1; clear Hv1 HQ.
      all: destruct v as [d ds lbs L big e]; explicit; subst e; cbn [b2z] in *.
      * split; [|split; [exact Hown'|]].
        -- constructor; explicit; try lia; try done.
           destruct HD as [HD|[HD|(k & ? & HD)]]; lia.
        -- explicit. rewrite length_take. lia.
      * lia.
      * rewrite take_take.
        rewrite (concat_uniform_take (Z.to_nat (2 ^ L))) by done.
        rewrite take_take. f_equal. nia.
      * intros _. split; [done|]. lia.
      * done.
    + wp_steps.
      match goal with |- Q tt (?v1, _) => assert (Hv1 : v1 = shrunk v) end.
      { unfold shrunk. destruct (Z.eqb_spec (last_buffer_size v) 0); [lia|].
        destruct v. fields. by subst. }
      rewrite Hv1. apply (HQ h ptrs bs); [..|split; [intros [? ?]; first [lia|congruence]|done]];
      rewrite <- ?Hv1; clear Hv1 HQ.
      all: destruct v as [d ds lbs L big e]; explicit; subst e; cbn [b2z] in *.
      * split; [|split; [done|explicit; lia]].
        constructor; explicit; try lia; try done.
      * lia.
      * rewrite take_take. f_equal. lia.
      * intros Heq. split; [done|].
        destruct (settled_small _ Hwf Hset Heq) as (? & _). explicit. congruence.
      * done.
    + wp_steps.
      assert (He1 : last_buffer_size v - 1 = 0 → extra_buffer v = false) by lia.
      match goal with |- Q tt (?v1, _) => assert (Hv1 : v1 = shrunk v) end.
      { unfold shrunk. destruct (Z.eqb_spec (last_buffer_size v) 0); [lia|].
        destruct (Z.eqb_spec (last_buffer_size v - 1) 0); [lia|].
        rewrite andb_true_r. by destruct v. }
      rewrite Hv1. apply (HQ h ptrs bs); [..|split; [intros [? ?]; first [lia|congruence]|done]];
      rewrite <- ?Hv1; clear Hv1 HQ.
      all: destruct v as [d ds lbs L big e]; explicit.
      * split; [|split; [done|explicit; lia]].
        constructor; explicit; try lia; try done.
      * lia.
      * rewrite take_take. f_equal. lia.
      * intros Heq.
        destruct (settled_small _ Hwf Hset Heq) as (? & _ & _ & _ & _ & ?). explicit.
        split; [done|]. congruence.
      * done.
Qed.
End pop_back.

Section downsize.
Context {T : Type}.
Implicit Types (v : vector) (h : heap T) (ptrs : list loc).
Implicit Types (bs : list (list (option T))).

Lemma wp_downsize_dir v h ptrs bs (Q : unit → state (T:=T) → Prop) :
  shape v h ptrs bs → big_buffer v = false → extra_buffer v = false →
  dir_size v * 2 ≤ Dcap v →
  (∀ h', shape (set_big_buffer true (set_dir (next h) v)) h' ptrs bs →
         (next h ≤ next h')%nat →
         Q tt (set_big_buffer true (set_dir (next h) v), h')) →
  wp downsize_dir (v, h) Q.
Proof.
  intros Hsh Hbig He Hds HQ.
  pose proof (shape_wf _ _ _ _ Hsh) as Hwf.
  destruct Hsh as (_ & Hown & Hlen). caps v.
  unfold downsize_dir. wp_steps.
  destruct (owns_move_dir h (dir v) _ _ ptrs bs (dir_size v) (Dcap v / 2) Hown)
    as (h1 & h2 & h' & Hnew & Hcopy & Hdel & Hnext & Hown').
  { unfold held in Hlen. rewrite He in Hlen. cbn [b2z] in Hlen. lia. }
  { lia. }
  { apply Z.div_le_lower_bound; lia. }
  eapply wp_mem_done; [exact Hnew|]. cbv beta. wp_steps.
  eapply wp_mem_done; [exact Hcopy|]. cbv beta.
  wp_step. eapply wp_mem_done; [exact Hdel|]. cbv beta. wp_steps.
  apply HQ; [|lia].
  assert (HD2 : Dcap v / 2 = 2 ^ (log_buffer_capacity v - 1)).
  { unfold Dcap. rewrite Hbig. cbn [b2z]. rewrite Z.sub_0_r.
    rewrite (pow2_pred (log_buffer_capacity v)) by lia.
    rewrite Z.mul_comm, Z.div_mul by lia. done. }
  pose proof (pow2_pred (log_buffer_capacity v) ltac:(lia)) as HB2.
  destruct v as [d ds lbs L big e]. explicit. subst big e. cbn [b2z] in *.
  rewrite Z.sub_0_r in *.
  split; [|split].
  - constructor; explicit; try lia; try done.
  - explicit. by rewrite <- HD2.
  - explicit. lia.
Qed.

Lemma wp_downsize_buffers v h ptrs bs (Q : unit → state (T:=T) → Prop) :
  shape v h ptrs bs → last_buffer_size v = 0 → extra_buffer v = false →
  big_buffer v = true → dir_size v * 2 < Dcap v →
  (∀ h' ptrs' bs',
     let v' := Vector (dir v) (2 * dir_size v - 1) 0 (log_buffer_capacity v - 1)
                 false false in
     shape v' h' ptrs' bs' →
     bs' = halved (Z.to_nat (Bcap v / 2)) (take (Z.to_nat (dir_size v - 1)) bs)
           ++ [replicate (Z.to_nat (Bcap v / 2)) None] →
     (next h ≤ next h')%nat →
     Q tt (v', h')) →
  wp downsize_buffers (v, h) Q.
Proof.
  intros Hsh Hlbs He Hbig Hds HQ.
  pose proof (shape_wf _ _ _ _ Hsh) as Hwf.
  destruct Hsh as (_ & Hown & Hlen). caps v. rewrite Hbig in *.
  unfold held in Hlen. rewrite He in Hlen. cbn [b2z] in Hlen.
  assert (HL3 : 3 ≤ log_buffer_capacity v).
  { destruct (decide (log_buffer_capacity v ≤ 2)); [|lia].
    assert (Bcap v ≤ 2 ^ 2) by (apply pow2_le; lia). lia. }
  assert (HB2 : Bcap v / 2 = 2 ^ (log_buffer_capacity v - 1)).
  { unfold Bcap. rewrite (pow2_pred (log_buffer_capacity v)) by lia.
    rewrite Z.mul_comm, Z.div_mul by lia. done. }
  assert (HBeven : Bcap v = 2 * (Bcap v / 2)).
  { rewrite HB2. unfold Bcap. apply pow2_pred. lia. }
  assert (HD : Dcap v = Bcap v / 2).
  { rewrite HB2. unfold Dcap. by rewrite Hbig. }
  unfold downsize_buffers. wp_steps.
  wp_assert_by idtac.
  { replace 1 with (Z.ones 1) by done. rewrite Z.land_ones by lia.
    change (2 ^ 1) with 2. rewrite HBeven, Z.mul_comm. apply Z.mod_mul. lia. }
  wp_steps. unwrap.
  (* the empty last buffer goes *)
  set (n := Z.to_nat (dir_size v - 1)).
  destruct (owns_drop_last h (dir v) _ _ ptrs bs n Hown)
    as (p & h1 & Hload & Hdel & Hnext1 & Hown1).
  { lia. }
  replace (Z.of_nat n) with (dir_size v - 1) in Hload by lia.
  eapply wp_mem_done; [exact Hload|]. cbv beta.
  wp_step. eapply wp_mem_done; [exact Hdel|]. cbv beta.
  (* the loop *)
  destruct Hown1 as (Hd0 & Hdn & (slots & Hd & Hcap & Hsl) & Hsound1 & Hblocks1).
  assert (Hln : length (take n ptrs) = n).
  { rewrite length_take. lia. }
  destruct (split_loop (dir v) (Bcap v) (dir_size v) n h1 slots
              (take n ptrs) (take n bs) [] [])
    as (h2 & slots2 & more & Hrun & Hd2 & Hlen2 & Hsl2 & Hsound2 & Hblocks2 & Hmore & Hnext2);
    [done|done|lia|lia|cbn [length]; lia|cbn [length]; lia|lia|done|done|done
    |by rewrite app_nil_r|done|constructor|].
  rewrite !app_nil_r in *.
  replace (dir_size v - Z.of_nat n) with 1 in Hrun by lia.
  wp_step. eapply wp_done.
  { rewrite (repeat_from_mem v _ _
               (λ i, split_buffer (dir v) (Bcap v) (wrap32 (wrap32 (dir_size v - i) - 1)))).
    - apply mem_done. exact Hrun.
    - intros k h' Hk. rewrite iter_succ_wrap32 by lia.
      rewrite bind_rd. cbv zeta.
      rewrite bind_assert by (bool_side; unwrap; lia).
      by rewrite bind_rd. }
  cbv beta.
  (* the new members, and the new last buffer *)
  wp_steps. unwrap.
  unfold Bcap at 1. fields. rewrite <- HB2.
  unwrap.
  replace (2 * dir_size v - 1 - 1) with (Z.of_nat (length more)) by lia.
  assert (Hown2 : owns h2 (dir v) (Dcap v) (Bcap v / 2) more
                    (halved (Z.to_nat (Bcap v / 2)) (take n bs))).
  { split; [done|]. split; [lia|]. split; [|done].
    exists slots2. split; [done|]. split; [lia|done]. }
  destruct (owns_append h2 (dir v) _ _ more _ Hown2) as (h3 & Hst & Hnext3 & Hown3);
    [lia|lia|].
  wp_steps.
  eapply wp_mem_done; [exact Hst|]. cbv beta. wp_steps.
  subst n. destruct v as [d ds lbs L big e]. fields. subst lbs e big.
  eapply HQ; [|done|lia].
  split; [|split].
  - constructor; explicit; rewrite ?Z.sub_0_r in *; try lia; try done.
  - explicit. rewrite ?Z.sub_0_r in *. rewrite <- HB2. rewrite HB2 at 1. exact Hown3.
  - explicit. rewrite length_app. cbn [length]. lia.
Qed.

Lemma wp_downsize v h ptrs bs (Q : unit → state (T:=T) → Prop) :
  shape v h ptrs bs → held v * 4 = Dcap v → extra_buffer v = false →
  (big_buffer v = true → last_buffer_size v = 0) →
  (∀ v' h' ptrs' bs',
     shape v' h' ptrs' bs' → settled v' → sz v' = sz v →
     cells_of v' bs' = cells_of v bs → (next h ≤ next h')%nat →
     Q tt (v', h')) →
  wp downsize (v, h) Q.
Proof.
  intros Hsh Heq He Hbl HQ.
  pose proof (shape_wf _ _ _ _ Hsh) as Hwf.
  pose proof (shape_sizes _ _ _ _ Hsh) as Hsizes.
  pose proof (shape_length _ _ _ _ Hsh) as Hbslen.
  caps v. pose proof (Dcap_cases v ltac:(lia)) as HD.
  unfold held in Heq, Hbslen. rewrite He in Heq, Hbslen. cbn [b2z] in Heq, Hbslen.
  unfold downsize. apply wp_bind, wp_size; [lia..|]. wp_steps.
  destruct (big_buffer v) eqn:Hbig.
  - specialize (Hbl eq_refl).
    eapply wp_downsize_buffers; [done|done|done|done|lia|].
    intros h' ptrs' bs' v' Hsh' Hbs' Hnext.
    pose proof (shape_wf _ _ _ _ Hsh') as Hwf'.
    assert (Hsz' : sz v' = sz v).
    { subst v'. explicit. rewrite Hbl.
      rewrite (pow2_pred (log_buffer_capacity v)) by lia. lia. }
    apply wp_bind, wp_size; [subst v'; fields; lia..|].
    wp_assert_by lia.
    eapply HQ; [done| |done| |done].
    + intros Heq'. subst v'. explicit. split; [done|].
      rewrite Hbig in *. cbn [b2z] in *. rewrite Z.sub_0_r in *.
      assert (2 ^ (log_buffer_capacity v - 1) = 2 ^ 2) as Hpow by lia.
      apply Z.pow_inj_r in Hpow; lia.
    + unfold cells_of. rewrite Hsz'. rewrite Hbs', concat_app, concat_halved.
      set (n := Z.to_nat (dir_size v - 1)).
      rewrite (concat_uniform_take (Z.to_nat (Bcap v))) by done.
      assert (Hszn : Z.to_nat (sz v) = (n * Z.to_nat (Bcap v))%nat).
      { unfold sz. rewrite Hbl. subst n. nia. }
      rewrite Hszn. apply take_app_length'.
      rewrite length_take, (concat_uniform_length (Z.to_nat (Bcap v))) by done.
      subst n. nia.
  - eapply wp_downsize_dir; [done|done|done|lia|].
    intros h' Hsh' Hnext.
    pose proof (shape_wf _ _ _ _ Hsh') as Hwf'.
    apply wp_bind, wp_size; [fields; lia..|].
    wp_assert_by ltac:(explicit; lia).
    eapply HQ; [done| |done|done|done].
    intros Heq'. exfalso. unfold held, Dcap in Heq', Heq. fields.
    rewrite He in Heq'. rewrite ?Hbig in Heq. cbn [b2z] in *.
    rewrite Z.sub_0_r in Heq.
    pose proof (pow2_pred (log_buffer_capacity v) ltac:(lia)). lia.
Qed.
End downsize.

Section pop_back_run.
Context {T : Type}.
Implicit Types (v : vector) (h : heap T) (ptrs : list loc).
Implicit Types (bs : list (list (option T))).

Lemma pop_back_run v h ptrs bs :
  shape v h ptrs bs → settled v → 0 < sz v →
  ∃ h1 v' h' ptrs' bs',
    pop_back_shrink (v, h) = Done tt (shrunk v, h1) ∧
    ((last_buffer_size v = 1 ∧ extra_buffer v = true →
      ∃ p, load_slot (dir v) (dir_size v) h = Done (Some p) h ∧
           delete_buf (Some p) h = Done tt h1) ∧
     (¬ (last_buffer_size v = 1 ∧ extra_buffer v = true) → h1 = h)) ∧
    (if held (shrunk v) * 4 <=? Dcap (shrunk v)
     then downsize (shrunk v, h1) else Done tt (shrunk v, h1)) = Done tt (v', h') ∧
    (held (shrunk v) * 4 ≤ Dcap (shrunk v) →
     held (shrunk v) * 4 = Dcap (shrunk v) ∧ extra_buffer (shrunk v) = false ∧
     (big_buffer (shrunk v) = true → last_buffer_size (shrunk v) = 0)) ∧
    pop_back (v, h) = Done tt (v', h') ∧
    shape v' h' ptrs' bs' ∧ settled v' ∧ sz v' = sz v - 1 ∧
    cells_of v' bs' = take (Z.to_nat (sz v - 1)) (cells_of v bs) ∧
    (next h ≤ next h')%nat.
Proof.
  intros Hsh Hset Hsz.
  pose proof (shape_wf _ _ _ _ Hsh) as Hwf.
  pose proof (shape_dir _ _ _ _ Hsh) as Hdir.
  (* the first step *)
  assert (wp pop_back_shrink (v, h)
            (λ _ s, ∃ h1 ptrs1 bs1, s = (shrunk v, h1) ∧
               shape (shrunk v) h1 ptrs1 bs1 ∧ sz (shrunk v) = sz v - 1 ∧
               cells_of (shrunk v) bs1 = take (Z.to_nat (sz v - 1)) (cells_of v bs) ∧
               (held (shrunk v) * 4 = Dcap (shrunk v) →
                extra_buffer (shrunk v) = false ∧
                (big_buffer (shrunk v) = true → last_buffer_size (shrunk v) = 0)) ∧
               next h1 = next h ∧
               ((last_buffer_size v = 1 ∧ extra_buffer v = true →
                 ∃ p, load_slot (dir v) (dir_size v) h = Done (Some p) h ∧
                      delete_buf (Some p) h = Done tt h1) ∧
                (¬ (last_buffer_size v = 1 ∧ extra_buffer v = true) → h1 = h)))) as Hstep1.
  { eapply wp_pop_back_shrink; [done..|]. intros h1 ptrs1 bs1 ??????.
    by exists h1, ptrs1, bs1. }
  apply wp_elim in Hstep1
    as ([] & s1 & Hrun1 & h1 & ptrs1 & bs1 & -> & Hsh1 & Hsz1 & Hcells1 & Htrig & Hnext1 & Hheap).
  pose proof (shape_wf _ _ _ _ Hsh1) as Hwf1.
  pose proof (shape_dir _ _ _ _ Hsh1) as Hdir1.
  pose proof (wf_space _ Hwf1) as Hspace1.
  (* the rebuild, if any *)
  assert (∃ v' h' ptrs' bs',
            (if held (shrunk v) * 4 <=? Dcap (shrunk v)
             then downsize (shrunk v, h1) else Done tt (shrunk v, h1)) = Done tt (v', h') ∧
            shape v' h' ptrs' bs' ∧ settled v' ∧ sz v' = sz v - 1 ∧
            cells_of v' bs' = take (Z.to_nat (sz v - 1)) (cells_of v bs) ∧
            (next h ≤ next h')%nat)
    as (v' & h' & ptrs' & bs' & Hrun2 & Hsh' & Hset' & Hsz' & Hcells' & Hnext').
  { destruct (Z.leb_spec (held (shrunk v) * 4) (Dcap (shrunk v))) as [Hle|Hgt].
    - assert (Heq : held (shrunk v) * 4 = Dcap (shrunk v)) by lia.
      destruct (Htrig Heq) as [He1 Hb1].
      assert (wp downsize (shrunk v, h1)
                (λ _ s, ∃ v' h' ptrs' bs', s = (v', h') ∧
                   shape v' h' ptrs' bs' ∧ settled v' ∧ sz v' = sz (shrunk v) ∧
                   cells_of v' bs' = cells_of (shrunk v) bs1 ∧
                   (next h1 ≤ next h')%nat)) as Hstep2.
      { eapply wp_downsize; [done..|]. intros v' h' ptrs' bs' ?????.
        by exists v', h', ptrs', bs'. }
      apply wp_elim in Hstep2
        as ([] & s2 & Hrun2 & v' & h' & ptrs' & bs' & -> & ? & ? & ? & ? & ?).
      exists v', h', ptrs', bs'.
      split; [done|]. split; [done|]. split; [done|]. split; [congruence|].
      split; [congruence|lia].
    - exists (shrunk v), h1, ptrs1, bs1.
      split; [done|]. split; [done|]. split; [intros Heq; lia|].
      split; [done|]. split; [done|lia]. }
  exists h1, v', h', ptrs', bs'.
  split; [done|]. split; [done|]. split; [done|]. split.
  { intros Hle. assert (Heq : held (shrunk v) * 4 = Dcap (shrunk v)) by lia.
    destruct (Htrig Heq). done. }
  split; [|done].
  (* the whole of pop_back *)
  pose proof (shape_wf _ _ _ _ Hsh') as Hwf'.
  pose proof (shape_dir _ _ _ _ Hsh') as Hdir'.
  apply wp_eq. caps v. unfold pop_back.
  apply wp_bind, wp_size; [lia..|].
  apply wp_bind, wp_assert_valid; [done..|].
  apply wp_bind, wp_size; [lia..|].
  wp_steps. eapply wp_done; [exact Hrun1|]. cbv beta.
  pose proof (caps_facts _ (wf_log _ Hwf1)) as Hcaps1.
  pose proof (wf_dir_size _ Hwf1). pose proof (wf_log _ Hwf1).
  wp_steps. fold (held (shrunk v)).
  assert (Hh1 : 0 ≤ held (shrunk v) ≤ 2 ^ 29).
  { pose proof (wf_extra _ Hwf1). unfold held.
    destruct (extra_buffer (shrunk v)); cbn [b2z]; lia. }
  unwrap.
  assert (Hfin : wp (assert_valid ;;; let* n := size in assert (wrap64 (n + 1) =? sz v))
                   (v', h') (λ a s, a = tt ∧ s = (v', h'))).
  { pose proof (caps_facts _ (wf_log _ Hwf')) as Hcaps'.
    pose proof (wf_dir_size _ Hwf'). pose proof (wf_log _ Hwf').
    pose proof (wf_last _ Hwf'). pose proof (sz_bounds _ Hwf').
    apply wp_bind, wp_assert_valid; [done..|].
    apply wp_bind, wp_size; [lia..|]. wp_steps. done. }
  destruct (Z.leb_spec (held (shrunk v) * 4) (Dcap (shrunk v))) as [Hle|Hgt].
  - wp_steps. fold (held (shrunk v)). unwrap.
    wp_assert_by lia.
    eapply wp_done; [exact Hrun2|]. wp_steps. apply wp_unbind in Hfin. exact Hfin.
  - injection Hrun2 as <- <-. wp_steps. apply wp_unbind in Hfin. exact Hfin.
Qed.
End pop_back_run.

(** ** push_back *)

Lemma pow2_div2 n : 1 ≤ n → 2 ^ n / 2 = 2 ^ (n - 1).
Proof.
  intros. rewrite (pow2_pred n) by lia. rewrite Z.mul_comm, Z.div_mul by lia. done.
Qed.

Lemma pow2_even n : 1 ≤ n → 2 ^ n = 2 * (2 ^ n / 2).
Proof. intros. rewrite pow2_div2 by lia. apply pow2_pred. lia. Qed.

Section upsize.
Context {T : Type}.
Implicit Types (v : vector) (h : heap T) (ptrs : list loc).
Implicit Types (bs : list (list (option T))).

Lemma wp_upsize_dir v h ptrs bs B (Q : unit → state (T:=T) → Prop) :
  1 ≤ log_buffer_capacity v ≤ 29 → big_buffer v = true →
  owns h (dir v) (Dcap v) B ptrs bs → Z.of_nat (length ptrs) ≤ Dcap v →
  (∀ h', owns h' (next h) (2 * Dcap v) B ptrs bs → (next h ≤ next h')%nat →
         Q tt (set_big_buffer false (set_dir (next h) v), h')) →
  wp upsize_dir (v, h) Q.
Proof.
  intros HL Hbig Hown Hlen HQ.
  pose proof (caps_facts v HL) as Hcaps.
  unfold upsize_dir. wp_steps. unwrap.
  destruct (owns_move_dir h (dir v) _ _ ptrs bs (Dcap v) (2 * Dcap v) Hown)
    as (h1 & h2 & h' & Hnew & Hcopy & Hdel & Hnext & Hown'); [lia..|].
  eapply wp_mem_done; [exact Hnew|]. cbv beta. wp_steps.
  eapply wp_mem_done; [exact Hcopy|]. cbv beta.
  wp_step. eapply wp_mem_done; [exact Hdel|]. cbv beta. wp_steps.
  apply HQ; [done|lia].
Qed.

Lemma wp_upsize_buffers v h ptrs bs (Q : unit → state (T:=T) → Prop) :
  1 ≤ log_buffer_capacity v ≤ 28 → big_buffer v = false → extra_buffer v = false →
  dir_size v = Dcap v → last_buffer_size v = Bcap v →
  owns h (dir v) (Dcap v) (Bcap v) ptrs bs → Z.of_nat (length ptrs) = dir_size v →
  (∀ h' ptrs',
     owns h' (dir v) (Dcap v) (2 * Bcap v) ptrs' (merged bs) →
     Z.of_nat (length ptrs') = dir_size v / 2 → (next h ≤ next h')%nat →
     Q tt (Vector (dir v) (dir_size v / 2) (2 * Bcap v) (log_buffer_capacity v + 1)
             true false, h')) →
  wp upsize_buffers (v, h) Q.
Proof.
  intros HL Hbig He Hds Hlbs Hown Hlen HQ.
  pose proof (caps_facts v ltac:(lia)) as Hcaps. rewrite Hbig in Hcaps.
  assert (HD2 : Dcap v = 2 * (Dcap v / 2)).
  { destruct Hcaps as (_ & _ & <-). unfold Bcap. apply pow2_even. lia. }
  unfold upsize_buffers. wp_steps.
  wp_assert_by idtac.
  { replace 1 with (Z.ones 1) by done. rewrite Z.land_ones by lia.
    change (2 ^ 1) with 2. rewrite HD2, Z.mul_comm. apply Z.mod_mul. lia. }
  wp_steps.
  (* the loop *)
  set (m := Z.to_nat (Dcap v / 2)).
  replace (Z.to_nat ((Dcap v + 1) / 2)) with m; cycle 1.
  { subst m. f_equal. rewrite HD2 at 2.
    rewrite (Z.mul_comm 2), Z.div_add_l by lia. change (1 / 2) with 0. lia. }
  destruct Hown as (Hd0 & Hdn & (slots & Hd & Hcap & Hsl) & Hsound & Hblocks).
  destruct (merge_loop (dir v) (Bcap v) m 0 h slots [] [] ptrs bs)
    as (h' & slots' & ptrs' & Hrun & Hd' & Hlen' & Hsl' & Hsound' & Hblocks' & Hmore & Hnext);
    [done|done|lia|lia|lia|lia|lia|done|done|done|constructor|done|].
  cbn [app] in *.
  eapply wp_done.
  { rewrite (repeat_from_mem (set_dir_size (Dcap v) v) _ _ (merge_pair (dir v) (Bcap v))).
    - apply mem_done. exact Hrun.
    - intros k h'' _. by rewrite bind_rd. }
  cbv beta. wp_steps. unwrap.
  match goal with |- Q tt (?v1, _) =>
    replace v1 with (Vector (dir v) (dir_size v / 2) (2 * Bcap v)
                       (log_buffer_capacity v + 1) true false)
  end; cycle 1.
  { rewrite Hds, Hlbs, (Z.mul_comm 2). rewrite <- He. by destruct v. }
  assert (Hm : Z.of_nat m = Dcap v / 2) by (subst m; lia).
  clearbody m. rewrite Hds in *.
  apply (HQ h' ptrs'); [|lia|lia].
  split; [done|]. split; [lia|]. split; [|done].
  exists slots'. split; [done|]. split; [lia|done].
Qed.

(** [upsize] is called with the last buffer just filled and every slot
    of the directory taken. *)
Lemma wp_upsize v h ptrs bs (Q : unit → state (T:=T) → Prop) :
  1 ≤ log_buffer_capacity v ≤ 29 →
  (big_buffer v = false → log_buffer_capacity v ≤ 28) →
  extra_buffer v = false →
  dir_size v = Dcap v → last_buffer_size v = Bcap v →
  owns h (dir v) (Dcap v) (Bcap v) ptrs bs → Z.of_nat (length ptrs) = dir_size v →
  (∀ v' h' ptrs' bs',
     1 ≤ log_buffer_capacity v' ≤ 29 →
     owns h' (dir v') (Dcap v') (Bcap v') ptrs' bs' →
     Z.of_nat (length ptrs') = dir_size v' →
     1 ≤ dir_size v' < Dcap v' → Dcap v' < (dir_size v' + 1) * 4 →
     last_buffer_size v' = Bcap v' → extra_buffer v' = false →
     dir_size v' * Bcap v' = dir_size v * Bcap v →
     concat bs' = concat bs → (next h ≤ next h')%nat →
     Q tt (v', h')) →
  wp upsize (v, h) Q.
Proof.
  intros HL HL28 He Hds Hlbs Hown Hlen HQ.
  pose proof (caps_facts v HL) as Hcaps.
  pose proof (blocks_length _ _ _ _ (proj2 (proj2 (proj2 (proj2 Hown))))) as Hbl.
  unfold upsize. apply wp_bind, wp_size; [lia..|]. wp_steps.
  destruct (big_buffer v) eqn:Hbig.
  - eapply wp_upsize_dir; [done|done|done|lia|].
    intros h' Hown' Hnext.
    apply wp_bind, wp_size; [fields; lia..|].
    wp_assert_by ltac:(explicit; lia).
    assert (HD' : Dcap (set_big_buffer false (set_dir (next h) v)) = 2 * Dcap v).
    { unfold Dcap. fields. rewrite Hbig. cbn [b2z]. rewrite Z.sub_0_r.
      apply pow2_pred. lia. }
    eapply (HQ _ h' ptrs bs); fields; rewrite ?HD'; try done; try lia.
  - specialize (HL28 eq_refl).
    eapply wp_upsize_buffers; [lia|done..|].
    intros h' ptrs' Hown' Hlen' Hnext.
    assert (HD2 : Dcap v = 2 * (Dcap v / 2)).
    { destruct Hcaps as (_ & _ & <-). unfold Bcap. apply pow2_even. lia. }
    assert (HB' : 2 ^ (log_buffer_capacity v + 1) = 2 * Bcap v).
    { unfold Bcap. apply pow2_succ. lia. }
    assert (HD' : 2 ^ (log_buffer_capacity v + 1 - 1) = Dcap v).
    { unfold Dcap. rewrite Hbig. cbn [b2z]. f_equal. lia. }
    rewrite Hds in *.
    assert (Hcc : concat (merged bs) = concat bs).
    { apply (concat_merged bs (Z.to_nat (Dcap v / 2))). rewrite <- Hbl. lia. }
    apply wp_bind, wp_size; [fields; lia..|].
    wp_assert_by ltac:(explicit; rewrite ?HB'; unfold Bcap, Dcap in *; lia).
    eapply (HQ _ h' ptrs' (merged bs)); explicit; rewrite ?HB', ?HD'; try done; try lia.
Qed.
End upsize.

(** ** The whole of push_back *)

Lemma take_push {A} (l : list A) (n : nat) c :
  (n < length l)%nat → take (S n) (<[n := c]> l) = take n l ++ [c].
Proof.
  intros Hn. rewrite (take_S_r _ _ c) by (by apply list_lookup_insert_eq).
  by rewrite take_insert_ge.
Qed.

Lemma full_log v :
  1 ≤ log_buffer_capacity v → big_buffer v = false →
  Dcap v * Bcap v ≤ max_items → log_buffer_capacity v ≤ 28.
Proof.
  intros HL Hbig Hmax. unfold Dcap, Bcap, max_items in *.
  rewrite Hbig in *. cbn [b2z] in *. rewrite Z.sub_0_r in Hmax.
  destruct (decide (log_buffer_capacity v ≤ 28)); [done|].
  pose proof (pow2_le 29 (log_buffer_capacity v) ltac:(lia)) as Hle.
  assert (2 ^ 29 * 2 ^ 29 ≤ 2 ^ log_buffer_capacity v * 2 ^ log_buffer_capacity v)
    by (apply Z.mul_le_mono_nonneg; lia).
  change (2 ^ 29 * 2 ^ 29) with (2 ^ 58) in *. lia.
Qed.

Section push_back.
Context {T : Type}.
Implicit Types (v : vector) (h : heap T) (ptrs : list loc).
Implicit Types (bs : list (list (option T))).

Lemma push_back_run v h ptrs bs x :
  shape v h ptrs bs → settled v → sz v < max_items →
  ∃ v' h' ptrs' bs',
    push_back x (v, h) = Done tt (v', h') ∧
    shape v' h' ptrs' bs' ∧ settled v' ∧ sz v' = sz v + 1 ∧
    cells_of v' bs' = cells_of v bs ++ [Some x] ∧ (next h ≤ next h')%nat.
Proof.
  intros Hsh Hset Hmax.
  pose proof (shape_wf _ _ _ _ Hsh) as Hwf.
  pose proof (shape_dir _ _ _ _ Hsh) as Hdir.
  pose proof (shape_sizes _ _ _ _ Hsh) as Hsizes.
  pose proof (shape_length _ _ _ _ Hsh) as Hbslen.
  destruct Hsh as (_ & Hown & Hlen). caps v.
  pose proof (sz_bounds v Hwf) as [Hsz Hcapmax].
  assert (Hheld : dir_size v ≤ held v ≤ dir_size v + 1)
    by (unfold held; destruct (extra_buffer v); cbn [b2z]; lia).
  cut (wp (push_back x) (v, h)
         (λ _ s, ∃ v' h' ptrs' bs', s = (v', h') ∧
            shape v' h' ptrs' bs' ∧ settled v' ∧ sz v' = sz v + 1 ∧
            cells_of v' bs' = cells_of v bs ++ [Some x] ∧ (next h ≤ next h')%nat)).
  { intros Hwp. apply wp_elim in Hwp as ([] & s' & Hrun & v' & h' & ptrs' & bs' & -> & ?).
    by exists v', h', ptrs', bs'. }
  unfold push_back.
  apply wp_bind, wp_size; [lia..|].
  apply wp_bind, wp_assert_valid; [done..|].
  wp_steps. unwrap.
  (* the item goes into the last buffer *)
  destruct (lookup_lt_is_Some_2 ptrs (Z.to_nat (dir_size v - 1))) as [p Hp]; [lia|].
  destruct (lookup_lt_is_Some_2 bs (Z.to_nat (dir_size v - 1))) as [b Hb]; [lia|].
  pose proof (owns_load h (dir v) _ _ ptrs bs _ p Hown Hp) as Hload.
  rewrite Z2Nat.id in Hload by lia.
  eapply wp_mem_done; [exact Hload|]. cbv beta.
  destruct (owns_store_cell _ _ _ _ _ _ _ _ _ (last_buffer_size v) (Some x) Hown Hp Hb)
    as (h1 & Hst & Hnext1 & Hown1); [lia|].
  wp_step. eapply wp_mem_done; [exact Hst|]. cbv beta. wp_steps. unwrap.
  set (bs1 := <[Z.to_nat (dir_size v - 1) :=
                <[Z.to_nat (last_buffer_size v) := Some x]> b]> bs) in *.
  assert (Hlong : (Z.to_nat (sz v) < length (concat bs))%nat).
  { rewrite (concat_uniform_length (Z.to_nat (Bcap v))) by done. unfold sz. nia. }
  assert (Hcat1 : concat bs1 = <[Z.to_nat (sz v) := Some x]> (concat bs)).
  { subst bs1. rewrite (concat_uniform_insert (Z.to_nat (Bcap v))); [|done|done|lia].
    f_equal. unfold sz. nia. }
  assert (Hcells1 : take (Z.to_nat (sz v + 1)) (concat bs1) = cells_of v bs ++ [Some x]).
  { rewrite Hcat1. unfold cells_of.
    replace (Z.to_nat (sz v + 1)) with (S (Z.to_nat (sz v))) by lia.
    by apply take_push. }
  assert (Hlong1 : (Z.to_nat (sz v + 1) ≤ length (concat bs1))%nat).
  { rewrite Hcat1, length_insert. lia. }
  clear Hcat1.
  clearbody bs1. clear Hst Hload.
  match goal with |- wp _ _ ?Q1 =>
    assert (Hfin : ∀ v' h' ptrs' bs',
              shape v' h' ptrs' bs' → settled v' → sz v' = sz v + 1 →
              cells_of v' bs' = cells_of v bs ++ [Some x] → (next h ≤ next h')%nat →
              Q1 tt (v', h'))
  end.
  { intros v' h' ptrs' bs' Hsh' Hset' Hsz' Hcells' Hnext'.
    pose proof (shape_wf _ _ _ _ Hsh') as Hwf'.
    pose proof (caps_facts _ (wf_log _ Hwf')) as Hcaps'.
    pose proof (wf_dir_size _ Hwf'). pose proof (wf_log _ Hwf').
    pose proof (wf_last _ Hwf').
    apply wp_bind, wp_assert_valid; [done|by eapply shape_dir|].
    apply wp_bind, wp_size; [lia..|]. wp_steps.
    by exists v', h', ptrs', bs'. }
  cbv beta in Hfin.
  pose proof (λ v' h' ptrs' bs' H1 H2 H3 H4 H5,
                wp_unbind _ _ _ _ (Hfin v' h' ptrs' bs' H1 H2 H3 H4 H5)) as Hend.
  cbv beta in Hend. clear Hfin.
  destruct (Z.eqb_spec (last_buffer_size v + 1) (Bcap v)) as [Hfull|Hroom].
  2: { (* the last buffer has room left *)
    wp_steps.
    apply (Hend _ h1 ptrs bs1); [| | | |lia].
    all: destruct v as [d ds lbs L big e]; explicit.
    - split; [|split; [done|explicit; lia]].
      constructor; explicit; try lia; try done.
    - exact Hset.
    - lia.
    - rewrite <- Hcells1. f_equal. lia. }
  (* the last buffer is full now *)
  assert (Hfull' : dir_size v * Bcap v = sz v + 1) by (unfold sz; lia).
  wp_steps.
  match goal with |- wp _ _ ?Q2 =>
    assert (Hbump : ∀ w h' ptrs' bs',
              1 ≤ log_buffer_capacity w ≤ 29 →
              owns h' (dir w) (Dcap w) (Bcap w) ptrs' bs' →
              Z.of_nat (length ptrs') = dir_size w + 1 →
              1 ≤ dir_size w < Dcap w → Dcap w ≤ (dir_size w + 1) * 4 →
              ((dir_size w + 1) * 4 = Dcap w →
               big_buffer w = false ∧ log_buffer_capacity w = 2) →
              dir_size w * Bcap w = sz v + 1 →
              take (Z.to_nat (sz v + 1)) (concat bs') = cells_of v bs ++ [Some x] →
              (next h ≤ next h')%nat →
              Q2 tt (w, h'))
  end.
  { intros w h' ptrs' bs' HL' Hown' Hlen' Hds' Hspace' Hset' Hsz' Hcells' Hnext'.
    pose proof (caps_facts w HL') as Hcaps'.
    wp_steps. unwrap.
    apply (Hend _ h' ptrs' bs'); [| | | |lia].
    all: destruct w as [d' ds' lbs' L' big' e']; explicit.
    - split; [|split; [done|explicit; lia]].
      constructor; explicit; try lia; try done.
    - unfold settled. explicit. intros Heq. apply Hset'. lia.
    - lia.
    - rewrite <- Hcells'. f_equal. lia. }
  cbv beta in Hbump.
  destruct (extra_buffer v) eqn:He; cbn [negb].
  { (* the extra buffer is taken into use *)
    apply wp_ret.
    assert (Hlt : dir_size v < Dcap v) by (by apply (wf_extra v Hwf)).
    unfold held in *. rewrite He in *. cbn [b2z] in *.
    apply (Hbump _ h1 ptrs bs1); fields; caps_simpl; try done; try lia.
    intros Heq. apply Hset. unfold held. rewrite He. cbn [b2z]. exact Heq. }
  unfold held in *. rewrite He in *. cbn [b2z] in *. rewrite Z.add_0_r in *.
  wp_steps.
  match goal with |- wp _ _ ?Q3 =>
    assert (Happ : ∀ w h' ptrs' bs',
              1 ≤ log_buffer_capacity w ≤ 29 →
              owns h' (dir w) (Dcap w) (Bcap w) ptrs' bs' →
              Z.of_nat (length ptrs') = dir_size w →
              1 ≤ dir_size w < Dcap w → Dcap w < (dir_size w + 1) * 4 →
              last_buffer_size w = Bcap w → extra_buffer w = false →
              dir_size w * Bcap w = sz v + 1 →
              concat bs' = concat bs1 → (next h ≤ next h')%nat →
              Q3 tt (w, h'))
  end.
  { intros w h' ptrs' bs' HL' Hown' Hlen' Hds' Hspace' Hlbs' He' Hsz' Hcat' Hnext'.
    pose proof (caps_facts w HL') as Hcaps'.
    wp_steps.
    destruct (owns_append h' (dir w) _ _ ptrs' bs' Hown') as (h2 & Hput & Hnext2 & Hown2);
      [lia..|].
    rewrite Hlen' in Hput.
    eapply wp_mem_done; [exact Hput|].
    apply (Hbump _ h2 (ptrs' ++ [next h']) (bs' ++ [replicate (Z.to_nat (Bcap w)) None]));
      fields; caps_simpl; try done; try lia.
    - rewrite length_app. cbn [length]. lia.
    - rewrite concat_app, take_app_le; by rewrite Hcat'. }
  cbv beta in Happ.
  destruct (Z.eqb_spec (dir_size v) (Dcap v)) as [Hdfull|Hdroom].
  - (* no slot is left: the directory or the buffers grow first *)
    eapply (wp_upsize _ h1 ptrs bs1); fields; caps_simpl; try done; try lia.
    + intros Hbig. apply full_log; [lia|done|]. rewrite <- Hdfull. lia.
    + intros v' h' ptrs' bs' HL' Hown' Hlen' Hds' Hspace' Hlbs' He' Hsz' Hcat' Hnext'.
      apply (Happ v' h' ptrs' bs'); try done; try lia.
  - apply wp_ret. apply (Happ _ h1 ptrs bs1); fields; caps_simpl; try done; try lia.
Qed.
End push_back.

(** ** Framing: the rules *)

Section local_rules.
Context {T S : Type} `{Heaped T S}.

Lemma local_ret {A} (a : A) : local (ret (S:=S) a).
Proof. intros s f a' s' [= <- <-] Hap. done. Qed.

Lemma local_undef {A} : local (undef (S:=S) (A:=A)).
Proof. intros s f a s' Hrun. done. Qed.

Lemma local_assert (b : bool) : local (assert (S:=S) b).
Proof. intros s f a s' Hrun Hap. unfold assert in *. destruct b; [|done]. by injection Hrun as <- <-. Qed.

Lemma local_bind {A B} (m : M S A) (k : A → M S B) :
  local m → (∀ a, local (k a)) → local (bind m k).
Proof.
  intros Hm Hk s f b s' Hrun Hap. unfold bind in *.
  destruct (m s) as [a s1| |] eqn:Hms; [|done..].
  destruct (Hm s f a s1 Hms Hap) as [-> Hap1].
  by apply Hk.
Qed.

Lemma local_shl32_one (k : Z) : local (shl32_one (S:=S) k).
Proof. unfold shl32_one. case_bool_decide; [apply local_ret|apply local_undef]. Qed.

Lemma local_repeat_from (n : nat) step (body : Z → M S unit) :
  (∀ i, local (body i)) → ∀ i, local (repeat_from n step i body).
Proof.
  intros Hbody. induction n as [|n IH]; intros i; cbn [repeat_from].
  - apply local_ret.
  - apply local_bind; [done|]. intros _. apply IH.
Qed.
End local_rules.

Section local_heap.
Context {T : Type}.
Implicit Types (h f : heap T) (l : loc).

Lemma below_mono n n' h : below n h → (n ≤ n')%nat → below n' h.
Proof. intros Hb Hn l Hl. specialize (Hb l Hl). lia. Qed.

Lemma below_fresh n h : below n h → bufs h !! n = None ∧ dirs h !! n = None.
Proof.
  intros Hb. split.
  - destruct (bufs h !! n) eqn:E; [|done]. specialize (Hb n (or_introl (mk_is_Some _ _ E))). lia.
  - destruct (dirs h !! n) eqn:E; [|done]. specialize (Hb n (or_intror (mk_is_Some _ _ E))). lia.
Qed.

Lemma apart_same h h' f :
  apart h f → next h' = next h →
  (∀ l, is_Some (bufs h' !! l) → is_Some (bufs h !! l)) →
  (∀ l, is_Some (dirs h' !! l) → is_Some (dirs h !! l)) →
  apart h' f.
Proof.
  intros (Hb & Hd & Hh & Hf) Hn Hbs Hds. unfold apart. rewrite Hn.
  split; [|split; [|split; [|done]]].
  - apply map_disjoint_alt. intros l. destruct (bufs h' !! l) eqn:E; [|by left]. right.
    destruct (Hbs l (mk_is_Some _ _ E)) as [x Hx]. by eapply map_disjoint_Some_l.
  - apply map_disjoint_alt. intros l. destruct (dirs h' !! l) eqn:E; [|by left]. right.
    destruct (Hds l (mk_is_Some _ _ E)) as [x Hx]. by eapply map_disjoint_Some_l.
  - intros l [Hl|Hl]; apply Hh; [left; by apply Hbs|right; by apply Hds].
Qed.

Lemma apart_new_buf h f cells :
  apart h f → apart (Heap (<[next h := cells]> (bufs h)) (dirs h) (S (next h))) f.
Proof.
  intros (Hb & Hd & Hh & Hf). destruct (below_fresh _ _ Hf) as [Hfb Hfd].
  split; [|split; [done|split]]; cbn [bufs dirs next].
  - by apply map_disjoint_insert_l_2.
  - intros l [Hl|Hl]; cbn [bufs dirs] in Hl.
    + destruct (decide (l = next h)) as [->|Hne]; [lia|].
      rewrite lookup_insert_ne in Hl by done. specialize (Hh l (or_introl Hl)). lia.
    + specialize (Hh l (or_intror Hl)). lia.
  - eapply below_mono; [done|lia].
Qed.

Lemma apart_new_dir h f slots :
  apart h f → apart (Heap (bufs h) (<[next h := slots]> (dirs h)) (S (next h))) f.
Proof.
  intros (Hb & Hd & Hh & Hf). destruct (below_fresh _ _ Hf) as [Hfb Hfd].
  split; [done|split; [|split]]; cbn [bufs dirs next].
  - by apply map_disjoint_insert_l_2.
  - intros l [Hl|Hl]; cbn [bufs dirs] in Hl.
    + specialize (Hh l (or_introl Hl)). lia.
    + destruct (decide (l = next h)) as [->|Hne]; [lia|].
      rewrite lookup_insert_ne in Hl by done. specialize (Hh l (or_intror Hl)). lia.
  - eapply below_mono; [done|lia].
Qed.

Lemma local_new_buf n : local (new_buf (T:=T) n).
Proof.
  intros h f a h' [= <- <-] Hap. split; [|by apply apart_new_buf].
  unfold new_buf, hplus. cbn. by rewrite insert_union_l.
Qed.

Lemma local_new_dir n : local (new_dir (T:=T) n).
Proof.
  intros h f a h' [= <- <-] Hap. split; [|by apply apart_new_dir].
  unfold new_dir, hplus. cbn. by rewrite insert_union_l.
Qed.

Lemma local_delete_buf p : local (delete_buf (T:=T) p).
Proof.
  intros h f a h' Hrun Hap. unfold delete_buf in *. cbn [the_heap set_heap heap_heaped] in *.
  destruct p as [[|l]|]; [by injection Hrun as <- <-| |done].
  revert Hrun. case_match eqn:E; [|done]. intros Hrun. injection Hrun as <- <-.
  cbn [hplus bufs]. rewrite (lookup_union_Some_l _ _ _ _ E).
  split.
  - unfold hplus. cbn [bufs dirs next]. rewrite delete_union, (delete_id (bufs f)); [done|].
    eapply map_disjoint_Some_l; [apply Hap|exact E].
  - eapply apart_same; [done|done| |done]. cbn [bufs]. intros l' Hl'.
    destruct (decide (l' = S l)) as [->|Hne]; [by rewrite lookup_delete_eq in Hl'; destruct Hl'|].
    by rewrite lookup_delete_ne in Hl'.
Qed.

Lemma local_delete_dir l : local (delete_dir (T:=T) l).
Proof.
  intros h f a h' Hrun Hap. unfold delete_dir in *. cbn [the_heap set_heap heap_heaped] in *.
  destruct l as [|l]; [by injection Hrun as <- <-|].
  revert Hrun. case_match eqn:E; [|done]. intros Hrun. injection Hrun as <- <-.
  cbn [hplus dirs]. rewrite (lookup_union_Some_l _ _ _ _ E).
  split.
  - unfold hplus. cbn [bufs dirs next]. rewrite delete_union, (delete_id (dirs f)); [done|].
    eapply map_disjoint_Some_l; [apply Hap|exact E].
  - eapply apart_same; [done|done|done|]. cbn [dirs]. intros l' Hl'.
    destruct (decide (l' = S l)) as [->|Hne]; [by rewrite lookup_delete_eq in Hl'; destruct Hl'|].
    by rewrite lookup_delete_ne in Hl'.
Qed.

Lemma local_load_slot d i : local (load_slot (T:=T) d i).
Proof.
  intros h f a h' Hrun Hap. unfold load_slot in *. cbn [the_heap set_heap heap_heaped] in *.
  revert Hrun. case_match eqn:E; [|done].
  cbn [hplus dirs]. rewrite (lookup_union_Some_l _ _ _ _ E).
  case_bool_decide; [|done]. case_match; [|done]. by intros [= <- <-].
Qed.

Lemma local_store_slot d i p : local (store_slot (T:=T) d i p).
Proof.
  intros h f a h' Hrun Hap. unfold store_slot in *. cbn [the_heap set_heap heap_heaped] in *.
  revert Hrun. case_match eqn:E; [|done].
  cbn [hplus dirs]. rewrite (lookup_union_Some_l _ _ _ _ E).
  case_bool_decide; [|done]. intros [= <- <-]. split.
  - unfold hplus. cbn [bufs dirs next]. by rewrite insert_union_l.
  - eapply apart_same; [done|done|done|]. cbn [dirs]. intros l' Hl'.
    destruct (decide (l' = d)) as [->|Hne]; [done|]. by rewrite lookup_insert_ne in Hl'.
Qed.

Lemma local_load_cell p i : local (load_cell (T:=T) p i).
Proof.
  intros h f a h' Hrun Hap. unfold load_cell in *. cbn [the_heap set_heap heap_heaped] in *.
  destruct p as [l|]; [|done].
  revert Hrun. case_match eqn:E; [|done].
  cbn [hplus bufs]. rewrite (lookup_union_Some_l _ _ _ _ E).
  case_bool_decide; [|done]. case_match; [|done]. by intros [= <- <-].
Qed.

Lemma local_store_cell p i c : local (store_cell (T:=T) p i c).
Proof.
  intros h f a h' Hrun Hap. unfold store_cell in *. cbn [the_heap set_heap heap_heaped] in *.
  destruct p as [l|]; [|done].
  revert Hrun. case_match eqn:E; [|done].
  cbn [hplus bufs]. rewrite (lookup_union_Some_l _ _ _ _ E).
  case_bool_decide; [|done]. intros [= <- <-]. split.
  - unfold hplus. cbn [bufs dirs next]. by rewrite insert_union_l.
  - eapply apart_same; [done|done| |done]. cbn [bufs]. intros l' Hl'.
    destruct (decide (l' = l)) as [->|Hne]; [done|]. by rewrite lookup_insert_ne in Hl'.
Qed.

Lemma local_item p i : local (item (T:=T) p i).
Proof.
  intros h f a h' Hrun Hap. unfold item in *. cbn [the_heap set_heap heap_heaped] in *.
  destruct p as [l|]; [|done].
  revert Hrun. case_match eqn:E; [|done].
  cbn [hplus bufs]. rewrite (lookup_union_Some_l _ _ _ _ E).
  case_bool_decide; [|done]. by intros [= <- <-].
Qed.
End local_heap.

Section local_lift.
Context {T : Type}.

Lemma local_rd {A} (f : vector → A) : local (rd (T:=T) f).
Proof. intros [v h] f' a s' [= <- <-] Hap. done. Qed.

Lemma local_wr (f : vector → vector) : local (wr (T:=T) f).
Proof. intros [v h] f' a s' [= <- <-] Hap. done. Qed.

Lemma local_mem {A} (m : M (heap T) A) : local m → local (mem m).
Proof.
  intros Hm [v h] f a s' Hrun Hap. unfold mem, zoom in *. cbn [fst snd the_heap set_heap state_heaped] in *.
  destruct (m h) as [a' h'| |] eqn:E; [|done..]. injection Hrun as <- <-.
  destruct (Hm h f a' h' E Hap) as [Hrun' Hap']. cbn [the_heap set_heap heap_heaped] in Hrun'.
  by rewrite Hrun'.
Qed.

Lemma local_const_call {A} (that : vector) (m : Mv (T:=T) A) :
  local m → local (const_call that m).
Proof.
  intros Hm [v h] f a s' Hrun Hap. unfold const_call, zoom in *.
  cbn [fst snd the_heap set_heap state_heaped] in *.
  destruct (m (that, h)) as [a' [v' h']| |] eqn:E; [|done..]. injection Hrun as <- <-.
  destruct (Hm (that, h) f a' (v', h') E Hap) as [Hrun' Hap'].
  cbn [fst snd the_heap set_heap state_heaped] in Hrun'. by rewrite Hrun'.
Qed.

Lemma local_construct_with (v : vector) (body : Mv (T:=T) unit) :
  local body → local (construct_with v body).
Proof.
  intros Hm h f a h' Hrun Hap. unfold construct_with in *.
  cbn [the_heap set_heap heap_heaped] in *.
  destruct (body (v, h)) as [a' [v' h1]| |] eqn:E; [|done..]. injection Hrun as <- <-.
  destruct (Hm (v, h) f a' (v', h1) E Hap) as [Hrun' Hap'].
  cbn [fst snd the_heap set_heap state_heaped] in Hrun'. by rewrite Hrun'.
Qed.

Lemma local_eval_on {A} (v : vector) (m : Mv (T:=T) A) : local m → local (eval_on v m).
Proof.
  intros Hm h f a h' Hrun Hap. unfold eval_on, zoom in *.
  cbn [the_heap set_heap heap_heaped] in *.
  destruct (m (v, h)) as [a' [v' h1]| |] eqn:E; [|done..]. injection Hrun as <- <-.
  destruct (Hm (v, h) f a' (v', h1) E Hap) as [Hrun' Hap'].
  cbn [fst snd the_heap set_heap state_heaped] in Hrun'. by rewrite Hrun'.
Qed.

Lemma local_on {A} (o : nat) (m : Mv (T:=T) A) : local m → local (on o m).
Proof.
  intros Hm [os h] f a st' Hrun Hap. unfold on in *.
  cbn [objs hp the_heap set_heap store_heaped] in *.
  destruct (os !! o) as [v|]; [|done].
  destruct (m (v, h)) as [a' [v' h1]| |] eqn:E; [|done..]. injection Hrun as <- <-.
  destruct (Hm (v, h) f a' (v', h1) E Hap) as [Hrun' Hap'].
  cbn [fst snd the_heap set_heap state_heaped] in Hrun'. by rewrite Hrun'.
Qed.

Lemma local_alloc {A} (m : M (heap T) A) : local m → local (alloc m).
Proof.
  intros Hm [os h] f a st' Hrun Hap. unfold alloc, zoom in *.
  cbn [objs hp the_heap set_heap store_heaped] in *.
  destruct (m h) as [a' h1| |] eqn:E; [|done..]. injection Hrun as <- <-.
  destruct (Hm h f a' h1 E Hap) as [Hrun' Hap'].
  cbn [the_heap set_heap heap_heaped] in Hrun'. by rewrite Hrun'.
Qed.

Lemma local_declare (o : nat) (v : vector) : local (declare (T:=T) o v).
Proof.
  intros [os h] f a st' Hrun Hap. unfold declare in *.
  cbn [objs hp the_heap set_heap store_heaped] in *.
  destruct (os !! o); [done|]. by injection Hrun as <- <-.
Qed.

Lemma local_forget (o : nat) : local (forget (T:=T) o).
Proof. intros [os h] f a st' [= <- <-] Hap. done. Qed.
End local_lift.

Create HintDb local discriminated.
#[export] Hint Resolve local_ret local_undef local_assert local_shl32_one
  local_new_buf local_new_dir local_delete_buf local_delete_dir
  local_load_slot local_store_slot local_load_cell local_store_cell local_item
  local_rd local_wr local_declare local_forget : local.

Ltac local_step :=
  first
    [ apply local_bind; [|intros ?]
    | apply local_repeat_from; intros ?
    | apply local_mem
    | apply local_const_call
    | apply local_construct_with
    | apply local_eval_on
    | apply local_on
    | apply local_alloc
    | match goal with
      | |- local (if ?b then _ else _) => destruct b
      | |- local (match ?x with _ => _ end) => destruct x
      end
    | solve [auto with local] ].
Ltac solve_local := cbv zeta; repeat local_step.

Section local_methods.
Context {T : Type}.

Lemma local_copy_cells src first n dst dfirst :
  local (copy_cells (T:=T) src first n dst dfirst).
Proof. unfold copy_cells. solve_local. Qed.

Lemma local_copy_slots src n dst : local (copy_slots (T:=T) src n dst).
Proof. unfold copy_slots. solve_local. Qed.

Hint Resolve local_copy_cells local_copy_slots : local.

Lemma local_merge_pair d B i : local (merge_pair (T:=T) d B i).
Proof. unfold merge_pair. solve_local. Qed.

Lemma local_split_buffer d B k : local (split_buffer (T:=T) d B k).
Proof. unfold split_buffer. solve_local. Qed.

Lemma local_load_ref r : local (load_ref (T:=T) r).
Proof. unfold load_ref. solve_local. Qed.

Lemma local_store_ref r x : local (store_ref (T:=T) r x).
Proof. unfold store_ref. solve_local. Qed.

Hint Resolve local_merge_pair local_split_buffer local_load_ref local_store_ref : local.

Lemma local_dir_capacity : local (dir_capacity (T:=T)).
Proof. unfold dir_capacity. solve_local. Qed.

Lemma local_buffer_capacity : local (buffer_capacity (T:=T)).
Proof. unfold buffer_capacity. solve_local. Qed.

Hint Resolve local_dir_capacity local_buffer_capacity : local.

Lemma local_assert_valid : local (assert_valid (T:=T)).
Proof. unfold assert_valid. solve_local. Qed.

Lemma local_size : local (size (T:=T)).
Proof. unfold size. solve_local. Qed.

Hint Resolve local_assert_valid local_size : local.

Lemma local_pget i : local (pget (T:=T) i).
Proof. unfold pget. solve_local. Qed.

Hint Resolve local_pget : local.

Lemma local_get i : local (get (T:=T) i).
Proof. unfold get, index. solve_local. Qed.

Lemma local_put i x : local (put (T:=T) i x).
Proof. unfold put, index. solve_local. Qed.

Lemma local_upsize_dir : local (upsize_dir (T:=T)).
Proof. unfold upsize_dir. solve_local. Qed.

Lemma local_downsize_dir : local (downsize_dir (T:=T)).
Proof. unfold downsize_dir. solve_local. Qed.

Lemma local_upsize_buffers : local (upsize_buffers (T:=T)).
Proof. unfold upsize_buffers. solve_local. Qed.

Lemma local_downsize_buffers : local (downsize_buffers (T:=T)).
Proof. unfold downsize_buffers. solve_local. Qed.

Hint Resolve local_upsize_dir local_downsize_dir local_upsize_buffers
  local_downsize_buffers : local.

Lemma local_upsize : local (upsize (T:=T)).
Proof. unfold upsize. solve_local. Qed.

Lemma local_downsize : local (downsize (T:=T)).
Proof. unfold downsize. solve_local. Qed.

Hint Resolve local_upsize local_downsize : local.

Lemma local_push_back x : local (push_back (T:=T) x).
Proof. unfold push_back. solve_local. Qed.

Lemma local_pop_back_shrink : local (pop_back_shrink (T:=T)).
Proof. unfold pop_back_shrink. solve_local. Qed.

Hint Resolve local_pop_back_shrink : local.

Lemma local_pop_back : local (pop_back (T:=T)).
Proof. unfold pop_back. solve_local. Qed.

Lemma local_construct that : local (construct (T:=T) that).
Proof. unfold construct. solve_local. Qed.

Lemma local_destuct : local (destuct (T:=T)).
Proof. unfold destuct. solve_local. Qed.

Hint Resolve local_construct local_destuct local_push_back local_pop_back
  local_get local_put : local.

Lemma local_vector_new : local (vector_new (T:=T)).
Proof. unfold vector_new. solve_local. Qed.

Lemma local_vector_copy that : local (vector_copy (T:=T) that).
Proof. unfold vector_copy. solve_local. Qed.

Hint Resolve local_vector_new local_vector_copy : local.

Lemma local_exec (c : call T) : local (exec c).
Proof.
  destruct c; cbn [exec]; unfold declare_default, declare_copy, assign, destroy; solve_local.
Qed.
End local_methods.

(** ** Framing: heaps cut in two *)

Section cut.
Context {T : Type}.
Implicit Types (h f : heap T) (X Y : list loc) (v : vector) (ptrs : list loc).
Implicit Types (bs : list (list (option T))).

Lemma hplus_part_rest X Y h : hplus (part X Y h) (rest X Y h) = h.
Proof.
  unfold hplus, part, rest. cbn [bufs dirs next].
  rewrite !map_filter_union_complement. apply heap_eta.
Qed.

Lemma part_bufs X Y h l : l ∈ X → bufs (part X Y h) !! l = bufs h !! l.
Proof.
  intros Hl. cbn [part bufs]. destruct (bufs h !! l) as [c|] eqn:E.
  - by apply map_lookup_filter_Some.
  - apply map_lookup_filter_None. left. done.
Qed.

Lemma part_dirs X Y h l : l ∈ Y → dirs (part X Y h) !! l = dirs h !! l.
Proof.
  intros Hl. cbn [part dirs]. destruct (dirs h !! l) as [c|] eqn:E.
  - by apply map_lookup_filter_Some.
  - apply map_lookup_filter_None. left. done.
Qed.

Lemma rest_bufs X Y h l : l ∉ X → bufs (rest X Y h) !! l = bufs h !! l.
Proof.
  intros Hl. cbn [rest bufs]. destruct (bufs h !! l) as [c|] eqn:E.
  - by apply map_lookup_filter_Some.
  - apply map_lookup_filter_None. left. done.
Qed.

Lemma rest_dirs X Y h l : l ∉ Y → dirs (rest X Y h) !! l = dirs h !! l.
Proof.
  intros Hl. cbn [rest dirs]. destruct (dirs h !! l) as [c|] eqn:E.
  - by apply map_lookup_filter_Some.
  - apply map_lookup_filter_None. left. done.
Qed.

Lemma apart_part_rest X Y h : below (next h) h → apart (part X Y h) (rest X Y h).
Proof.
  intros Hb. split; [|split; [|split]].
  - apply map_disjoint_filter_complement.
  - apply map_disjoint_filter_complement.
  - intros l [[c Hl]|[c Hl]]; cbn [part bufs dirs next] in *;
      apply map_lookup_filter_Some in Hl as [Hl _]; apply Hb; eauto.
  - intros l [[c Hl]|[c Hl]]; cbn [part rest bufs dirs next] in *;
      apply map_lookup_filter_Some in Hl as [Hl _]; apply Hb; eauto.
Qed.

Lemma below_hplus h f : apart h f → below (next (hplus h f)) (hplus h f).
Proof.
  intros (_ & _ & Hh & Hf) l [[c Hl]|[c Hl]]; cbn [hplus bufs dirs next] in *;
    (apply lookup_union_Some_raw in Hl as [Hl|[_ Hl]]; [apply Hh|apply Hf]); eauto.
Qed.

Lemma hplus_bufs_l h f l c : bufs h !! l = Some c → bufs (hplus h f) !! l = Some c.
Proof. intros Hl. cbn [hplus bufs]. by apply lookup_union_Some_l. Qed.

Lemma hplus_dirs_l h f l c : dirs h !! l = Some c → dirs (hplus h f) !! l = Some c.
Proof. intros Hl. cbn [hplus dirs]. by apply lookup_union_Some_l. Qed.

Lemma hplus_bufs_r h f l c :
  apart h f → bufs f !! l = Some c → bufs (hplus h f) !! l = Some c.
Proof.
  intros (Hb & _) Hl. cbn [hplus bufs]. rewrite lookup_union_r; [done|].
  eapply map_disjoint_Some_r; done.
Qed.

Lemma hplus_dirs_r h f l c :
  apart h f → dirs f !! l = Some c → dirs (hplus h f) !! l = Some c.
Proof.
  intros (_ & Hd & _) Hl. cbn [hplus dirs]. rewrite lookup_union_r; [done|].
  eapply map_disjoint_Some_r; done.
Qed.

(** A vector only depends on its own blocks. *)
Lemma shape_agree v h h' ptrs bs :
  shape v h ptrs bs →
  dirs h' !! dir v = dirs h !! dir v →
  (∀ p, p ∈ ptrs → bufs h' !! p = bufs h !! p) →
  (next h ≤ next h')%nat →
  shape v h' ptrs bs.
Proof.
  intros (Hwf & (Hd0 & Hdn & (slots & Hd & Hcap & Hsl) & Hsound & Hblocks) & Hlen) Hdir Hbufs Hn.
  split; [done|]. split; [|done].
  split; [done|]. split; [lia|]. split.
  { exists slots. by rewrite Hdir. }
  split; [by eapply sound_mono|].
  unfold blocks in *. apply Forall2_same_length_lookup. split.
  { by eapply Forall2_length. }
  intros i p b Hp Hb. rewrite Hbufs by (by eapply list_elem_of_lookup_2).
  by apply (Forall2_lookup_lr _ _ _ _ _ _ Hblocks Hp Hb).
Qed.

Lemma shape_part X Y v h ptrs bs :
  shape v h ptrs bs → dir v ∈ Y → (∀ p, p ∈ ptrs → p ∈ X) →
  shape v (part X Y h) ptrs bs.
Proof.
  intros Hsh HY HX. eapply shape_agree; [done| | |done].
  - by apply part_dirs.
  - intros p Hp. apply part_bufs. by apply HX.
Qed.

Lemma shape_hplus_l v h f ptrs bs :
  shape v h ptrs bs → shape v (hplus h f) ptrs bs.
Proof.
  intros Hsh. eapply shape_agree; [done| | |done].
  - destruct Hsh as (_ & (_ & _ & (slots & Hd & _) & _) & _).
    rewrite Hd. by apply hplus_dirs_l.
  - intros p Hp. destruct Hsh as (_ & (_ & _ & _ & _ & Hblocks) & _).
    apply list_elem_of_lookup in Hp as [i Hp].
    destruct (blocks_lookup _ _ _ _ _ _ Hblocks Hp) as (b & _ & Hb & _).
    rewrite Hb. by apply hplus_bufs_l.
Qed.

Lemma shape_hplus_r X Y v h h' ptrs bs :
  shape v h ptrs bs → dir v ∉ Y → (∀ p, p ∈ ptrs → p ∉ X) →
  apart h' (rest X Y h) → (next h ≤ next h')%nat →
  shape v (hplus h' (rest X Y h)) ptrs bs.
Proof.
  intros Hsh HY HX Hap Hn. eapply shape_agree; [done| | |done].
  - destruct Hsh as (_ & (_ & _ & (slots & Hd & _) & _) & _).
    rewrite Hd. apply hplus_dirs_r; [done|]. by rewrite rest_dirs.
  - intros p Hp. pose proof (HX p Hp) as HpX.
    destruct Hsh as (_ & (_ & _ & _ & _ & Hblocks) & _).
    apply list_elem_of_lookup in Hp as [i Hp].
    destruct (blocks_lookup _ _ _ _ _ _ Hblocks Hp) as (b & _ & Hb & _).
    rewrite Hb. apply hplus_bufs_r; [done|]. by rewrite rest_bufs.
Qed.

(** The blocks of a vector are in the heap. *)
Lemma shape_dir_in v h ptrs bs : shape v h ptrs bs → is_Some (dirs h !! dir v).
Proof. intros (_ & (_ & _ & (slots & Hd & _) & _) & _). by exists slots. Qed.

Lemma shape_buf_in v h ptrs bs p : shape v h ptrs bs → p ∈ ptrs → is_Some (bufs h !! p).
Proof.
  intros (_ & (_ & _ & _ & _ & Hblocks) & _) Hp.
  apply list_elem_of_lookup in Hp as [i Hp].
  destruct (blocks_lookup _ _ _ _ _ _ Hblocks Hp) as (b & _ & Hb & _). by exists b.
Qed.
End cut.

Section inv_update.
Context {T : Type}.
Implicit Types (g : ghost (T:=T)) (a : contents (T:=T)) (os : gmap nat vector).

(** The vectors [I] are worked on in a heap [h'] of their own, next to
    the blocks of the others. *)
Lemma inv_update (I : list nat) X Y g g' os os' (H h' : heap T) a a' :
  below (next H) H → (0 < next H)%nat → inv_with g (Store os H) a →
  apart h' (rest X Y H) → (next H ≤ next h')%nat →
  (∀ o, o ∉ I → os' !! o = os !! o ∧ g' !! o = g !! o ∧ a' !! o = a !! o) →
  (∀ p, p ∈ X → ∃ o v ptrs bs,
     o ∈ I ∧ os !! o = Some v ∧ g !! o = Some (ptrs, bs) ∧ p ∈ ptrs) →
  (∀ d, d ∈ Y → ∃ o v, o ∈ I ∧ os !! o = Some v ∧ dir v = d) →
  (∀ o, o ∈ I → os' !! o = None → a' !! o = None) →
  (∀ o v, o ∈ I → os' !! o = Some v →
     ∃ ptrs bs, g' !! o = Some (ptrs, bs) ∧ shape v h' ptrs bs ∧ settled v ∧
                a' !! o = Some (cells_of v bs)) →
  (∀ o1 o2 v1 v2 ptrs1 bs1 ptrs2 bs2,
     o1 ∈ I → o2 ∈ I → o1 ≠ o2 → os' !! o1 = Some v1 → os' !! o2 = Some v2 →
     g' !! o1 = Some (ptrs1, bs1) → g' !! o2 = Some (ptrs2, bs2) →
     dir v1 ≠ dir v2 ∧ ∀ p, p ∈ ptrs1 → p ∉ ptrs2) →
  inv (Store os' (hplus h' (rest X Y H))) a'.
Proof.
  intros Hbelow Hpos (Hnone & Hsome & Hdisj) Hap Hnext Hout HX HY Hin0 Hin Hin2.
  cbn [objs hp] in *.
  (* a vector that is not involved keeps its blocks, which are in the rest *)
  assert (Hother : ∀ o v ptrs bs,
            o ∉ I → os !! o = Some v → g !! o = Some (ptrs, bs) →
            shape v H ptrs bs ∧ (dir v ∉ Y) ∧ (∀ p, p ∈ ptrs → p ∉ X)).
  { intros o v ptrs bs HoI Hov Hog.
    destruct (Hsome o v Hov) as (ptrs0 & bs0 & Hog0 & Hsh & _).
    assert (ptrs0 = ptrs ∧ bs0 = bs) as [-> ->] by (split; congruence).
    split; [done|]. split.
    - intros HdY. destruct (HY _ HdY) as (o' & v' & Ho'I & Ho'v & Hdd).
      destruct (Hsome o' v' Ho'v) as (ptrs' & bs' & Hog' & _).
      assert (o' ≠ o) by (intros ->; done).
      destruct (Hdisj o' o v' v ptrs' bs' ptrs bs) as [Hne _]; done.
    - intros p Hp HpX. destruct (HX _ HpX) as (o' & v' & ptrs' & bs' & Ho'I & Ho'v & Hog' & Hp').
      assert (o' ≠ o) by (intros ->; done).
      destruct (Hdisj o' o v' v ptrs' bs' ptrs bs) as [_ Hne]; try done.
      by apply (Hne p). }
  split; [by apply below_hplus|]. split; [cbn [hp]; unfold hplus; cbn [next]; lia|].
  exists g'. split; [|split]; cbn [objs hp].
  - intros o Ho. destruct (decide (o ∈ I)) as [HoI|HoI]; [by apply Hin0|].
    destruct (Hout o HoI) as (Hos & _ & ->). rewrite Hos in Ho. by apply Hnone.
  - intros o v Ho. destruct (decide (o ∈ I)) as [HoI|HoI].
    + destruct (Hin o v HoI Ho) as (ptrs & bs & Hg & Hsh & Hset & Ha).
      exists ptrs, bs. split; [done|]. split; [by apply shape_hplus_l|done].
    + destruct (Hout o HoI) as (Hos & Hg & Ha). rewrite Hos in Ho.
      destruct (Hsome o v Ho) as (ptrs & bs & Hog & Hsh & Hset & Hoa).
      destruct (Hother o v ptrs bs HoI Ho Hog) as (_ & HdY & HpX).
      exists ptrs, bs. split; [congruence|]. split; [|split; [done|congruence]].
      by apply shape_hplus_r.
  - intros o1 o2 v1 v2 ptrs1 bs1 ptrs2 bs2 Hne Ho1 Ho2 Hg1 Hg2.
    assert (Hmixed : ∀ o1 o2 v1 v2 ptrs1 bs1 ptrs2 bs2,
              o1 ∈ I → o2 ∉ I → os' !! o1 = Some v1 → os' !! o2 = Some v2 →
              g' !! o1 = Some (ptrs1, bs1) → g' !! o2 = Some (ptrs2, bs2) →
              dir v1 ≠ dir v2 ∧ ∀ p, p ∈ ptrs1 → p ∉ ptrs2).
    { clear o1 o2 v1 v2 ptrs1 bs1 ptrs2 bs2 Hne Ho1 Ho2 Hg1 Hg2.
      intros o1 o2 v1 v2 ptrs1 bs1 ptrs2 bs2 HI1 HI2 Ho1 Ho2 Hg1 Hg2.
      destruct (Hin o1 v1 HI1 Ho1) as (ptrs & bs & Hg & Hsh1 & _).
      assert (ptrs = ptrs1 ∧ bs = bs1) as [-> ->] by (split; congruence).
      destruct (Hout o2 HI2) as (Hos & Hgg & _). rewrite Hos in Ho2. rewrite Hgg in Hg2.
      destruct (Hother o2 v2 ptrs2 bs2 HI2 Ho2 Hg2) as (Hsh2 & HdY & HpX).
      destruct Hap as (Hbufs & Hdirs & _). split.
      - intros Heq. destruct (shape_dir_in _ _ _ _ Hsh1) as [s1 Hs1].
        destruct (shape_dir_in _ _ _ _ Hsh2) as [s2 Hs2].
        rewrite <- (rest_dirs X Y) in Hs2 by done. rewrite <- Heq in Hs2.
        by pose proof (map_disjoint_Some_l _ _ _ _ Hdirs Hs1); congruence.
      - intros p Hp1 Hp2. destruct (shape_buf_in _ _ _ _ p Hsh1 Hp1) as [c1 Hc1].
        destruct (shape_buf_in _ _ _ _ p Hsh2 Hp2) as [c2 Hc2].
        rewrite <- (rest_bufs X Y) in Hc2 by (by apply HpX).
        by pose proof (map_disjoint_Some_l _ _ _ _ Hbufs Hc1); congruence. }
    destruct (decide (o1 ∈ I)) as [HI1|HI1], (decide (o2 ∈ I)) as [HI2|HI2].
    + by eapply (Hin2 o1 o2).
    + by eapply (Hmixed o1 o2).
    + destruct (Hmixed o2 o1 v2 v1 ptrs2 bs2 ptrs1 bs1) as [Hd Hp]; try done.
      split; [done|]. intros p Hp1 Hp2. by apply (Hp p).
    + destruct (Hout o1 HI1) as (Hos1 & Hgg1 & _). destruct (Hout o2 HI2) as (Hos2 & Hgg2 & _).
      rewrite Hos1 in Ho1. rewrite Hos2 in Ho2. rewrite Hgg1 in Hg1. rewrite Hgg2 in Hg2.
      by eapply (Hdisj o1 o2).
Qed.
End inv_update.

(** ** Construction and destruction *)

Section vector_new.
Context {T : Type}.
Implicit Types (v : vector) (h : heap T) (ptrs : list loc).
Implicit Types (bs : list (list (option T))).

Lemma vector_new_run h :
  (0 < next h)%nat →
  ∃ v h' ptrs bs,
    vector_new h = Done v h' ∧ shape v h' ptrs bs ∧ settled v ∧
    sz v = 0 ∧ cells_of v bs = [] ∧ (next h ≤ next h')%nat.
Proof.
  intros Hpos.
  set (d := next h).
  set (v := Vector d 1 0 1 true false).
  set (h' := Heap (<[S d := replicate 2 None]> (bufs h))
                  (<[d := [Some (S d)]]> (dirs h)) (S (S d))).
  assert (Hwf : wf v).
  { constructor; unfold Dcap, Bcap, held; cbn; try lia; done. }
  exists v, h', [S d], [replicate 2 None].
  split; [|split; [|split; [|split; [done|split; [done|cbn; lia]]]]].
  - unfold vector_new.
    rewrite (bind_done _ _ h d
               (Heap (bufs h) (<[d := replicate 1 None]> (dirs h)) (S d))) by reflexivity.
    unfold construct_with. fold v.
    match goal with |- context [match ?body (v, ?h1) with _ => _ end] =>
      assert (Hbody : body (v, h1) = Done tt (v, h'))
    end.
    { apply wp_eq. unfold v. wp_steps. cbn [next bufs dirs].
      eapply wp_mem_done.
      { eapply (store_slot_run _ _ [None]); [apply lookup_insert_eq|cbn; lia]. }
      cbv beta. apply wp_assert_valid; [done|cbn; lia|].
      split; [done|]. unfold h'. cbn. by rewrite insert_insert_eq. }
    by rewrite Hbody.
  - split; [done|]. split; [|done].
    split; [cbn; lia|]. split; [cbn; lia|]. split.
    { exists [Some (S d)]. split; [apply lookup_insert_eq|]. split; [done|].
      intros [|i] p Hp; [|done]. by injection Hp as <-. }
    split.
    { split; [apply NoDup_singleton|]. apply Forall_singleton. cbn. lia. }
    constructor; [|constructor]. split; [apply lookup_insert_eq|done].
  - intros Heq. unfold held, Dcap in Heq. cbn in Heq. lia.
Qed.
End vector_new.

Section destuct.
Context {T : Type}.
Implicit Types (v : vector) (h : heap T) (ptrs : list loc).
Implicit Types (bs : list (list (option T))).

Lemma iter_succ_wrap64 (k : nat) (i : Z) :
  0 ≤ i → i + Z.of_nat k < 2 ^ 64 →
  Nat.iter k (λ i, wrap64 (i + 1)) i = i + Z.of_nat k.
Proof.
  induction k as [|k IH]; intros Hi Hk; [cbn; lia|].
  rewrite Nat.iter_succ, IH by lia. rewrite wrap64_small by lia. lia.
Qed.

(** The loop of [destuct] gives back the buffers in the slots from [i]
    on. *)
Lemma destuct_loop d slots ptrs : ∀ (i : nat) h,
  dirs h !! d = Some slots → slotted slots i ptrs → NoDup ptrs →
  Forall (λ p, p ≠ 0%nat ∧ is_Some (bufs h !! p)) ptrs →
  Z.of_nat (i + length ptrs) < 2 ^ 64 →
  ∃ h', repeat_from (length ptrs) (λ i, wrap64 (i + 1)) (Z.of_nat i)
          (λ i, let* p := load_slot d i in delete_buf p) h = Done tt h' ∧
        next h' = next h ∧ dirs h' = dirs h ∧
        (∀ l, l ∉ ptrs → bufs h' !! l = bufs h !! l) ∧
        (∀ l, l ∈ ptrs → bufs h' !! l = None).
Proof.
  induction ptrs as [|p ptrs IH]; intros i h Hd Hsl Hnd Hall Hi.
  - exists h. cbn [length repeat_from]. split; [done|]. split; [done|]. split; [done|].
    split; [done|]. intros l Hl. by apply elem_of_nil in Hl.
  - apply NoDup_cons in Hnd as [Hp Hnd]. apply Forall_cons in Hall as [[Hp0 [c Hc]] Hall].
    cbn [length repeat_from].
    assert (Hload : load_slot d (Z.of_nat i) h = Done (Some p) h).
    { eapply load_slot_run; [done|lia|]. rewrite Nat2Z.id.
      specialize (Hsl 0%nat p eq_refl). by rewrite Nat.add_0_r in Hsl. }
    set (h1 := Heap (delete p (bufs h)) (dirs h) (next h)).
    destruct (IH (S i) h1) as (h' & Hrun & Hnext & Hdirs & Hkeep & Hgone).
    { done. }
    { intros j q Hq. specialize (Hsl (S j) q Hq). by rewrite Nat.add_succ_r in Hsl. }
    { done. }
    { apply Forall_forall. intros q Hq. rewrite Forall_forall in Hall.
      destruct (Hall q Hq) as [Hq0 Hqc]. split; [done|]. cbn [h1 bufs].
      rewrite lookup_delete_ne; [done|]. intros ->. done. }
    { cbn [length] in Hi. lia. }
    exists h'. split.
    { rewrite bind_bind, (bind_done _ _ _ _ _ Hload).
      rewrite (bind_done _ _ _ _ _ (delete_buf_run h p c Hp0 Hc)).
      rewrite wrap64_small by (cbn [length] in Hi; lia).
      replace (Z.of_nat i + 1) with (Z.of_nat (S i)) by lia. exact Hrun. }
    split; [done|]. split; [done|]. split.
    + intros l Hl. apply not_elem_of_cons in Hl as [Hlp Hl].
      rewrite (Hkeep l Hl). cbn [h1 bufs]. by rewrite lookup_delete_ne.
    + intros l Hl. apply elem_of_cons in Hl as [->|Hl]; [|by apply Hgone].
      rewrite (Hkeep p Hp). cbn [h1 bufs]. apply lookup_delete_eq.
Qed.

Lemma destuct_run v h ptrs bs :
  shape v h ptrs bs →
  ∃ h', destuct (v, h) = Done tt (v, h') ∧ next h' = next h ∧
        dirs h' = delete (dir v) (dirs h) ∧
        (∀ l, l ∉ ptrs → bufs h' !! l = bufs h !! l) ∧
        (∀ l, l ∈ ptrs → bufs h' !! l = None).
Proof.
  intros Hsh. pose proof (shape_wf _ _ _ _ Hsh) as Hwf. caps v.
  destruct Hsh as (_ & (Hd0 & Hdn & (slots & Hd & Hcap & Hsl) & [Hnd Hfr] & Hblocks) & Hlen).
  set (n := Z.to_nat (dir_size v)).
  assert (Hall : Forall (λ p, p ≠ 0%nat ∧ is_Some (bufs h !! p)) ptrs).
  { apply Forall_forall. intros p Hp. rewrite Forall_forall in Hfr.
    split; [by apply Hfr|].
    apply list_elem_of_lookup in Hp as [i Hp].
    destruct (blocks_lookup _ _ _ _ _ _ Hblocks Hp) as (b & _ & Hb & _). by exists b. }
  assert (Hheld : Z.of_nat (length ptrs) = dir_size v + b2z (extra_buffer v)) by done.
  destruct (destuct_loop (dir v) slots (take n ptrs) 0 h) as (h1 & Hrun & Hn1 & Hd1 & Hkeep1 & Hgone1).
  { done. }
  { intros j q Hq. apply Hsl. by apply lookup_take_Some in Hq as [Hq _]. }
  { eapply sublist_NoDup; [exact Hnd|]. apply sublist_take. }
  { by apply Forall_take. }
  { rewrite length_take. lia. }
  assert (Hlen1 : length (take n ptrs) = n).
  { rewrite length_take. destruct (extra_buffer v); cbn [b2z] in *; lia. }
  rewrite Hlen1 in Hrun.
  cut (wp destuct (v, h)
         (λ _ s, ∃ h', s = (v, h') ∧ next h' = next h ∧
            dirs h' = delete (dir v) (dirs h) ∧
            (∀ l, l ∉ ptrs → bufs h' !! l = bufs h !! l) ∧
            (∀ l, l ∈ ptrs → bufs h' !! l = None))).
  { intros Hwp. apply wp_elim in Hwp as ([] & s' & Hrun' & h' & -> & ?). by exists h'. }
  unfold destuct. wp_steps. fold n.
  eapply wp_done.
  { rewrite (repeat_from_mem v _ _ (λ i, let* p := load_slot (dir v) i in delete_buf p)).
    - apply mem_done. exact Hrun.
    - intros k h'' _. by rewrite bind_rd, mem_bind. }
  cbv beta. wp_steps.
  assert (Hfin : ∀ h2, next h2 = next h → dirs h2 = dirs h →
            (∀ l, l ∉ ptrs → bufs h2 !! l = bufs h !! l) →
            (∀ l, l ∈ ptrs → bufs h2 !! l = None) →
            wp (let* d := rd dir in mem (delete_dir d)) (v, h2)
              (λ _ s, ∃ h', s = (v, h') ∧ next h' = next h ∧
                 dirs h' = delete (dir v) (dirs h) ∧
                 (∀ l, l ∉ ptrs → bufs h' !! l = bufs h !! l) ∧
                 (∀ l, l ∈ ptrs → bufs h' !! l = None))).
  { intros h2 Hn2 Hd2 Hkeep2 Hgone2. wp_steps.
    eapply wp_mem_done; [eapply delete_dir_run; [done|by rewrite Hd2]|].
    eexists. split; [done|]. cbn [next dirs bufs]. rewrite Hd2. done. }
  destruct (extra_buffer v) eqn:He; cbn [b2z] in *.
  - (* the extra buffer *)
    destruct (lookup_lt_is_Some_2 ptrs n) as [p Hp]; [lia|].
    assert (Hsplit : ptrs = take n ptrs ++ [p]).
    { rewrite <- (take_drop n ptrs) at 1. f_equal.
      rewrite (drop_S _ p n Hp), drop_ge by lia. done. }
    rewrite Forall_forall in Hall. destruct (Hall p) as [Hp0 [c Hc]].
    { by eapply list_elem_of_lookup_2. }
    assert (Hpn : p ∉ take n ptrs).
    { rewrite Hsplit in Hnd. apply NoDup_app in Hnd as (_ & Hnd & _).
      intros Hin. apply (Hnd p Hin). by apply list_elem_of_singleton. }
    wp_steps.
    eapply wp_mem_done.
    { eapply load_slot_run; [by rewrite Hd1|lia|]. fold n. by apply (Hsl n p). }
    cbv beta.
    eapply (wp_done (mem (delete_buf (Some p)))).
    { apply mem_done. eapply delete_buf_run; [done|]. by rewrite (Hkeep1 p Hpn). }
    cbv beta. apply Hfin; cbn [next dirs bufs]; try done.
    + intros l Hl. rewrite Hsplit in Hl. apply not_elem_of_app in Hl as [Hl1 Hl2].
      rewrite lookup_delete_ne; [by apply Hkeep1|]. intros ->. apply Hl2. by left.
    + intros l Hl. rewrite Hsplit in Hl. apply elem_of_app in Hl as [Hl|Hl].
      * destruct (decide (l = p)) as [->|Hne]; [apply lookup_delete_eq|].
        rewrite lookup_delete_ne by done. by apply Hgone1.
      * apply list_elem_of_singleton in Hl as ->. apply lookup_delete_eq.
  - assert (Hall' : take n ptrs = ptrs) by (apply take_ge; lia).
    rewrite Hall' in *. apply wp_ret. cbv beta. by apply Hfin.
Qed.
End destuct.

(** ** construct *)

Lemma wp_repeat_from {St} (Inv : nat → St → Prop) (n : nat) step i (body : Z → M St unit)
    (s : St) (Q : unit → St → Prop) :
  Inv 0%nat s →
  (∀ k s', (k < n)%nat → Inv k s' →
     wp (body (Nat.iter k step i)) s' (λ _ s'', Inv (S k) s'')) →
  (∀ s', Inv n s' → Q tt s') →
  wp (repeat_from n step i body) s Q.
Proof.
  revert Inv i s. induction n as [|n IH]; intros Inv i s H0 Hstep Hend.
  - apply wp_ret. by apply Hend.
  - cbn [repeat_from]. apply wp_bind.
    eapply wp_mono; [apply (Hstep 0%nat s); [lia|done]|].
    intros [] s1 H1. cbv beta.
    apply (IH (λ k, Inv (S k))); [done| |done].
    intros k s' Hk Hinv. rewrite <- Nat.iter_succ_r. apply Hstep; [lia|done].
Qed.

Section copy_self.
Context {T : Type}.
Implicit Types (h : heap T).

(** A buffer copied onto itself. *)
Lemma copy_cells_self h l cells (k : nat) : ∀ (j : Z),
  bufs h !! l = Some cells → 0 ≤ j → j + Z.of_nat k ≤ Z.of_nat (length cells) →
  repeat_from k Z.succ j
    (λ j, let* c := load_cell (Some l) (0 + j) in store_cell (Some l) (0 + j) c) h
  = Done tt h.
Proof.
  induction k as [|k IH]; intros j Hl Hj Hk; [done|].
  cbn [repeat_from].
  destruct (lookup_lt_is_Some_2 cells (Z.to_nat j)) as [c Hc]; [lia|].
  rewrite bind_bind.
  rewrite (bind_done _ _ _ _ _ (load_cell_run h l cells (0 + j) c Hl ltac:(lia) Hc)).
  rewrite (bind_done _ _ _ _ _ (store_cell_run h l cells (0 + j) c Hl ltac:(lia))).
  rewrite Z.add_0_l, list_insert_id, insert_id, heap_eta by done.
  apply IH; [done|lia|lia].
Qed.
End copy_self.

Section construct.
Context {T : Type}.
Implicit Types (v that : vector) (h : heap T) (ptrs : list loc).
Implicit Types (bs : list (list (option T))).

Lemma wp_const_call {A} that (m : Mv (T:=T) A) v h a s' (Q : A → state (T:=T) → Prop) :
  m (that, h) = Done a s' → Q a (v, h) → wp (const_call that m) (v, h) Q.
Proof.
  intros Hm HQ. unfold wp, const_call, zoom. cbn [fst snd]. by rewrite Hm.
Qed.

Lemma slotted_snoc slots ptrs (p : loc) :
  slotted slots 0 ptrs → (length ptrs < length slots)%nat →
  slotted (<[length ptrs := Some p]> slots) 0 (ptrs ++ [p]).
Proof.
  intros Hsl Hlen i q Hq. cbn [Nat.add].
  destruct (decide (i = length ptrs)) as [->|Hne].
  - rewrite lookup_app_r, Nat.sub_diag in Hq by lia. injection Hq as <-.
    by apply list_lookup_insert_eq.
  - rewrite list_lookup_insert_ne by done.
    assert (i < length ptrs)%nat.
    { apply lookup_lt_Some in Hq. rewrite length_app in Hq. cbn in Hq. lia. }
    rewrite lookup_app_l in Hq by done. by apply (Hsl i q).
Qed.


(** [construct(that)] for another vector [that]: the buffers are new,
    and hold what those of [that] hold. *)
Lemma construct_copy_run v that h tptrs tbs slots :
  wf v → dir v ≠ 0%nat → (dir v < next h)%nat → same_members v that →
  shape that h tptrs tbs → dir v ≠ dir that →
  dirs h !! dir v = Some slots → Z.of_nat (length slots) = Dcap v →
  ∃ h' ptrs bs,
    construct that (v, h) = Done tt (v, h') ∧
    owns h' (dir v) (Dcap v) (Bcap v) ptrs bs ∧ Z.of_nat (length ptrs) = held v ∧
    cells_of v bs = cells_of that tbs ∧
    Forall (λ p, (next h ≤ p)%nat) ptrs ∧
    dirs h' !! dir that = dirs h !! dir that ∧
    (∀ p, (p < next h)%nat → bufs h' !! p = bufs h !! p) ∧ (next h ≤ next h')%nat.
Proof.
  intros Hwf Hd0 Hdn (Hds & Hlbs & HL & Hbig & He) Hthat Hne Hdir Hcap.
  caps v.
  assert (HB : Bcap that = Bcap v) by (unfold Bcap; by rewrite HL).
  assert (HD : Dcap that = Dcap v) by (unfold Dcap; by rewrite HL, Hbig).
  pose proof (shape_sizes _ _ _ _ Hthat) as Htsizes.
  destruct Hthat as (Hwft & (Htd0 & Htdn & (tslots & Htd & Htcap & Htsl) & Htsound & Htblocks) & Htlen).
  pose proof (blocks_length _ _ _ _ Htblocks) as Htbl.
  assert (Hheld : dir_size v ≤ held v ≤ dir_size v + 1)
    by (unfold held; destruct (extra_buffer v); cbn [b2z]; lia).
  assert (Hheldt : held that = held v) by (unfold held; by rewrite Hds, He).
  set (n := Z.to_nat (dir_size v)).
  cut (wp (construct that) (v, h)
         (λ _ s, ∃ h' ptrs bs, s = (v, h') ∧
            owns h' (dir v) (Dcap v) (Bcap v) ptrs bs ∧ Z.of_nat (length ptrs) = held v ∧
            cells_of v bs = cells_of that tbs ∧
            Forall (λ p, (next h ≤ p)%nat) ptrs ∧
            dirs h' !! dir that = dirs h !! dir that ∧
            (∀ p, (p < next h)%nat → bufs h' !! p = bufs h !! p) ∧ (next h ≤ next h')%nat)).
  { intros Hwp. apply wp_elim in Hwp as ([] & s' & Hrun & h' & ptrs & bs & -> & ?).
    by exists h', ptrs, bs. }
  unfold construct. apply wp_bind, wp_assert_valid; [done..|]. wp_steps. fold n.
  apply (wp_repeat_from
           (λ k s, ∃ hk newps slots,
              s = (v, hk) ∧ dirs hk !! dir v = Some slots ∧
              Z.of_nat (length slots) = Dcap v ∧
              slotted slots 0 newps ∧ length newps = k ∧ NoDup newps ∧
              Forall (λ p, (next h ≤ p < next hk)%nat) newps ∧
              blocks hk (Bcap v) newps (take k tbs) ∧
              dirs hk !! dir that = dirs h !! dir that ∧
              (∀ p, (p < next h)%nat → bufs hk !! p = bufs h !! p) ∧
              (next h ≤ next hk)%nat)).
  - exists h, [], slots. split; [done|]. split; [done|]. split; [done|].
    split; [by intros i p Hp|]. split; [done|]. split; [constructor|].
    split; [constructor|]. split; [rewrite take_0; constructor|]. done.
  - (* one round *)
    intros k s' Hk (hk & newps & slk & -> & Hdk & Hcapk & Hslk & Hlenk & Hndk & Hfrk
                       & Hblk & Hdthat & Hold & Hnk).
    rewrite iter_succ_wrap32 by lia. rewrite Z.add_0_l.
    destruct (lookup_lt_is_Some_2 tptrs k) as [src Hsrc]; [lia|].
    destruct (blocks_lookup _ _ _ _ _ _ Htblocks Hsrc) as (tb & Htb & Hsrcb & Htblen).
    destruct (sound_fresh _ _ _ Htsound (list_elem_of_lookup_2 _ _ _ Hsrc)) as [Hsrc0 Hsrcn].
    wp_steps.
    set (p := next hk).
    set (h1 := Heap (<[p := replicate (Z.to_nat (Bcap v)) None]> (bufs hk)) (dirs hk) (S p)).
    eapply wp_mem_done.
    { apply (store_slot_run h1 (dir v) slk); [done|lia]. }
    cbv beta. cbn [bufs dirs next h1]. rewrite Nat2Z.id.
    set (h2 := Heap (<[p := replicate (Z.to_nat (Bcap v)) None]> (bufs hk))
                    (<[dir v := <[k := Some p]> slk]> (dirs hk)) (S p)).
    wp_step.
    eapply (wp_mem_done (load_slot (dir that) (Z.of_nat k))).
    { apply (load_slot_run h2 (dir that) tslots); [|lia|].
      - cbn [h2 dirs]. rewrite lookup_insert_ne by done. by rewrite Hdthat.
      - rewrite Nat2Z.id. by apply (Htsl k src). }
    cbv beta. wp_step.
    eapply wp_const_call.
    { apply buffer_capacity_run. lia. }
    rewrite HB. wp_steps.
    eapply (wp_mem_done (load_slot (dir v) (Z.of_nat k))).
    { apply (load_slot_run h2 (dir v) (<[k := Some p]> slk)); [apply lookup_insert_eq|lia|].
      rewrite Nat2Z.id. apply list_lookup_insert_eq. lia. }
    cbv beta.
    assert (Hps : src ≠ p) by (unfold p; lia).
    eapply wp_mem_done.
    { apply (copy_cells_run h2 src p tb (replicate (Z.to_nat (Bcap v)) None));
        [ |apply lookup_insert_eq|exact Hps|lia|lia|lia|lia|rewrite length_replicate; lia].
      cbn [h2 bufs]. rewrite lookup_insert_ne by done. by rewrite Hold. }
    cbn [h2 bufs dirs next].
    replace (take (Z.to_nat 0) (replicate (Z.to_nat (Bcap v)) None)
             ++ take (Z.to_nat (Bcap v)) (drop (Z.to_nat 0) tb)
             ++ drop (Z.to_nat (0 + Bcap v)) (replicate (Z.to_nat (Bcap v)) None))
      with tb; cycle 1.
    { change (Z.to_nat 0) with 0%nat. rewrite take_0, drop_0. cbn [app].
      rewrite take_ge by lia. rewrite drop_ge by (rewrite length_replicate; lia).
      by rewrite app_nil_r. }
    rewrite insert_insert_eq.
    eexists _, (newps ++ [p]), _. split; [done|]. cbn [bufs dirs next].
    split; [apply lookup_insert_eq|]. split; [by rewrite length_insert|].
    split. { rewrite <- Hlenk. apply slotted_snoc; [done|lia]. }
    split; [rewrite length_app; cbn; lia|].
    rewrite Forall_forall in Hfrk.
    split.
    { apply NoDup_app. split; [done|]. split; [|apply NoDup_singleton].
      intros q Hq Hq'. apply list_elem_of_singleton in Hq' as ->.
      specialize (Hfrk _ Hq). unfold p in Hfrk. lia. }
    split.
    { apply Forall_app. split.
      - apply Forall_forall. intros q Hq. specialize (Hfrk _ Hq). lia.
      - apply Forall_singleton. unfold p. lia. }
    split.
    { rewrite (take_S_r _ _ tb) by done. apply Forall2_app.
      - apply Forall2_same_length_lookup. split; [by eapply Forall2_length|].
        intros i q c Hq Hc.
        destruct (Forall2_lookup_lr _ _ _ _ _ _ Hblk Hq Hc) as [Hqb Hql].
        split; [|done]. cbn [bufs]. rewrite lookup_insert_ne; [done|].
        specialize (Hfrk q (list_elem_of_lookup_2 _ _ _ Hq)). unfold p. lia.
      - constructor; [|constructor]. split; [apply lookup_insert_eq|lia]. }
    split; [by rewrite lookup_insert_ne|].
    split; [|lia].
    intros q Hq. rewrite lookup_insert_ne by (unfold p; lia). by apply Hold.
  - (* after the loop *)
    intros s' (hn & newps & sln & -> & Hdk & Hcapk & Hslk & Hlenk & Hndk & Hfrk
                  & Hblk & Hdthat & Hold & Hnk).
    cbv beta. rewrite Forall_forall in Hfrk.
    assert (Hszeq : sz v = sz that) by (unfold sz; rewrite HB; congruence).
    assert (Htake : Forall (λ b : list (option T), length b = Z.to_nat (Bcap v)) (take n tbs)).
    { apply Forall_take. by rewrite <- HB. }
    assert (Hlong : (Z.to_nat (sz v) ≤ length (concat (take n tbs)))%nat).
    { rewrite (concat_uniform_length (Z.to_nat (Bcap v))) by done.
      rewrite length_take. unfold sz. nia. }
    assert (Hcells : ∀ more, cells_of v (take n tbs ++ more) = cells_of that tbs).
    { intros more. unfold cells_of. rewrite <- Hszeq.
      rewrite <- (take_drop n tbs) at 2. rewrite !concat_app, !take_app_le by done. done. }
    assert (Hend : ∀ h' ptrs bs,
              owns h' (dir v) (Dcap v) (Bcap v) ptrs bs → Z.of_nat (length ptrs) = held v →
              cells_of v bs = cells_of that tbs →
              Forall (λ p, (next h ≤ p)%nat) ptrs →
              dirs h' !! dir that = dirs h !! dir that →
              (∀ p, (p < next h)%nat → bufs h' !! p = bufs h !! p) → (next h ≤ next h')%nat →
              wp assert_valid (v, h')
                (λ _ s, ∃ h' ptrs bs, s = (v, h') ∧
                   owns h' (dir v) (Dcap v) (Bcap v) ptrs bs ∧
                   Z.of_nat (length ptrs) = held v ∧
                   cells_of v bs = cells_of that tbs ∧
                   Forall (λ p, (next h ≤ p)%nat) ptrs ∧
                   dirs h' !! dir that = dirs h !! dir that ∧
                   (∀ p, (p < next h)%nat → bufs h' !! p = bufs h !! p) ∧
                   (next h ≤ next h')%nat)).
    { intros h' ptrs bs ???????. apply wp_assert_valid; [done..|].
      by exists h', ptrs, bs. }
    assert (Hsound : ∀ h' ptrs, NoDup ptrs →
              (∀ p, p ∈ ptrs → (next h ≤ p < next h')%nat) → sound h' ptrs).
    { intros h' ptrs Hnd Hfr. split; [done|]. apply Forall_forall. intros q Hq.
      specialize (Hfr q Hq). lia. }
    wp_steps.
    destruct (extra_buffer v) eqn:Hev; cbn [b2z] in *.
    + wp_steps.
      set (p := next hn). assert (Hp : p = next hn) by done. clearbody p.
      eapply wp_mem_done.
      { eapply (store_slot_run _ (dir v) sln); [done|]. cbn [dirs]. lia. }
      cbv beta. cbn [bufs dirs next].
      apply (Hend _ (newps ++ [p]) (take n tbs ++ [replicate (Z.to_nat (Bcap v)) None]));
        cbn [bufs dirs next]; try done.
      * split; [done|]. split; [cbn [next]; lia|]. split.
        { eexists. split; [apply lookup_insert_eq|]. split; [by rewrite length_insert|].
          replace (Z.to_nat (dir_size v)) with (length newps) by (fold n; lia).
          apply slotted_snoc; [done|lia]. }
        split.
        { apply Hsound.
          - apply NoDup_app. split; [done|]. split; [|apply NoDup_singleton].
            intros q Hq Hq'. apply list_elem_of_singleton in Hq' as ->.
            specialize (Hfrk _ Hq). lia.
          - intros q Hq. cbn [next]. apply elem_of_app in Hq as [Hq|Hq].
            + specialize (Hfrk _ Hq). lia.
            + apply list_elem_of_singleton in Hq as ->. lia. }
        apply Forall2_app.
        -- apply Forall2_same_length_lookup. split; [by eapply Forall2_length|].
           intros i q c Hq Hc.
           destruct (Forall2_lookup_lr _ _ _ _ _ _ Hblk Hq Hc) as [Hqb Hql].
           split; [|done]. cbn [bufs]. rewrite lookup_insert_ne; [done|].
           specialize (Hfrk q (list_elem_of_lookup_2 _ _ _ Hq)). lia.
        -- constructor; [|constructor]. split; [apply lookup_insert_eq|].
           rewrite length_replicate. lia.
      * rewrite length_app. cbn [length]. unfold held. rewrite Hev. cbn [b2z]. lia.
      * apply Forall_app. split.
        -- apply Forall_forall. intros q Hq. specialize (Hfrk _ Hq). lia.
        -- apply Forall_singleton. lia.
      * by rewrite lookup_insert_ne.
      * intros q Hq. rewrite lookup_insert_ne by lia. by apply Hold.
      * lia.
    + apply wp_ret. cbv beta.
      apply (Hend hn newps (take n tbs)); try done.
      * split; [done|]. split; [lia|]. split; [by exists sln|]. split; [|done].
        apply Hsound; [done|]. intros q Hq. by apply Hfrk.
      * unfold held. rewrite Hev. cbn [b2z]. lia.
      * rewrite <- (app_nil_r (take n tbs)). apply Hcells.
      * apply Forall_forall. intros q Hq. specialize (Hfrk _ Hq). lia.
Qed.

(** [construct(that)] when [that] is the vector itself, on a directory
    that holds nothing yet: every buffer is copied onto itself. *)
Lemma construct_self_run v h slots :
  wf v → dir v ≠ 0%nat → (dir v < next h)%nat →
  dirs h !! dir v = Some slots → Z.of_nat (length slots) = Dcap v →
  ∃ h' ptrs,
    construct v (v, h) = Done tt (v, h') ∧
    owns h' (dir v) (Dcap v) (Bcap v) ptrs
      (replicate (length ptrs) (replicate (Z.to_nat (Bcap v)) None)) ∧
    Z.of_nat (length ptrs) = held v ∧
    Forall (λ p, (next h ≤ p)%nat) ptrs ∧
    (∀ p, (p < next h)%nat → bufs h' !! p = bufs h !! p) ∧ (next h ≤ next h')%nat.
Proof.
  intros Hwf Hd0 Hdn Hdir Hcap.
  caps v.
  assert (Hheld : dir_size v ≤ held v ≤ dir_size v + 1)
    by (unfold held; destruct (extra_buffer v); cbn [b2z]; lia).
  set (n := Z.to_nat (dir_size v)).
  set (blank := replicate (Z.to_nat (Bcap v)) (@None T)).
  cut (wp (construct v) (v, h)
         (λ _ s, ∃ h' ptrs, s = (v, h') ∧
            owns h' (dir v) (Dcap v) (Bcap v) ptrs (replicate (length ptrs) blank) ∧
            Z.of_nat (length ptrs) = held v ∧
            Forall (λ p, (next h ≤ p)%nat) ptrs ∧
            (∀ p, (p < next h)%nat → bufs h' !! p = bufs h !! p) ∧ (next h ≤ next h')%nat)).
  { intros Hwp. apply wp_elim in Hwp as ([] & s' & Hrun & h' & ptrs & -> & ?).
    by exists h', ptrs. }
  unfold construct. apply wp_bind, wp_assert_valid; [done..|]. wp_steps. fold n.
  apply (wp_repeat_from
           (λ k s, ∃ hk newps slots,
              s = (v, hk) ∧ dirs hk !! dir v = Some slots ∧
              Z.of_nat (length slots) = Dcap v ∧
              slotted slots 0 newps ∧ length newps = k ∧ NoDup newps ∧
              Forall (λ p, (next h ≤ p < next hk)%nat) newps ∧
              blocks hk (Bcap v) newps (replicate k blank) ∧
              (∀ p, (p < next h)%nat → bufs hk !! p = bufs h !! p) ∧
              (next h ≤ next hk)%nat)).
  - exists h, [], slots. split; [done|]. split; [done|]. split; [done|].
    split; [by intros i p Hp|]. split; [done|]. split; [constructor|].
    split; [constructor|]. split; [constructor|]. done.
  - (* one round *)
    intros k s' Hk (hk & newps & slk & -> & Hdk & Hcapk & Hslk & Hlenk & Hndk & Hfrk
                       & Hblk & Hold & Hnk).
    rewrite iter_succ_wrap32 by lia. rewrite Z.add_0_l.
    wp_steps.
    set (p := next hk). assert (Hp : p = next hk) by done. clearbody p.
    set (h1 := Heap (<[p := blank]> (bufs hk)) (dirs hk) (S p)).
    eapply wp_mem_done.
    { apply (store_slot_run h1 (dir v) slk); [done|lia]. }
    cbv beta. cbn [bufs dirs next h1]. rewrite Nat2Z.id.
    set (h2 := Heap (<[p := blank]> (bufs hk))
                    (<[dir v := <[k := Some p]> slk]> (dirs hk)) (S p)).
    assert (Hload : load_slot (dir v) (Z.of_nat k) h2 = Done (Some p) h2).
    { apply (load_slot_run h2 (dir v) (<[k := Some p]> slk)); [apply lookup_insert_eq|lia|].
      rewrite Nat2Z.id. apply list_lookup_insert_eq. lia. }
    wp_step.
    eapply (wp_mem_done (load_slot (dir v) (Z.of_nat k))); [exact Hload|].
    cbv beta. wp_step.
    eapply wp_const_call.
    { apply buffer_capacity_run. lia. }
    wp_steps.
    eapply (wp_mem_done (load_slot (dir v) (Z.of_nat k))); [exact Hload|].
    cbv beta.
    eapply wp_mem_done.
    { unfold copy_cells. apply (copy_cells_self h2 p blank); [apply lookup_insert_eq|lia|].
      unfold blank. rewrite length_replicate. lia. }
    rewrite Forall_forall in Hfrk. clear Hload. subst h1 h2.
    eexists _, (newps ++ [p]), (<[k := Some p]> slk). split; [done|]. cbn [bufs dirs next].
    split; [apply lookup_insert_eq|]. split; [by rewrite length_insert|].
    split. { rewrite <- Hlenk. apply slotted_snoc; [done|lia]. }
    split; [rewrite length_app; cbn; lia|].
    split.
    { apply NoDup_app. split; [done|]. split; [|apply NoDup_singleton].
      intros q Hq Hq'. apply list_elem_of_singleton in Hq' as ->.
      specialize (Hfrk _ Hq). lia. }
    split.
    { apply Forall_app. split.
      - apply Forall_forall. intros q Hq. specialize (Hfrk _ Hq). lia.
      - apply Forall_singleton. lia. }
    split.
    { rewrite replicate_S_end. apply Forall2_app.
      - apply Forall2_same_length_lookup. split; [by eapply Forall2_length|].
        intros i q c Hq Hc.
        destruct (Forall2_lookup_lr _ _ _ _ _ _ Hblk Hq Hc) as [Hqb Hql].
        split; [|done]. cbn [bufs]. rewrite lookup_insert_ne; [done|].
        specialize (Hfrk q (list_elem_of_lookup_2 _ _ _ Hq)). lia.
      - constructor; [|constructor]. split; [apply lookup_insert_eq|].
        unfold blank. rewrite length_replicate. lia. }
    split; [|lia].
    intros q Hq. rewrite lookup_insert_ne by lia. by apply Hold.
  - (* after the loop *)
    intros s' (hn & newps & sln & -> & Hdk & Hcapk & Hslk & Hlenk & Hndk & Hfrk
                  & Hblk & Hold & Hnk).
    cbv beta. rewrite Forall_forall in Hfrk.
    assert (Hend : ∀ h' ptrs,
              owns h' (dir v) (Dcap v) (Bcap v) ptrs (replicate (length ptrs) blank) →
              Z.of_nat (length ptrs) = held v →
              Forall (λ p, (next h ≤ p)%nat) ptrs →
              (∀ p, (p < next h)%nat → bufs h' !! p = bufs h !! p) → (next h ≤ next h')%nat →
              wp assert_valid (v, h')
                (λ _ s, ∃ h' ptrs, s = (v, h') ∧
                   owns h' (dir v) (Dcap v) (Bcap v) ptrs (replicate (length ptrs) blank) ∧
                   Z.of_nat (length ptrs) = held v ∧
                   Forall (λ p, (next h ≤ p)%nat) ptrs ∧
                   (∀ p, (p < next h)%nat → bufs h' !! p = bufs h !! p) ∧
                   (next h ≤ next h')%nat)).
    { intros h' ptrs ?????. apply wp_assert_valid; [done..|]. by exists h', ptrs. }
    assert (Hsound : ∀ h' ptrs, NoDup ptrs →
              (∀ p, p ∈ ptrs → (next h ≤ p < next h')%nat) → sound h' ptrs).
    { intros h' ptrs Hnd Hfr. split; [done|]. apply Forall_forall. intros q Hq.
      specialize (Hfr q Hq). lia. }
    wp_steps.
    destruct (extra_buffer v) eqn:Hev; cbn [b2z] in *.
    + wp_steps.
      set (p := next hn). assert (Hp : p = next hn) by done. clearbody p.
      eapply wp_mem_done.
      { eapply (store_slot_run _ (dir v) sln); [done|]. cbn [dirs]. lia. }
      cbv beta. cbn [bufs dirs next].
      apply (Hend _ (newps ++ [p])); cbn [bufs dirs next]; try done.
      * split; [done|]. split; [cbn [next]; lia|]. split.
        { eexists. split; [apply lookup_insert_eq|]. split; [by rewrite length_insert|].
          replace (Z.to_nat (dir_size v)) with (length newps) by (fold n; lia).
          apply slotted_snoc; [done|lia]. }
        split.
        { apply Hsound.
          - apply NoDup_app. split; [done|]. split; [|apply NoDup_singleton].
            intros q Hq Hq'. apply list_elem_of_singleton in Hq' as ->.
            specialize (Hfrk _ Hq). lia.
          - intros q Hq. cbn [next]. apply elem_of_app in Hq as [Hq|Hq].
            + specialize (Hfrk _ Hq). lia.
            + apply list_elem_of_singleton in Hq as ->. lia. }
        rewrite length_app. cbn [length]. rewrite Nat.add_1_r, replicate_S_end.
        apply Forall2_app.
        -- rewrite Hlenk. apply Forall2_same_length_lookup. split; [by eapply Forall2_length|].
           intros i q c Hq Hc.
           destruct (Forall2_lookup_lr _ _ _ _ _ _ Hblk Hq Hc) as [Hqb Hql].
           split; [|done]. cbn [bufs]. rewrite lookup_insert_ne; [done|].
           specialize (Hfrk q (list_elem_of_lookup_2 _ _ _ Hq)). lia.
        -- constructor; [|constructor]. split; [apply lookup_insert_eq|].
           unfold blank. rewrite length_replicate. lia.
      * rewrite length_app. cbn [length]. unfold held. rewrite Hev. cbn [b2z]. lia.
      * apply Forall_app. split.
        -- apply Forall_forall. intros q Hq. specialize (Hfrk _ Hq). lia.
        -- apply Forall_singleton. lia.
      * intros q Hq. rewrite lookup_insert_ne by lia. by apply Hold.
      * lia.
    + apply wp_ret. cbv beta.
      apply (Hend hn newps); try done.
      * split; [done|]. split; [lia|]. split; [by exists sln|]. split; [|by rewrite Hlenk].
        apply Hsound; [done|]. intros q Hq. by apply Hfrk.
      * unfold held. rewrite Hev. cbn [b2z]. lia.
      * apply Forall_forall. intros q Hq. specialize (Hfrk _ Hq). lia.
Qed.
End construct.

(** ** Programs with several vectors *)

Section store_rules.
Context {T : Type}.
Implicit Types (st : store T) (v : vector) (h : heap T) (o : nat).

Lemma on_run {A} (m : Mv (T:=T) A) o os h v x v' h' :
  os !! o = Some v → m (v, h) = Done x (v', h') →
  on o m (Store os h) = Done x (Store (<[o := v']> os) h').
Proof. intros Ho Hm. unfold on. cbn [objs hp]. by rewrite Ho, Hm. Qed.

Lemma wp_on {A} (m : Mv (T:=T) A) o st v (Q : A → store T → Prop) :
  objs st !! o = Some v →
  wp m (v, hp st) (λ x s, Q x (Store (<[o := s.1]> (objs st)) s.2)) →
  wp (on o m) st Q.
Proof. intros Ho. unfold wp, on. rewrite Ho. by destruct (m (v, hp st)). Qed.

Lemma wp_alloc {A} (m : M (heap T) A) st (Q : A → store T → Prop) :
  wp m (hp st) (λ x h', Q x (Store (objs st) h')) → wp (alloc m) st Q.
Proof. unfold wp, alloc, zoom. by destruct (m (hp st)). Qed.

Lemma wp_declare o v st (Q : unit → store T → Prop) :
  objs st !! o = None → Q tt (Store (<[o := v]> (objs st)) (hp st)) →
  wp (declare o v) st Q.
Proof. intros Ho HQ. unfold wp, declare. by rewrite Ho. Qed.

Lemma wp_forget o st (Q : unit → store T → Prop) :
  Q tt (Store (delete o (objs st)) (hp st)) → wp (forget o) st Q.
Proof. done. Qed.

(** A call made with the blocks [X] and [Y] only does the same in the
    whole heap. *)
Lemma exec_frame (c : call T) os (H : heap T) X Y r os' h' :
  below (next H) H →
  exec c (Store os (part X Y H)) = Done r (Store os' h') →
  exec c (Store os H) = Done r (Store os' (hplus h' (rest X Y H))) ∧
  apart h' (rest X Y H).
Proof.
  intros Hb Hrun.
  destruct (local_exec c (Store os (part X Y H)) (rest X Y H) r (Store os' h') Hrun)
    as [Hrun' Hap].
  { by apply apart_part_rest. }
  cbn [the_heap set_heap store_heaped objs hp] in *.
  by rewrite hplus_part_rest in Hrun'.
Qed.

Lemma inv_lookup st (a : contents (T:=T)) g o cs :
  inv_with g st a → a !! o = Some cs →
  ∃ v ptrs bs, objs st !! o = Some v ∧ g !! o = Some (ptrs, bs) ∧
               shape v (hp st) ptrs bs ∧ settled v ∧ cs = cells_of v bs.
Proof.
  intros (Hnone & Hsome & _) Ha.
  destruct (objs st !! o) as [v|] eqn:Ho.
  - destruct (Hsome o v Ho) as (ptrs & bs & ? & ? & ? & ?).
    exists v, ptrs, bs. split; [done|]. split; [done|]. split; [done|]. split; [done|].
    congruence.
  - rewrite (Hnone o Ho) in Ha. done.
Qed.

Lemma inv_lookup_None st (a : contents (T:=T)) g o :
  inv_with g st a → a !! o = None → objs st !! o = None.
Proof.
  intros (_ & Hsome & _) Ha.
  destruct (objs st !! o) as [v|] eqn:Ho; [|done].
  destruct (Hsome o v Ho) as (ptrs & bs & ? & ? & ? & ?). congruence.
Qed.

Lemma cells_length v h ptrs bs :
  shape v h ptrs bs → Z.of_nat (length (cells_of v bs)) = sz v.
Proof.
  intros Hsh. pose proof (shape_wf _ _ _ _ Hsh) as Hwf.
  pose proof (shape_sizes _ _ _ _ Hsh) as Hsizes.
  pose proof (shape_length _ _ _ _ Hsh) as Hlen. caps v.
  unfold cells_of. rewrite length_take.
  rewrite (concat_uniform_length (Z.to_nat (Bcap v))) by done.
  assert (dir_size v ≤ held v) by (unfold held; destruct (extra_buffer v); cbn [b2z]; lia).
  unfold sz. nia.
Qed.
End store_rules.

Section refinement.
Context {T : Type}.
Implicit Types (st : store T) (v : vector) (h : heap T) (o : nat).
Implicit Types (a : contents (T:=T)) (g : ghost (T:=T)).

(** A call that works on one vector. *)
Lemma on_refines {A} (m : Mv (T:=T) A) (c : call T) (k : A → answer T) o st a cs
    (P : A → list (option T) → Prop) :
  (∀ st, exec c st = bind (on o m) (λ x, ret (k x)) st) →
  inv st a → a !! o = Some cs →
  (∀ v h ptrs bs,
     objs st !! o = Some v → shape v h ptrs bs → settled v → cs = cells_of v bs →
     ∃ x v' h' ptrs' bs',
       m (v, h) = Done x (v', h') ∧ shape v' h' ptrs' bs' ∧ settled v' ∧
       (next h ≤ next h')%nat ∧ P x (cells_of v' bs')) →
  ∃ x st' cs', exec c st = Done (k x) st' ∧ inv st' (<[o := cs']> a) ∧ P x cs'.
Proof.
  intros Hexec (Hb & Hpos & g & Hinv) Ha Hm. destruct st as [os H]. cbn [objs hp] in *.
  destruct (inv_lookup _ _ _ _ _ Hinv Ha) as (v & ptrs & bs & Ho & Hg & Hsh & Hset & ->).
  cbn [objs hp] in *.
  destruct (Hm v (part ptrs [dir v] H) ptrs bs Ho) as (x & v' & h' & ptrs' & bs' & Hrun & Hsh' & Hset' & Hnext & HP);
    [|done|done|].
  { apply shape_part; [done|by apply list_elem_of_singleton|done]. }
  destruct (exec_frame c os H ptrs [dir v] (k x) (<[o := v']> os) h' Hb) as [Hfull Hap].
  { rewrite Hexec. by rewrite (bind_done _ _ _ _ _ (on_run m o os _ v x v' h' Ho Hrun)). }
  exists x, (Store (<[o := v']> os) (hplus h' (rest ptrs [dir v] H))), (cells_of v' bs').
  split; [done|]. split; [|done].
  apply (inv_update [o] ptrs [dir v] g (<[o := (ptrs', bs')]> g) os _ H h' a); try done.
  - intros o' Ho'. apply not_elem_of_cons in Ho' as [Hne _].
    assert (o ≠ o') by congruence. unfold ghost, contents in *.
    repeat split; rewrite ?lookup_insert_ne by done; done.
  - intros p Hp. exists o, v, ptrs, bs. split; [by left|done].
  - intros d Hd. apply list_elem_of_singleton in Hd as ->. exists o, v. split; [by left|done].
  - intros o' Ho' Hnone. apply list_elem_of_singleton in Ho' as ->.
    by rewrite lookup_insert_eq in Hnone.
  - intros o' w Ho' Hw. apply list_elem_of_singleton in Ho' as ->.
    rewrite lookup_insert_eq in Hw. injection Hw as <-.
    unfold ghost, contents in *. exists ptrs', bs'. by rewrite !lookup_insert_eq.
  - intros o1 o2 ?????? Ho1 Ho2 Hne.
    apply list_elem_of_singleton in Ho1 as ->. apply list_elem_of_singleton in Ho2 as ->. done.
Qed.

Lemma removelast_take {A} (l : list A) : removelast l = take (length l - 1) l.
Proof. rewrite removelast_firstn_len. f_equal. lia. Qed.

Lemma push_refines o x st a cs :
  inv st a → within (PushBack o x) st → a !! o = Some cs →
  ∃ st', exec (PushBack o x) st = Done Nothing st' ∧ inv st' (<[o := cs ++ [Some x]]> a).
Proof.
  intros Hinv Hin Ha.
  destruct (on_refines (push_back x) (PushBack o x) (λ _, Nothing) o st a cs
              (λ _ cs', cs' = cs ++ [Some x])) as (_ & st' & cs' & Hrun & Hinv' & ->);
    [done|done|done| |by exists st'].
  intros v h ptrs bs Ho Hsh Hset ->. cbn [within] in Hin. rewrite Ho in Hin.
  destruct (push_back_run v h ptrs bs x Hsh Hset Hin)
    as (v' & h' & ptrs' & bs' & Hrun & Hsh' & Hset' & _ & Hcells & Hnext).
  by exists tt, v', h', ptrs', bs'.
Qed.

Lemma pop_refines o st a cs :
  inv st a → a !! o = Some cs → cs ≠ [] →
  ∃ st', exec (PopBack o) st = Done Nothing st' ∧ inv st' (<[o := removelast cs]> a).
Proof.
  intros Hinv Ha Hcs.
  destruct (on_refines pop_back (PopBack o) (λ _, Nothing) o st a cs
              (λ _ cs', cs' = removelast cs)) as (_ & st' & cs' & Hrun & Hinv' & ->);
    [done|done|done| |by exists st'].
  intros v h ptrs bs Ho Hsh Hset ->.
  pose proof (cells_length _ _ _ _ Hsh) as Hlen.
  assert (0 < sz v).
  { destruct (cells_of v bs); [done|]. cbn [length] in Hlen. lia. }
  destruct (pop_back_run v h ptrs bs Hsh Hset ltac:(done))
    as (_ & v' & h' & ptrs' & bs' & _ & _ & _ & _ & Hrun & Hsh' & Hset' & _ & Hcells & Hnext).
  exists tt, v', h', ptrs', bs'. split; [done|]. split; [done|]. split; [done|].
  split; [done|]. rewrite Hcells, removelast_take. f_equal. lia.
Qed.

Lemma size_refines o st a cs :
  inv st a → a !! o = Some cs →
  ∃ st', exec (Size o) st = Done (Count (Z.of_nat (length cs))) st' ∧ inv st' a.
Proof.
  intros Hinv Ha.
  destruct (on_refines size (Size o) Count o st a cs
              (λ n cs', n = Z.of_nat (length cs) ∧ cs' = cs))
    as (n & st' & cs' & Hrun & Hinv' & -> & ->); [done|done|done| |].
  - intros v h ptrs bs Ho Hsh Hset ->.
    exists (sz v), v, h, ptrs, bs. split; [apply size_run; by eapply shape_wf|].
    split; [done|]. split; [done|]. split; [done|]. split; [|done].
    symmetry. by eapply cells_length.
  - exists st'. split; [done|]. unfold contents in *. by rewrite insert_id in Hinv'.
Qed.

Lemma get_refines o i st a cs c :
  inv st a → a !! o = Some cs → 0 ≤ i → cs !! Z.to_nat i = Some c →
  ∃ st', exec (Get o i) st = Done (Cell c) st' ∧ inv st' a.
Proof.
  intros Hinv Ha Hi Hc.
  destruct (on_refines (get i) (Get o i) Cell o st a cs
              (λ x cs', x = c ∧ cs' = cs))
    as (n & st' & cs' & Hrun & Hinv' & -> & ->); [done|done|done| |].
  - intros v h ptrs bs Ho Hsh Hset ->.
    pose proof (cells_length _ _ _ _ Hsh) as Hlen. apply lookup_lt_Some in Hc as Hlt.
    destruct (get_run v h ptrs bs i Hsh ltac:(lia)) as (c' & Hc' & Hrun).
    exists c', v, h, ptrs, bs. split; [done|]. split; [done|]. split; [done|].
    split; [done|]. split; [congruence|done].
  - exists st'. split; [done|]. unfold contents in *. by rewrite insert_id in Hinv'.
Qed.

Lemma put_refines o i x st a cs :
  inv st a → a !! o = Some cs → 0 ≤ i < Z.of_nat (length cs) →
  ∃ st', exec (Put o i x) st = Done Nothing st' ∧
         inv st' (<[o := <[Z.to_nat i := Some x]> cs]> a).
Proof.
  intros Hinv Ha Hi.
  destruct (on_refines (put i x) (Put o i x) (λ _, Nothing) o st a cs
              (λ _ cs', cs' = <[Z.to_nat i := Some x]> cs))
    as (_ & st' & cs' & Hrun & Hinv' & ->); [done|done|done| |by exists st'].
  intros v h ptrs bs Ho Hsh Hset ->.
  pose proof (cells_length _ _ _ _ Hsh) as Hlen.
  destruct (put_run v h ptrs bs i x Hsh ltac:(lia)) as (h' & bs' & Hrun & Hnext & Hsh' & Hcells).
  exists tt, v, h', ptrs, bs'. split; [done|]. split; [done|]. split; [done|].
  split; [lia|done].
Qed.

Lemma new_refines o st a :
  inv st a → a !! o = None →
  ∃ st', exec (NewVector o) st = Done Nothing st' ∧ inv st' (<[o := []]> a).
Proof.
  intros (Hb & Hpos & g & Hinv) Ha. destruct st as [os H]. cbn [objs hp] in *.
  pose proof (inv_lookup_None _ _ _ _ Hinv Ha) as Ho. cbn [objs] in Ho.
  destruct (vector_new_run (part [] [] H))
    as (v & h' & ptrs & bs & Hrun & Hsh & Hset & Hsz & Hcells & Hnext); [exact Hpos|].
  destruct (exec_frame (NewVector o) os H [] [] Nothing (<[o := v]> os) h' Hb) as [Hfull Hap].
  { apply wp_eq. cbn [exec]. unfold declare_default.
    apply wp_bind, wp_bind, wp_alloc. eapply wp_done; [exact Hrun|].
    apply wp_declare; [done|]. by apply wp_ret. }
  eexists. split; [exact Hfull|].
  unfold ghost, contents in *.
  apply (inv_update [o] [] [] g (<[o := (ptrs, bs)]> g) os _ H h' a); try done.
  - intros o' Ho'. apply not_elem_of_cons in Ho' as [Hne _].
    assert (o ≠ o') by congruence. unfold ghost, contents in *.
    repeat split; rewrite ?lookup_insert_ne by done; done.
  - intros p Hp. by apply elem_of_nil in Hp.
  - intros p Hp. by apply elem_of_nil in Hp.
  - intros o' Ho' Hnone. apply list_elem_of_singleton in Ho' as ->.
    by rewrite lookup_insert_eq in Hnone.
  - intros o' w Ho' Hw. apply list_elem_of_singleton in Ho' as ->.
    rewrite lookup_insert_eq in Hw. injection Hw as <-.
    unfold ghost, contents in *. exists ptrs, bs. rewrite !lookup_insert_eq. by rewrite Hcells.
  - intros o1 o2 ?????? Ho1 Ho2 Hne.
    apply list_elem_of_singleton in Ho1 as ->. apply list_elem_of_singleton in Ho2 as ->. done.
Qed.

Lemma destroy_refines o st a cs :
  inv st a → a !! o = Some cs →
  ∃ st', exec (Destroy o) st = Done Nothing st' ∧ inv st' (delete o a).
Proof.
  intros (Hb & Hpos & g & Hinv) Ha. destruct st as [os H]. cbn [objs hp] in *.
  destruct (inv_lookup _ _ _ _ _ Hinv Ha) as (v & ptrs & bs & Ho & Hg & Hsh & Hset & ->).
  cbn [objs hp] in *.
  destruct (destuct_run v (part ptrs [dir v] H) ptrs bs)
    as (h' & Hrun & Hnext & _).
  { apply shape_part; [done|by apply list_elem_of_singleton|done]. }
  destruct (exec_frame (Destroy o) os H ptrs [dir v] Nothing (delete o (<[o := v]> os)) h' Hb)
    as [Hfull Hap].
  { apply wp_eq. cbn [exec]. unfold destroy.
    apply wp_bind, wp_bind. eapply wp_on; [done|]. eapply wp_done; [exact Hrun|].
    cbv beta. cbn [fst snd]. apply wp_forget. by apply wp_ret. }
  eexists. split; [exact Hfull|].
  unfold ghost, contents in *.
  apply (inv_update [o] ptrs [dir v] g (delete o g) os _ H h' a); try done.
  - cbn [part next] in Hnext. lia.
  - intros o' Ho'. apply not_elem_of_cons in Ho' as [Hne _].
    assert (o ≠ o') by congruence. unfold ghost, contents in *.
    repeat split; rewrite ?lookup_delete_ne, ?lookup_insert_ne by done; done.
  - intros p Hp. exists o, v, ptrs, bs. split; [by left|done].
  - intros d Hd. apply list_elem_of_singleton in Hd as ->. exists o, v. split; [by left|done].
  - intros o' Ho' Hnone. apply list_elem_of_singleton in Ho' as ->.
    unfold contents. apply lookup_delete_eq.
  - intros o' w Ho' Hw. apply list_elem_of_singleton in Ho' as ->.
    by rewrite lookup_delete_eq in Hw.
  - intros o1 o2 ?????? Ho1 Ho2 Hne.
    apply list_elem_of_singleton in Ho1 as ->. apply list_elem_of_singleton in Ho2 as ->. done.
Qed.

Lemma wf_same v that : same_members v that → wf that → wf v.
Proof.
  intros (Hds & Hlbs & HL & Hbig & He) Hwf.
  assert (HD : Dcap v = Dcap that) by (unfold Dcap; by rewrite HL, Hbig).
  assert (HB : Bcap v = Bcap that) by (unfold Bcap; by rewrite HL).
  assert (Hh : held v = held that) by (unfold held; by rewrite Hds, He).
  destruct Hwf. constructor; rewrite ?HD, ?HB, ?Hh, ?Hds, ?Hlbs, ?HL, ?He; done.
Qed.

Lemma settled_same v that : same_members v that → settled that → settled v.
Proof.
  intros (Hds & Hlbs & HL & Hbig & He) Hset. unfold settled, held, Dcap in *.
  by rewrite Hds, HL, Hbig, He.
Qed.

Lemma vector_copy_run that h tptrs tbs :
  shape that h tptrs tbs →
  ∃ v h' ptrs bs,
    vector_copy that h = Done v h' ∧ same_members v that ∧
    shape v h' ptrs bs ∧ cells_of v bs = cells_of that tbs ∧
    shape that h' tptrs tbs ∧ dir v ≠ dir that ∧ (∀ p, p ∈ ptrs → p ∉ tptrs) ∧
    (next h ≤ next h')%nat.
Proof.
  intros Hthat. pose proof (shape_wf _ _ _ _ Hthat) as Hwft.
  pose proof Hthat as (_ & (Htd0 & Htdn & _ & Htsound & _) & _).
  set (d := next h).
  set (v := Vector d (dir_size that) (last_buffer_size that) (log_buffer_capacity that)
              (big_buffer that) (extra_buffer that)).
  set (h1 := Heap (bufs h) (<[d := replicate (Z.to_nat (Dcap that)) None]> (dirs h)) (S d)).
  assert (Hsame : same_members v that) by done.
  assert (Hwf : wf v) by (by eapply wf_same).
  assert (HD : Dcap v = Dcap that) by done.
  assert (Hthat1 : shape that h1 tptrs tbs).
  { eapply shape_agree; [exact Hthat| |done|cbn; lia].
    cbn [h1 dirs]. apply lookup_insert_ne. unfold d. lia. }
  pose proof (caps_facts _ (wf_log _ Hwft)) as Hcaps.
  destruct (construct_copy_run v that h1 tptrs tbs (replicate (Z.to_nat (Dcap that)) None))
    as (h' & ptrs & bs & Hrun & Hown & Hlen & Hcells & Hfresh & Hdthat & Hold & Hnext);
    try done.
  { cbn. unfold d. lia. }
  { cbn. lia. }
  { cbn. unfold d. lia. }
  { apply lookup_insert_eq. }
  { rewrite length_replicate, HD. lia. }
  assert (Hnext' : (S (next h) ≤ next h')%nat) by exact Hnext.
  assert (Hold' : ∀ p, (p < S (next h))%nat → bufs h' !! p = bufs h !! p) by exact Hold.
  assert (Hfresh' : Forall (λ p, (S (next h) ≤ p)%nat) ptrs) by exact Hfresh.
  exists v, h', ptrs, bs. split.
  { unfold vector_copy.
    assert (Hcap : eval_on that dir_capacity h = Done (Dcap that) h).
    { pose proof (wf_log _ Hwft). unfold eval_on, zoom. rewrite dir_capacity_run by lia. done. }
    rewrite (bind_done _ _ _ _ _ Hcap).
    rewrite (bind_done _ _ h d h1) by reflexivity.
    unfold construct_with. fold v. by rewrite Hrun. }
  split; [done|]. split; [done|]. split; [done|]. rewrite Forall_forall in Hfresh'.
  split.
  { eapply shape_agree; [exact Hthat1|done| |exact Hnext].
    intros p Hp. rewrite Hold'; [done|].
    destruct (sound_fresh _ _ _ Htsound Hp). lia. }
  split; [cbn; unfold d; lia|]. split; [|lia].
  intros p Hp Hp'. specialize (Hfresh' p Hp). destruct (sound_fresh _ _ _ Htsound Hp'). lia.
Qed.

Lemma copy_refines o that st a cs :
  inv st a → a !! o = None → a !! that = Some cs →
  ∃ st', exec (CopyVector o that) st = Done Nothing st' ∧ inv st' (<[o := cs]> a).
Proof.
  intros (Hb & Hpos & g & Hinv) Hao Hat. destruct st as [os H]. cbn [objs hp] in *.
  pose proof (inv_lookup_None _ _ _ _ Hinv Hao) as Ho. cbn [objs] in Ho.
  destruct (inv_lookup _ _ _ _ _ Hinv Hat) as (tv & tptrs & tbs & Ht & Hg & Hsh & Hset & ->).
  cbn [objs hp] in *.
  assert (Hne : o ≠ that) by congruence.
  destruct (vector_copy_run tv (part tptrs [dir tv] H) tptrs tbs)
    as (v & h' & ptrs & bs & Hrun & Hsame & Hshv & Hcells & Hsht & Hdir & Hdisj & Hnext).
  { apply shape_part; [done|by apply list_elem_of_singleton|done]. }
  destruct (exec_frame (CopyVector o that) os H tptrs [dir tv] Nothing
              (<[o := v]> (<[that := tv]> os)) h' Hb) as [Hfull Hap].
  { apply wp_eq. cbn [exec]. unfold declare_copy.
    apply wp_bind, wp_bind. eapply wp_on; [exact Ht|]. apply wp_rd. cbv beta. cbn [fst snd].
    apply wp_bind, wp_alloc. eapply wp_done; [exact Hrun|].
    apply wp_declare; [cbn [objs]; by rewrite lookup_insert_ne|]. by apply wp_ret. }
  eexists. split; [exact Hfull|].
  apply (inv_update [o; that] tptrs [dir tv] g (<[o := (ptrs, bs)]> g) os _ H h' a);
    try done.
  - intros o' Ho'. unfold ghost, contents in *.
    assert (o ≠ o') by set_solver. assert (that ≠ o') by set_solver.
    repeat split; rewrite ?lookup_insert_ne by done; done.
  - intros p Hp. exists that, tv, tptrs, tbs. split; [set_solver|done].
  - intros d Hd. apply list_elem_of_singleton in Hd as ->. exists that, tv.
    split; [set_solver|done].
  - intros o' Ho' Hnone. apply elem_of_cons in Ho' as [Heq|Heq]; [|apply list_elem_of_singleton in Heq]; subst o'.
    + by rewrite lookup_insert_eq in Hnone.
    + by rewrite lookup_insert_ne, lookup_insert_eq in Hnone.
  - intros o' w Ho' Hw. unfold ghost, contents in *. apply elem_of_cons in Ho' as [Heq|Heq]; [|apply list_elem_of_singleton in Heq]; subst o'.
    + rewrite lookup_insert_eq in Hw. injection Hw as <-.
      exists ptrs, bs. rewrite !lookup_insert_eq. split; [done|]. split; [done|].
      split; [by eapply settled_same|]. by rewrite Hcells.
    + rewrite lookup_insert_ne, lookup_insert_eq in Hw by done. injection Hw as <-.
      exists tptrs, tbs. rewrite !lookup_insert_ne by done. done.
  - intros o1 o2 v1 v2 ptrs1 bs1 ptrs2 bs2 Ho1 Ho2 Hne12 Hv1 Hv2 Hg1 Hg2.
    unfold ghost, contents in *.
    apply elem_of_cons in Ho1 as [Heq1|Heq1]; [|apply list_elem_of_singleton in Heq1];
      (apply elem_of_cons in Ho2 as [Heq2|Heq2]; [|apply list_elem_of_singleton in Heq2]);
      subst o1 o2; try done.
    + rewrite lookup_insert_eq in Hv1. rewrite lookup_insert_eq in Hg1.
      rewrite lookup_insert_ne in Hv2 by done. rewrite lookup_insert_ne in Hg2 by done.
      rewrite lookup_insert_eq in Hv2.
      assert (v1 = v ∧ v2 = tv ∧ ptrs1 = ptrs ∧ ptrs2 = tptrs) as (-> & -> & -> & ->)
        by (repeat split; congruence).
      done.
    + rewrite lookup_insert_eq in Hv2. rewrite lookup_insert_eq in Hg2.
      rewrite lookup_insert_ne in Hv1 by done. rewrite lookup_insert_ne in Hg1 by done.
      rewrite lookup_insert_eq in Hv1.
      assert (v2 = v ∧ v1 = tv ∧ ptrs2 = ptrs ∧ ptrs1 = tptrs) as (-> & -> & -> & ->)
        by (repeat split; congruence).
      split; [done|]. intros p Hp Hp'. by apply (Hdisj p).
Qed.
End refinement.

(** ** Assignment *)

Ltac lookup_obj :=
  cbn [objs];
  repeat first [rewrite lookup_insert_eq | rewrite lookup_insert_ne by done];
  first [reflexivity | eassumption].

Ltac on_step :=
  lazymatch goal with
  | |- wp (bind _ _) _ _ => apply wp_bind
  | |- wp (on _ (rd _)) _ _ => eapply wp_on; [lookup_obj|]; apply wp_rd; cbv beta; cbn [fst snd]
  | |- wp (on _ (wr _)) _ _ => eapply wp_on; [lookup_obj|]; apply wp_wr; cbv beta; cbn [fst snd]
  end.

Section assign.
Context {T : Type}.
Implicit Types (v : vector) (h : heap T) (o : nat) (os : gmap nat vector).

Lemma assign_run o that os h ov optrs obs tv tptrs tbs :
  o ≠ that → os !! o = Some ov → os !! that = Some tv →
  shape ov h optrs obs → shape tv h tptrs tbs →
  dir ov ≠ dir tv → (∀ p, p ∈ optrs → p ∉ tptrs) →
  ∃ os' v h' ptrs bs,
    assign o that (Store os h) = Done tt (Store os' h') ∧
    os' !! o = Some v ∧ os' !! that = Some tv ∧
    (∀ o', o' ≠ o → o' ≠ that → os' !! o' = os !! o') ∧
    same_members v tv ∧ shape v h' ptrs bs ∧ cells_of v bs = cells_of tv tbs ∧
    shape tv h' tptrs tbs ∧ dir v ≠ dir tv ∧ (∀ p, p ∈ ptrs → p ∉ tptrs) ∧
    (next h ≤ next h')%nat.
Proof.
  intros Hne Ho Ht Hsho Hsht Hdirs Hdisj.
  pose proof (shape_wf _ _ _ _ Hsht) as Hwft.
  pose proof Hsht as (_ & (Htd0 & Htdn & _ & Htsound & _) & _).
  pose proof (wf_log _ Hwft) as HLt.
  destruct (destuct_run ov h optrs obs Hsho) as (h1 & Hdes & Hn1 & Hd1 & Hkeep1 & _).
  assert (Hsht1 : shape tv h1 tptrs tbs).
  { eapply shape_agree; [exact Hsht| | |lia].
    - rewrite Hd1. by apply lookup_delete_ne.
    - intros p Hp. apply Hkeep1. intros Hp'. by apply (Hdisj p). }
  set (d := next h1).
  set (v := Vector d (dir_size tv) (last_buffer_size tv) (log_buffer_capacity tv)
              (big_buffer tv) (extra_buffer tv)).
  set (h2 := Heap (bufs h1) (<[d := replicate (Z.to_nat (Dcap tv)) None]> (dirs h1)) (S d)).
  assert (Hsame : same_members v tv) by done.
  assert (Hwf : wf v) by (by eapply wf_same).
  assert (HD : Dcap v = Dcap tv) by done.
  assert (Hsht2 : shape tv h2 tptrs tbs).
  { eapply shape_agree; [exact Hsht1| |done|cbn; lia].
    cbn [h2 dirs]. apply lookup_insert_ne. unfold d. lia. }
  pose proof (caps_facts _ HLt) as Hcaps.
  destruct (construct_copy_run v tv h2 tptrs tbs (replicate (Z.to_nat (Dcap tv)) None))
    as (h' & ptrs & bs & Hrun & Hown & Hlen & Hcells & Hfresh & Hdthat & Hold & Hnext);
    try done.
  { cbn. unfold d. lia. }
  { cbn. lia. }
  { cbn. unfold d. lia. }
  { apply lookup_insert_eq. }
  { rewrite length_replicate, HD. lia. }
  assert (Hnext' : (S (next h) ≤ next h')%nat) by (rewrite <- Hn1; exact Hnext).
  assert (Hold' : ∀ p, (p < S (next h))%nat → bufs h' !! p = bufs h1 !! p)
    by (rewrite <- Hn1; exact Hold).
  assert (Hfresh' : Forall (λ p, (S (next h) ≤ p)%nat) ptrs) by (rewrite <- Hn1; exact Hfresh).
  rewrite Forall_forall in Hfresh'.
  cut (wp (assign o that) (Store os h)
         (λ _ st', hp st' = h' ∧ objs st' !! o = Some v ∧ objs st' !! that = Some tv ∧
                   ∀ o', o' ≠ o → o' ≠ that → objs st' !! o' = os !! o')).
  { intros Hwp. apply wp_elim in Hwp as ([] & [os' h''] & Hrun' & Hh & Hlo & Hlt & Hother).
    cbn [hp objs] in *. subst h''.
    exists os', v, h', ptrs, bs. split; [done|]. split; [done|]. split; [done|].
    split; [done|]. split; [done|]. split; [done|]. split; [done|].
    split.
    { eapply shape_agree; [exact Hsht2|done| |exact Hnext].
      intros p Hp. rewrite Hold'; [done|].
      destruct (sound_fresh _ _ _ Htsound Hp). lia. }
    split; [cbn; unfold d; lia|]. split; [|lia].
    intros p Hp Hp'. specialize (Hfresh' p Hp). destruct (sound_fresh _ _ _ Htsound Hp'). lia. }
  unfold assign.
  on_step. eapply wp_on; [lookup_obj|]. eapply wp_done; [exact Hdes|]. cbv beta. cbn [fst snd].
  on_step. eapply wp_on; [lookup_obj|].
  eapply wp_done; [apply dir_capacity_run; lia|]. cbv beta. cbn [fst snd].
  on_step. apply wp_alloc. eapply (wp_done _ _ d h2); [reflexivity|]. cbv beta. cbn [objs hp].
  repeat on_step.
  eapply wp_on; [lookup_obj|]. cbn [hp].
  match goal with |- wp _ (?v0, _) _ => replace v0 with v by (by destruct ov) end.
  eapply wp_done; [exact Hrun|]. cbn [fst snd objs hp].
  split; [done|]. split; [lookup_obj|]. split; [lookup_obj|].
  intros o' Ho1 Ho2. by lookup_obj.
Qed.

(** [a = a]: the buffers are given back before they are copied. *)
Lemma assign_self_run o os h ov optrs obs :
  os !! o = Some ov → shape ov h optrs obs →
  ∃ os' v h' ptrs,
    assign o o (Store os h) = Done tt (Store os' h') ∧
    os' !! o = Some v ∧ (∀ o', o' ≠ o → os' !! o' = os !! o') ∧
    same_members v ov ∧
    shape v h' ptrs (replicate (length ptrs) (replicate (Z.to_nat (Bcap v)) None)) ∧
    (next h ≤ next h')%nat.
Proof.
  intros Ho Hsho.
  pose proof (shape_wf _ _ _ _ Hsho) as Hwfo.
  pose proof (wf_log _ Hwfo) as HLo.
  destruct (destuct_run ov h optrs obs Hsho) as (h1 & Hdes & Hn1 & Hd1 & Hkeep1 & _).
  set (d := next h1).
  set (v := Vector d (dir_size ov) (last_buffer_size ov) (log_buffer_capacity ov)
              (big_buffer ov) (extra_buffer ov)).
  set (h2 := Heap (bufs h1) (<[d := replicate (Z.to_nat (Dcap ov)) None]> (dirs h1)) (S d)).
  assert (Hsame : same_members v ov) by done.
  assert (Hwf : wf v) by (by eapply wf_same).
  assert (HD : Dcap v = Dcap ov) by done.
  pose proof (caps_facts _ HLo) as Hcaps.
  pose proof Hsho as (_ & (Hod0 & Hodn & _) & _).
  destruct (construct_self_run v h2 (replicate (Z.to_nat (Dcap ov)) None))
    as (h' & ptrs & Hrun & Hown & Hlen & Hfresh & Hold & Hnext); try done.
  { cbn. unfold d. lia. }
  { cbn. lia. }
  { apply lookup_insert_eq. }
  { rewrite length_replicate, HD. lia. }
  assert (Hnext' : (S (next h) ≤ next h')%nat) by (rewrite <- Hn1; exact Hnext).
  cut (wp (assign o o) (Store os h)
         (λ _ st', hp st' = h' ∧ objs st' !! o = Some v ∧
                   ∀ o', o' ≠ o → objs st' !! o' = os !! o')).
  { intros Hwp. apply wp_elim in Hwp as ([] & [os' h''] & Hrun' & Hh & Hlo & Hother).
    cbn [hp objs] in *. subst h''.
    exists os', v, h', ptrs. split; [done|]. split; [done|]. split; [done|].
    split; [done|]. split; [|lia]. done. }
  unfold assign.
  on_step. eapply wp_on; [lookup_obj|]. eapply wp_done; [exact Hdes|]. cbv beta. cbn [fst snd].
  on_step. eapply wp_on; [lookup_obj|].
  eapply wp_done; [apply dir_capacity_run; lia|]. cbv beta. cbn [fst snd].
  on_step. apply wp_alloc. eapply (wp_done _ _ d h2); [reflexivity|]. cbv beta. cbn [objs hp].
  repeat on_step.
  eapply wp_on; [lookup_obj|]. cbn [hp id].
  match goal with |- wp (construct ?v1) (?v0, _) _ =>
    replace v0 with v by (by destruct ov); replace v1 with v by (by destruct ov) end.
  eapply wp_done; [exact Hrun|]. cbn [fst snd objs hp].
  split; [done|]. split; [lookup_obj|].
  intros o' Ho1. by lookup_obj.
Qed.
End assign.

Section assign_refines.
Context {T : Type}.
Implicit Types (st : store T) (v : vector) (h : heap T) (o : nat).
Implicit Types (a : contents (T:=T)) (g : ghost (T:=T)).

Lemma concat_replicate {A} (k B : nat) (x : A) :
  concat (replicate k (replicate B x)) = replicate (k * B) x.
Proof.
  induction k as [|k IH]; [done|].
  cbn [replicate concat Nat.mul]. by rewrite IH, replicate_add.
Qed.

Lemma cells_blank v h ptrs bs :
  shape v h ptrs bs → bs = replicate (length ptrs) (replicate (Z.to_nat (Bcap v)) None) →
  cells_of v bs = replicate (Z.to_nat (sz v)) None.
Proof.
  intros Hsh ->. pose proof (cells_length _ _ _ _ Hsh) as Hlen.
  unfold cells_of in *. rewrite concat_replicate, take_replicate in *.
  rewrite length_replicate in Hlen. f_equal. lia.
Qed.

Lemma assign_refines o that st a cso cs :
  inv st a → a !! o = Some cso → a !! that = Some cs → o ≠ that →
  ∃ st', exec (Assign o that) st = Done Nothing st' ∧ inv st' (<[o := cs]> a).
Proof.
  intros (Hb & Hpos & g & Hinv) Hao Hat Hne. destruct st as [os H]. cbn [objs hp] in *.
  destruct (inv_lookup _ _ _ _ _ Hinv Hao) as (ov & optrs & obs & Ho & Hgo & Hsho & Hseto & ->).
  destruct (inv_lookup _ _ _ _ _ Hinv Hat) as (tv & tptrs & tbs & Ht & Hgt & Hsht & Hsett & ->).
  cbn [objs hp] in *.
  destruct Hinv as (Hnone & Hsome & Hdisj).
  destruct (Hdisj o that ov tv optrs obs tptrs tbs) as [Hdirs Hptrs]; try done.
  destruct (assign_run o that os (part (optrs ++ tptrs) [dir ov; dir tv] H)
              ov optrs obs tv tptrs tbs)
    as (os' & v & h' & ptrs & bs & Hrun & Hlo & Hlt & Hother & Hsame & Hshv & Hcells
        & Hsht' & Hdir' & Hdisj' & Hnext); try done.
  { apply shape_part; [done|set_solver|set_solver]. }
  { apply shape_part; [done|set_solver|set_solver]. }
  destruct (exec_frame (Assign o that) os H (optrs ++ tptrs) [dir ov; dir tv] Nothing os' h' Hb)
    as [Hfull Hap].
  { cbn [exec]. by rewrite (bind_done _ _ _ _ _ Hrun). }
  eexists. split; [exact Hfull|].
  apply (inv_update [o; that] (optrs ++ tptrs) [dir ov; dir tv] g (<[o := (ptrs, bs)]> g)
           os os' H h' a); try done.
  - intros o' Ho'. unfold ghost, contents in *.
    assert (o ≠ o') by set_solver. assert (that ≠ o') by set_solver.
    split; [apply Hother; done|]. split; by rewrite lookup_insert_ne.
  - intros p Hp. apply elem_of_app in Hp as [Hp|Hp].
    + exists o, ov, optrs, obs. split; [set_solver|done].
    + exists that, tv, tptrs, tbs. split; [set_solver|done].
  - intros d Hd. apply elem_of_cons in Hd as [->|Hd].
    + exists o, ov. split; [set_solver|done].
    + apply list_elem_of_singleton in Hd as ->. exists that, tv. split; [set_solver|done].
  - intros o' Ho' Hnone'.
    apply elem_of_cons in Ho' as [Heq|Heq]; [|apply list_elem_of_singleton in Heq]; subst o';
      congruence.
  - intros o' w Ho' Hw. unfold ghost, contents in *.
    apply elem_of_cons in Ho' as [Heq|Heq]; [|apply list_elem_of_singleton in Heq]; subst o'.
    + assert (w = v) as -> by congruence.
      exists ptrs, bs. rewrite !lookup_insert_eq. split; [done|]. split; [done|].
      split; [by eapply settled_same|]. by rewrite Hcells.
    + assert (w = tv) as -> by congruence.
      exists tptrs, tbs. rewrite !lookup_insert_ne by done. done.
  - intros o1 o2 v1 v2 ptrs1 bs1 ptrs2 bs2 Ho1 Ho2 Hne12 Hv1 Hv2 Hg1 Hg2.
    unfold ghost, contents in *.
    apply elem_of_cons in Ho1 as [Heq1|Heq1]; [|apply list_elem_of_singleton in Heq1];
      (apply elem_of_cons in Ho2 as [Heq2|Heq2]; [|apply list_elem_of_singleton in Heq2]);
      subst o1 o2; try done.
    + rewrite lookup_insert_eq in Hg1. rewrite lookup_insert_ne in Hg2 by done.
      assert (v1 = v ∧ v2 = tv ∧ ptrs1 = ptrs ∧ ptrs2 = tptrs) as (-> & -> & -> & ->)
        by (repeat split; congruence).
      done.
    + rewrite lookup_insert_eq in Hg2. rewrite lookup_insert_ne in Hg1 by done.
      assert (v2 = v ∧ v1 = tv ∧ ptrs2 = ptrs ∧ ptrs1 = tptrs) as (-> & -> & -> & ->)
        by (repeat split; congruence).
      split; [done|]. intros p Hp Hp'. by apply (Hdisj' p).
Qed.

Lemma assign_self_refines o st a cs :
  inv st a → a !! o = Some cs →
  ∃ st', exec (Assign o o) st = Done Nothing st' ∧
         inv st' (<[o := replicate (length cs) None]> a).
Proof.
  intros (Hb & Hpos & g & Hinv) Hao. destruct st as [os H]. cbn [objs hp] in *.
  destruct (inv_lookup _ _ _ _ _ Hinv Hao) as (ov & optrs & obs & Ho & Hgo & Hsho & Hseto & ->).
  cbn [objs hp] in *.
  destruct (assign_self_run o os (part optrs [dir ov] H) ov optrs obs)
    as (os' & v & h' & ptrs & Hrun & Hlo & Hother & Hsame & Hshv & Hnext); try done.
  { apply shape_part; [done|set_solver|set_solver]. }
  destruct (exec_frame (Assign o o) os H optrs [dir ov] Nothing os' h' Hb) as [Hfull Hap].
  { cbn [exec]. by rewrite (bind_done _ _ _ _ _ Hrun). }
  eexists. split; [exact Hfull|].
  apply (inv_update [o] optrs [dir ov] g
           (<[o := (ptrs, replicate (length ptrs) (replicate (Z.to_nat (Bcap v)) None))]> g)
           os os' H h' a); try done.
  - intros o' Ho'. unfold ghost, contents in *.
    assert (o ≠ o') by set_solver.
    split; [apply Hother; done|]. split; by rewrite lookup_insert_ne.
  - intros p Hp. exists o, ov, optrs, obs. split; [set_solver|done].
  - intros d Hd. apply list_elem_of_singleton in Hd as ->. exists o, ov.
    split; [set_solver|done].
  - intros o' Ho' Hnone'. apply list_elem_of_singleton in Ho' as ->. congruence.
  - intros o' w Ho' Hw. unfold ghost, contents in *.
    apply list_elem_of_singleton in Ho' as ->.
    assert (w = v) as -> by congruence.
    eexists _, _. rewrite !lookup_insert_eq. split; [done|]. split; [done|].
    split; [by eapply settled_same|].
    rewrite (cells_blank _ _ _ _ Hshv eq_refl). do 2 f_equal.
    pose proof (cells_length _ _ _ _ Hsho) as Hlen.
    destruct Hsame as (Hds & Hlbs & HL & _).
    assert (sz v = sz ov) by (unfold sz, Bcap; congruence). lia.
  - intros o1 o2 ?????? Ho1 Ho2 Hne.
    apply list_elem_of_singleton in Ho1 as ->. apply list_elem_of_singleton in Ho2 as ->. done.
Qed.
End assign_refines.

(** ** Every call does to the contents what [effect] says *)

Section exec_refines.
Context {T : Type}.
Implicit Types (st : store T) (a : contents (T:=T)) (c : call T).

Lemma exec_refines c st a r a' :
  inv st a → within c st → effect c a = Some (r, a') →
  ∃ st', exec c st = Done r st' ∧ inv st' a'.
Proof.
  intros Hinv Hin Heff. destruct c as [o|o that|o that|o|o x|o|o|o i|o i x];
    cbn [effect] in Heff.
  - destruct (a !! o) eqn:Ha; [done|]. injection Heff as <- <-. by apply new_refines.
  - destruct (a !! o) eqn:Ha; [done|]. destruct (a !! that) as [cs|] eqn:Hat; [|done].
    injection Heff as <- <-. by apply copy_refines.
  - destruct (a !! o) as [cso|] eqn:Ha; [|done].
    destruct (a !! that) as [cs|] eqn:Hat; [|done]. injection Heff as <- <-.
    destruct (decide (o = that)) as [->|Hne].
    + assert (cso = cs) as -> by congruence. by apply assign_self_refines.
    + by eapply assign_refines.
  - destruct (a !! o) as [cs|] eqn:Ha; [|done]. injection Heff as <- <-.
    by eapply destroy_refines.
  - destruct (a !! o) as [cs|] eqn:Ha; [|done]. injection Heff as <- <-.
    by apply push_refines.
  - destruct (a !! o) as [cs|] eqn:Ha; [|done]. destruct (decide (cs = [])); [done|].
    injection Heff as <- <-. by apply pop_refines.
  - destruct (a !! o) as [cs|] eqn:Ha; [|done]. injection Heff as <- <-.
    by apply size_refines.
  - destruct (a !! o) as [cs|] eqn:Ha; [|done]. destruct (decide (0 ≤ i)); [|done].
    destruct (cs !! Z.to_nat i) as [x|] eqn:Hx; [|done]. injection Heff as <- <-.
    by eapply get_refines.
  - destruct (a !! o) as [cs|] eqn:Ha; [|done].
    destruct (decide (0 ≤ i < Z.of_nat (length cs))); [|done]. injection Heff as <- <-.
    by apply put_refines.
Qed.
End exec_refines.

(** ** Calls outside their preconditions *)

Section violations.
Context {T : Type}.
Implicit Types (v : vector) (h : heap T).

Lemma bind_failed {S A B} (m : M S A) (k : A → M S B) s s' :
  m s = Failed s' → bind m k s = Failed s'.
Proof. intros Hm. unfold bind. by rewrite Hm. Qed.

Lemma pop_back_empty v h :
  wf v → dir v ≠ 0%nat → sz v = 0 → pop_back (v, h) = Failed (v, h).
Proof.
  intros Hwf Hd Hsz. unfold pop_back.
  rewrite (bind_done _ _ _ _ _ (size_run v h Hwf)).
  rewrite (bind_done _ _ _ _ _ (assert_valid_run v h Hwf Hd)).
  rewrite (bind_done _ _ _ _ _ (size_run v h Hwf)).
  rewrite Hsz. reflexivity.
Qed.

Lemma pget_beyond v h i :
  wf v → dir v ≠ 0%nat → sz v ≤ i → pget i (v, h) = Failed (v, h).
Proof.
  intros Hwf Hd Hi. unfold pget.
  rewrite (bind_done _ _ _ _ _ (assert_valid_run v h Hwf Hd)).
  rewrite (bind_done _ _ _ _ _ (size_run v h Hwf)).
  apply bind_failed. unfold assert.
  destruct (Z.ltb_spec i (sz v)); [lia|done].
Qed.

Lemma get_beyond v h i :
  wf v → dir v ≠ 0%nat → sz v ≤ i → get i (v, h) = Failed (v, h).
Proof. intros. unfold get, index. apply bind_failed. by apply pget_beyond. Qed.

Lemma put_beyond v h i x :
  wf v → dir v ≠ 0%nat → sz v ≤ i → put i x (v, h) = Failed (v, h).
Proof. intros. unfold put, index. apply bind_failed. by apply pget_beyond. Qed.
End violations.

Section inversion.
Context {T : Type}.
Implicit Types (st : store T) (o : nat).

Lemma bind_inv {S A B} (m : M S A) (k : A → M S B) s b s' :
  bind m k s = Done b s' → ∃ a s1, m s = Done a s1 ∧ k a s1 = Done b s'.
Proof. unfold bind. destruct (m s) as [a s1| |]; [|done..]. by exists a, s1. Qed.

Lemma on_inv {A} (m : Mv (T:=T) A) o st x st' :
  on o m st = Done x st' →
  ∃ v s, objs st !! o = Some v ∧ m (v, hp st) = Done x s ∧
         st' = Store (<[o := s.1]> (objs st)) s.2.
Proof.
  unfold on. destruct (objs st !! o) as [v|]; [|done].
  destruct (m (v, hp st)) as [x' s| |] eqn:Hm; [|done..].
  intros [= <- <-]. by exists v, s.
Qed.

Lemma alloc_inv {A} (m : M (heap T) A) st x st' :
  alloc m st = Done x st' → objs st' = objs st.
Proof.
  unfold alloc, zoom. destruct (m (hp st)); [|done..]. by intros [= <- <-].
Qed.

Lemma declare_inv o v st st' :
  declare o v st = Done tt st' → objs st !! o = None.
Proof. unfold declare. by destruct (objs st !! o). Qed.
End inversion.

Section exec_sound.
Context {T : Type}.
Implicit Types (st : store T) (a : contents (T:=T)) (c : call T).

(** A call that [effect] does not provide for does not return. *)
Lemma exec_stuck c st a r st' :
  inv st a → within c st → effect c a = None → exec c st = Done r st' → False.
Proof.
  intros (Hb & Hpos & g & Hinv) Hin Heff Hrun.
  destruct c as [o|o that|o that|o|o x|o|o|o i|o i x];
    cbn [effect exec] in *.
  - (* NewVector *)
    destruct (a !! o) as [cs|] eqn:Ha; [|done].
    destruct (inv_lookup _ _ _ _ _ Hinv Ha) as (v & _ & _ & Ho & _).
    apply bind_inv in Hrun as ([] & st1 & Hrun & _). unfold declare_default in Hrun.
    apply bind_inv in Hrun as (v' & st2 & Hal & Hde).
    apply alloc_inv in Hal. apply declare_inv in Hde. congruence.
  - (* CopyVector *)
    apply bind_inv in Hrun as ([] & st1 & Hrun & _). unfold declare_copy in Hrun.
    apply bind_inv in Hrun as (tv & st2 & Hon & Hrun).
    apply on_inv in Hon as (tv' & s & Ht & Hrd & ->).
    apply bind_inv in Hrun as (v' & st3 & Hal & Hde).
    apply alloc_inv in Hal. apply declare_inv in Hde. rewrite Hal in Hde. cbn [objs] in Hde.
    destruct (a !! o) as [cs|] eqn:Ha.
    + destruct (inv_lookup _ _ _ _ _ Hinv Ha) as (v & _ & _ & Ho & _).
      destruct (decide (that = o)) as [->|Hne].
      * by rewrite lookup_insert_eq in Hde.
      * rewrite lookup_insert_ne in Hde by done. congruence.
    + destruct (a !! that) as [cs|] eqn:Hat; [done|].
      pose proof (inv_lookup_None _ _ _ _ Hinv Hat). congruence.
  - (* Assign *)
    apply bind_inv in Hrun as ([] & st1 & Hrun & _). unfold assign in Hrun.
    apply bind_inv in Hrun as ([] & st2 & Hon & Hrun).
    apply on_inv in Hon as (ov & s & Ho & Hdes & ->).
    apply bind_inv in Hrun as (cap & st3 & Hon & _).
    apply on_inv in Hon as (tv & s' & Ht & _). cbn [objs] in Ht.
    destruct (a !! o) as [cso|] eqn:Ha.
    + destruct (a !! that) as [cs|] eqn:Hat; [done|].
      pose proof (inv_lookup_None _ _ _ _ Hinv Hat).
      assert (o ≠ that) by congruence. rewrite lookup_insert_ne in Ht by done. congruence.
    + pose proof (inv_lookup_None _ _ _ _ Hinv Ha). congruence.
  - (* Destroy *)
    destruct (a !! o) as [cs|] eqn:Ha; [done|].
    pose proof (inv_lookup_None _ _ _ _ Hinv Ha).
    apply bind_inv in Hrun as ([] & st1 & Hrun & _). unfold destroy in Hrun.
    apply bind_inv in Hrun as ([] & st2 & Hon & _).
    apply on_inv in Hon as (ov & s & Ho & _). congruence.
  - (* PushBack *)
    destruct (a !! o) as [cs|] eqn:Ha; [done|].
    pose proof (inv_lookup_None _ _ _ _ Hinv Ha).
    apply bind_inv in Hrun as ([] & st1 & Hon & _).
    apply on_inv in Hon as (ov & s & Ho & _). congruence.
  - (* PopBack *)
    apply bind_inv in Hrun as ([] & st1 & Hon & _).
    apply on_inv in Hon as (ov & s & Ho & Hpop & _).
    destruct (a !! o) as [cs|] eqn:Ha.
    + destruct (decide (cs = [])) as [->|]; [|done].
      destruct (inv_lookup _ _ _ _ _ Hinv Ha) as (v & ptrs & bs & Ho' & _ & Hsh & _ & Hcs).
      assert (v = ov) as -> by congruence.
      pose proof (cells_length _ _ _ _ Hsh) as Hlen. rewrite <- Hcs in Hlen.
      rewrite pop_back_empty in Hpop; [done|by eapply shape_wf|by eapply shape_dir|done].
    + pose proof (inv_lookup_None _ _ _ _ Hinv Ha). congruence.
  - (* Size *)
    destruct (a !! o) as [cs|] eqn:Ha; [done|].
    pose proof (inv_lookup_None _ _ _ _ Hinv Ha).
    apply bind_inv in Hrun as (n & st1 & Hon & _).
    apply on_inv in Hon as (ov & s & Ho & _). congruence.
  - (* Get *)
    apply bind_inv in Hrun as (x & st1 & Hon & _).
    apply on_inv in Hon as (ov & s & Ho & Hget & _). cbn [within] in Hin.
    destruct (a !! o) as [cs|] eqn:Ha.
    + destruct (decide (0 ≤ i)); [|lia].
      destruct (cs !! Z.to_nat i) as [x'|] eqn:Hx; [done|].
      apply lookup_ge_None in Hx.
      destruct (inv_lookup _ _ _ _ _ Hinv Ha) as (v & ptrs & bs & Ho' & _ & Hsh & _ & Hcs).
      assert (v = ov) as -> by congruence.
      pose proof (cells_length _ _ _ _ Hsh) as Hlen. rewrite <- Hcs in Hlen.
      rewrite get_beyond in Hget; [done|by eapply shape_wf|by eapply shape_dir|lia].
    + pose proof (inv_lookup_None _ _ _ _ Hinv Ha). congruence.
  - (* Put *)
    apply bind_inv in Hrun as ([] & st1 & Hon & _).
    apply on_inv in Hon as (ov & s & Ho & Hput & _). cbn [within] in Hin.
    destruct (a !! o) as [cs|] eqn:Ha.
    + destruct (decide (0 ≤ i < Z.of_nat (length cs))); [done|].
      destruct (inv_lookup _ _ _ _ _ Hinv Ha) as (v & ptrs & bs & Ho' & _ & Hsh & _ & Hcs).
      assert (v = ov) as -> by congruence.
      pose proof (cells_length _ _ _ _ Hsh) as Hlen. rewrite <- Hcs in Hlen.
      rewrite put_beyond in Hput; [done|by eapply shape_wf|by eapply shape_dir|lia].
    + pose proof (inv_lookup_None _ _ _ _ Hinv Ha). congruence.
Qed.

Lemma exec_sound c st a r st' :
  inv st a → within c st → exec c st = Done r st' →
  ∃ a', effect c a = Some (r, a') ∧ inv st' a'.
Proof.
  intros Hinv Hin Hrun. destruct (effect c a) as [[r0 a']|] eqn:Heff.
  - destruct (exec_refines c st a r0 a' Hinv Hin Heff) as (st0 & Hrun0 & Hinv').
    assert (r0 = r ∧ st0 = st') as [-> ->] by (split; congruence).
    by exists a'.
  - by destruct (exec_stuck c st a r st').
Qed.

Lemma inv_start : inv (T:=T) empty_store ∅.
Proof.
  split; [|split; [cbn; lia|]].
  - intros l [[? Hl]|[? Hl]]; cbn in Hl; by rewrite lookup_empty in Hl.
  - exists ∅. split; [done|]. split.
    + intros o v Ho. cbn in Ho. by rewrite lookup_empty in Ho.
    + intros o1 o2 ???????? Ho1. cbn in Ho1. by rewrite lookup_empty in Ho1.
Qed.

Lemma steps_inv st cs rs st' a :
  steps st cs rs st' → inv st a → ∃ a', inv st' a'.
Proof.
  intros Hsteps. revert a. induction Hsteps as [st|st c r st1 cs rs st' Hin Hrun _ IH];
    intros a Hinv; [by exists a|].
  destruct (exec_sound c st a r st1 Hinv Hin Hrun) as (a1 & _ & Hinv1). by eapply IH.
Qed.

Lemma reachable_inv st : reachable st → ∃ a, inv st a.
Proof. intros (cs & rs & Hsteps). eapply steps_inv; [done|apply inv_start]. Qed.
End exec_sound.

(** * The properties of the array *)

Section reachable.
Context {T : Type}.
Implicit Types (st : store T) (v : vector) (o : nat).

Lemma all_within_steps (cs : list (call T)) : ∀ st,
  all_within cs st → ∃ rs st', run_calls cs st = Done rs st' ∧ steps st cs rs st'.
Proof.
  induction cs as [|c cs IH]; intros st Hall; cbn [all_within run_calls] in *.
  - exists [], st. split; [done|constructor].
  - destruct Hall as [Hin Hall]. destruct (exec c st) as [r st1| |] eqn:Hrun; [|done..].
    destruct (IH st1 Hall) as (rs & st' & Hruns & Hsteps).
    exists (r :: rs), st'. split.
    + rewrite (bind_done _ _ _ _ _ Hrun), (bind_done _ _ _ _ _ Hruns). done.
    + by econstructor.
Qed.

Lemma reachable_after (cs : list (call T)) :
  all_within cs empty_store → reachable (store_after cs).
Proof.
  intros Hall. destruct (all_within_steps cs _ Hall) as (rs & st' & Hrun & Hsteps).
  unfold store_after. rewrite Hrun. by exists cs, rs.
Qed.

Lemma reachable_shape st o v :
  reachable st → objs st !! o = Some v →
  ∃ ptrs bs, shape v (hp st) ptrs bs ∧ settled v.
Proof.
  intros Hreach Ho. destruct (reachable_inv st Hreach) as (a & _ & _ & g & _ & Hsome & _).
  destruct (Hsome o v Ho) as (ptrs & bs & _ & Hsh & Hset & _). by exists ptrs, bs.
Qed.
End reachable.

(** C3.  In every state that a program reaches by public operations
    (construction, copy construction, assignment, destruction, size,
    indexed access, [push_back], [pop_back]), that is, at the start and at
    the end of every public operation, each vector satisfies invariants 1
    to 5: [1 <= dir_size <= dir_capacity()];
    [last_buffer_size < buffer_capacity()]; [last_buffer_size == 0]
    implies [not extra_buffer]; [extra_buffer] implies
    [last_buffer_size > 0] and [dir_size < dir_capacity()]; and
    [(dir_size + (extra_buffer ? 1 : 0)) * 4 >= dir_capacity()].
    [assert_valid], which checks them, passes. *)
Theorem invariants_hold {T} (st : store T) (o : nat) (v : vector) :
  reachable st → objs st !! o = Some v →
  ∃ D B,
    dir_capacity (v, hp st) = Done D (v, hp st) ∧
    buffer_capacity (v, hp st) = Done B (v, hp st) ∧
    1 ≤ dir_size v ≤ D ∧
    last_buffer_size v < B ∧
    (last_buffer_size v = 0 → extra_buffer v = false) ∧
    (extra_buffer v = true → 0 < last_buffer_size v ∧ dir_size v < D) ∧
    D ≤ (dir_size v + b2z (extra_buffer v)) * 4 ∧
    assert_valid (v, hp st) = Done tt (v, hp st).
Proof.
  intros Hreach Ho. destruct (reachable_shape st o v Hreach Ho) as (ptrs & bs & Hsh & _).
  pose proof (shape_wf _ _ _ _ Hsh) as Hwf. pose proof (shape_dir _ _ _ _ Hsh) as Hdir.
  caps v. exists (Dcap v), (Bcap v).
  split; [apply dir_capacity_run; lia|]. split; [apply buffer_capacity_run; lia|].
  split; [done|]. split; [lia|]. split; [done|]. split.
  { intros He. split; [|by apply (wf_extra v Hwf)].
    destruct (decide (last_buffer_size v = 0)) as [Hz|Hz]; [|lia].
    rewrite (wf_empty v Hwf Hz) in He. done. }
  split; [apply (wf_space v Hwf)|]. by apply assert_valid_run.
Qed.

Lemma example_reachable : reachable example_store.
Proof. apply reachable_after. vm_compute. tauto. Qed.

Lemma example_a_found : objs example_store !! 0%nat = Some example_a.
Proof. vm_compute. reflexivity. Qed.

Lemma example_b_found : objs example_store !! 1%nat = Some example_b.
Proof. vm_compute. reflexivity. Qed.

Lemma invariants_hold_witness :
  reachable example_store ∧ objs example_store !! 1%nat = Some example_b ∧
  ∃ D B,
    dir_capacity (example_b, hp example_store) = Done D (example_b, hp example_store) ∧
    buffer_capacity (example_b, hp example_store) = Done B (example_b, hp example_store) ∧
    1 ≤ dir_size example_b ≤ D ∧
    last_buffer_size example_b < B ∧
    (last_buffer_size example_b = 0 → extra_buffer example_b = false) ∧
    (extra_buffer example_b = true →
     0 < last_buffer_size example_b ∧ dir_size example_b < D) ∧
    D ≤ (dir_size example_b + b2z (extra_buffer example_b)) * 4 ∧
    assert_valid (example_b, hp example_store) = Done tt (example_b, hp example_store).
Proof.
  split; [exact example_reachable|]. split; [exact example_b_found|].
  exact (invariants_hold example_store 1%nat example_b example_reachable example_b_found).
Defined.

(** C2.  In every state that a program reaches by public operations, the
    number of item slots of all the buffers of a vector, the extra buffer
    included, [(dir_size + (extra_buffer ? 1 : 0)) * buffer_capacity()],
    is at most [size() + 2 * buffer_capacity()], and
    [buffer_capacity()] is [O(sqrt(size()))]: its square is at most
    [16 * size() + 256]. *)
Theorem space_bound {T} (st : store T) (o : nat) (v : vector) :
  reachable st → objs st !! o = Some v →
  ∃ B n,
    buffer_capacity (v, hp st) = Done B (v, hp st) ∧
    size (v, hp st) = Done n (v, hp st) ∧
    (dir_size v + b2z (extra_buffer v)) * B - n ≤ 2 * B ∧
    B * (B - 16) ≤ 8 * n ∧
    B * B ≤ 16 * n + 256.
Proof.
  intros Hreach Ho. destruct (reachable_shape st o v Hreach Ho) as (ptrs & bs & Hsh & _).
  pose proof (shape_wf _ _ _ _ Hsh) as Hwf. caps v.
  exists (Bcap v), (sz v). split; [apply buffer_capacity_run; lia|].
  split; [by apply size_run|].
  assert (Hheld : dir_size v ≤ held v ≤ dir_size v + 1)
    by (unfold held; destruct (extra_buffer v); cbn [b2z]; lia).
  assert (HB : Bcap v ≤ 8 * held v) by (destruct (big_buffer v); lia).
  fold (held v). unfold sz.
  set (n := (dir_size v - 1) * Bcap v + last_buffer_size v).
  assert (Hq1 : 0 ≤ (dir_size v + 1 - held v) * Bcap v) by (apply Z.mul_nonneg_nonneg; lia).
  assert (Hq2 : 0 ≤ (8 * held v - Bcap v) * Bcap v) by (apply Z.mul_nonneg_nonneg; lia).
  assert (Hq3 : 0 ≤ (Bcap v - 16) * (Bcap v - 16)) by apply Z.square_nonneg.
  assert (Hn : n = (dir_size v - 1) * Bcap v + last_buffer_size v) by done.
  clearbody n. split; [lia|]. split; lia.
Qed.

Lemma space_bound_witness :
  reachable example_store ∧ objs example_store !! 0%nat = Some example_a ∧
  ∃ B n,
    buffer_capacity (example_a, hp example_store) = Done B (example_a, hp example_store) ∧
    size (example_a, hp example_store) = Done n (example_a, hp example_store) ∧
    (dir_size example_a + b2z (extra_buffer example_a)) * B - n ≤ 2 * B ∧
    B * (B - 16) ≤ 8 * n ∧
    B * B ≤ 16 * n + 256.
Proof.
  split; [exact example_reachable|]. split; [exact example_a_found|].
  exact (space_bound example_store 0%nat example_a example_reachable example_a_found).
Defined.

(** C8.  In the build with assertions, [pop_back()] on an empty vector
    and an indexed access [v[i]] with [i >= size()], for reading as for
    writing, stop at a failed assertion, and the state of the program at
    that point is the state in which the operation was called. *)
Theorem violations_detected {T} (st : store T) (o : nat) (v : vector) :
  reachable st → objs st !! o = Some v →
  ∃ n, size (v, hp st) = Done n (v, hp st) ∧
       (n = 0 → exec (PopBack o) st = Failed st) ∧
       (∀ i, n ≤ i →
          exec (Get o i) st = Failed st ∧ ∀ x, exec (Put o i x) st = Failed st).
Proof.
  intros Hreach Ho. destruct (reachable_shape st o v Hreach Ho) as (ptrs & bs & Hsh & _).
  pose proof (shape_wf _ _ _ _ Hsh) as Hwf. pose proof (shape_dir _ _ _ _ Hsh) as Hdir.
  exists (sz v). split; [by apply size_run|].
  assert (Hst : Store (<[o := v]> (objs st)) (hp st) = st).
  { rewrite insert_id by done. by destruct st. }
  assert (Hon : ∀ A (m : Mv A), m (v, hp st) = Failed (v, hp st) → on o m st = Failed st).
  { intros A m Hm. unfold on. rewrite Ho, Hm. cbn [fst snd]. by rewrite Hst. }
  split; [intros Hz|intros i Hi; split; [|intros x]]; cbn [exec]; apply bind_failed, Hon.
  - by apply pop_back_empty.
  - by apply get_beyond.
  - by apply put_beyond.
Qed.

Lemma violations_detected_witness :
  reachable example_store ∧ objs example_store !! 1%nat = Some example_b ∧
  ∃ n, size (example_b, hp example_store) = Done n (example_b, hp example_store) ∧
       (n = 0 → exec (PopBack 1%nat) example_store = Failed example_store) ∧
       (∀ i, n ≤ i →
          exec (Get 1%nat i) example_store = Failed example_store ∧
          ∀ x, exec (Put 1%nat i x) example_store = Failed example_store).
Proof.
  split; [exact example_reachable|]. split; [exact example_b_found|].
  exact (violations_detected example_store 1%nat example_b example_reachable example_b_found).
Defined.

(** C4.  [pop_back()] on a vector that is not empty.  Its first step
    leaves the members [shrunk v]: if [last_buffer_size == 0], then
    [last_buffer_size] becomes [buffer_capacity() - 1], [dir_size] is
    one less, [extra_buffer] is true and no buffer is freed; otherwise
    [last_buffer_size] is one less, and if it reaches 0 while
    [extra_buffer] is true, the extra buffer [dir[dir_size]] is freed and
    [extra_buffer] becomes false.  After this the call does what
    [downsize()] does if
    [(dir_size + (extra_buffer ? 1 : 0)) * 4 <= dir_capacity()], and
    nothing otherwise.  [size()] is one less at the end. *)
Theorem pop_back_spec {T} (st : store T) (o : nat) (v : vector) (n : Z) :
  reachable st → objs st !! o = Some v →
  size (v, hp st) = Done n (v, hp st) → 0 < n →
  ∃ B D h1 v' h',
    buffer_capacity (v, hp st) = Done B (v, hp st) ∧
    pop_back_shrink (v, hp st) = Done tt (shrunk v, h1) ∧
    shrunk v =
      (if last_buffer_size v =? 0 then
         Vector (dir v) (dir_size v - 1) (B - 1) (log_buffer_capacity v) (big_buffer v) true
       else
         Vector (dir v) (dir_size v) (last_buffer_size v - 1) (log_buffer_capacity v)
           (big_buffer v) (extra_buffer v && negb (last_buffer_size v - 1 =? 0))) ∧
    (last_buffer_size v = 1 ∧ extra_buffer v = true →
       ∃ p, load_slot (dir v) (dir_size v) (hp st) = Done (Some p) (hp st) ∧
            delete_buf (Some p) (hp st) = Done tt h1) ∧
    (¬ (last_buffer_size v = 1 ∧ extra_buffer v = true) → h1 = hp st) ∧
    dir_capacity (shrunk v, h1) = Done D (shrunk v, h1) ∧
    (if (dir_size (shrunk v) + b2z (extra_buffer (shrunk v))) * 4 <=? D
     then downsize (shrunk v, h1) else Done tt (shrunk v, h1)) = Done tt (v', h') ∧
    pop_back (v, hp st) = Done tt (v', h') ∧
    size (v', h') = Done (n - 1) (v', h') ∧
    exec (PopBack o) st = Done Nothing (Store (<[o := v']> (objs st)) h').
Proof.
  intros Hreach Ho Hsize Hn.
  destruct (reachable_shape st o v Hreach Ho) as (ptrs & bs & Hsh & Hset).
  pose proof (shape_wf _ _ _ _ Hsh) as Hwf.
  rewrite (size_run v _ Hwf) in Hsize. injection Hsize as <-.
  destruct (pop_back_run v (hp st) ptrs bs Hsh Hset Hn)
    as (h1 & v' & h' & ptrs' & bs' & Hshrink & [Hfree Hkeep] & Hdown & _ & Hpop & Hsh' & _ & Hsz' & _).
  pose proof (shape_wf _ _ _ _ Hsh') as Hwf'.
  assert (Hwfs : 1 ≤ log_buffer_capacity (shrunk v) ≤ 29).
  { pose proof (wf_log v Hwf). unfold shrunk. by destruct (last_buffer_size v =? 0). }
  exists (Bcap v), (Dcap (shrunk v)), h1, v', h'.
  split; [apply buffer_capacity_run; pose proof (wf_log v Hwf); lia|].
  split; [done|]. split; [done|]. split; [done|]. split; [done|].
  split; [apply dir_capacity_run; lia|]. split; [exact Hdown|]. split; [done|].
  split; [rewrite <- Hsz'; by apply size_run|].
  cbn [exec]. destruct st as [os h]. cbn [objs hp] in *.
  by rewrite (bind_done _ _ _ _ _ (on_run _ _ _ _ _ _ _ _ Ho Hpop)).
Qed.

Lemma pop_back_spec_witness :
  reachable example_store ∧ objs example_store !! 0%nat = Some example_a ∧
  size (example_a, hp example_store) = Done 3 (example_a, hp example_store) ∧ 0 < 3 ∧
  ∃ B D h1 v' h',
    buffer_capacity (example_a, hp example_store) = Done B (example_a, hp example_store) ∧
    pop_back_shrink (example_a, hp example_store) = Done tt (shrunk example_a, h1) ∧
    shrunk example_a =
      (if last_buffer_size example_a =? 0 then
         Vector (dir example_a) (dir_size example_a - 1) (B - 1)
           (log_buffer_capacity example_a) (big_buffer example_a) true
       else
         Vector (dir example_a) (dir_size example_a) (last_buffer_size example_a - 1)
           (log_buffer_capacity example_a) (big_buffer example_a)
           (extra_buffer example_a && negb (last_buffer_size example_a - 1 =? 0))) ∧
    (last_buffer_size example_a = 1 ∧ extra_buffer example_a = true →
       ∃ p, load_slot (dir example_a) (dir_size example_a) (hp example_store)
              = Done (Some p) (hp example_store) ∧
            delete_buf (Some p) (hp example_store) = Done tt h1) ∧
    (¬ (last_buffer_size example_a = 1 ∧ extra_buffer example_a = true) →
       h1 = hp example_store) ∧
    dir_capacity (shrunk example_a, h1) = Done D (shrunk example_a, h1) ∧
    (if (dir_size (shrunk example_a) + b2z (extra_buffer (shrunk example_a))) * 4 <=? D
     then downsize (shrunk example_a, h1) else Done tt (shrunk example_a, h1))
      = Done tt (v', h') ∧
    pop_back (example_a, hp example_store) = Done tt (v', h') ∧
    size (v', h') = Done (3 - 1) (v', h') ∧
    exec (PopBack 0%nat) example_store
      = Done Nothing (Store (<[0%nat := v']> (objs example_store)) h').
Proof.
  assert (Hsize : size (example_a, hp example_store) = Done 3 (example_a, hp example_store))
    by (vm_compute; reflexivity).
  assert (Hpos : 0 < 3) by lia.
  split; [exact example_reachable|]. split; [exact example_a_found|].
  split; [exact Hsize|]. split; [exact Hpos|].
  exact (pop_back_spec example_store 0%nat example_a 3
           example_reachable example_a_found Hsize Hpos).
Defined.

(** C6.  In every state that a program reaches by public operations,
    when the test [(dir_size + (extra_buffer ? 1 : 0)) * 4 <=
    dir_capacity()] of [pop_back()] succeeds after its first step, the
    two sides are equal; [downsize()] then returns; and if [big_buffer]
    is true at that point, then [last_buffer_size == 0] and
    [extra_buffer] is false, and [downsize_buffers()], run at that
    point, passes all its assertions and returns. *)
Theorem trigger_exact {T} (st : store T) (o : nat) (v : vector) (n : Z) :
  reachable st → objs st !! o = Some v →
  size (v, hp st) = Done n (v, hp st) → 0 < n →
  ∃ w h1 D,
    pop_back_shrink (v, hp st) = Done tt (w, h1) ∧
    dir_capacity (w, h1) = Done D (w, h1) ∧
    ((dir_size w + b2z (extra_buffer w)) * 4 ≤ D →
       (dir_size w + b2z (extra_buffer w)) * 4 = D ∧
       (∃ s', downsize (w, h1) = Done tt s') ∧
       (big_buffer w = true →
          last_buffer_size w = 0 ∧ extra_buffer w = false ∧
          ∃ s', downsize_buffers (w, h1) = Done tt s')).
Proof.
  intros Hreach Ho Hsize Hn.
  destruct (reachable_shape st o v Hreach Ho) as (ptrs & bs & Hsh & Hset).
  pose proof (shape_wf _ _ _ _ Hsh) as Hwf.
  rewrite (size_run v _ Hwf) in Hsize. injection Hsize as <-.
  destruct (pop_back_run v (hp st) ptrs bs Hsh Hset Hn)
    as (h1 & v' & h' & ptrs' & bs' & Hshrink & _ & Hdown & Htrig & _).
  assert (Hwfs : 1 ≤ log_buffer_capacity (shrunk v) ≤ 29).
  { pose proof (wf_log v Hwf). unfold shrunk. by destruct (last_buffer_size v =? 0). }
  exists (shrunk v), h1, (Dcap (shrunk v)).
  split; [done|]. split; [apply dir_capacity_run; lia|].
  fold (held (shrunk v)). intros Hle.
  destruct (Htrig Hle) as (Heq & He & Hlbs). split; [done|].
  rewrite (proj2 (Z.leb_le _ _) Hle) in Hdown.
  split; [by exists (v', h')|]. intros Hbig.
  split; [by apply Hlbs|]. split; [done|].
  unfold downsize in Hdown.
  apply bind_inv in Hdown as (n0 & s0 & Hsz0 & Hdown).
  assert (s0 = (shrunk v, h1)) as ->.
  { revert Hsz0. unfold size, bind, rd, assert, ret. cbn [fst snd].
    destruct (0 <? dir_size (shrunk v)); [|done]. by intros [= _ <-]. }
  apply bind_inv in Hdown as (b & s1 & Hb & Hdown).
  injection Hb as <- <-. cbn [fst] in Hdown. rewrite Hbig in Hdown.
  apply bind_inv in Hdown as ([] & s2 & Hdb & _). by exists s2.
Qed.

Lemma shrinking_reachable : reachable shrinking_store.
Proof. apply reachable_after. vm_compute. tauto. Qed.

Lemma shrinking_found : objs shrinking_store !! 0%nat = Some shrinking_v.
Proof. vm_compute. reflexivity. Qed.

Lemma trigger_exact_witness :
  reachable shrinking_store ∧ objs shrinking_store !! 0%nat = Some shrinking_v ∧
  size (shrinking_v, hp shrinking_store) = Done 1 (shrinking_v, hp shrinking_store) ∧
  0 < 1 ∧
  ∃ w h1 D,
    pop_back_shrink (shrinking_v, hp shrinking_store) = Done tt (w, h1) ∧
    dir_capacity (w, h1) = Done D (w, h1) ∧
    ((dir_size w + b2z (extra_buffer w)) * 4 ≤ D →
       (dir_size w + b2z (extra_buffer w)) * 4 = D ∧
       (∃ s', downsize (w, h1) = Done tt s') ∧
       (big_buffer w = true →
          last_buffer_size w = 0 ∧ extra_buffer w = false ∧
          ∃ s', downsize_buffers (w, h1) = Done tt s')).
Proof.
  assert (Hsize : size (shrinking_v, hp shrinking_store)
                  = Done 1 (shrinking_v, hp shrinking_store)) by (vm_compute; reflexivity).
  assert (Hpos : 0 < 1) by lia.
  split; [exact shrinking_reachable|]. split; [exact shrinking_found|].
  split; [exact Hsize|]. split; [exact Hpos|].
  exact (trigger_exact shrinking_store 0%nat shrinking_v 1
           shrinking_reachable shrinking_found Hsize Hpos).
Defined.

(** The test does succeed in that state, with [big_buffer] true. *)
Lemma shrinking_triggers :
  ∃ h1, pop_back_shrink (shrinking_v, hp shrinking_store) = Done tt (shrunk shrinking_v, h1) ∧
        dir_capacity (shrunk shrinking_v, h1) = Done 4 (shrunk shrinking_v, h1) ∧
        (dir_size (shrunk shrinking_v) + b2z (extra_buffer (shrunk shrinking_v))) * 4 = 4 ∧
        big_buffer (shrunk shrinking_v) = true.
Proof. eexists. vm_compute. repeat split; reflexivity. Qed.

(** ** One vector against a plain sequence *)

Section against_model.
Context {T : Type}.
Implicit Types (v : vector) (h : heap T) (ops : list (op (T:=T))) (l : list T).

Lemma model_length ops : ∀ l l',
  model ops l = Some l' → (length l' ≤ length l + length ops)%nat.
Proof.
  induction ops as [|[x|] ops IH]; intros l l' Hm; cbn [model model_op] in Hm.
  - injection Hm as <-. cbn [length]. lia.
  - apply IH in Hm. rewrite length_app in Hm. cbn [length] in *. lia.
  - destruct (decide (l = [])) as [|Hne]; [done|]. apply IH in Hm.
    rewrite removelast_take, length_take in Hm. cbn [length]. lia.
Qed.

Lemma run_ops_model ops : ∀ v h ptrs bs l l',
  shape v h ptrs bs → settled v → cells_of v bs = Some <$> l →
  sz v + Z.of_nat (length ops) ≤ max_items →
  model ops l = Some l' →
  ∃ v' h' ptrs' bs',
    run_ops ops (v, h) = Done tt (v', h') ∧ shape v' h' ptrs' bs' ∧ settled v' ∧
    cells_of v' bs' = Some <$> l'.
Proof.
  induction ops as [|[x|] ops IH]; intros v h ptrs bs l l' Hsh Hset Hcells Hmax Hm;
    cbn [model model_op] in Hm; cbn [run_ops run_op].
  - injection Hm as <-. by exists v, h, ptrs, bs.
  - cbn [length] in Hmax.
    destruct (push_back_run v h ptrs bs x Hsh Hset ltac:(lia))
      as (v1 & h1 & ptrs1 & bs1 & Hrun & Hsh1 & Hset1 & Hsz1 & Hcells1 & _).
    destruct (IH v1 h1 ptrs1 bs1 (l ++ [x]) l' Hsh1 Hset1) as (v' & h' & ptrs' & bs' & Hruns & ?);
      [by rewrite Hcells1, Hcells, fmap_app|lia|done|].
    exists v', h', ptrs', bs'. by rewrite (bind_done _ _ _ _ _ Hrun).
  - destruct (decide (l = [])) as [|Hne]; [done|]. cbn [length] in Hmax.
    pose proof (cells_length _ _ _ _ Hsh) as Hlen. rewrite Hcells, length_fmap in Hlen.
    assert (0 < length l)%nat by (destruct l; [done|cbn [length]; lia]).
    destruct (pop_back_run v h ptrs bs Hsh Hset ltac:(lia))
      as (_ & v1 & h1 & ptrs1 & bs1 & _ & _ & _ & _ & Hrun & Hsh1 & Hset1 & Hsz1 & Hcells1 & _).
    destruct (IH v1 h1 ptrs1 bs1 (removelast l) l' Hsh1 Hset1) as (v' & h' & ptrs' & bs' & Hruns & ?);
      [|lia|done|].
    { rewrite Hcells1, Hcells, removelast_take, fmap_take. f_equal. lia. }
    exists v', h', ptrs', bs'. by rewrite (bind_done _ _ _ _ _ Hrun).
Qed.
End against_model.

(** C1.  A program makes a vector and calls [push_back] and [pop_back] on
    it, [pop_back] only when it is not empty.  Then [size()] is the
    length of the plain sequence that the same operations give, and
    [v[i]], for every [i < size()], is the item of that sequence at
    position [i].  (For programs of at most [max_items] calls.) *)
Theorem index_fidelity {T} (ops : list (op (T:=T))) (l : list T) :
  model ops [] = Some l → Z.of_nat (length ops) ≤ max_items →
  ∃ v h,
    client (run_ops ops) empty_heap = Done v h ∧
    size (v, h) = Done (Z.of_nat (length l)) (v, h) ∧
    (∀ i x, l !! i = Some x → get (Z.of_nat i) (v, h) = Done (Some x) (v, h)) ∧
    (∀ i, Z.of_nat (length l) ≤ i → get i (v, h) = Failed (v, h)).
Proof.
  intros Hm Hmax.
  destruct (vector_new_run (T:=T) empty_heap ltac:(cbn; lia))
    as (v0 & h0 & ptrs0 & bs0 & Hnew & Hsh0 & Hset0 & Hsz0 & Hcells0 & _).
  destruct (run_ops_model ops v0 h0 ptrs0 bs0 [] l Hsh0 Hset0 Hcells0 ltac:(lia) Hm)
    as (v & h & ptrs & bs & Hrun & Hsh & Hset & Hcells).
  pose proof (shape_wf _ _ _ _ Hsh) as Hwf.
  pose proof (cells_length _ _ _ _ Hsh) as Hlen. rewrite Hcells, length_fmap in Hlen.
  exists v, h. split.
  { unfold client. rewrite (bind_done _ _ _ _ _ Hnew). unfold construct_with.
    by rewrite Hrun. }
  split; [rewrite Hlen; by apply size_run|]. split.
  - intros i x Hi. pose proof (lookup_lt_Some _ _ _ Hi) as Hlt.
    destruct (get_run v h ptrs bs (Z.of_nat i) Hsh ltac:(lia)) as (c & Hc & Hget).
    rewrite Hcells, Nat2Z.id, list_lookup_fmap, Hi in Hc. cbn in Hc. by injection Hc as <-.
  - intros i Hi. apply get_beyond; [done|by eapply shape_dir|lia].
Qed.

Lemma index_fidelity_witness :
  model [Push 5; Push 6; Pop; Push 7; Push 8; Push 9] [] = Some [5; 7; 8; 9] ∧
  Z.of_nat (length [Push 5; Push 6; Pop; Push 7; Push 8; Push 9]) ≤ max_items ∧
  ∃ v h,
    client (run_ops [Push 5; Push 6; Pop; Push 7; Push 8; Push 9]) empty_heap = Done v h ∧
    size (v, h) = Done (Z.of_nat (length [5; 7; 8; 9])) (v, h) ∧
    (∀ i x, [5; 7; 8; 9] !! i = Some x → get (Z.of_nat i) (v, h) = Done (Some x) (v, h)) ∧
    (∀ i, Z.of_nat (length [5; 7; 8; 9]) ≤ i → get i (v, h) = Failed (v, h)).
Proof.
  assert (Hm : model [Push 5; Push 6; Pop; Push 7; Push 8; Push 9] [] = Some [5; 7; 8; 9])
    by (vm_compute; reflexivity).
  assert (Hmax : Z.of_nat (length [Push 5; Push 6; Pop; Push 7; Push 8; Push 9]) ≤ max_items)
    by (vm_compute; discriminate).
  split; [exact Hm|]. split; [exact Hmax|].
  exact (index_fidelity [Push 5; Push 6; Pop; Push 7; Push 8; Push 9] [5; 7; 8; 9] Hm Hmax).
Defined.

(** C5, as the claim has it, does not hold: after four calls of
    [push_back] on a new vector, [last_buffer_size == 0], [extra_buffer]
    is false and [big_buffer] is true, and [downsize_buffers()] stops at
    its assertion [dir_size * 2 < dir_capacity()]. *)
Lemma downsize_buffers_needs_room :
  reachable full_store ∧ objs full_store !! 0%nat = Some full_v ∧
  last_buffer_size full_v = 0 ∧ extra_buffer full_v = false ∧ big_buffer full_v = true ∧
  size (full_v, hp full_store) = Done 4 (full_v, hp full_store) ∧
  dir_capacity (full_v, hp full_store) = Done 2 (full_v, hp full_store) ∧
  downsize_buffers (full_v, hp full_store) = Failed (full_v, hp full_store).
Proof.
  split; [apply reachable_after; vm_compute; tauto|].
  vm_compute. repeat split; reflexivity.
Qed.

(** C5, with the precondition that the code asserts.  On a vector that
    satisfies invariants 1 to 5 and owns its buffers, with
    [last_buffer_size == 0], [extra_buffer] false, [big_buffer] true and
    [dir_size * 2 < dir_capacity()], [downsize_buffers()] returns; then
    [log_buffer_capacity] is one less, [big_buffer] is false, [dir_size]
    is [2 * dir_size - 1], every buffer but the last, empty one has been
    cut into its two halves, in order, and a buffer of uninitialised
    cells comes last; [size()] is what it was, and so is [v[i]] for every
    [i < size()]. *)
Theorem downsize_buffers_spec {T} (v : vector) (h : heap T)
    (ptrs : list loc) (bs : list (list (option T))) (D : Z) :
  shape v h ptrs bs →
  last_buffer_size v = 0 → extra_buffer v = false → big_buffer v = true →
  dir_capacity (v, h) = Done D (v, h) → dir_size v * 2 < D →
  ∃ B n h' ptrs' bs',
    let v' := Vector (dir v) (2 * dir_size v - 1) 0 (log_buffer_capacity v - 1) false false in
    buffer_capacity (v, h) = Done B (v, h) ∧
    size (v, h) = Done n (v, h) ∧
    downsize_buffers (v, h) = Done tt (v', h') ∧
    shape v' h' ptrs' bs' ∧
    buffer_capacity (v', h') = Done (B / 2) (v', h') ∧
    bs' = halved (Z.to_nat (B / 2)) (take (Z.to_nat (dir_size v - 1)) bs)
          ++ [replicate (Z.to_nat (B / 2)) None] ∧
    size (v', h') = Done n (v', h') ∧
    ∀ i, 0 ≤ i < n →
      ∃ c, get i (v, h) = Done c (v, h) ∧ get i (v', h') = Done c (v', h').
Proof.
  intros Hsh Hlbs He Hbig HD Hroom.
  pose proof (shape_wf _ _ _ _ Hsh) as Hwf.
  pose proof (shape_sizes _ _ _ _ Hsh) as Hsizes.
  pose proof (shape_length _ _ _ _ Hsh) as Hbslen.
  caps v. rewrite Hbig in *.
  rewrite dir_capacity_run in HD by lia. injection HD as <-.
  unfold held in Hbslen. rewrite He in Hbslen. cbn [b2z] in Hbslen.
  assert (Hwp : wp downsize_buffers (v, h) (λ _ s, ∃ h' ptrs' bs',
            s = (Vector (dir v) (2 * dir_size v - 1) 0 (log_buffer_capacity v - 1)
                   false false, h') ∧
            shape s.1 h' ptrs' bs' ∧
            bs' = halved (Z.to_nat (Bcap v / 2)) (take (Z.to_nat (dir_size v - 1)) bs)
                  ++ [replicate (Z.to_nat (Bcap v / 2)) None])).
  { eapply wp_downsize_buffers; [done..|].
    intros h' ptrs' bs' v' Hsh' Hbs' _. by exists h', ptrs', bs'. }
  apply wp_elim in Hwp as ([] & s' & Hrun & h' & ptrs' & bs' & -> & Hsh' & Hbs').
  cbn [fst] in Hsh'.
  set (v' := Vector (dir v) (2 * dir_size v - 1) 0 (log_buffer_capacity v - 1) false false)
    in *.
  pose proof (shape_wf _ _ _ _ Hsh') as Hwf'.
  assert (HL' : 1 ≤ log_buffer_capacity v - 1 ≤ 29) by apply (wf_log v' Hwf').
  assert (HB' : Bcap v' = Bcap v / 2).
  { unfold Bcap, v'. fields. rewrite (pow2_pred (log_buffer_capacity v)) by lia.
    by rewrite Z.mul_comm, Z.div_mul. }
  assert (Hsz' : sz v' = sz v).
  { unfold sz. rewrite HB'. unfold v'. fields. rewrite Hlbs.
    assert (Bcap v = 2 * (Bcap v / 2)) by (rewrite <- HB'; unfold Bcap, v'; fields;
      apply pow2_pred; lia). lia. }
  assert (Hcells : cells_of v' bs' = cells_of v bs).
  { unfold cells_of. rewrite Hsz'. rewrite Hbs', concat_app, concat_halved.
    set (k := Z.to_nat (dir_size v - 1)).
    rewrite (concat_uniform_take (Z.to_nat (Bcap v))) by done.
    assert (Hszk : Z.to_nat (sz v) = (k * Z.to_nat (Bcap v))%nat).
    { unfold sz. rewrite Hlbs. subst k. nia. }
    rewrite Hszk. apply take_app_length'.
    rewrite length_take, (concat_uniform_length (Z.to_nat (Bcap v))) by done.
    subst k. nia. }
  exists (Bcap v), (sz v), h', ptrs', bs'. cbv zeta. fold v'.
  split; [apply buffer_capacity_run; lia|]. split; [by apply size_run|].
  split; [done|]. split; [done|].
  split; [rewrite <- HB'; apply buffer_capacity_run; unfold v'; fields; lia|].
  split; [done|]. split; [rewrite <- Hsz'; by apply size_run|].
  intros i Hi.
  destruct (get_run v h ptrs bs i Hsh Hi) as (c & Hc & Hget).
  destruct (get_run v' h' ptrs' bs' i Hsh' ltac:(lia)) as (c' & Hc' & Hget').
  exists c. split; [done|]. rewrite Hcells in Hc'. congruence.
Qed.

Lemma quarter_shape :
  shape quarter_v quarter_h [2%nat; 3%nat] [quarter_items; replicate 16 None].
Proof.
  split; [|split].
  - split; vm_compute; try done; split; discriminate.
  - split; [done|]. split; [vm_compute; lia|]. split; [|split].
    + eexists. split; [vm_compute; reflexivity|]. split; [reflexivity|].
      intros [|[|i]] p Hp; cbn in Hp; [by injection Hp as <-..|done].
    + split; [|repeat constructor; vm_compute; lia].
      repeat constructor; set_solver.
    + repeat constructor.
  - reflexivity.
Defined.

Lemma downsize_buffers_spec_witness :
  shape quarter_v quarter_h [2%nat; 3%nat] [quarter_items; replicate 16 None] ∧
  last_buffer_size quarter_v = 0 ∧ extra_buffer quarter_v = false ∧
  big_buffer quarter_v = true ∧
  dir_capacity (quarter_v, quarter_h) = Done 8 (quarter_v, quarter_h) ∧
  dir_size quarter_v * 2 < 8 ∧
  ∃ B n h' ptrs' bs',
    let v' := Vector (dir quarter_v) (2 * dir_size quarter_v - 1) 0
                (log_buffer_capacity quarter_v - 1) false false in
    buffer_capacity (quarter_v, quarter_h) = Done B (quarter_v, quarter_h) ∧
    size (quarter_v, quarter_h) = Done n (quarter_v, quarter_h) ∧
    downsize_buffers (quarter_v, quarter_h) = Done tt (v', h') ∧
    shape v' h' ptrs' bs' ∧
    buffer_capacity (v', h') = Done (B / 2) (v', h') ∧
    bs' = halved (Z.to_nat (B / 2))
            (take (Z.to_nat (dir_size quarter_v - 1)) [quarter_items; replicate 16 None])
          ++ [replicate (Z.to_nat (B / 2)) None] ∧
    size (v', h') = Done n (v', h') ∧
    ∀ i, 0 ≤ i < n →
      ∃ c, get i (quarter_v, quarter_h) = Done c (quarter_v, quarter_h) ∧
           get i (v', h') = Done c (v', h').
Proof.
  assert (Hcap : dir_capacity (quarter_v, quarter_h) = Done 8 (quarter_v, quarter_h))
    by (vm_compute; reflexivity).
  assert (Hroom : dir_size quarter_v * 2 < 8) by (vm_compute; reflexivity).
  split; [exact quarter_shape|]. split; [reflexivity|]. split; [reflexivity|].
  split; [reflexivity|]. split; [exact Hcap|]. split; [exact Hroom|].
  exact (downsize_buffers_spec quarter_v quarter_h [2%nat; 3%nat]
           [quarter_items; replicate 16 None] 8
           quarter_shape eq_refl eq_refl eq_refl Hcap Hroom).
Defined.

(** ** What a client sees of a vector *)

Section observations.
Context {T : Type}.
Implicit Types (st : store T) (a : contents (T:=T)) (o y : nat).

Lemma sz_bound (v : vector) : wf v → 0 ≤ sz v < 2 ^ 64.
Proof.
  intros Hwf. caps v. unfold sz.
  assert (0 ≤ (dir_size v - 1) * Bcap v) by (apply Z.mul_nonneg_nonneg; lia).
  assert ((dir_size v - 1) * Bcap v ≤ 2 ^ 29 * 2 ^ 29) by (apply Z.mul_le_mono_nonneg; lia).
  change (2 ^ 29 * 2 ^ 29) with (2 ^ 58) in *.
  assert (2 ^ 58 + 2 ^ 29 < 2 ^ 64) by done. lia.
Qed.

Lemma observe_size st a o cs :
  inv st a → a !! o = Some cs →
  observe (Size o) st = Some (Count (Z.of_nat (length cs))).
Proof.
  intros Hinv Ha.
  destruct (exec_refines (Size o) st a (Count (Z.of_nat (length cs))) a Hinv I)
    as (st' & Hrun & _); [cbn [effect]; by rewrite Ha|].
  unfold observe. by rewrite Hrun.
Qed.

Lemma observe_get st a o cs i x :
  inv st a → a !! o = Some cs → 0 ≤ i → cs !! Z.to_nat i = Some x →
  observe (Get o i) st = Some (Cell x).
Proof.
  intros Hinv Ha Hi Hx.
  assert (Hin : within (Get o i) st).
  { destruct Hinv as (_ & _ & g & Hg).
    destruct (inv_lookup st a g o cs Hg Ha) as (v & ptrs & bs & _ & _ & Hsh & _ & ->).
    pose proof (cells_length _ _ _ _ Hsh) as Hlen.
    pose proof (sz_bound v (shape_wf _ _ _ _ Hsh)).
    apply lookup_lt_Some in Hx. cbn [within]. lia. }
  destruct (exec_refines (Get o i) st a (Cell x) a Hinv Hin) as (st' & Hrun & _).
  { cbn [effect]. rewrite Ha. rewrite decide_True by done. by rewrite Hx. }
  unfold observe. by rewrite Hrun.
Qed.

Lemma observed_size st a o n :
  inv st a → observe (Size o) st = Some (Count n) →
  ∃ cs, a !! o = Some cs ∧ n = Z.of_nat (length cs).
Proof.
  intros Hinv. unfold observe. destruct (exec (Size o) st) as [r st'| |] eqn:Hrun; [|done..].
  intros [= ->]. destruct (exec_sound (Size o) _ _ _ _ Hinv I Hrun) as (a' & Heff & _).
  cbn [effect] in Heff. destruct (a !! o) as [cs|]; [|done].
  injection Heff as <- _. by exists cs.
Qed.

(** A call changes the contents of its target only. *)
Lemma effect_other (c : call T) a r a' y :
  effect c a = Some (r, a') → target c ≠ Some y → a' !! y = a !! y.
Proof.
  intros Heff Hy.
  destruct c as [o|o that|o that|o|o x|o|o|o i|o i x]; cbn [effect target] in *;
    unfold contents in *; repeat case_match; simplify_eq;
    rewrite ?lookup_insert_ne, ?lookup_delete_ne by congruence; done.
Qed.

Lemma steps_other st cs rs st' y : steps st cs rs st' → ∀ a,
  inv st a → Forall (λ c, target c ≠ Some y) cs →
  ∃ a', inv st' a' ∧ a' !! y = a !! y.
Proof.
  induction 1 as [st|st c r st1 cs rs st' Hin Hrun _ IH]; intros a Hinv Hall.
  - by exists a.
  - apply Forall_cons in Hall as [Hc Hall].
    destruct (exec_sound _ _ _ _ _ Hinv Hin Hrun) as (a1 & Heff & Hinv1).
    destruct (IH a1 Hinv1 Hall) as (a' & Hinv' & Heq).
    exists a'. split; [done|]. rewrite Heq. by eapply effect_other.
Qed.
End observations.

(** C9.  [vector<T> b(a);] and [b = a;], for two vectors [a] and [b] of
    a program, return.  Whatever the program then does, as long as it
    calls nothing that changes [y], for [y] either of the two (so after
    calls that change the other one as well), [y.size()] is what
    [a.size()] was at the copy and [y[i]], for every [i] below it, is
    what [a[i]] was at the copy.  With no further call: right after the
    copy both hold what [a] held. *)
Theorem copy_independent {T} (st : store T) (a b : nat) (c : call T) :
  reachable st → a ≠ b → is_Some (objs st !! a) →
  (c = CopyVector b a ∧ objs st !! b = None) ∨
  (c = Assign b a ∧ is_Some (objs st !! b)) →
  ∃ n st1,
    exec c st = Done Nothing st1 ∧
    observe (Size a) st = Some (Count n) ∧
    ∀ cs rs st2 y,
      steps st1 cs rs st2 → y = a ∨ y = b →
      Forall (λ c', target c' ≠ Some y) cs →
      observe (Size y) st2 = Some (Count n) ∧
      ∀ i, 0 ≤ i < n →
        ∃ x, observe (Get a i) st = Some (Cell x) ∧
             observe (Get y i) st2 = Some (Cell x).
Proof.
  intros Hreach Hab [va Hva] Hc.
  destruct (reachable_inv st Hreach) as (m & Hinv).
  assert (∃ items, m !! a = Some items) as [items Hitems].
  { destruct Hinv as (_ & _ & g & _ & Hsome & _).
    destruct (Hsome a va Hva) as (ptrs & bs & _ & _ & _ & Ha). by eexists. }
  assert (Hrun : ∃ st1, exec c st = Done Nothing st1 ∧ inv st1 (<[b := items]> m)).
  { destruct Hc as [[-> Hb]|[-> [vb Hvb]]].
    - apply exec_refines with (a := m); [done|done|].
      cbn [effect]. rewrite Hitems.
      destruct Hinv as (_ & _ & g & Hnone & _). by rewrite (Hnone b Hb).
    - apply exec_refines with (a := m); [done|done|].
      cbn [effect]. rewrite Hitems.
      destruct Hinv as (_ & _ & g & _ & Hsome & _).
      destruct (Hsome b vb Hvb) as (ptrs & bs & _ & _ & _ & ->).
      by rewrite decide_False by done. }
  destruct Hrun as (st1 & Hrun & Hinv1).
  exists (Z.of_nat (length items)), st1. split; [done|].
  split; [by eapply observe_size|].
  intros cs rs st2 y Hsteps Hy Hall.
  destruct (steps_other _ _ _ _ y Hsteps _ Hinv1 Hall) as (m2 & Hinv2 & Heq).
  assert (Hy2 : m2 !! y = Some items).
  { rewrite Heq. unfold contents in *. destruct Hy as [-> | ->].
    - by rewrite lookup_insert_ne by done.
    - by rewrite lookup_insert_eq. }
  split; [by eapply observe_size|].
  intros i Hi. destruct (lookup_lt_is_Some_2 items (Z.to_nat i)) as [x Hx]; [lia|].
  exists x. split; eapply observe_get; try done; lia.
Qed.

Lemma copy_independent_witness :
  reachable example_store ∧ 0%nat ≠ 1%nat ∧ is_Some (objs example_store !! 0%nat) ∧
  ((Assign (T:=Z) 1%nat 0%nat = CopyVector 1%nat 0%nat ∧ objs example_store !! 1%nat = None) ∨
   (Assign 1%nat 0%nat = Assign (T:=Z) 1%nat 0%nat ∧ is_Some (objs example_store !! 1%nat))) ∧
  ∃ n st1,
    exec (Assign 1%nat 0%nat) example_store = Done Nothing st1 ∧
    observe (Size 0%nat) example_store = Some (Count n) ∧
    ∀ cs rs st2 y,
      steps st1 cs rs st2 → y = 0%nat ∨ y = 1%nat →
      Forall (λ c', target c' ≠ Some y) cs →
      observe (Size y) st2 = Some (Count n) ∧
      ∀ i, 0 ≤ i < n →
        ∃ x, observe (Get 0%nat i) example_store = Some (Cell x) ∧
             observe (Get y i) st2 = Some (Cell x).
Proof.
  assert (Hne : 0%nat ≠ 1%nat) by discriminate.
  assert (Ha : is_Some (objs example_store !! 0%nat))
    by (exists example_a; exact example_a_found).
  assert (Hb : (Assign (T:=Z) 1%nat 0%nat = CopyVector 1%nat 0%nat ∧
                objs example_store !! 1%nat = None) ∨
               (Assign 1%nat 0%nat = Assign (T:=Z) 1%nat 0%nat ∧
                is_Some (objs example_store !! 1%nat))).
  { right. split; [reflexivity|]. exists example_b. exact example_b_found. }
  split; [exact example_reachable|]. split; [exact Hne|]. split; [exact Ha|].
  split; [exact Hb|].
  exact (copy_independent example_store 0%nat 1%nat (Assign 1%nat 0%nat)
           example_reachable Hne Ha Hb).
Defined.

(** C10 does not hold of the code: [operator=] has no test for
    [this == &that].  [a = a;] returns, and [a.size()] is what it was,
    but every [a[i]] is then an uninitialised item of a new buffer: the
    buffers of [a] are released first, and what [construct] copies into
    each new buffer is that buffer itself. *)
Theorem self_assign_forgets {T} (st : store T) (o : nat) (n : Z) :
  reachable st → observe (Size o) st = Some (Count n) →
  ∃ st',
    exec (Assign o o) st = Done Nothing st' ∧
    observe (Size o) st' = Some (Count n) ∧
    ∀ i, 0 ≤ i < n → observe (Get o i) st' = Some (Cell None).
Proof.
  intros Hreach Hsize.
  destruct (reachable_inv st Hreach) as (m & Hinv).
  destruct (observed_size st m o n Hinv Hsize) as (items & Hitems & ->).
  destruct (exec_refines (Assign o o) st m Nothing
              (<[o := replicate (length items) None]> m) Hinv I) as (st' & Hrun & Hinv').
  { cbn [effect]. rewrite Hitems. by rewrite decide_True by done. }
  exists st'. split; [done|].
  assert (Ho : <[o := replicate (length items) None]> m !! o
               = Some (replicate (length items) None))
    by (unfold contents in *; apply lookup_insert_eq).
  split.
  - rewrite (observe_size _ _ _ _ Hinv' Ho). by rewrite length_replicate.
  - intros i Hi. eapply observe_get; [done|done|lia|].
    apply lookup_replicate_2. lia.
Qed.

Lemma self_assign_forgets_witness :
  reachable example_store ∧ observe (Size 0%nat) example_store = Some (Count 3) ∧
  ∃ st',
    exec (Assign 0%nat 0%nat) example_store = Done Nothing st' ∧
    observe (Size 0%nat) st' = Some (Count 3) ∧
    ∀ i, 0 ≤ i < 3 → observe (Get 0%nat i) st' = Some (Cell None).
Proof.
  assert (Hsize : observe (Size 0%nat) example_store = Some (Count 3))
    by (vm_compute; reflexivity).
  split; [exact example_reachable|]. split; [exact Hsize|].
  exact (self_assign_forgets example_store 0%nat 3 example_reachable Hsize).
Defined.

(** An input on which it shows: a vector with the one item 7. *)
Lemma self_assign_loses_item :
  observe (Get 0%nat 0) (store_after [NewVector 0%nat; PushBack 0%nat 7])
    = Some (Cell (Some 7)) ∧
  observe (Get 0%nat 0) (store_after [NewVector 0%nat; PushBack 0%nat 7; Assign 0%nat 0%nat])
    = Some (Cell None) ∧
  observe (Size 0%nat) (store_after [NewVector 0%nat; PushBack 0%nat 7; Assign 0%nat 0%nat])
    = Some (Count 1).
Proof. vm_compute. repeat split; reflexivity. Qed.

(** * struct space *)

(** ** The methods of [space] that are those of [vector] but for the
    assertions *)

Section space_evaluation.
Context {T : Type}.
Implicit Types (v : vector) (h : heap T).

Lemma bind_cong {S A B} (m : M S A) (k k' : A → M S B) (s : S) :
  (∀ a s', m s = Done a s' → k a s' = k' a s') → bind m k s = bind m k' s.
Proof. unfold bind. destruct (m s); auto. Qed.

Lemma size_state (s : state (T:=T)) n s' : size s = Done n s' → s' = s.
Proof.
  unfold size, bind, rd, assert, ret.
  destruct (0 <? dir_size s.1); [|done]. by intros [= _ <-].
Qed.

Lemma space_dir_capacity_run v h :
  1 ≤ log_buffer_capacity v ≤ 31 →
  Space.dir_capacity (v, h) = Done (Dcap v) (v, h).
Proof.
  intros HL. unfold Space.dir_capacity. rewrite !bind_rd.
  rewrite shl32_one_run by (destruct (big_buffer v); lia).
  unfold Dcap. by destruct (big_buffer v).
Qed.

Lemma wp_space_dir_capacity v h (Q : Z → state (T:=T) → Prop) :
  1 ≤ log_buffer_capacity v ≤ 31 → Q (Dcap v) (v, h) → wp Space.dir_capacity (v, h) Q.
Proof. intros. eapply wp_done; [by apply space_dir_capacity_run|done]. Qed.

Lemma space_valid_run v h :
  wf v → dir v ≠ 0%nat → Space.valid (v, h) = Done true (v, h).
Proof.
  intros Hwf Hd. caps v. unfold Space.valid.
  rewrite bind_rd, bind_assert by (bool_side; lia).
  rewrite bind_rd, bind_assert by (bool_side; lia).
  rewrite bind_rd.
  rewrite (bind_done _ _ _ _ _ (space_dir_capacity_run v h ltac:(lia))).
  rewrite !bind_assert by (bool_side; lia).
  rewrite !bind_rd.
  destruct (Z.eqb_spec 0 (last_buffer_size v)) as [Hz|Hz].
  - rewrite (wf_empty v Hwf) in * by done. cbn [negb].
    rewrite bind_assert by done.
    change Space.buffer_capacity with (buffer_capacity (T:=T)).
    rewrite (bind_done _ _ _ _ _ (buffer_capacity_run v h ltac:(lia))).
    rewrite bind_assert by (bool_side; lia). by rewrite bind_ret.
  - rewrite bind_ret.
    change Space.buffer_capacity with (buffer_capacity (T:=T)).
    rewrite (bind_done _ _ _ _ _ (buffer_capacity_run v h ltac:(lia))).
    rewrite bind_assert by (bool_side; lia).
    destruct (extra_buffer v) eqn:He.
    + rewrite bind_bind, bind_assert by (bool_side; lia).
      rewrite bind_bind.
      rewrite (bind_done _ _ _ _ _ (space_dir_capacity_run v h ltac:(lia))).
      rewrite bind_assert by (bool_side; lia). done.
    + by rewrite bind_ret.
Qed.

Lemma wp_space_valid v h (Q : bool → state (T:=T) → Prop) :
  wf v → dir v ≠ 0%nat → Q true (v, h) → wp Space.valid (v, h) Q.
Proof. intros. eapply wp_done; [by apply space_valid_run|done]. Qed.

Lemma space_upsize_dir_eq v h :
  1 ≤ log_buffer_capacity v ≤ 31 → big_buffer v = true →
  Space.upsize_dir (v, h) = upsize_dir (v, h).
Proof.
  intros HL Hbig. unfold Space.upsize_dir, upsize_dir.
  rewrite bind_rd, bind_assert by done.
  by rewrite (bind_done _ _ _ _ _ (space_dir_capacity_run v h HL)),
             (bind_done _ _ _ _ _ (dir_capacity_run v h HL)).
Qed.

Lemma space_downsize_dir_eq v h :
  1 ≤ log_buffer_capacity v ≤ 31 →
  Space.downsize_dir (v, h) = downsize_dir (v, h).
Proof.
  intros HL. unfold Space.downsize_dir, downsize_dir.
  by rewrite (bind_done _ _ _ _ _ (space_dir_capacity_run v h HL)),
             (bind_done _ _ _ _ _ (dir_capacity_run v h HL)).
Qed.

Lemma space_upsize_buffers_eq v h :
  1 ≤ log_buffer_capacity v ≤ 31 → big_buffer v = false → extra_buffer v = false →
  dir_size v = Dcap v → last_buffer_size v = Bcap v →
  Space.upsize_buffers (v, h) = upsize_buffers (v, h).
Proof.
  intros HL Hbig He Hds Hlbs. unfold Space.upsize_buffers, upsize_buffers.
  rewrite bind_rd, bind_assert by (by rewrite Hbig).
  rewrite bind_rd, bind_assert by (by rewrite He).
  rewrite (bind_done _ _ _ _ _ (dir_capacity_run v h HL)).
  rewrite bind_wr.
  assert (Hsame : set_dir_size (Dcap v) v = v) by (rewrite <- Hds; by destruct v).
  rewrite Hsame.
  pose proof (caps_facts v) as Hcaps.
  assert (HD : 1 ≤ Dcap v).
  { unfold Dcap. apply pow2_pos. rewrite Hbig. cbn [b2z]. lia. }
  rewrite bind_assert by (bool_side; lia).
  rewrite (bind_done _ _ _ _ _ (dir_capacity_run v h HL)).
  assert (Heven : Z.land (Dcap v) 1 = 0).
  { replace 1 with (Z.ones 1) by done. rewrite Z.land_ones by lia.
    change (2 ^ 1) with 2. unfold Dcap. rewrite Hbig. cbn [b2z]. rewrite Z.sub_0_r.
    rewrite (pow2_pred (log_buffer_capacity v)) by lia.
    rewrite Z.mul_comm. apply Z.mod_mul. lia. }
  rewrite bind_assert by (bool_side; done).
  rewrite bind_rd.
  change Space.buffer_capacity with (buffer_capacity (T:=T)).
  rewrite !(bind_done _ _ _ _ _ (buffer_capacity_run v h ltac:(lia))).
  rewrite bind_assert by (bool_side; done).
  by rewrite !(bind_done _ _ _ _ _ (buffer_capacity_run v h ltac:(lia))).
Qed.

Lemma space_upsize_eq v h :
  1 ≤ log_buffer_capacity v ≤ 31 → extra_buffer v = false →
  dir_size v = Dcap v → last_buffer_size v = Bcap v →
  Space.upsize (v, h) = upsize (v, h).
Proof.
  intros HL He Hds Hlbs. unfold Space.upsize, upsize.
  change Space.size with (size (T:=T)).
  apply bind_cong. intros n s Hsz.
  apply size_state in Hsz as ->.
  rewrite !bind_rd. destruct (big_buffer v) eqn:Hbig.
  - unfold bind. by rewrite space_upsize_dir_eq.
  - unfold bind. by rewrite space_upsize_buffers_eq.
Qed.
End space_evaluation.

(** ** Making a [space] smaller *)

Section space_downsize.
Context {T : Type}.
Implicit Types (v : vector) (h : heap T) (ptrs : list loc).
Implicit Types (bs : list (list (option T))).

(** Here every buffer is cut in two, the empty last one as well, and the
    second half of that one is given back. *)
Lemma wp_space_downsize_buffers v h ptrs bs (Q : unit → state (T:=T) → Prop) :
  shape v h ptrs bs → last_buffer_size v = 0 → extra_buffer v = false →
  big_buffer v = true → dir_size v * 2 < Dcap v →
  (∀ h' ptrs' bs',
     let v' := Vector (dir v) (2 * dir_size v - 1) 0 (log_buffer_capacity v - 1)
                 false false in
     shape v' h' ptrs' bs' →
     bs' = take (Z.to_nat (2 * dir_size v - 1)) (halved (Z.to_nat (Bcap v / 2)) bs) →
     (next h ≤ next h')%nat →
     Q tt (v', h')) →
  wp Space.downsize_buffers (v, h) Q.
Proof.
  intros Hsh Hlbs He Hbig Hds HQ.
  pose proof (shape_wf _ _ _ _ Hsh) as Hwf.
  destruct Hsh as (_ & Hown & Hlen). caps v. rewrite Hbig in *.
  unfold held in Hlen. rewrite He in Hlen. cbn [b2z] in Hlen.
  assert (HL3 : 3 ≤ log_buffer_capacity v).
  { destruct (decide (log_buffer_capacity v ≤ 2)); [|lia].
    assert (Bcap v ≤ 2 ^ 2) by (apply pow2_le; lia). lia. }
  assert (HB2 : Bcap v / 2 = 2 ^ (log_buffer_capacity v - 1)).
  { unfold Bcap. rewrite (pow2_pred (log_buffer_capacity v)) by lia.
    rewrite Z.mul_comm, Z.div_mul by lia. done. }
  assert (HBeven : Bcap v = 2 * (Bcap v / 2)).
  { rewrite HB2. unfold Bcap. apply pow2_pred. lia. }
  assert (HD : Dcap v = Bcap v / 2).
  { rewrite HB2. unfold Dcap. by rewrite Hbig. }
  unfold Space.downsize_buffers.
  change Space.buffer_capacity with (buffer_capacity (T:=T)).
  wp_steps.
  (* the loop *)
  set (n := Z.to_nat (dir_size v)).
  destruct Hown as (Hd0 & Hdn & (slots & Hd & Hcap & Hsl) & Hsound & Hblocks).
  destruct (split_loop (dir v) (Bcap v) (dir_size v) n h slots ptrs bs [] [])
    as (h2 & slots2 & more & Hrun & Hd2 & Hlen2 & Hsl2 & Hsound2 & Hblocks2 & Hmore & Hnext2);
    [done|lia|lia|lia|cbn [length]; lia|cbn [length]; lia|lia|done|done|done
    |by rewrite app_nil_r|done|constructor|].
  rewrite !app_nil_r in *.
  replace (dir_size v - Z.of_nat n) with 0 in Hrun by lia.
  eapply wp_done.
  { rewrite (repeat_from_mem v _ _
               (λ i, split_buffer (dir v) (Bcap v) (wrap32 (wrap32 (dir_size v - i) - 1)))).
    - apply mem_done. exact Hrun.
    - intros k h' Hk. rewrite iter_succ_wrap32 by lia.
      rewrite bind_rd. cbv zeta. by rewrite bind_rd. }
  cbv beta.
  (* the new members; the second half of the last buffer goes *)
  wp_steps. unwrap.
  assert (Hown2 : owns h2 (dir v) (Dcap v) (Bcap v / 2) more
                    (halved (Z.to_nat (Bcap v / 2)) bs)).
  { split; [done|]. split; [lia|]. split; [|done].
    exists slots2. split; [done|]. split; [lia|done]. }
  set (m := Z.to_nat (2 * dir_size v - 1)).
  destruct (owns_drop_last h2 (dir v) _ _ more _ m Hown2)
    as (p & h3 & Hload & Hdel & Hnext3 & Hown3); [lia|].
  replace (Z.of_nat m) with (2 * dir_size v - 1) in Hload by lia.
  eapply wp_mem_done; [exact Hload|]. cbv beta.
  eapply wp_mem_done; [exact Hdel|].
  subst n. destruct v as [d ds lbs L big e]. fields. subst lbs e big.
  eapply HQ; [|done|lia].
  split; [|split].
  - constructor; explicit; rewrite ?Z.sub_0_r in *; try lia; try done.
  - explicit. rewrite ?Z.sub_0_r in *. rewrite <- HB2. rewrite HB2 at 1. exact Hown3.
  - explicit. rewrite length_take. lia.
Qed.

Lemma wp_space_downsize v h ptrs bs (Q : unit → state (T:=T) → Prop) :
  shape v h ptrs bs → held v * 4 = Dcap v → extra_buffer v = false →
  (big_buffer v = true → last_buffer_size v = 0) →
  (∀ v' h' ptrs' bs',
     shape v' h' ptrs' bs' → settled v' → sz v' = sz v →
     cells_of v' bs' = cells_of v bs → (next h ≤ next h')%nat →
     Q tt (v', h')) →
  wp Space.downsize (v, h) Q.
Proof.
  intros Hsh Heq He Hbl HQ.
  pose proof (shape_wf _ _ _ _ Hsh) as Hwf.
  pose proof (shape_sizes _ _ _ _ Hsh) as Hsizes.
  pose proof (shape_length _ _ _ _ Hsh) as Hbslen.
  caps v. pose proof (Dcap_cases v ltac:(lia)) as HD.
  unfold held in Heq, Hbslen. rewrite He in Heq, Hbslen. cbn [b2z] in Heq, Hbslen.
  unfold Space.downsize. change Space.size with (size (T:=T)).
  apply wp_bind, wp_size; [lia..|]. wp_steps.
  destruct (big_buffer v) eqn:Hbig.
  - specialize (Hbl eq_refl).
    eapply wp_space_downsize_buffers; [done|done|done|done|lia|].
    intros h' ptrs' bs' v' Hsh' Hbs' Hnext.
    pose proof (shape_wf _ _ _ _ Hsh') as Hwf'.
    assert (Hsz' : sz v' = sz v).
    { subst v'. explicit. rewrite Hbl.
      rewrite (pow2_pred (log_buffer_capacity v)) by lia. lia. }
    apply wp_bind, wp_size; [subst v'; fields; lia..|].
    wp_assert_by lia.
    eapply HQ; [done| |done| |done].
    + intros Heq'. subst v'. explicit. split; [done|].
      rewrite Hbig in *. cbn [b2z] in *. rewrite Z.sub_0_r in *.
      assert (2 ^ (log_buffer_capacity v - 1) = 2 ^ 2) as Hpow by lia.
      apply Z.pow_inj_r in Hpow; lia.
    + unfold cells_of. rewrite Hsz'. rewrite Hbs'.
      assert (Hhalf : Bcap v = 2 * (Bcap v / 2)) by (unfold Bcap; apply pow2_even; lia).
      assert (Hhs : Forall (λ b, length b = Z.to_nat (Bcap v / 2))
                      (halved (Z.to_nat (Bcap v / 2)) bs)).
      { unfold halved. apply Forall_forall. intros b Hb.
        apply list_elem_of_bind in Hb as (b0 & Hb & Hb0).
        pose proof (proj1 (Forall_forall _ _) Hsizes b0 Hb0) as Hl. cbv beta in Hl.
        apply elem_of_cons in Hb as [->|Hb]; [rewrite length_take; lia|].
        apply list_elem_of_singleton in Hb as ->. rewrite length_drop. lia. }
      rewrite (concat_uniform_take (Z.to_nat (Bcap v / 2))) by done.
      rewrite concat_halved, take_take. f_equal.
      unfold sz. rewrite Hbl. nia.
  - unfold wp. rewrite space_downsize_dir_eq by lia. fold (wp downsize_dir (v, h)
      (λ _ s', wp (let* n := size in assert (n =? sz v)) s' Q)).
    eapply wp_downsize_dir; [done|done|done|lia|].
    intros h' Hsh' Hnext.
    pose proof (shape_wf _ _ _ _ Hsh') as Hwf'.
    apply wp_bind, wp_size; [fields; lia..|].
    wp_assert_by ltac:(explicit; lia).
    eapply HQ; [done| |done|done|done].
    intros Heq'. exfalso. unfold held, Dcap in Heq', Heq. fields.
    rewrite He in Heq'. rewrite ?Hbig in Heq. cbn [b2z] in *.
    rewrite Z.sub_0_r in Heq.
    pose proof (pow2_pred (log_buffer_capacity v) ltac:(lia)). lia.
Qed.
End space_downsize.

(** ** pop_back of a [space] *)

Section space_pop_back.
Context {T : Type}.
Implicit Types (v : vector) (h : heap T) (ptrs : list loc).
Implicit Types (bs : list (list (option T))).

Lemma bind_ret_tt {S} (m : M S unit) (s : S) : bind m (λ _, ret tt) s = m s.
Proof. unfold bind, ret. by destruct (m s) as [[] ?| |]. Qed.

Lemma wp_same {S A} (m m' : M S A) (s : S) (Q : A → S → Prop) :
  m s = m' s → wp m' s Q → wp m s Q.
Proof. unfold wp. by intros ->. Qed.

(** The branches are those of [vector::pop_back]; the test follows
    where the extra buffer has gone. *)
Lemma space_branches_eq v h :
  Space.pop_back_branches (v, h) =
  (pop_back_shrink ;;;
   when (negb (0 =? last_buffer_size v) && (0 =? wrap32 (last_buffer_size v - 1))
         && extra_buffer v)
   then Space.pop_back_test) (v, h).
Proof.
  unfold Space.pop_back_branches, pop_back_shrink.
  rewrite !bind_rd. rewrite bind_bind, bind_rd.
  destruct (0 =? last_buffer_size v); cbn [negb andb].
  - change Space.buffer_capacity with (buffer_capacity (T:=T)).
    symmetry. apply bind_ret_tt.
  - rewrite bind_bind, !bind_wr. rewrite !bind_rd. fields.
    rewrite bind_bind, bind_rd, bind_bind, bind_rd. fields.
    destruct ((0 =? wrap32 (last_buffer_size v - 1)) && extra_buffer v).
    + rewrite !bind_bind. apply bind_cong. intros d s1 _.
      rewrite !bind_bind. apply bind_cong. intros ds s2 _.
      rewrite !bind_bind. apply bind_cong. intros p s3 _.
      rewrite !bind_bind. apply bind_cong. intros [] s4 _.
      by rewrite ?bind_bind.
    + done.
Qed.

Lemma space_pop_back_run v h ptrs bs :
  shape v h ptrs bs → settled v → 0 < sz v →
  ∃ v' h' ptrs' bs',
    Space.pop_back (v, h) = Done tt (v', h') ∧
    shape v' h' ptrs' bs' ∧ settled v' ∧ sz v' = sz v - 1 ∧
    cells_of v' bs' = take (Z.to_nat (sz v - 1)) (cells_of v bs) ∧
    (next h ≤ next h')%nat.
Proof.
  intros Hsh Hset Hsz.
  pose proof (shape_wf _ _ _ _ Hsh) as Hwf.
  pose proof (shape_dir _ _ _ _ Hsh) as Hdir.
  cut (wp Space.pop_back (v, h)
         (λ _ s, ∃ v' h' ptrs' bs', s = (v', h') ∧
            shape v' h' ptrs' bs' ∧ settled v' ∧ sz v' = sz v - 1 ∧
            cells_of v' bs' = take (Z.to_nat (sz v - 1)) (cells_of v bs) ∧
            (next h ≤ next h')%nat)).
  { intros Hwp. apply wp_elim in Hwp as ([] & s' & Hrun & v' & h' & ptrs' & bs' & -> & ?).
    by exists v', h', ptrs', bs'. }
  caps v. unfold Space.pop_back. change Space.size with (size (T:=T)).
  apply wp_bind, wp_size; [lia..|].
  apply wp_bind, wp_space_valid; [done..|].
  wp_assert_by idtac.
  apply wp_bind, wp_size; [lia..|].
  wp_assert_by lia.
  (* what is left to do at the end *)
  match goal with |- wp (bind _ ?K) _ ?Q1 =>
    assert (Hfin : ∀ v' h' ptrs' bs',
              shape v' h' ptrs' bs' → settled v' → sz v' = sz v - 1 →
              cells_of v' bs' = take (Z.to_nat (sz v - 1)) (cells_of v bs) →
              (next h ≤ next h')%nat →
              wp (K tt) (v', h') Q1)
  end.
  { intros v' h' ptrs' bs' Hsh' Hset' Hsz' Hcells' Hnext'.
    pose proof (shape_wf _ _ _ _ Hsh') as Hwf'.
    pose proof (caps_facts _ (wf_log _ Hwf')) as Hcaps'.
    pose proof (wf_dir_size _ Hwf'). pose proof (wf_log _ Hwf').
    pose proof (wf_last _ Hwf'). pose proof (sz_bounds _ Hwf').
    apply wp_bind, wp_space_valid; [done|by eapply shape_dir|].
    wp_assert_by idtac.
    apply wp_bind, wp_size; [lia..|]. wp_steps.
    by exists v', h', ptrs', bs'. }
  cbv beta in Hfin.
  apply wp_bind. eapply wp_same; [apply space_branches_eq|].
  apply wp_bind. eapply wp_pop_back_shrink; [done..|].
  intros h1 ptrs1 bs1 Hsh1 Hsz1 Hcells1 Htrig Hnext1 [Hfree Hkeep].
  pose proof (shape_wf _ _ _ _ Hsh1) as Hwf1.
  pose proof (caps_facts _ (wf_log _ Hwf1)) as Hcaps1.
  pose proof (wf_dir_size _ Hwf1). pose proof (wf_log _ Hwf1).
  pose proof (wf_space _ Hwf1) as Hspace1.
  destruct (negb (0 =? last_buffer_size v) && (0 =? wrap32 (last_buffer_size v - 1))
            && extra_buffer v) eqn:Hc.
  - (* the extra buffer has gone *)
    apply andb_true_iff in Hc as [Hc He]. apply andb_true_iff in Hc as [Hne Hz].
    apply negb_true_iff, Z.eqb_neq in Hne.
    rewrite wrap32_small in Hz by lia. apply Z.eqb_eq in Hz.
    assert (Hsv : shrunk v = Vector (dir v) (dir_size v) 0 (log_buffer_capacity v)
                              (big_buffer v) false).
    { unfold shrunk. destruct (Z.eqb_spec (last_buffer_size v) 0); [lia|].
      destruct (Z.eqb_spec (last_buffer_size v - 1) 0); [|lia].
      rewrite He. cbn [andb negb]. f_equal. lia. }
    assert (Hheld1 : held (shrunk v) = dir_size (shrunk v)).
    { rewrite Hsv. unfold held. fields. lia. }
    unfold Space.pop_back_test. wp_steps.
    apply wp_bind, wp_space_dir_capacity; [lia|].
    rewrite (wrap32_small (dir_size (shrunk v) * 4)) by lia.
    destruct (Z.leb_spec (dir_size (shrunk v) * 4) (Dcap (shrunk v))) as [Hle|Hgt].
    + assert (Heq : held (shrunk v) * 4 = Dcap (shrunk v)) by lia.
      destruct (Htrig Heq) as [He1 Hb1].
      wp_steps. apply wp_bind, wp_space_dir_capacity; [lia|].
      wp_assert_by ltac:(unwrap; lia).
      eapply wp_space_downsize; [done..|].
      intros v' h' ptrs' bs' Hsh' Hset' Hsz' Hcells' Hnext'.
      apply (Hfin v' h' ptrs' bs'); [done|done|lia|congruence|lia].
    + apply wp_ret. apply (Hfin _ h1 ptrs1 bs1); [done| |done|done|lia].
      intros Heq. lia.
  - (* both buffers stay *)
    apply wp_ret. apply (Hfin _ h1 ptrs1 bs1); [done| |done|done|lia].
    assert (Hsame : held (shrunk v) = held v ∧ Dcap (shrunk v) = Dcap v ∧
                    big_buffer (shrunk v) = big_buffer v ∧
                    log_buffer_capacity (shrunk v) = log_buffer_capacity v).
    { unfold shrunk, held, Dcap.
      destruct (Z.eqb_spec (last_buffer_size v) 0) as [Hz|Hz]; fields.
      - rewrite (wf_empty v Hwf Hz). cbn [b2z]. repeat split; lia.
      - destruct (extra_buffer v) eqn:He; cbn [andb b2z]; [|done].
        destruct (Z.eqb_spec (last_buffer_size v - 1) 0) as [Hz1|Hz1]; [|done].
        exfalso. rewrite andb_true_r in Hc. apply andb_false_iff in Hc as [Hc|Hc].
        + apply negb_false_iff, Z.eqb_eq in Hc. lia.
        + rewrite wrap32_small in Hc by lia. apply Z.eqb_neq in Hc. lia. }
    destruct Hsame as (Hh & HD & Hb & HL).
    unfold settled. rewrite Hh, HD, Hb, HL. exact Hset.
Qed.
End space_pop_back.

(** ** push_back of a [space] *)

Ltac sp_step :=
  first
    [ wp_step
    | lazymatch goal with
      | |- wp Space.dir_capacity _ _ =>
          apply wp_space_dir_capacity; [fields; lia|]; cbv beta; caps_simpl
      end ].
Ltac sp_steps := repeat sp_step.

Section space_push_back.
Context {T : Type}.
Implicit Types (v : vector) (h : heap T) (ptrs : list loc).
Implicit Types (bs : list (list (option T))).

Lemma space_push_back_run v h ptrs bs x :
  shape v h ptrs bs → settled v → sz v < max_items →
  ∃ v' h' ptrs' bs',
    Space.push_back x (v, h) = Done tt (v', h') ∧
    shape v' h' ptrs' bs' ∧ settled v' ∧ sz v' = sz v + 1 ∧
    cells_of v' bs' = cells_of v bs ++ [Some x] ∧ (next h ≤ next h')%nat.
Proof.
  intros Hsh Hset Hmax.
  pose proof (shape_wf _ _ _ _ Hsh) as Hwf.
  pose proof (shape_dir _ _ _ _ Hsh) as Hdir.
  pose proof (shape_sizes _ _ _ _ Hsh) as Hsizes.
  pose proof (shape_length _ _ _ _ Hsh) as Hbslen.
  destruct Hsh as (_ & Hown & Hlen). caps v.
  pose proof (sz_bounds v Hwf) as [Hsz Hcapmax].
  assert (Hheld : dir_size v ≤ held v ≤ dir_size v + 1)
    by (unfold held; destruct (extra_buffer v); cbn [b2z]; lia).
  cut (wp (Space.push_back x) (v, h)
         (λ _ s, ∃ v' h' ptrs' bs', s = (v', h') ∧
            shape v' h' ptrs' bs' ∧ settled v' ∧ sz v' = sz v + 1 ∧
            cells_of v' bs' = cells_of v bs ++ [Some x] ∧ (next h ≤ next h')%nat)).
  { intros Hwp. apply wp_elim in Hwp as ([] & s' & Hrun & v' & h' & ptrs' & bs' & -> & ?).
    by exists v', h', ptrs', bs'. }
  unfold Space.push_back.
  change Space.size with (size (T:=T)).
  change Space.buffer_capacity with (buffer_capacity (T:=T)).
  apply wp_bind, wp_size; [lia..|].
  apply wp_bind, wp_space_valid; [done..|].
  wp_assert_by idtac.
  wp_steps. unwrap.
  (* the item goes into the last buffer *)
  destruct (lookup_lt_is_Some_2 ptrs (Z.to_nat (dir_size v - 1))) as [p Hp]; [lia|].
  destruct (lookup_lt_is_Some_2 bs (Z.to_nat (dir_size v - 1))) as [b Hb]; [lia|].
  pose proof (owns_load h (dir v) _ _ ptrs bs _ p Hown Hp) as Hload.
  rewrite Z2Nat.id in Hload by lia.
  eapply wp_mem_done; [exact Hload|]. cbv beta.
  destruct (owns_store_cell _ _ _ _ _ _ _ _ _ (last_buffer_size v) (Some x) Hown Hp Hb)
    as (h1 & Hst & Hnext1 & Hown1); [lia|].
  wp_step. eapply wp_mem_done; [exact Hst|]. cbv beta. wp_steps. unwrap.
  set (bs1 := <[Z.to_nat (dir_size v - 1) :=
                <[Z.to_nat (last_buffer_size v) := Some x]> b]> bs) in *.
  assert (Hlong : (Z.to_nat (sz v) < length (concat bs))%nat).
  { rewrite (concat_uniform_length (Z.to_nat (Bcap v))) by done. unfold sz. nia. }
  assert (Hcat1 : concat bs1 = <[Z.to_nat (sz v) := Some x]> (concat bs)).
  { subst bs1. rewrite (concat_uniform_insert (Z.to_nat (Bcap v))); [|done|done|lia].
    f_equal. unfold sz. nia. }
  assert (Hcells1 : take (Z.to_nat (sz v + 1)) (concat bs1) = cells_of v bs ++ [Some x]).
  { rewrite Hcat1. unfold cells_of.
    replace (Z.to_nat (sz v + 1)) with (S (Z.to_nat (sz v))) by lia.
    by apply take_push. }
  assert (Hlong1 : (Z.to_nat (sz v + 1) ≤ length (concat bs1))%nat).
  { rewrite Hcat1, length_insert. lia. }
  clear Hcat1.
  clearbody bs1. clear Hst Hload.
  match goal with |- wp _ _ ?Q1 =>
    assert (Hfin : ∀ v' h' ptrs' bs',
              shape v' h' ptrs' bs' → settled v' → sz v' = sz v + 1 →
              cells_of v' bs' = cells_of v bs ++ [Some x] → (next h ≤ next h')%nat →
              Q1 tt (v', h'))
  end.
  { intros v' h' ptrs' bs' Hsh' Hset' Hsz' Hcells' Hnext'.
    pose proof (shape_wf _ _ _ _ Hsh') as Hwf'.
    pose proof (caps_facts _ (wf_log _ Hwf')) as Hcaps'.
    pose proof (wf_dir_size _ Hwf'). pose proof (wf_log _ Hwf').
    pose proof (wf_last _ Hwf').
    apply wp_bind, wp_space_valid; [done|by eapply shape_dir|].
    wp_assert_by idtac.
    apply wp_bind, wp_size; [lia..|]. wp_steps.
    by exists v', h', ptrs', bs'. }
  cbv beta in Hfin.
  pose proof (λ v' h' ptrs' bs' H1 H2 H3 H4 H5,
                wp_unbind _ _ _ _ (Hfin v' h' ptrs' bs' H1 H2 H3 H4 H5)) as Hend.
  cbv beta in Hend. clear Hfin.
  destruct (Z.eqb_spec (last_buffer_size v + 1) (Bcap v)) as [Hfull|Hroom].
  2: { (* the last buffer has room left *)
    wp_steps.
    apply (Hend _ h1 ptrs bs1); [| | | |lia].
    all: destruct v as [d ds lbs L big e]; explicit.
    - split; [|split; [done|explicit; lia]].
      constructor; explicit; try lia; try done.
    - exact Hset.
    - lia.
    - rewrite <- Hcells1. f_equal. lia. }
  (* the last buffer is full now *)
  assert (Hfull' : dir_size v * Bcap v = sz v + 1) by (unfold sz; lia).
  wp_steps.
  match goal with |- wp _ _ ?Q2 =>
    assert (Hbump : ∀ w h' ptrs' bs',
              1 ≤ log_buffer_capacity w ≤ 29 →
              owns h' (dir w) (Dcap w) (Bcap w) ptrs' bs' →
              Z.of_nat (length ptrs') = dir_size w + 1 →
              1 ≤ dir_size w < Dcap w → Dcap w ≤ (dir_size w + 1) * 4 →
              ((dir_size w + 1) * 4 = Dcap w →
               big_buffer w = false ∧ log_buffer_capacity w = 2) →
              dir_size w * Bcap w = sz v + 1 →
              take (Z.to_nat (sz v + 1)) (concat bs') = cells_of v bs ++ [Some x] →
              (next h ≤ next h')%nat →
              Q2 tt (w, h'))
  end.
  { intros w h' ptrs' bs' HL' Hown' Hlen' Hds' Hspace' Hset' Hsz' Hcells' Hnext'.
    pose proof (caps_facts w HL') as Hcaps'.
    wp_steps. unwrap.
    apply (Hend _ h' ptrs' bs'); [| | | |lia].
    all: destruct w as [d' ds' lbs' L' big' e']; explicit.
    - split; [|split; [done|explicit; lia]].
      constructor; explicit; try lia; try done.
    - unfold settled. explicit. intros Heq. apply Hset'. lia.
    - lia.
    - rewrite <- Hcells'. f_equal. lia. }
  cbv beta in Hbump.
  destruct (extra_buffer v) eqn:He; cbn [negb].
  { (* the extra buffer is taken into use *)
    apply wp_ret.
    assert (Hlt : dir_size v < Dcap v) by (by apply (wf_extra v Hwf)).
    unfold held in *. rewrite He in *. cbn [b2z] in *.
    apply (Hbump _ h1 ptrs bs1); fields; caps_simpl; try done; try lia.
    intros Heq. apply Hset. unfold held. rewrite He. cbn [b2z]. exact Heq. }
  unfold held in *. rewrite He in *. cbn [b2z] in *. rewrite Z.add_0_r in *.
  sp_steps.
  match goal with |- wp _ _ ?Q3 =>
    assert (Happ : ∀ w h' ptrs' bs',
              1 ≤ log_buffer_capacity w ≤ 29 →
              owns h' (dir w) (Dcap w) (Bcap w) ptrs' bs' →
              Z.of_nat (length ptrs') = dir_size w →
              1 ≤ dir_size w < Dcap w → Dcap w < (dir_size w + 1) * 4 →
              last_buffer_size w = Bcap w → extra_buffer w = false →
              dir_size w * Bcap w = sz v + 1 →
              concat bs' = concat bs1 → (next h ≤ next h')%nat →
              Q3 tt (w, h'))
  end.
  { intros w h' ptrs' bs' HL' Hown' Hlen' Hds' Hspace' Hlbs' He' Hsz' Hcat' Hnext'.
    pose proof (caps_facts w HL') as Hcaps'.
    wp_steps.
    destruct (owns_append h' (dir w) _ _ ptrs' bs' Hown') as (h2 & Hput & Hnext2 & Hown2);
      [lia..|].
    rewrite Hlen' in Hput.
    eapply wp_mem_done; [exact Hput|].
    apply (Hbump _ h2 (ptrs' ++ [next h']) (bs' ++ [replicate (Z.to_nat (Bcap w)) None]));
      fields; caps_simpl; try done; try lia.
    - rewrite length_app. cbn [length]. lia.
    - rewrite concat_app, take_app_le; by rewrite Hcat'. }
  cbv beta in Happ.
  destruct (Z.eqb_spec (dir_size v) (Dcap v)) as [Hdfull|Hdroom].
  - (* no slot is left: the directory or the buffers grow first *)
    eapply wp_same; [apply space_upsize_eq; fields; caps_simpl; try done; lia|].
    eapply (wp_upsize _ h1 ptrs bs1); fields; caps_simpl; try done; try lia.
    + intros Hbig. apply full_log; [lia|done|]. rewrite <- Hdfull. lia.
    + intros v' h' ptrs' bs' HL' Hown' Hlen' Hds' Hspace' Hlbs' He' Hsz' Hcat' Hnext'.
      apply (Happ v' h' ptrs' bs'); try done; try lia.
  - apply wp_ret. apply (Happ _ h1 ptrs bs1); fields; caps_simpl; try done; try lia.
Qed.
End space_push_back.

(** ** Indexed access to a [space], and its constructor *)

Section space_access.
Context {T : Type}.
Implicit Types (v : vector) (h : heap T) (ptrs : list loc).
Implicit Types (bs : list (list (option T))).

Lemma wp_space_get v h ptrs bs i (Q : ref → state (T:=T) → Prop) :
  shape v h ptrs bs → 0 ≤ i < sz v →
  (∀ p b, ptrs !! Z.to_nat (i / Bcap v) = Some p →
          bs !! Z.to_nat (i / Bcap v) = Some b →
          bufs h !! p = Some b → Z.of_nat (length b) = Bcap v →
          Q (p, i mod Bcap v) (v, h)) →
  wp (Space.get i) (v, h) Q.
Proof.
  intros Hsh Hi HQ.
  pose proof (shape_wf _ _ _ _ Hsh) as Hwf.
  pose proof (shape_dir _ _ _ _ Hsh) as Hdir.
  destruct Hsh as (_ & Hown & Hlen).
  destruct (locate v i Hwf Hi) as (Hq & Hr & Hqr).
  caps v. pose proof (sz_bounds v Hwf) as [Hsz Hmax].
  unfold Space.get.
  change Space.size with (size (T:=T)).
  change Space.buffer_capacity with (buffer_capacity (T:=T)).
  apply wp_bind, wp_space_valid; [done..|].
  wp_assert_by idtac.
  apply wp_bind, wp_size; [lia..|].
  wp_steps. cbv zeta.
  rewrite Z.shiftr_div_pow2 by lia. fold (Bcap v).
  rewrite Z.shiftl_1_l. fold (Bcap v).
  rewrite (wrap64_small (Bcap v)) by lia.
  rewrite (wrap64_small (Bcap v - 1)) by lia.
  replace (Bcap v - 1) with (Z.ones (log_buffer_capacity v))
    by (rewrite Z.ones_equiv; unfold Bcap; lia).
  rewrite Z.land_ones by lia. fold (Bcap v).
  rewrite Z.shiftl_mul_pow2 by lia. fold (Bcap v).
  assert (0 ≤ i / Bcap v * Bcap v) by nia.
  wp_steps.
  destruct (lookup_lt_is_Some_2 ptrs (Z.to_nat (i / Bcap v))) as [p Hp].
  { unfold held in Hlen. destruct (extra_buffer v); cbn [b2z] in Hlen; lia. }
  destruct Hown as (Hd0 & Hdn & Hslots & Hsound & Hblocks).
  destruct (blocks_lookup _ _ _ _ _ _ Hblocks Hp) as (b & Hb & Hbuf & HbB).
  pose proof (owns_load h (dir v) _ _ ptrs bs _ p
                (conj Hd0 (conj Hdn (conj Hslots (conj Hsound Hblocks)))) Hp) as Hload.
  rewrite Z2Nat.id in Hload by lia.
  eapply wp_mem_done; [exact Hload|]. cbv beta.
  eapply wp_mem_done; [eapply item_run; [exact Hbuf|lia]|].
  by eapply HQ.
Qed.

Lemma space_read_run v h ptrs bs i :
  shape v h ptrs bs → 0 ≤ i < sz v →
  ∃ c, cells_of v bs !! Z.to_nat i = Some c ∧ Space.read i (v, h) = Done c (v, h).
Proof.
  intros Hsh Hi. pose proof (shape_wf _ _ _ _ Hsh) as Hwf.
  destruct (locate v i Hwf Hi) as (Hq & Hr & Hqr).
  assert (wp (Space.read i) (v, h)
            (λ c s, cells_of v bs !! Z.to_nat i = Some c ∧ s = (v, h))) as Hwp.
  { unfold Space.read. apply wp_bind. eapply (wp_space_get v h ptrs bs); [done|done|].
    intros p b Hp Hb Hbuf HbB. unfold load_ref. cbn [fst snd].
    destruct (lookup_lt_is_Some_2 b (Z.to_nat (i mod Bcap v))) as [c Hc];
      [dlia|].
    eapply wp_mem_done; [eapply load_cell_run; [exact Hbuf|dlia|exact Hc]|].
    split; [|done]. by erewrite cells_lookup. }
  apply wp_elim in Hwp as (c & s' & Hrun & Hc & ->). by exists c.
Qed.

Lemma space_write_run v h ptrs bs i x :
  shape v h ptrs bs → 0 ≤ i < sz v →
  ∃ h' bs', Space.write i x (v, h) = Done tt (v, h') ∧ next h' = next h ∧
            shape v h' ptrs bs' ∧
            cells_of v bs' = <[Z.to_nat i := Some x]> (cells_of v bs).
Proof.
  intros Hsh Hi. pose proof (shape_wf _ _ _ _ Hsh) as Hwf.
  destruct (locate v i Hwf Hi) as (Hq & Hr & Hqr).
  assert (wp (Space.write i x) (v, h)
            (λ _ s, ∃ h' bs', s = (v, h') ∧ next h' = next h ∧
               shape v h' ptrs bs' ∧
               cells_of v bs' = <[Z.to_nat i := Some x]> (cells_of v bs))) as Hwp.
  { unfold Space.write. apply wp_bind. eapply (wp_space_get v h ptrs bs); [done|done|].
    intros p b Hp Hb Hbuf HbB. unfold store_ref. cbn [fst snd].
    destruct Hsh as (_ & Hown & Hlen).
    destruct (owns_store_cell _ _ _ _ _ _ _ _ _ (i mod Bcap v) (Some x) Hown Hp Hb Hr)
      as (h' & Hst & Hnext & Hown').
    eapply wp_mem_done; [exact Hst|].
    exists h'. eexists. split; [done|]. split; [done|]. split; [done|].
    unfold cells_of.
    rewrite (concat_uniform_insert (Z.to_nat (Bcap v))); [|  |done|lia].
    - rewrite take_insert_lt by lia. f_equal. rewrite Hqr at 3. caps v. nia.
    - apply shape_sizes with (h := h) (ptrs := ptrs). done. }
  apply wp_elim in Hwp as ([] & s' & Hrun & h' & bs' & -> & ?). by exists h', bs'.
Qed.

Lemma space_pop_back_empty v h :
  wf v → dir v ≠ 0%nat → sz v = 0 → Space.pop_back (v, h) = Failed (v, h).
Proof.
  intros Hwf Hd Hsz. unfold Space.pop_back. change Space.size with (size (T:=T)).
  rewrite (bind_done _ _ _ _ _ (size_run v h Hwf)).
  rewrite (bind_done _ _ _ _ _ (space_valid_run v h Hwf Hd)).
  rewrite bind_assert by done.
  rewrite (bind_done _ _ _ _ _ (size_run v h Hwf)).
  rewrite Hsz. reflexivity.
Qed.

Lemma space_get_beyond v h i :
  wf v → dir v ≠ 0%nat → sz v ≤ i → Space.get i (v, h) = Failed (v, h).
Proof.
  intros Hwf Hd Hi. unfold Space.get. change Space.size with (size (T:=T)).
  rewrite (bind_done _ _ _ _ _ (space_valid_run v h Hwf Hd)).
  rewrite bind_assert by done.
  rewrite (bind_done _ _ _ _ _ (size_run v h Hwf)).
  apply bind_failed. unfold assert.
  destruct (Z.ltb_spec i (sz v)); [lia|done].
Qed.

Lemma space_read_beyond v h i :
  wf v → dir v ≠ 0%nat → sz v ≤ i → Space.read i (v, h) = Failed (v, h).
Proof. intros. unfold Space.read. apply bind_failed. by apply space_get_beyond. Qed.

Lemma space_write_beyond v h i x :
  wf v → dir v ≠ 0%nat → sz v ≤ i → Space.write i x (v, h) = Failed (v, h).
Proof. intros. unfold Space.write. apply bind_failed. by apply space_get_beyond. Qed.

Lemma space_new_run h :
  (0 < next h)%nat →
  ∃ v h' ptrs bs,
    Space.space_new h = Done v h' ∧ shape v h' ptrs bs ∧ settled v ∧
    sz v = 0 ∧ cells_of v bs = [] ∧ (next h ≤ next h')%nat.
Proof.
  intros Hpos.
  set (d := next h).
  set (v := Vector d 1 0 1 true false).
  set (h' := Heap (<[S d := replicate 2 None]> (bufs h))
                  (<[d := [Some (S d)]]> (dirs h)) (S (S d))).
  assert (Hwf : wf v).
  { constructor; unfold Dcap, Bcap, held; cbn; try lia; done. }
  exists v, h', [S d], [replicate 2 None].
  split; [|split; [|split; [|split; [done|split; [done|cbn; lia]]]]].
  - unfold Space.space_new.
    rewrite (bind_done _ _ h d
               (Heap (bufs h) (<[d := replicate 1 None]> (dirs h)) (S d))) by reflexivity.
    unfold construct_with. fold v.
    match goal with |- context [match ?body (v, ?h1) with _ => _ end] =>
      assert (Hbody : body (v, h1) = Done tt (v, h'))
    end.
    { apply wp_eq. unfold v.
      change Space.buffer_capacity with (buffer_capacity (T:=T)).
      wp_steps. cbn [next bufs dirs].
      eapply wp_mem_done.
      { eapply (store_slot_run _ _ [None]); [apply lookup_insert_eq|cbn; lia]. }
      cbv beta. apply wp_bind, wp_space_valid; [done|cbn; lia|].
      apply wp_assert; [done|].
      split; [done|]. unfold h'. cbn. by rewrite insert_insert_eq. }
    by rewrite Hbody.
  - split; [done|]. split; [|done].
    split; [cbn; lia|]. split; [cbn; lia|]. split.
    { exists [Some (S d)]. split; [apply lookup_insert_eq|]. split; [done|].
      intros [|i] p Hp; [|done]. by injection Hp as <-. }
    split.
    { split; [apply NoDup_singleton|]. apply Forall_singleton. cbn. lia. }
    constructor; [|constructor]. split; [apply lookup_insert_eq|done].
  - intros Heq. unfold held, Dcap in Heq. cbn in Heq. lia.
Qed.
End space_access.

(** * One array and a plain sequence *)

Section session_model.
Context {T : Type}.
Implicit Types (v : vector) (h : heap T) (ptrs : list loc) (l : list T).
Implicit Types (bs : list (list (option T))) (rs : list (request T)).

Lemma session_run serve rs : serves serve → ∀ v h ptrs bs l,
  shape v h ptrs bs → settled v → cells_of v bs = Some <$> l →
  Forall indexed rs → sz v + Z.of_nat (length rs) ≤ max_items →
  verdict_of (session serve rs (v, h)) = plain_verdict (plain_session rs l).
Proof.
  intros Hserve. induction rs as [|r rs IH]; intros v h ptrs bs l Hsh Hset Hcells Hall Hmax.
  - done.
  - apply Forall_cons in Hall as [Hr Hall]. cbn [length] in Hmax.
    cbn [session plain_session].
    pose proof (Hserve r v h ptrs bs l Hsh Hset Hcells Hr ltac:(lia)) as Hstep.
    destruct (plain_serve r l) as [[a l']|].
    + destruct Hstep as (v' & h' & ptrs' & bs' & Hrun & Hsh' & Hset' & Hcells' & Hsz').
      rewrite (bind_done _ _ _ _ _ Hrun).
      specialize (IH v' h' ptrs' bs' l' Hsh' Hset' Hcells' Hall ltac:(lia)).
      unfold bind at 1. destruct (session serve rs (v', h')) as [rest s| |];
        destruct (plain_session rs l'); cbn in IH |- *; congruence.
    + unfold bind. by rewrite Hstep.
Qed.

Lemma cells_plain_length v h ptrs bs l :
  shape v h ptrs bs → cells_of v bs = Some <$> l → sz v = Z.of_nat (length l).
Proof.
  intros Hsh Hcells. pose proof (cells_length _ _ _ _ Hsh) as Hlen.
  rewrite Hcells, length_fmap in Hlen. lia.
Qed.

Lemma vector_serves : serves (vector_serve (T:=T)).
Proof.
  intros r v h ptrs bs l Hsh Hset Hcells Hr Hmax.
  pose proof (shape_wf _ _ _ _ Hsh) as Hwf.
  pose proof (shape_dir _ _ _ _ Hsh) as Hdir.
  pose proof (cells_plain_length _ _ _ _ _ Hsh Hcells) as Hlen.
  destruct r as [x| | |i|i x]; cbn [plain_serve vector_serve indexed] in *.
  - destruct (push_back_run v h ptrs bs x Hsh Hset Hmax)
      as (v' & h' & ptrs' & bs' & Hrun & Hsh' & Hset' & Hsz' & Hcells' & _).
    exists v', h', ptrs', bs'. rewrite (bind_done _ _ _ _ _ Hrun).
    split; [done|]. split; [done|]. split; [done|]. split; [|lia].
    by rewrite Hcells', Hcells, fmap_app.
  - destruct (decide (l = [])) as [->|Hne].
    + apply bind_failed, pop_back_empty; [done|done|]. by rewrite Hlen.
    + assert (0 < length l)%nat by (destruct l; [done|cbn [length]; lia]).
      destruct (pop_back_run v h ptrs bs Hsh Hset ltac:(lia))
        as (_ & v' & h' & ptrs' & bs' & _ & _ & _ & _ & Hrun & Hsh' & Hset' & Hsz' & Hcells' & _).
      exists v', h', ptrs', bs'. rewrite (bind_done _ _ _ _ _ Hrun).
      split; [done|]. split; [done|]. split; [done|]. split; [|lia].
      rewrite Hcells', Hcells, removelast_take, fmap_take. f_equal. lia.
  - exists v, h, ptrs, bs. rewrite (bind_done _ _ _ _ _ (size_run v h Hwf)).
    rewrite Hlen. split; [done|]. split; [done|]. split; [done|]. split; [done|lia].
  - rewrite decide_True by lia.
    destruct (l !! Z.to_nat i) as [x|] eqn:Hx.
    + pose proof (lookup_lt_Some _ _ _ Hx).
      destruct (get_run v h ptrs bs i Hsh ltac:(lia)) as (c & Hc & Hrun).
      rewrite Hcells, list_lookup_fmap, Hx in Hc. injection Hc as <-.
      exists v, h, ptrs, bs. rewrite (bind_done _ _ _ _ _ Hrun).
      split; [done|]. split; [done|]. split; [done|]. split; [done|lia].
    + apply lookup_ge_None in Hx.
      apply bind_failed, get_beyond; [done|done|lia].
  - destruct (decide (0 ≤ i < Z.of_nat (length l))) as [Hi|Hi].
    + destruct (put_run v h ptrs bs i x Hsh ltac:(lia)) as (h' & bs' & Hrun & _ & Hsh' & Hcells').
      exists v, h', ptrs, bs'. rewrite (bind_done _ _ _ _ _ Hrun).
      split; [done|]. split; [done|]. split; [done|]. split; [|lia].
      by rewrite Hcells', Hcells, list_fmap_insert.
    + apply bind_failed, put_beyond; [done|done|lia].
Qed.

Lemma space_serves : serves (space_serve (T:=T)).
Proof.
  intros r v h ptrs bs l Hsh Hset Hcells Hr Hmax.
  pose proof (shape_wf _ _ _ _ Hsh) as Hwf.
  pose proof (shape_dir _ _ _ _ Hsh) as Hdir.
  pose proof (cells_plain_length _ _ _ _ _ Hsh Hcells) as Hlen.
  destruct r as [x| | |i|i x]; cbn [plain_serve space_serve indexed] in *.
  - destruct (space_push_back_run v h ptrs bs x Hsh Hset Hmax)
      as (v' & h' & ptrs' & bs' & Hrun & Hsh' & Hset' & Hsz' & Hcells' & _).
    exists v', h', ptrs', bs'. rewrite (bind_done _ _ _ _ _ Hrun).
    split; [done|]. split; [done|]. split; [done|]. split; [|lia].
    by rewrite Hcells', Hcells, fmap_app.
  - destruct (decide (l = [])) as [->|Hne].
    + apply bind_failed, space_pop_back_empty; [done|done|]. by rewrite Hlen.
    + assert (0 < length l)%nat by (destruct l; [done|cbn [length]; lia]).
      destruct (space_pop_back_run v h ptrs bs Hsh Hset ltac:(lia))
        as (v' & h' & ptrs' & bs' & Hrun & Hsh' & Hset' & Hsz' & Hcells' & _).
      exists v', h', ptrs', bs'. rewrite (bind_done _ _ _ _ _ Hrun).
      split; [done|]. split; [done|]. split; [done|]. split; [|lia].
      rewrite Hcells', Hcells, removelast_take, fmap_take. f_equal. lia.
  - exists v, h, ptrs, bs. change Space.size with (size (T:=T)).
    rewrite (bind_done _ _ _ _ _ (size_run v h Hwf)).
    rewrite Hlen. split; [done|]. split; [done|]. split; [done|]. split; [done|lia].
  - rewrite decide_True by lia.
    destruct (l !! Z.to_nat i) as [x|] eqn:Hx.
    + pose proof (lookup_lt_Some _ _ _ Hx).
      destruct (space_read_run v h ptrs bs i Hsh ltac:(lia)) as (c & Hc & Hrun).
      rewrite Hcells, list_lookup_fmap, Hx in Hc. injection Hc as <-.
      exists v, h, ptrs, bs. rewrite (bind_done _ _ _ _ _ Hrun).
      split; [done|]. split; [done|]. split; [done|]. split; [done|lia].
    + apply lookup_ge_None in Hx.
      apply bind_failed, space_read_beyond; [done|done|lia].
  - destruct (decide (0 ≤ i < Z.of_nat (length l))) as [Hi|Hi].
    + destruct (space_write_run v h ptrs bs i x Hsh ltac:(lia))
        as (h' & bs' & Hrun & _ & Hsh' & Hcells').
      exists v, h', ptrs, bs'. rewrite (bind_done _ _ _ _ _ Hrun).
      split; [done|]. split; [done|]. split; [done|]. split; [|lia].
      by rewrite Hcells', Hcells, list_fmap_insert.
    + apply bind_failed, space_write_beyond; [done|done|lia].
Qed.

Lemma verdict_eval_on {A} v (m : Mv (T:=T) A) h :
  verdict_of (eval_on v m h) = verdict_of (m (v, h)).
Proof. unfold eval_on, zoom. by destruct (m (v, h)). Qed.

Lemma vector_session_run rs :
  Forall indexed rs → Z.of_nat (length rs) ≤ max_items →
  verdict_of (vector_session rs empty_heap) = plain_verdict (plain_session rs []).
Proof.
  intros Hall Hmax.
  destruct (vector_new_run (T:=T) empty_heap ltac:(cbn; lia))
    as (v & h & ptrs & bs & Hnew & Hsh & Hset & Hsz & Hcells & _).
  unfold vector_session. rewrite (bind_done _ _ _ _ _ Hnew), verdict_eval_on.
  eapply session_run; [apply vector_serves|done..|lia].
Qed.

Lemma space_session_run rs :
  Forall indexed rs → Z.of_nat (length rs) ≤ max_items →
  verdict_of (space_session rs empty_heap) = plain_verdict (plain_session rs []).
Proof.
  intros Hall Hmax.
  destruct (space_new_run (T:=T) empty_heap ltac:(cbn; lia))
    as (v & h & ptrs & bs & Hnew & Hsh & Hset & Hsz & Hcells & _).
  unfold space_session. rewrite (bind_done _ _ _ _ _ Hnew), verdict_eval_on.
  eapply session_run; [apply space_serves|done..|lia].
Qed.
End session_model.

(** X1.  A program makes a [vector] and calls [push_back], [pop_back],
    [size], and [v[i]] for reading and for writing, in any order.  It
    ends as the same requests to a plain sequence end: with the same
    answers, or at a failed assertion if one of the requests is a
    [pop_back] of the empty sequence or has an index that is not below
    the length.  It never runs into undefined behaviour.  (For programs
    of at most [max_items] calls whose indices are [size_t] values.) *)
Theorem vector_session_plain {T} (rs : list (request T)) :
  Forall indexed rs → Z.of_nat (length rs) ≤ max_items →
  verdict_of (vector_session rs empty_heap) = plain_verdict (plain_session rs []).
Proof. apply vector_session_run. Qed.

Lemma example_requests_indexed : Forall indexed example_requests.
Proof. repeat constructor; cbn; lia. Qed.

Lemma example_requests_few : Z.of_nat (length example_requests) ≤ max_items.
Proof. vm_compute. discriminate. Qed.

Lemma vector_session_plain_witness :
  Forall indexed example_requests ∧ Z.of_nat (length example_requests) ≤ max_items ∧
  verdict_of (vector_session example_requests empty_heap)
    = plain_verdict (plain_session example_requests []).
Proof.
  split; [exact example_requests_indexed|]. split; [exact example_requests_few|].
  exact (vector_session_plain example_requests example_requests_indexed
           example_requests_few).
Defined.

(** X2.  The same of a program that makes a [space] and calls
    [push_back], [pop_back], [size] and [get], for reading and for
    writing: it ends as the requests to a plain sequence end, and never
    in undefined behaviour. *)
Theorem space_session_plain {T} (rs : list (request T)) :
  Forall indexed rs → Z.of_nat (length rs) ≤ max_items →
  verdict_of (space_session rs empty_heap) = plain_verdict (plain_session rs []).
Proof. apply space_session_run. Qed.

Lemma space_session_plain_witness :
  Forall indexed example_requests ∧ Z.of_nat (length example_requests) ≤ max_items ∧
  verdict_of (space_session example_requests empty_heap)
    = plain_verdict (plain_session example_requests []).
Proof.
  split; [exact example_requests_indexed|]. split; [exact example_requests_few|].
  exact (space_session_plain example_requests example_requests_indexed
           example_requests_few).
Defined.

(** X3.  [space] and [vector] cannot be told apart by a program that
    makes one array and calls [push_back], [pop_back], [size] and the
    indexed access: the same requests get the same answers from both, and
    where one stops at a failed assertion, so does the other. *)
Theorem space_vector_agree {T} (rs : list (request T)) :
  Forall indexed rs → Z.of_nat (length rs) ≤ max_items →
  verdict_of (space_session rs empty_heap) = verdict_of (vector_session rs empty_heap) ∧
  verdict_of (space_session rs empty_heap) ≠ Lost.
Proof.
  intros Hall Hmax.
  rewrite (space_session_run rs Hall Hmax), (vector_session_run rs Hall Hmax).
  split; [done|]. by destruct (plain_session rs []).
Qed.

Lemma space_vector_agree_witness :
  Forall indexed example_requests ∧ Z.of_nat (length example_requests) ≤ max_items ∧
  verdict_of (space_session example_requests empty_heap)
    = verdict_of (vector_session example_requests empty_heap) ∧
  verdict_of (space_session example_requests empty_heap) ≠ Lost.
Proof.
  split; [exact example_requests_indexed|]. split; [exact example_requests_few|].
  exact (space_vector_agree example_requests example_requests_indexed
           example_requests_few).
Defined.

(** ** The members of a [space] *)

Section space_members.
Context {T : Type}.
Implicit Types (v : vector) (h : heap T) (ops : list (op (T:=T))) (l : list T).

Lemma space_ops_model ops : ∀ v h ptrs bs l l',
  shape v h ptrs bs → settled v → cells_of v bs = Some <$> l →
  sz v + Z.of_nat (length ops) ≤ max_items →
  model ops l = Some l' →
  ∃ v' h' ptrs' bs',
    space_ops ops (v, h) = Done tt (v', h') ∧ shape v' h' ptrs' bs' ∧ settled v' ∧
    cells_of v' bs' = Some <$> l'.
Proof.
  induction ops as [|[x|] ops IH]; intros v h ptrs bs l l' Hsh Hset Hcells Hmax Hm;
    cbn [model model_op] in Hm; cbn [space_ops space_op].
  - injection Hm as <-. by exists v, h, ptrs, bs.
  - cbn [length] in Hmax.
    destruct (space_push_back_run v h ptrs bs x Hsh Hset ltac:(lia))
      as (v1 & h1 & ptrs1 & bs1 & Hrun & Hsh1 & Hset1 & Hsz1 & Hcells1 & _).
    destruct (IH v1 h1 ptrs1 bs1 (l ++ [x]) l' Hsh1 Hset1) as (v' & h' & ptrs' & bs' & Hruns & ?);
      [by rewrite Hcells1, Hcells, fmap_app|lia|done|].
    exists v', h', ptrs', bs'. by rewrite (bind_done _ _ _ _ _ Hrun).
  - destruct (decide (l = [])) as [|Hne]; [done|]. cbn [length] in Hmax.
    pose proof (cells_length _ _ _ _ Hsh) as Hlen. rewrite Hcells, length_fmap in Hlen.
    assert (0 < length l)%nat by (destruct l; [done|cbn [length]; lia]).
    destruct (space_pop_back_run v h ptrs bs Hsh Hset ltac:(lia))
      as (v1 & h1 & ptrs1 & bs1 & Hrun & Hsh1 & Hset1 & Hsz1 & Hcells1 & _).
    destruct (IH v1 h1 ptrs1 bs1 (removelast l) l' Hsh1 Hset1) as (v' & h' & ptrs' & bs' & Hruns & ?);
      [|lia|done|].
    { rewrite Hcells1, Hcells, removelast_take, fmap_take. f_equal. lia. }
    exists v', h', ptrs', bs'. by rewrite (bind_done _ _ _ _ _ Hrun).
Qed.
End space_members.

(** X4.  A program makes a [space] and calls [push_back] and [pop_back]
    on it, [pop_back] only when it is not empty.  The members it leaves
    satisfy what [valid()] asserts and also the bound that only
    [vector::assert_valid] asserts,
    [(dir_size + (extra_buffer ? 1 : 0)) * 4 >= dir_capacity()]; the
    item slots of all buffers are at most [2 * buffer_capacity()] more
    than [size()], which is the length of the plain sequence. *)
Theorem space_keeps_bound {T} (ops : list (op (T:=T))) (l : list T) :
  model ops [] = Some l → Z.of_nat (length ops) ≤ max_items →
  ∃ w k D B,
    space_client (space_ops ops) empty_heap = Done w k ∧
    Space.valid (w, k) = Done true (w, k) ∧
    Space.dir_capacity (w, k) = Done D (w, k) ∧
    Space.buffer_capacity (w, k) = Done B (w, k) ∧
    Space.size (w, k) = Done (Z.of_nat (length l)) (w, k) ∧
    D ≤ (dir_size w + b2z (extra_buffer w)) * 4 ∧
    (dir_size w + b2z (extra_buffer w)) * B - Z.of_nat (length l) ≤ 2 * B ∧
    assert_valid (w, k) = Done tt (w, k).
Proof.
  intros Hm Hmax.
  destruct (space_new_run (T:=T) empty_heap ltac:(cbn; lia))
    as (v0 & h0 & ptrs0 & bs0 & Hnew & Hsh0 & Hset0 & Hsz0 & Hcells0 & _).
  destruct (space_ops_model ops v0 h0 ptrs0 bs0 [] l Hsh0 Hset0 Hcells0 ltac:(lia) Hm)
    as (w & k & ptrs & bs & Hrun & Hsh & Hset & Hcells).
  pose proof (shape_wf _ _ _ _ Hsh) as Hwf.
  pose proof (shape_dir _ _ _ _ Hsh) as Hdir.
  pose proof (cells_length _ _ _ _ Hsh) as Hlen. rewrite Hcells, length_fmap in Hlen.
  caps w. exists w, k, (Dcap w), (Bcap w). split.
  { unfold space_client. rewrite (bind_done _ _ _ _ _ Hnew). unfold construct_with.
    by rewrite Hrun. }
  split; [by apply space_valid_run|].
  split; [apply space_dir_capacity_run; lia|].
  split; [apply buffer_capacity_run; lia|].
  split; [rewrite Hlen; by apply size_run|].
  split; [apply (wf_space w Hwf)|].
  split; [|by apply assert_valid_run].
  fold (held w). rewrite Hlen. unfold sz.
  assert (Hheld : held w ≤ dir_size w + 1)
    by (unfold held; destruct (extra_buffer w); cbn [b2z]; lia).
  assert (0 ≤ (dir_size w + 1 - held w) * Bcap w) by (apply Z.mul_nonneg_nonneg; lia).
  lia.
Qed.

Lemma space_keeps_bound_witness :
  model [Push 5; Push 6; Pop; Push 7; Push 8; Push 9] [] = Some [5; 7; 8; 9] ∧
  Z.of_nat (length [Push 5; Push 6; Pop; Push 7; Push 8; Push 9]) ≤ max_items ∧
  ∃ w k D B,
    space_client (space_ops [Push 5; Push 6; Pop; Push 7; Push 8; Push 9]) empty_heap
      = Done w k ∧
    Space.valid (w, k) = Done true (w, k) ∧
    Space.dir_capacity (w, k) = Done D (w, k) ∧
    Space.buffer_capacity (w, k) = Done B (w, k) ∧
    Space.size (w, k) = Done (Z.of_nat (length [5; 7; 8; 9])) (w, k) ∧
    D ≤ (dir_size w + b2z (extra_buffer w)) * 4 ∧
    (dir_size w + b2z (extra_buffer w)) * B - Z.of_nat (length [5; 7; 8; 9]) ≤ 2 * B ∧
    assert_valid (w, k) = Done tt (w, k).
Proof.
  assert (Hm : model [Push 5; Push 6; Pop; Push 7; Push 8; Push 9] [] = Some [5; 7; 8; 9])
    by (vm_compute; reflexivity).
  assert (Hmax : Z.of_nat (length [Push 5; Push 6; Pop; Push 7; Push 8; Push 9]) ≤ max_items)
    by (vm_compute; discriminate).
  split; [exact Hm|]. split; [exact Hmax|].
  exact (space_keeps_bound [Push 5; Push 6; Pop; Push 7; Push 8; Push 9] [5; 7; 8; 9] Hm Hmax).
Defined.

(** * Programs with several vectors *)

Section programs.
Context {T : Type}.
Implicit Types (st : store T) (a : contents (T:=T)) (o : nat) (c : call T).

Lemma steps_snoc st cs rs st1 c r st2 :
  steps st cs rs st1 → within c st1 → exec c st1 = Done r st2 →
  steps st (cs ++ [c]) (rs ++ [r]) st2.
Proof.
  induction 1 as [st|st c0 r0 st0 cs rs st1 Hin Hrun _ IH]; intros Hc Hr; cbn [app].
  - econstructor; [done|done|constructor].
  - econstructor; [done|done|]. by apply IH.
Qed.

Lemma reachable_step st c r st' :
  reachable st → within c st → exec c st = Done r st' → reachable st'.
Proof.
  intros (cs & rs & Hsteps) Hin Hrun. exists (cs ++ [c]), (rs ++ [r]).
  by eapply steps_snoc.
Qed.

Lemma inv_scope st a o :
  inv st a →
  (objs st !! o = None → a !! o = None) ∧
  (is_Some (objs st !! o) → ∃ v ptrs bs,
     objs st !! o = Some v ∧ shape v (hp st) ptrs bs ∧ settled v ∧
     a !! o = Some (cells_of v bs)).
Proof.
  intros (_ & _ & g & Hnone & Hsome & _). split; [apply Hnone|].
  intros [v Hv]. destruct (Hsome o v Hv) as (ptrs & bs & _ & ? & ? & ?).
  by exists v, ptrs, bs.
Qed.

Lemma on_failed {A} (m : Mv (T:=T) A) o st v :
  objs st !! o = Some v → m (v, hp st) = Failed (v, hp st) → on o m st = Failed st.
Proof.
  intros Ho Hm. unfold on. rewrite Ho, Hm. cbn [fst snd].
  rewrite insert_id by done. by destruct st.
Qed.

Lemma on_undeclared {A} (m : Mv (T:=T) A) o st :
  objs st !! o = None → on o m st = Undef.
Proof. intros Ho. unfold on. by rewrite Ho. Qed.

(** What a client sees of a vector is what the vector holds. *)
Lemma observe_size_inv st a o :
  inv st a →
  observe (Size o) st = (λ cs, Count (Z.of_nat (length cs))) <$> a !! o.
Proof.
  intros Hinv. destruct (a !! o) as [cs|] eqn:Ha; cbn [fmap option_fmap option_map].
  - by eapply observe_size.
  - destruct Hinv as (_ & _ & g & Hg).
    pose proof (inv_lookup_None _ _ _ _ Hg Ha) as Ho.
    unfold observe. cbn [exec]. unfold bind. by rewrite on_undeclared.
Qed.

Lemma observe_get_inv st a o i :
  inv st a → 0 ≤ i →
  observe (Get o i) st = a !! o ≫= λ cs, Cell <$> cs !! Z.to_nat i.
Proof.
  intros Hinv Hi. destruct (a !! o) as [cs|] eqn:Ha; cbn [mbind option_bind].
  - destruct (cs !! Z.to_nat i) as [x|] eqn:Hx; cbn [fmap option_fmap option_map].
    + by eapply observe_get.
    + destruct Hinv as (_ & _ & g & Hg).
      destruct (inv_lookup st a g o cs Hg Ha) as (v & ptrs & bs & Ho & _ & Hsh & _ & ->).
      pose proof (cells_length _ _ _ _ Hsh) as Hlen. apply lookup_ge_None in Hx.
      unfold observe. cbn [exec]. unfold bind.
      rewrite (on_failed _ _ _ v Ho); [done|].
      apply get_beyond; [by eapply shape_wf|by eapply shape_dir|lia].
  - destruct Hinv as (_ & _ & g & Hg).
    pose proof (inv_lookup_None _ _ _ _ Hg Ha) as Ho.
    unfold observe. cbn [exec]. unfold bind. by rewrite on_undeclared.
Qed.

Lemma call_safe st a c :
  inv st a → in_scope c st → within c st →
  (∃ r st' a', exec c st = Done r st' ∧ effect c a = Some (r, a') ∧ inv st' a') ∨
  exec c st = Failed st.
Proof.
  intros Hinv Hscope Hin.
  destruct (effect c a) as [[r a']|] eqn:Heff.
  { left. destruct (exec_refines c st a r a' Hinv Hin Heff) as (st' & Hrun & Hinv').
    by exists r, st', a'. }
  pose proof (λ o, proj1 (inv_scope st a o Hinv)) as Hnone.
  pose proof (λ o, proj2 (inv_scope st a o Hinv)) as Hsome.
  destruct c as [o|o that|o that|o|o x|o|o|o i|o i x];
    cbn [effect in_scope within] in *.
  - by rewrite (Hnone o Hscope) in Heff.
  - destruct Hscope as [Ho Hthat]. rewrite (Hnone o Ho) in Heff.
    destruct (Hsome that Hthat) as (? & ? & ? & _ & _ & _ & Ha). by rewrite Ha in Heff.
  - destruct Hscope as [Ho Hthat].
    destruct (Hsome o Ho) as (? & ? & ? & _ & _ & _ & Ha). rewrite Ha in Heff.
    destruct (Hsome that Hthat) as (? & ? & ? & _ & _ & _ & Ha'). by rewrite Ha' in Heff.
  - destruct (Hsome o Hscope) as (? & ? & ? & _ & _ & _ & Ha). by rewrite Ha in Heff.
  - destruct (Hsome o Hscope) as (? & ? & ? & _ & _ & _ & Ha). by rewrite Ha in Heff.
  - destruct (Hsome o Hscope) as (v & ptrs & bs & Ho & Hsh & _ & Ha). rewrite Ha in Heff.
    destruct (decide (cells_of v bs = [])) as [Hnil|]; [|done].
    right. cbn [exec]. apply bind_failed, (on_failed _ _ _ v Ho).
    apply pop_back_empty; [by eapply shape_wf|by eapply shape_dir|].
    pose proof (cells_length _ _ _ _ Hsh) as Hlen. rewrite Hnil in Hlen. cbn in Hlen. lia.
  - destruct (Hsome o Hscope) as (? & ? & ? & _ & _ & _ & Ha). by rewrite Ha in Heff.
  - destruct (Hsome o Hscope) as (v & ptrs & bs & Ho & Hsh & _ & Ha). rewrite Ha in Heff.
    rewrite decide_True in Heff by lia.
    destruct (cells_of v bs !! Z.to_nat i) eqn:Hx; [done|].
    right. cbn [exec]. apply bind_failed, (on_failed _ _ _ v Ho).
    pose proof (cells_length _ _ _ _ Hsh) as Hlen. apply lookup_ge_None in Hx.
    apply get_beyond; [by eapply shape_wf|by eapply shape_dir|lia].
  - destruct (Hsome o Hscope) as (v & ptrs & bs & Ho & Hsh & _ & Ha). rewrite Ha in Heff.
    destruct (decide (0 ≤ i < Z.of_nat (length (cells_of v bs)))) as [|Hout]; [done|].
    right. cbn [exec]. apply bind_failed, (on_failed _ _ _ v Ho).
    pose proof (cells_length _ _ _ _ Hsh) as Hlen.
    apply put_beyond; [by eapply shape_wf|by eapply shape_dir|lia].
Qed.
End programs.

(** X5.  Every public operation of a program with any number of
    vectors, called with names that are in scope, either returns, or
    stops at a failed assertion with the vectors and the heap as they
    were at the call.  None runs into undefined behaviour: no block is
    read, written or given back that the vector does not own, and no
    item is read outside of a buffer. *)
Theorem public_calls_safe {T} (st : store T) (c : call T) :
  reachable st → in_scope c st → within c st →
  (∃ r st', exec c st = Done r st' ∧ reachable st') ∨ exec c st = Failed st.
Proof.
  intros Hreach Hscope Hin. destruct (reachable_inv st Hreach) as (a & Hinv).
  destruct (call_safe st a c Hinv Hscope Hin) as [(r & st' & a' & Hrun & _)|Hfail];
    [left|by right].
  exists r, st'. split; [done|]. by eapply reachable_step.
Qed.

Lemma public_calls_safe_witness :
  reachable example_store ∧ in_scope (Assign 0%nat 1%nat) example_store ∧
  within (Assign 0%nat 1%nat) example_store ∧
  ((∃ r st', exec (Assign 0%nat 1%nat) example_store = Done r st' ∧ reachable st') ∨
   exec (Assign 0%nat 1%nat) example_store = Failed example_store).
Proof.
  assert (Hscope : in_scope (Assign 0%nat 1%nat) example_store).
  { split; [exists example_a; exact example_a_found|exists example_b; exact example_b_found]. }
  split; [exact example_reachable|]. split; [exact Hscope|]. split; [exact I|].
  exact (public_calls_safe example_store (Assign 0%nat 1%nat) example_reachable Hscope I).
Defined.

(** X6.  [v[i] = x], for [i < v.size()], returns.  After it [v[i]] is
    [x]; [v.size()] and every other [v[j]] are what they were, and so is
    what the program sees of its other vectors. *)
Theorem put_then_get {T} (st : store T) (o : nat) (i : Z) (x : T) (n : Z) :
  reachable st → observe (Size o) st = Some (Count n) → 0 ≤ i < n →
  ∃ st',
    exec (Put o i x) st = Done Nothing st' ∧
    observe (Size o) st' = Some (Count n) ∧
    observe (Get o i) st' = Some (Cell (Some x)) ∧
    (∀ j, 0 ≤ j → j ≠ i → observe (Get o j) st' = observe (Get o j) st) ∧
    (∀ o' j, o' ≠ o → 0 ≤ j →
       observe (Size o') st' = observe (Size o') st ∧
       observe (Get o' j) st' = observe (Get o' j) st).
Proof.
  intros Hreach Hsize Hi.
  destruct (reachable_inv st Hreach) as (a & Hinv).
  destruct (observed_size st a o n Hinv Hsize) as (cs & Ha & ->).
  assert (Hin : within (Put o i x) st).
  { destruct (proj2 (inv_scope st a o Hinv)) as (v & ptrs & bs & Ho & Hsh & _ & Ha').
    { destruct Hinv as (_ & _ & g & Hg).
      destruct (inv_lookup st a g o cs Hg Ha) as (v & _ & _ & Ho & _). by exists v. }
    pose proof (cells_length _ _ _ _ Hsh) as Hlen.
    pose proof (sz_bound v (shape_wf _ _ _ _ Hsh)).
    assert (cs = cells_of v bs) as -> by congruence. cbn [within]. lia. }
  destruct (exec_refines (Put o i x) st a Nothing (<[o := <[Z.to_nat i := Some x]> cs]> a)
              Hinv Hin) as (st' & Hrun & Hinv').
  { cbn [effect]. rewrite Ha. by rewrite decide_True by lia. }
  assert (Ha' : <[o := <[Z.to_nat i := Some x]> cs]> a !! o
                = Some (<[Z.to_nat i := Some x]> cs))
    by (unfold contents in *; apply lookup_insert_eq).
  assert (Hother : ∀ o', o' ≠ o →
            <[o := <[Z.to_nat i := Some x]> cs]> a !! o' = a !! o')
    by (intros o' Ho'; unfold contents in *; by apply lookup_insert_ne).
  exists st'. split; [done|].
  rewrite (observe_size_inv st' _ o Hinv'), Ha'. cbn. rewrite length_insert.
  split; [done|]. split; [|split].
  - rewrite (observe_get_inv st' _ _ _ Hinv'), Ha' by lia.
    cbn. rewrite list_lookup_insert_eq by lia. done.
  - intros j Hj Hne.
    rewrite (observe_get_inv st' _ _ _ Hinv'), (observe_get_inv st _ _ _ Hinv), Ha', Ha by lia.
    cbn. rewrite list_lookup_insert_ne by lia. done.
  - intros o' j Ho' Hj.
    rewrite (observe_size_inv st' _ _ Hinv'), (observe_size_inv st _ _ Hinv).
    rewrite (observe_get_inv st' _ _ _ Hinv'), (observe_get_inv st _ _ _ Hinv) by lia.
    by rewrite !Hother by done.
Qed.

Lemma put_then_get_witness :
  reachable example_store ∧ observe (Size 0%nat) example_store = Some (Count 3) ∧
  0 ≤ 1 < 3 ∧
  ∃ st',
    exec (Put 0%nat 1 42) example_store = Done Nothing st' ∧
    observe (Size 0%nat) st' = Some (Count 3) ∧
    observe (Get 0%nat 1) st' = Some (Cell (Some 42)) ∧
    (∀ j, 0 ≤ j → j ≠ 1 → observe (Get 0%nat j) st' = observe (Get 0%nat j) example_store) ∧
    (∀ o' j, o' ≠ 0%nat → 0 ≤ j →
       observe (Size o') st' = observe (Size o') example_store ∧
       observe (Get o' j) st' = observe (Get o' j) example_store).
Proof.
  assert (Hsize : observe (Size 0%nat) example_store = Some (Count 3))
    by (vm_compute; reflexivity).
  assert (Hi : 0 ≤ 1 < 3) by lia.
  split; [exact example_reachable|]. split; [exact Hsize|]. split; [exact Hi|].
  exact (put_then_get example_store 0%nat 1 42 3 example_reachable Hsize Hi).
Defined.

(** X7.  [v.push_back(x)] returns, with [v.size()] one more and [x] at
    the old [size()]; [v.pop_back()] right after it returns and leaves
    [v.size()] and every [v[j]] as they were before the two calls. *)
Theorem push_then_pop {T} (st : store T) (o : nat) (x : T) (n : Z) :
  reachable st → observe (Size o) st = Some (Count n) → n < max_items →
  ∃ st1 st2,
    exec (PushBack o x) st = Done Nothing st1 ∧
    observe (Size o) st1 = Some (Count (n + 1)) ∧
    observe (Get o n) st1 = Some (Cell (Some x)) ∧
    (∀ j, 0 ≤ j < n → observe (Get o j) st1 = observe (Get o j) st) ∧
    exec (PopBack o) st1 = Done Nothing st2 ∧
    observe (Size o) st2 = Some (Count n) ∧
    (∀ j, 0 ≤ j → observe (Get o j) st2 = observe (Get o j) st).
Proof.
  intros Hreach Hsize Hn.
  destruct (reachable_inv st Hreach) as (a & Hinv).
  destruct (observed_size st a o n Hinv Hsize) as (cs & Ha & ->).
  assert (Hin : within (PushBack o x) st).
  { destruct Hinv as (_ & _ & g & Hg).
    destruct (inv_lookup st a g o cs Hg Ha) as (v & ptrs & bs & Ho & _ & Hsh & _ & ->).
    pose proof (cells_length _ _ _ _ Hsh) as Hlen. cbn [within]. rewrite Ho. lia. }
  destruct (exec_refines (PushBack o x) st a Nothing (<[o := cs ++ [Some x]]> a) Hinv Hin)
    as (st1 & Hrun1 & Hinv1).
  { cbn [effect]. by rewrite Ha. }
  assert (Ha1 : <[o := cs ++ [Some x]]> a !! o = Some (cs ++ [Some x]))
    by (unfold contents in *; apply lookup_insert_eq).
  destruct (exec_refines (PopBack o) st1 _ Nothing
              (<[o := removelast (cs ++ [Some x])]> (<[o := cs ++ [Some x]]> a)) Hinv1 I)
    as (st2 & Hrun2 & Hinv2).
  { cbn [effect]. rewrite Ha1. rewrite decide_False; [done|]. by destruct cs. }
  rewrite removelast_last in Hinv2.
  assert (Ha2 : <[o := cs]> (<[o := cs ++ [Some x]]> a) !! o = Some cs)
    by (unfold contents in *; apply lookup_insert_eq).
  exists st1, st2. split; [done|].
  rewrite (observe_size_inv st1 _ _ Hinv1), Ha1. cbn. rewrite length_app. cbn [length].
  split; [do 2 f_equal; lia|]. split; [|split; [|split; [done|split]]].
  - rewrite (observe_get_inv st1 _ _ _ Hinv1), Ha1 by lia. cbn.
    rewrite Nat2Z.id. by rewrite lookup_app_r, Nat.sub_diag by lia.
  - intros j Hj.
    rewrite (observe_get_inv st1 _ _ _ Hinv1), (observe_get_inv st _ _ _ Hinv), Ha1, Ha by lia.
    cbn. by rewrite lookup_app_l by lia.
  - by rewrite (observe_size_inv st2 _ _ Hinv2), Ha2.
  - intros j Hj.
    by rewrite (observe_get_inv st2 _ _ _ Hinv2), (observe_get_inv st _ _ _ Hinv), Ha2, Ha by lia.
Qed.

Lemma push_then_pop_witness :
  reachable example_store ∧ observe (Size 1%nat) example_store = Some (Count 2) ∧
  2 < max_items ∧
  ∃ st1 st2,
    exec (PushBack 1%nat 11) example_store = Done Nothing st1 ∧
    observe (Size 1%nat) st1 = Some (Count (2 + 1)) ∧
    observe (Get 1%nat 2) st1 = Some (Cell (Some 11)) ∧
    (∀ j, 0 ≤ j < 2 → observe (Get 1%nat j) st1 = observe (Get 1%nat j) example_store) ∧
    exec (PopBack 1%nat) st1 = Done Nothing st2 ∧
    observe (Size 1%nat) st2 = Some (Count 2) ∧
    (∀ j, 0 ≤ j → observe (Get 1%nat j) st2 = observe (Get 1%nat j) example_store).
Proof.
  assert (Hsize : observe (Size 1%nat) example_store = Some (Count 2))
    by (vm_compute; reflexivity).
  assert (Hn : 2 < max_items) by (vm_compute; reflexivity).
  split; [exact example_reachable|]. split; [exact Hsize|]. split; [exact Hn|].
  exact (push_then_pop example_store 1%nat 11 2 example_reachable Hsize Hn).
Defined.

(** ** The end of a vector, and a copy of it *)

Section lifetimes.
Context {T : Type}.
Implicit Types (st : store T) (v : vector) (h : heap T) (o : nat).

Lemma destroy_run o os h v ptrs bs :
  os !! o = Some v → shape v h ptrs bs →
  ∃ h', exec (Destroy o) (Store os h) = Done Nothing (Store (delete o os) h') ∧
        next h' = next h ∧ dirs h' = delete (dir v) (dirs h) ∧
        (∀ l, l ∉ ptrs → bufs h' !! l = bufs h !! l) ∧
        (∀ l, l ∈ ptrs → bufs h' !! l = None).
Proof.
  intros Ho Hsh.
  destruct (destuct_run v h ptrs bs Hsh) as (h' & Hrun & Hnext & Hdirs & Hkeep & Hgone).
  exists h'. split; [|done].
  cbn [exec]. unfold destroy. rewrite bind_bind.
  rewrite (bind_done _ _ _ _ _ (on_run _ _ _ _ _ _ _ _ Ho Hrun)).
  unfold bind, forget, ret. cbn [objs hp]. by rewrite delete_insert_eq.
Qed.

Lemma copy_run b a os h va tptrs tbs :
  os !! a = Some va → os !! b = None → shape va h tptrs tbs →
  ∃ vb h' ptrs bs,
    exec (CopyVector b a) (Store os h) = Done Nothing (Store (<[b := vb]> os) h') ∧
    same_members vb va ∧ shape vb h' ptrs bs ∧ cells_of vb bs = cells_of va tbs ∧
    shape va h' tptrs tbs ∧ dir vb ≠ dir va ∧ (∀ p, p ∈ ptrs → p ∉ tptrs).
Proof.
  intros Ha Hb Hsh.
  destruct (vector_copy_run va h tptrs tbs Hsh)
    as (vb & h' & ptrs & bs & Hrun & Hsame & Hshb & Hcells & Hsha & Hdir & Hdisj & _).
  exists vb, h', ptrs, bs. split; [|done].
  cbn [exec]. unfold declare_copy. rewrite !bind_bind.
  assert (Hrd : on a (rd id) (Store os h) = Done va (Store os h)).
  { unfold on, rd. cbn [objs hp]. rewrite Ha. cbn [fst snd id].
    by rewrite insert_id. }
  rewrite (bind_done _ _ _ _ _ Hrd). rewrite bind_bind.
  assert (Hal : alloc (vector_copy va) (Store os h) = Done vb (Store os h')).
  { unfold alloc, zoom. cbn [objs hp]. by rewrite Hrun. }
  rewrite (bind_done _ _ _ _ _ Hal).
  unfold bind, declare, ret. cbn [objs hp]. by rewrite Hb.
Qed.
End lifetimes.

(** X8.  The destructor of a vector returns.  It gives back the
    directory and every buffer that the first
    [dir_size + (extra_buffer ? 1 : 0)] slots of the directory point to,
    the extra buffer included, and touches no other block; the other
    vectors of the program hold what they held. *)
Theorem destroy_releases {T} (st : store T) (o : nat) (v : vector) :
  reachable st → objs st !! o = Some v →
  ∃ ptrs h',
    exec (Destroy o) st = Done Nothing (Store (delete o (objs st)) h') ∧
    reachable (Store (delete o (objs st)) h') ∧
    Z.of_nat (length ptrs) = dir_size v + b2z (extra_buffer v) ∧
    (∀ i p, ptrs !! i = Some p →
       load_slot (dir v) (Z.of_nat i) (hp st) = Done (Some p) (hp st) ∧
       is_Some (bufs (hp st) !! p)) ∧
    is_Some (dirs (hp st) !! dir v) ∧
    dirs h' = delete (dir v) (dirs (hp st)) ∧
    (∀ l, bufs h' !! l = if decide (l ∈ ptrs) then None else bufs (hp st) !! l) ∧
    next h' = next (hp st) ∧
    ∀ o' j, o' ≠ o → 0 ≤ j →
      observe (Size o') (Store (delete o (objs st)) h') = observe (Size o') st ∧
      observe (Get o' j) (Store (delete o (objs st)) h') = observe (Get o' j) st.
Proof.
  intros Hreach Ho.
  destruct (reachable_inv st Hreach) as (a & Hinv).
  destruct (reachable_shape st o v Hreach Ho) as (ptrs & bs & Hsh & _).
  destruct st as [os h]. cbn [objs hp] in *.
  destruct (destroy_run o os h v ptrs bs Ho Hsh)
    as (h' & Hrun & Hnext & Hdirs & Hkeep & Hgone).
  exists ptrs, h'. split; [done|].
  assert (Hreach' : reachable (Store (delete o os) h'))
    by (eapply (reachable_step _ (Destroy o)); [exact Hreach|exact I|exact Hrun]).
  split; [done|].
  split; [apply Hsh|]. split.
  { intros i p Hp. split.
    - eapply owns_load; [apply Hsh|done].
    - eapply shape_buf_in; [done|]. by eapply list_elem_of_lookup_2. }
  split; [by eapply shape_dir_in|]. split; [done|]. split.
  { intros l. destruct (decide (l ∈ ptrs)); [by apply Hgone|by apply Hkeep]. }
  split; [done|].
  intros o' j Ho' Hj.
  destruct (exec_sound (Destroy o) _ a _ _ Hinv I Hrun) as (a' & Heff & Hinv').
  assert (Hsame : a' !! o' = a !! o').
  { eapply effect_other; [exact Heff|]. cbn [target]. congruence. }
  rewrite (observe_size_inv _ _ _ Hinv'), (observe_size_inv _ _ _ Hinv).
  rewrite (observe_get_inv _ _ _ _ Hinv'), (observe_get_inv _ _ _ _ Hinv) by lia.
  by rewrite Hsame.
Qed.

Lemma destroy_releases_witness :
  reachable example_store ∧ objs example_store !! 1%nat = Some example_b ∧
  ∃ ptrs h',
    exec (Destroy 1%nat) example_store
      = Done Nothing (Store (delete 1%nat (objs example_store)) h') ∧
    reachable (Store (delete 1%nat (objs example_store)) h') ∧
    Z.of_nat (length ptrs) = dir_size example_b + b2z (extra_buffer example_b) ∧
    (∀ i p, ptrs !! i = Some p →
       load_slot (dir example_b) (Z.of_nat i) (hp example_store)
         = Done (Some p) (hp example_store) ∧
       is_Some (bufs (hp example_store) !! p)) ∧
    is_Some (dirs (hp example_store) !! dir example_b) ∧
    dirs h' = delete (dir example_b) (dirs (hp example_store)) ∧
    (∀ l, bufs h' !! l
          = if decide (l ∈ ptrs) then None else bufs (hp example_store) !! l) ∧
    next h' = next (hp example_store) ∧
    ∀ o' j, o' ≠ 1%nat → 0 ≤ j →
      observe (Size o') (Store (delete 1%nat (objs example_store)) h')
        = observe (Size o') example_store ∧
      observe (Get o' j) (Store (delete 1%nat (objs example_store)) h')
        = observe (Get o' j) example_store.
Proof.
  split; [exact example_reachable|]. split; [exact example_b_found|].
  exact (destroy_releases example_store 1%nat example_b example_reachable example_b_found).
Defined.

(** X9.  [vector<T> b(a);] returns.  The members of [b] are those of
    [a] but for the directory: the same [dir_size], [last_buffer_size],
    [log_buffer_capacity], [big_buffer] and [extra_buffer], so the same
    capacities, and an extra buffer if [a] has one.  The directory of [b]
    is another block than that of [a], and [a] has its members and its
    blocks as before. *)
Theorem copy_keeps_members {T} (st : store T) (a b : nat) (va : vector) :
  reachable st → objs st !! a = Some va → objs st !! b = None →
  ∃ vb h' D B,
    exec (CopyVector b a) st = Done Nothing (Store (<[b := vb]> (objs st)) h') ∧
    same_members vb va ∧ dir vb ≠ dir va ∧
    dir_capacity (va, hp st) = Done D (va, hp st) ∧
    dir_capacity (vb, h') = Done D (vb, h') ∧
    buffer_capacity (va, hp st) = Done B (va, hp st) ∧
    buffer_capacity (vb, h') = Done B (vb, h') ∧
    (∀ i, 0 ≤ i < dir_size va + b2z (extra_buffer va) →
       ∃ p q, load_slot (dir va) i h' = Done (Some p) h' ∧
              load_slot (dir vb) i h' = Done (Some q) h' ∧ p ≠ q ∧
              bufs h' !! p = bufs (hp st) !! p ∧ is_Some (bufs h' !! q)).
Proof.
  intros Hreach Ha Hb.
  destruct (reachable_shape st a va Hreach Ha) as (tptrs & tbs & Hsh & _).
  destruct st as [os h]. cbn [objs hp] in *.
  destruct (copy_run b a os h va tptrs tbs Ha Hb Hsh)
    as (vb & h' & ptrs & bs & Hrun & Hsame & Hshb & Hcells & Hsha & Hdir & Hdisj).
  pose proof (shape_wf _ _ _ _ Hsh) as Hwfa. pose proof (shape_wf _ _ _ _ Hshb) as Hwfb.
  pose proof (wf_log _ Hwfa). pose proof (wf_log _ Hwfb).
  destruct Hsame as (Hds & Hlbs & HL & Hbig & He).
  assert (HD : Dcap vb = Dcap va) by (unfold Dcap; by rewrite HL, Hbig).
  assert (HB : Bcap vb = Bcap va) by (unfold Bcap; by rewrite HL).
  exists vb, h', (Dcap va), (Bcap va). split; [done|].
  split; [done|]. split; [done|].
  split; [apply dir_capacity_run; lia|].
  split; [rewrite <- HD; apply dir_capacity_run; lia|].
  split; [apply buffer_capacity_run; lia|].
  split; [rewrite <- HB; apply buffer_capacity_run; lia|].
  intros i Hi.
  assert (Hla : Z.of_nat (length tptrs) = held va) by apply Hsha.
  assert (Hlb : Z.of_nat (length ptrs) = held vb) by apply Hshb.
  assert (Hheld : held vb = held va) by (unfold held; by rewrite Hds, He).
  unfold held in Hla, Hlb, Hheld.
  destruct (lookup_lt_is_Some_2 tptrs (Z.to_nat i)) as [p Hp]; [lia|].
  destruct (lookup_lt_is_Some_2 ptrs (Z.to_nat i)) as [q Hq]; [lia|].
  exists p, q.
  pose proof (owns_load h' (dir va) _ _ tptrs tbs _ p (proj1 (proj2 Hsha)) Hp) as Hl1.
  pose proof (owns_load h' (dir vb) _ _ ptrs bs _ q (proj1 (proj2 Hshb)) Hq) as Hl2.
  rewrite Z2Nat.id in Hl1, Hl2 by lia.
  split; [done|]. split; [done|]. split.
  { intros ->. eapply Hdisj; by eapply list_elem_of_lookup_2. }
  split.
  - destruct Hsh as (_ & (_ & _ & _ & _ & Hbl) & _).
    destruct Hsha as (_ & (_ & _ & _ & _ & Hbl') & _).
    destruct (blocks_lookup _ _ _ _ _ _ Hbl Hp) as (b1 & Hb1 & Hbuf1 & _).
    destruct (blocks_lookup _ _ _ _ _ _ Hbl' Hp) as (b2 & Hb2 & Hbuf2 & _).
    congruence.
  - eapply shape_buf_in; [exact Hshb|]. by eapply list_elem_of_lookup_2.
Qed.

Lemma copy_keeps_members_witness :
  reachable example_store ∧ objs example_store !! 0%nat = Some example_a ∧
  objs example_store !! 2%nat = None ∧
  ∃ vb h' D B,
    exec (CopyVector 2%nat 0%nat) example_store
      = Done Nothing (Store (<[2%nat := vb]> (objs example_store)) h') ∧
    same_members vb example_a ∧ dir vb ≠ dir example_a ∧
    dir_capacity (example_a, hp example_store) = Done D (example_a, hp example_store) ∧
    dir_capacity (vb, h') = Done D (vb, h') ∧
    buffer_capacity (example_a, hp example_store) = Done B (example_a, hp example_store) ∧
    buffer_capacity (vb, h') = Done B (vb, h') ∧
    (∀ i, 0 ≤ i < dir_size example_a + b2z (extra_buffer example_a) →
       ∃ p q, load_slot (dir example_a) i h' = Done (Some p) h' ∧
              load_slot (dir vb) i h' = Done (Some q) h' ∧ p ≠ q ∧
              bufs h' !! p = bufs (hp example_store) !! p ∧ is_Some (bufs h' !! q)).
Proof.
  assert (Hnew : objs example_store !! 2%nat = None) by (vm_compute; reflexivity).
  split; [exact example_reachable|]. split; [exact example_a_found|]. split; [exact Hnew|].
  exact (copy_keeps_members example_store 0%nat 2%nat example_a
           example_reachable example_a_found Hnew).
Defined.

(** ** At the end of a buffer *)

Section boundary.
Context {T : Type}.
Implicit Types (v : vector) (h : heap T) (ptrs : list loc).
Implicit Types (bs : list (list (option T))).

(** [pop_back] with an empty last buffer keeps that buffer. *)
Lemma pop_back_keeps_buffer v h ptrs bs :
  shape v h ptrs bs → settled v → last_buffer_size v = 0 → 1 < dir_size v →
  pop_back (v, h) = Done tt (shrunk v, h) ∧ shape (shrunk v) h ptrs bs ∧
  settled (shrunk v) ∧
  shrunk v = Vector (dir v) (dir_size v - 1) (Bcap v - 1) (log_buffer_capacity v)
               (big_buffer v) true.
Proof.
  intros Hsh Hset Hlbs Hds.
  pose proof (shape_wf _ _ _ _ Hsh) as Hwf. caps v.
  assert (He : extra_buffer v = false) by auto.
  assert (Hsz : 0 < sz v) by (unfold sz; nia).
  assert (Hsv : shrunk v = Vector (dir v) (dir_size v - 1) (Bcap v - 1) (log_buffer_capacity v)
                             (big_buffer v) true).
  { unfold shrunk. by rewrite Hlbs. }
  assert (Hstrict : Dcap v < dir_size v * 4).
  { unfold held in *. rewrite He in *. cbn [b2z] in *.
    destruct (decide (Dcap v = (dir_size v + 0) * 4)) as [Heq|]; [|lia].
    destruct (settled_small v Hwf Hset) as (_ & _ & _ & _ & ? & _); [|lia].
    unfold held. rewrite He. cbn [b2z]. lia. }
  destruct (pop_back_run v h ptrs bs Hsh Hset Hsz)
    as (h1 & v' & h' & ptrs' & bs' & Hshrink & [_ Hkeep] & Hdown & _ & Hpop & _).
  rewrite (Hkeep ltac:(lia)) in *.
  assert (Htest : (held (shrunk v) * 4 <=? Dcap (shrunk v)) = false).
  { apply Z.leb_gt. rewrite Hsv. unfold held, Dcap. fields. unfold Dcap in Hstrict. lia. }
  rewrite Htest in Hdown. injection Hdown as <- <-.
  split; [done|]. split; [|split; [|done]].
  - rewrite Hsv. destruct Hsh as (_ & Hown & Hlen).
    split; [|split; [exact Hown|]].
    + constructor; unfold Dcap, Bcap, held in *; fields; rewrite ?He in *; cbn [b2z] in *;
        try lia; try done.
    + unfold held in *. fields. rewrite He in Hlen. cbn [b2z] in *. lia.
  - intros Heq. exfalso. rewrite Hsv in Heq. unfold held, Dcap in Heq. fields.
    unfold Dcap in Hstrict. lia.
Qed.

(** [push_back] into a last buffer with one place left, when there is
    an extra buffer: the item is stored, and nothing else changes in the
    heap. *)
Lemma push_back_into_extra v h ptrs bs x p b :
  shape v h ptrs bs → extra_buffer v = true → last_buffer_size v = Bcap v - 1 →
  ptrs !! Z.to_nat (dir_size v - 1) = Some p → bs !! Z.to_nat (dir_size v - 1) = Some b →
  push_back x (v, h) =
    Done tt (Vector (dir v) (dir_size v + 1) 0 (log_buffer_capacity v) (big_buffer v) false,
             Heap (<[p := <[Z.to_nat (Bcap v - 1) := Some x]> b]> (bufs h)) (dirs h) (next h)).
Proof.
  intros Hsh He Hlbs Hp Hb.
  pose proof (shape_wf _ _ _ _ Hsh) as Hwf.
  pose proof (shape_dir _ _ _ _ Hsh) as Hdir.
  destruct Hsh as (_ & Hown & Hlen). caps v.
  pose proof (sz_bounds v Hwf) as [Hsz Hcapmax].
  assert (Hlt : dir_size v < Dcap v) by auto.
  unfold held in *. rewrite He in *. cbn [b2z] in *.
  apply wp_eq. unfold push_back.
  apply wp_bind, wp_size; [lia..|].
  apply wp_bind, wp_assert_valid; [done..|].
  wp_steps. unwrap.
  pose proof (owns_load h (dir v) _ _ ptrs bs _ p Hown Hp) as Hload.
  rewrite Z2Nat.id in Hload by lia.
  eapply wp_mem_done; [exact Hload|]. cbv beta.
  destruct Hown as (Hd0 & Hdn & Hslots & Hsound & Hblocks).
  destruct (blocks_lookup _ _ _ _ _ _ Hblocks Hp) as (b' & Hb' & Hbuf & HbB).
  assert (b' = b) as -> by congruence.
  wp_step. eapply wp_mem_done; [apply (store_cell_run _ _ b); [exact Hbuf|lia]|].
  cbv beta. wp_steps. unwrap.
  destruct (Z.eqb_spec (last_buffer_size v + 1) (Bcap v)) as [_|]; [|lia].
  wp_steps. rewrite He. cbn [negb]. wp_steps. unwrap.
  set (v' := Vector (dir v) (dir_size v + 1) 0 (log_buffer_capacity v) (big_buffer v) false).
  match goal with |- wp _ (?w, _) _ => replace w with v' by (unfold v'; by destruct v) end.
  assert (Hwf' : wf v').
  { constructor; unfold v', Dcap, Bcap, held in *; fields; try lia; try done. }
  apply wp_bind, wp_assert_valid; [done|done|].
  assert (Hsz' : sz v' = sz v + 1) by (unfold sz, v', Bcap in *; fields; lia).
  pose proof (sz_bounds v' Hwf') as [Hsz2 _].
  apply wp_bind, wp_size; [unfold v'; fields; lia..|].
  wp_steps. split; [done|]. by rewrite Hlbs.
Qed.
End boundary.

(** X10.  A vector whose last buffer is empty does not give that buffer
    back when [pop_back] takes the last item of the buffer before it:
    the heap is as it was, and the buffer has become the extra buffer.
    A [push_back] that follows makes no new buffer: it stores the item,
    which is all that changes in the heap, and the members of the vector
    are again what they were before the two calls. *)
Theorem boundary_no_allocation {T} (st : store T) (o : nat) (v : vector) (x : T) :
  reachable st → objs st !! o = Some v →
  last_buffer_size v = 0 → 1 < dir_size v →
  ∃ B p b,
    buffer_capacity (v, hp st) = Done B (v, hp st) ∧
    load_slot (dir v) (dir_size v - 2) (hp st) = Done (Some p) (hp st) ∧
    bufs (hp st) !! p = Some b ∧
    exec (PopBack o) st = Done Nothing (Store (<[o := shrunk v]> (objs st)) (hp st)) ∧
    extra_buffer (shrunk v) = true ∧
    exec (PushBack o x) (Store (<[o := shrunk v]> (objs st)) (hp st)) =
      Done Nothing
        (Store (objs st)
           (Heap (<[p := <[Z.to_nat (B - 1) := Some x]> b]> (bufs (hp st)))
              (dirs (hp st)) (next (hp st)))).
Proof.
  intros Hreach Ho Hlbs Hds.
  destruct (reachable_shape st o v Hreach Ho) as (ptrs & bs & Hsh & Hset).
  pose proof (shape_wf _ _ _ _ Hsh) as Hwf. caps v.
  assert (He : extra_buffer v = false) by auto.
  destruct (pop_back_keeps_buffer v (hp st) ptrs bs Hsh Hset Hlbs Hds)
    as (Hpop & Hsh1 & Hset1 & Hsv).
  pose proof (shape_length _ _ _ _ Hsh) as Hbslen.
  assert (Hlen : Z.of_nat (length ptrs) = held v) by apply Hsh.
  unfold held in Hlen, Hbslen. rewrite He in Hlen, Hbslen. cbn [b2z] in *.
  destruct (lookup_lt_is_Some_2 ptrs (Z.to_nat (dir_size v - 2))) as [p Hp]; [lia|].
  destruct (lookup_lt_is_Some_2 bs (Z.to_nat (dir_size v - 2))) as [b Hb]; [lia|].
  exists (Bcap v), p, b.
  split; [apply buffer_capacity_run; lia|].
  pose proof (owns_load (hp st) (dir v) _ _ ptrs bs _ p (proj1 (proj2 Hsh)) Hp) as Hload.
  rewrite Z2Nat.id in Hload by lia. split; [done|].
  split.
  { destruct Hsh as (_ & (_ & _ & _ & _ & Hblocks) & _).
    destruct (blocks_lookup _ _ _ _ _ _ Hblocks Hp) as (b' & ? & ? & _). congruence. }
  destruct st as [os h]. cbn [objs hp] in *.
  split.
  { cbn [exec]. by rewrite (bind_done _ _ _ _ _ (on_run _ _ _ _ _ _ _ _ Ho Hpop)). }
  split; [by rewrite Hsv|].
  assert (Hpush := push_back_into_extra (shrunk v) h ptrs bs x p b Hsh1).
  rewrite Hsv in Hpush. fields. unfold Bcap in Hpush at 1 2. fields. fold (Bcap v) in Hpush.
  specialize (Hpush eq_refl eq_refl).
  replace (dir_size v - 1 - 1) with (dir_size v - 2) in Hpush by lia.
  specialize (Hpush Hp Hb).
  replace (dir_size v - 1 + 1) with (dir_size v) in Hpush by lia.
  assert (Hv : Vector (dir v) (dir_size v) 0 (log_buffer_capacity v) (big_buffer v) false = v).
  { rewrite <- Hlbs, <- He. by destruct v. }
  rewrite Hv in Hpush. rewrite <- Hsv in Hpush.
  cbn [exec].
  rewrite (bind_done _ _ _ _ _
             (on_run _ o (<[o := shrunk v]> os) _ _ _ _ _ (lookup_insert_eq _ _ _) Hpush)).
  assert (HBs : Bcap (shrunk v) = Bcap v) by (by rewrite Hsv).
  unfold ret. rewrite insert_insert_eq, HBs. by rewrite insert_id.
Qed.

Lemma boundary_no_allocation_witness :
  reachable full_store ∧ objs full_store !! 0%nat = Some full_v ∧
  last_buffer_size full_v = 0 ∧ 1 < dir_size full_v ∧
  ∃ B p b,
    buffer_capacity (full_v, hp full_store) = Done B (full_v, hp full_store) ∧
    load_slot (dir full_v) (dir_size full_v - 2) (hp full_store)
      = Done (Some p) (hp full_store) ∧
    bufs (hp full_store) !! p = Some b ∧
    exec (PopBack 0%nat) full_store
      = Done Nothing (Store (<[0%nat := shrunk full_v]> (objs full_store)) (hp full_store)) ∧
    extra_buffer (shrunk full_v) = true ∧
    exec (PushBack 0%nat 9) (Store (<[0%nat := shrunk full_v]> (objs full_store))
                                   (hp full_store)) =
      Done Nothing
        (Store (objs full_store)
           (Heap (<[p := <[Z.to_nat (B - 1) := Some 9]> b]> (bufs (hp full_store)))
              (dirs (hp full_store)) (next (hp full_store)))).
Proof.
  assert (Hreach : reachable full_store) by (apply reachable_after; vm_compute; tauto).
  assert (Hfound : objs full_store !! 0%nat = Some full_v) by (vm_compute; reflexivity).
  assert (Hds : 1 < dir_size full_v) by (vm_compute; reflexivity).
  split; [exact Hreach|]. split; [exact Hfound|]. split; [reflexivity|]. split; [exact Hds|].
  exact (boundary_no_allocation full_store 0%nat full_v 9 Hreach Hfound eq_refl Hds).
Defined.

(** * The four rebuilding steps *)

Section rebuilding.
Context {T : Type}.
Implicit Types (v : vector) (h : heap T) (ptrs : list loc).
Implicit Types (bs : list (list (option T))).

(** A directory moves to a new block of [cap'] slots, [n] slots being
    copied. *)
Lemma move_dir_run h d slots n cap' :
  dirs h !! d = Some slots → d ≠ 0%nat → (d < next h)%nat →
  0 ≤ n → n ≤ Z.of_nat (length slots) → n ≤ cap' →
  (let* d' := new_dir cap' in copy_slots d n d' ;;; delete_dir d ;;; ret d') h =
  Done (next h)
    (Heap (bufs h)
       (<[next h := take (Z.to_nat n) slots ++ replicate (Z.to_nat (cap' - n)) None]>
          (delete d (dirs h)))
       (S (next h))).
Proof.
  intros Hd Hd0 Hdn Hn Hslots Hcap.
  assert (d ≠ next h) by lia.
  erewrite bind_done; [|reflexivity].
  erewrite bind_done; cycle 1.
  { eapply (copy_slots_run _ _ _ slots (replicate (Z.to_nat cap') None)); cbn [dirs].
    - by rewrite lookup_insert_ne by done.
    - by rewrite lookup_insert_eq.
    - done.
    - lia.
    - lia.
    - rewrite length_replicate. lia. }
  cbn [bufs dirs next]. rewrite insert_insert_eq.
  erewrite bind_done; cycle 1.
  { eapply delete_dir_run; [done|]. cbn [dirs]. by rewrite lookup_insert_ne. }
  cbn [bufs dirs next]. unfold ret. do 2 f_equal.
  rewrite delete_insert_ne by done. f_equal. f_equal.
  rewrite drop_replicate. f_equal. lia.
Qed.

Lemma owns_slots_length h d cap B ptrs bs :
  owns h d cap B ptrs bs → Z.of_nat (length ptrs) ≤ cap.
Proof.
  intros (_ & _ & (slots & _ & Hcap & Hsl) & _).
  destruct ptrs as [|p0 ptrs0] using rev_ind; [cbn; lia|].
  specialize (Hsl (length ptrs0) p0).
  rewrite lookup_app_r, Nat.sub_diag in Hsl by lia. specialize (Hsl eq_refl).
  apply lookup_lt_Some in Hsl. rewrite length_app. cbn [length Nat.add] in *. lia.
Qed.
End rebuilding.

(** X11.  [upsize_dir()] stops at its assertion if [big_buffer] is
    false.  If it is true, the directory moves to a new block of twice
    the slots: the old slots come first, the new ones are not
    initialised; the old block is given back, [big_buffer] becomes false
    and no buffer is touched. *)
Theorem upsize_dir_spec {T} (v : vector) (h : heap T) (slots : list (option loc)) (D : Z) :
  1 ≤ log_buffer_capacity v ≤ 29 →
  dir_capacity (v, h) = Done D (v, h) →
  dirs h !! dir v = Some slots → Z.of_nat (length slots) = D →
  dir v ≠ 0%nat → (dir v < next h)%nat →
  (big_buffer v = false → upsize_dir (v, h) = Failed (v, h)) ∧
  (big_buffer v = true →
     let v' := Vector (next h) (dir_size v) (last_buffer_size v) (log_buffer_capacity v)
                 false (extra_buffer v) in
     let h' := Heap (bufs h)
                 (<[next h := slots ++ replicate (Z.to_nat D) None]> (delete (dir v) (dirs h)))
                 (S (next h)) in
     upsize_dir (v, h) = Done tt (v', h') ∧
     dir_capacity (v', h') = Done (2 * D) (v', h')).
Proof.
  intros HL HD Hslots Hlen Hd0 Hdn.
  rewrite dir_capacity_run in HD by lia. injection HD as <-.
  pose proof (caps_facts v HL) as Hcaps.
  split; intros Hbig.
  - unfold upsize_dir. rewrite bind_rd, Hbig. reflexivity.
  - cbv zeta. split.
    + apply wp_eq. unfold upsize_dir. wp_steps. unwrap.
      pose proof (move_dir_run h (dir v) slots (Dcap v) (2 * Dcap v)
                    Hslots Hd0 Hdn ltac:(lia) ltac:(lia) ltac:(lia)) as Hmove.
      apply bind_inv in Hmove as (d & h1 & Hnew & Hmove).
      assert (d = next h) as -> by (by injection Hnew as <- _).
      eapply wp_mem_done; [exact Hnew|]. cbv beta. wp_steps.
      apply bind_inv in Hmove as ([] & h2 & Hcopy & Hmove).
      eapply wp_mem_done; [exact Hcopy|]. cbv beta.
      apply bind_inv in Hmove as ([] & h3 & Hdel & Hmove).
      wp_step. eapply wp_mem_done; [exact Hdel|]. cbv beta. wp_steps.
      injection Hmove as ->. split; [done|]. f_equal.
      rewrite take_ge by lia.
      by replace (2 * Dcap v - Dcap v) with (Dcap v) by lia.
    + rewrite dir_capacity_run by (fields; lia). f_equal.
      unfold Dcap. fields. rewrite Hbig. cbn [b2z]. rewrite Z.sub_0_r.
      apply pow2_pred. lia.
Qed.

Lemma upsize_dir_spec_witness :
  1 ≤ log_buffer_capacity brim_v ≤ 29 ∧
  dir_capacity (brim_v, brim_h) = Done 1 (brim_v, brim_h) ∧
  dirs brim_h !! dir brim_v = Some [Some 2%nat] ∧
  Z.of_nat (length [Some 2%nat]) = 1 ∧
  dir brim_v ≠ 0%nat ∧ (dir brim_v < next brim_h)%nat ∧
  (big_buffer brim_v = false → upsize_dir (brim_v, brim_h) = Failed (brim_v, brim_h)) ∧
  (big_buffer brim_v = true →
     let v' := Vector (next brim_h) (dir_size brim_v) (last_buffer_size brim_v)
                 (log_buffer_capacity brim_v) false (extra_buffer brim_v) in
     let h' := Heap (bufs brim_h)
                 (<[next brim_h := [Some 2%nat] ++ replicate (Z.to_nat 1) None]>
                    (delete (dir brim_v) (dirs brim_h)))
                 (S (next brim_h)) in
     upsize_dir (brim_v, brim_h) = Done tt (v', h') ∧
     dir_capacity (v', h') = Done (2 * 1) (v', h')).
Proof.
  assert (HL : 1 ≤ log_buffer_capacity brim_v ≤ 29) by (cbn; lia).
  assert (HD : dir_capacity (brim_v, brim_h) = Done 1 (brim_v, brim_h))
    by (vm_compute; reflexivity).
  assert (Hs : dirs brim_h !! dir brim_v = Some [Some 2%nat]) by (vm_compute; reflexivity).
  assert (Hd0 : dir brim_v ≠ 0%nat) by discriminate.
  assert (Hdn : (dir brim_v < next brim_h)%nat) by (cbn; lia).
  split; [exact HL|]. split; [exact HD|]. split; [exact Hs|]. split; [reflexivity|].
  split; [exact Hd0|]. split; [exact Hdn|].
  exact (upsize_dir_spec brim_v brim_h [Some 2%nat] 1 HL HD Hs eq_refl Hd0 Hdn).
Defined.

(** X12.  [downsize_dir()] asserts nothing.  With no more than half of
    the slots in use, the directory moves to a new block of half the
    slots, which takes the first [dir_size] slots of the old one; the old
    block is given back, [big_buffer] becomes true and no buffer is
    touched.  If [big_buffer] was false, [dir_capacity()] is halved. *)
Theorem downsize_dir_spec {T} (v : vector) (h : heap T) (slots : list (option loc)) (D : Z) :
  1 ≤ log_buffer_capacity v ≤ 29 →
  dir_capacity (v, h) = Done D (v, h) →
  dirs h !! dir v = Some slots → Z.of_nat (length slots) = D →
  dir v ≠ 0%nat → (dir v < next h)%nat →
  0 ≤ dir_size v ≤ D / 2 →
  let v' := Vector (next h) (dir_size v) (last_buffer_size v) (log_buffer_capacity v)
              true (extra_buffer v) in
  let h' := Heap (bufs h)
              (<[next h := take (Z.to_nat (dir_size v)) slots
                           ++ replicate (Z.to_nat (D / 2 - dir_size v)) None]>
                 (delete (dir v) (dirs h)))
              (S (next h)) in
  downsize_dir (v, h) = Done tt (v', h') ∧
  (big_buffer v = false → dir_capacity (v', h') = Done (D / 2) (v', h')).
Proof.
  intros HL HD Hslots Hlen Hd0 Hdn Hds.
  rewrite dir_capacity_run in HD by lia. injection HD as <-.
  pose proof (caps_facts v HL) as Hcaps.
  assert (Hhalf : Dcap v / 2 ≤ Dcap v) by (apply Z.div_le_upper_bound; lia).
  cbv zeta. split.
  - apply wp_eq. unfold downsize_dir. wp_steps.
    pose proof (move_dir_run h (dir v) slots (dir_size v) (Dcap v / 2)
                  Hslots Hd0 Hdn ltac:(lia) ltac:(lia) ltac:(lia)) as Hmove.
    apply bind_inv in Hmove as (d & h1 & Hnew & Hmove).
    assert (d = next h) as -> by (by injection Hnew as <- _).
    eapply wp_mem_done; [exact Hnew|]. cbv beta. wp_steps.
    apply bind_inv in Hmove as ([] & h2 & Hcopy & Hmove).
    eapply wp_mem_done; [exact Hcopy|]. cbv beta.
    apply bind_inv in Hmove as ([] & h3 & Hdel & Hmove).
    wp_step. eapply wp_mem_done; [exact Hdel|]. cbv beta. wp_steps.
    by injection Hmove as ->.
  - intros Hbig. rewrite dir_capacity_run by (fields; lia). f_equal.
    unfold Dcap. fields. rewrite Hbig. cbn [b2z]. rewrite Z.sub_0_r.
    symmetry. apply pow2_div2. lia.
Qed.

Lemma downsize_dir_spec_witness :
  1 ≤ log_buffer_capacity slack_v ≤ 29 ∧
  dir_capacity (slack_v, slack_h) = Done 2 (slack_v, slack_h) ∧
  dirs slack_h !! dir slack_v = Some [Some 2%nat; None] ∧
  Z.of_nat (length [Some 2%nat; None (A:=loc)]) = 2 ∧
  dir slack_v ≠ 0%nat ∧ (dir slack_v < next slack_h)%nat ∧
  0 ≤ dir_size slack_v ≤ 2 / 2 ∧
  let v' := Vector (next slack_h) (dir_size slack_v) (last_buffer_size slack_v)
              (log_buffer_capacity slack_v) true (extra_buffer slack_v) in
  let h' := Heap (bufs slack_h)
              (<[next slack_h := take (Z.to_nat (dir_size slack_v)) [Some 2%nat; None]
                                 ++ replicate (Z.to_nat (2 / 2 - dir_size slack_v)) None]>
                 (delete (dir slack_v) (dirs slack_h)))
              (S (next slack_h)) in
  downsize_dir (slack_v, slack_h) = Done tt (v', h') ∧
  (big_buffer slack_v = false → dir_capacity (v', h') = Done (2 / 2) (v', h')).
Proof.
  assert (HL : 1 ≤ log_buffer_capacity slack_v ≤ 29) by (cbn; lia).
  assert (HD : dir_capacity (slack_v, slack_h) = Done 2 (slack_v, slack_h))
    by (vm_compute; reflexivity).
  assert (Hs : dirs slack_h !! dir slack_v = Some [Some 2%nat; None])
    by (vm_compute; reflexivity).
  assert (Hd0 : dir slack_v ≠ 0%nat) by discriminate.
  assert (Hdn : (dir slack_v < next slack_h)%nat) by (cbn; lia).
  assert (Hds : 0 ≤ dir_size slack_v ≤ 2 / 2) by (vm_compute; split; discriminate).
  split; [exact HL|]. split; [exact HD|]. split; [exact Hs|].
  split; [reflexivity|]. split; [exact Hd0|]. split; [exact Hdn|]. split; [exact Hds|].
  exact (downsize_dir_spec slack_v slack_h [Some 2%nat; None] 2
           HL HD Hs eq_refl Hd0 Hdn Hds).
Defined.

Section rebuilding_buffers.
Context {T : Type}.
Implicit Types (v : vector) (h : heap T) (ptrs : list loc).
Implicit Types (bs : list (list (option T))).

(** What [upsize_buffers] does does not depend on [dir_size]: its third
    assertion assigns to it. *)
Lemma upsize_buffers_assigns v h :
  1 ≤ log_buffer_capacity v ≤ 31 → big_buffer v = false → extra_buffer v = false →
  upsize_buffers (v, h) = upsize_buffers (set_dir_size (Dcap v) v, h).
Proof.
  intros HL Hbig He. unfold upsize_buffers.
  rewrite !bind_rd. fields. rewrite Hbig. cbn [negb].
  rewrite !bind_assert by done.
  rewrite !bind_rd. fields. rewrite He. cbn [negb].
  rewrite !bind_assert by done.
  rewrite (bind_done _ _ _ _ _ (dir_capacity_run v h HL)).
  rewrite (bind_done _ _ _ _ _ (dir_capacity_run (set_dir_size (Dcap v) v) h HL)).
  by rewrite !bind_wr.
Qed.
End rebuilding_buffers.

Lemma brim2_owns :
  owns brim2_h (dir brim2_v) 2 2 [2%nat; 3%nat] [[Some 5; Some 6]; [Some 7; Some 8]].
Proof.
  split; [done|]. split; [vm_compute; lia|]. split; [|split].
  - eexists. split; [vm_compute; reflexivity|]. split; [reflexivity|].
    intros [|[|i]] p Hp; cbn in Hp; [by injection Hp as <-..|done].
  - split; [|repeat constructor; vm_compute; lia].
    repeat constructor; set_solver.
  - repeat constructor.
Defined.

(** X13.  [upsize_buffers()] stops at an assertion if [big_buffer] or
    [extra_buffer] is true.  Its third assertion,
    [assert (dir_size = dir_capacity())], is an assignment: it cannot
    fail, and if the last buffer is not full, the next assertion fails
    with [dir_size] changed to [dir_capacity()].  With every slot of the
    directory in use and the last buffer full, the function returns: the
    buffers have been put together in pairs, in order, in new buffers of
    twice the capacity, so that the items lie in the same order;
    [dir_size] is half of [dir_capacity()], [log_buffer_capacity] is one
    more, [last_buffer_size] is the new [buffer_capacity()] and
    [big_buffer] is true. *)
Theorem upsize_buffers_spec {T} (v : vector) (h : heap T)
    (ptrs : list loc) (bs : list (list (option T))) (D B : Z) :
  1 ≤ log_buffer_capacity v ≤ 28 →
  dir_capacity (v, h) = Done D (v, h) → buffer_capacity (v, h) = Done B (v, h) →
  owns h (dir v) D B ptrs bs → Z.of_nat (length ptrs) = D →
  (big_buffer v = true → upsize_buffers (v, h) = Failed (v, h)) ∧
  (big_buffer v = false → extra_buffer v = true → upsize_buffers (v, h) = Failed (v, h)) ∧
  (big_buffer v = false → extra_buffer v = false → last_buffer_size v ≠ B →
     upsize_buffers (v, h) = Failed (set_dir_size D v, h)) ∧
  (big_buffer v = false → extra_buffer v = false → last_buffer_size v = B →
     ∃ h' ptrs',
       let v' := Vector (dir v) (D / 2) (2 * B) (log_buffer_capacity v + 1) true false in
       upsize_buffers (v, h) = Done tt (v', h') ∧
       owns h' (dir v) D (2 * B) ptrs' (merged bs) ∧
       Z.of_nat (length ptrs') = D / 2 ∧
       concat (merged bs) = concat bs ∧
       dir_capacity (v', h') = Done D (v', h') ∧
       buffer_capacity (v', h') = Done (2 * B) (v', h')).
Proof.
  intros HL HD HB Hown Hlen.
  rewrite dir_capacity_run in HD by lia. injection HD as <-.
  rewrite buffer_capacity_run in HB by lia. injection HB as <-.
  pose proof (caps_facts v ltac:(lia)) as Hcaps.
  split; [|split; [|split]].
  - intros Hbig. unfold upsize_buffers. rewrite bind_rd, Hbig. reflexivity.
  - intros Hbig He. unfold upsize_buffers.
    rewrite bind_rd, Hbig. cbn [negb]. rewrite bind_assert by done.
    rewrite bind_rd, He. reflexivity.
  - intros Hbig He Hlbs. unfold upsize_buffers.
    rewrite bind_rd, Hbig. cbn [negb]. rewrite bind_assert by done.
    rewrite bind_rd, He. cbn [negb]. rewrite bind_assert by done.
    rewrite (bind_done _ _ _ _ _ (dir_capacity_run v h ltac:(lia))).
    rewrite bind_wr. rewrite Hbig in Hcaps.
    rewrite bind_assert by (bool_side; lia).
    rewrite (bind_done _ _ _ _ _
               (dir_capacity_run (set_dir_size (Dcap v) v) h ltac:(fields; lia))).
    change (Dcap (set_dir_size (Dcap v) v)) with (Dcap v).
    assert (Heven : Z.land (Dcap v) 1 = 0).
    { replace 1 with (Z.ones 1) by done. rewrite Z.land_ones by lia.
      change (2 ^ 1) with 2. unfold Dcap. rewrite Hbig. cbn [b2z]. rewrite Z.sub_0_r.
      rewrite (pow2_pred (log_buffer_capacity v)) by lia.
      rewrite Z.mul_comm. apply Z.mod_mul. lia. }
    rewrite bind_assert by (bool_side; done).
    rewrite bind_rd. fields.
    rewrite (bind_done _ _ _ _ _
               (buffer_capacity_run (set_dir_size (Dcap v) v) h ltac:(fields; lia))).
    change (Bcap (set_dir_size (Dcap v) v)) with (Bcap v).
    apply bind_failed. unfold assert.
    by destruct (Z.eqb_spec (last_buffer_size v) (Bcap v)).
  - intros Hbig He Hlbs. rewrite Hbig in Hcaps.
    rewrite upsize_buffers_assigns by (done || lia).
    assert (Hwp : wp upsize_buffers (set_dir_size (Dcap v) v, h) (λ _ s, ∃ h' ptrs',
              s = (Vector (dir v) (Dcap v / 2) (2 * Bcap v) (log_buffer_capacity v + 1)
                     true false, h') ∧
              owns h' (dir v) (Dcap v) (2 * Bcap v) ptrs' (merged bs) ∧
              Z.of_nat (length ptrs') = Dcap v / 2)).
    { eapply (wp_upsize_buffers _ h ptrs bs); fields; try done.
      intros h' ptrs' Hown' Hlen' _. by exists h', ptrs'. }
    apply wp_elim in Hwp as ([] & s' & Hrun & h' & ptrs' & -> & Hown' & Hlen').
    exists h', ptrs'. cbv zeta. split; [done|]. split; [done|]. split; [done|].
    assert (HD2 : Dcap v = 2 * (Dcap v / 2)).
    { destruct Hcaps as (_ & _ & <-). unfold Bcap. apply pow2_even. lia. }
    pose proof (blocks_length _ _ _ _ (proj2 (proj2 (proj2 (proj2 Hown))))) as Hbl.
    split; [apply (concat_merged bs (Z.to_nat (Dcap v / 2))); lia|].
    split.
    + rewrite dir_capacity_run by (fields; lia). f_equal.
      unfold Dcap. fields. rewrite Hbig. cbn [b2z]. f_equal. lia.
    + rewrite buffer_capacity_run by (fields; lia). f_equal.
      unfold Bcap. fields. apply pow2_succ. lia.
Qed.

Lemma upsize_buffers_spec_witness :
  1 ≤ log_buffer_capacity brim2_v ≤ 28 ∧
  dir_capacity (brim2_v, brim2_h) = Done 2 (brim2_v, brim2_h) ∧
  buffer_capacity (brim2_v, brim2_h) = Done 2 (brim2_v, brim2_h) ∧
  owns brim2_h (dir brim2_v) 2 2 [2%nat; 3%nat] [[Some 5; Some 6]; [Some 7; Some 8]] ∧
  Z.of_nat (length [2%nat; 3%nat]) = 2 ∧
  (big_buffer brim2_v = true → upsize_buffers (brim2_v, brim2_h) = Failed (brim2_v, brim2_h)) ∧
  (big_buffer brim2_v = false → extra_buffer brim2_v = true →
     upsize_buffers (brim2_v, brim2_h) = Failed (brim2_v, brim2_h)) ∧
  (big_buffer brim2_v = false → extra_buffer brim2_v = false → last_buffer_size brim2_v ≠ 2 →
     upsize_buffers (brim2_v, brim2_h) = Failed (set_dir_size 2 brim2_v, brim2_h)) ∧
  (big_buffer brim2_v = false → extra_buffer brim2_v = false → last_buffer_size brim2_v = 2 →
     ∃ h' ptrs',
       let v' := Vector (dir brim2_v) (2 / 2) (2 * 2) (log_buffer_capacity brim2_v + 1)
                   true false in
       upsize_buffers (brim2_v, brim2_h) = Done tt (v', h') ∧
       owns h' (dir brim2_v) 2 (2 * 2) ptrs' (merged [[Some 5; Some 6]; [Some 7; Some 8]]) ∧
       Z.of_nat (length ptrs') = 2 / 2 ∧
       concat (merged [[Some 5; Some 6]; [Some 7; Some 8]])
         = concat [[Some 5; Some 6]; [Some 7; Some 8]] ∧
       dir_capacity (v', h') = Done 2 (v', h') ∧
       buffer_capacity (v', h') = Done (2 * 2) (v', h')).
Proof.
  assert (HL : 1 ≤ log_buffer_capacity brim2_v ≤ 28) by (cbn; lia).
  assert (HD : dir_capacity (brim2_v, brim2_h) = Done 2 (brim2_v, brim2_h))
    by (vm_compute; reflexivity).
  assert (HB : buffer_capacity (brim2_v, brim2_h) = Done 2 (brim2_v, brim2_h))
    by (vm_compute; reflexivity).
  split; [exact HL|]. split; [exact HD|]. split; [exact HB|].
  split; [exact brim2_owns|]. split; [reflexivity|].
  exact (upsize_buffers_spec brim2_v brim2_h [2%nat; 3%nat]
           [[Some 5; Some 6]; [Some 7; Some 8]] 2 2 HL HD HB brim2_owns eq_refl).
Defined.

(** X14.  [downsize()], called as [pop_back] calls it (the buffers held
    are a quarter of [dir_capacity()], there is no extra buffer, and the
    last buffer is empty if [big_buffer] is true), returns.  [size()]
    and every item are what they were, invariants 1 to 5 hold again,
    [big_buffer] has changed, and [dir_capacity() * buffer_capacity()]
    is half of what it was. *)
Theorem downsize_halves {T} (v : vector) (h : heap T)
    (ptrs : list loc) (bs : list (list (option T))) (D B : Z) :
  shape v h ptrs bs →
  dir_capacity (v, h) = Done D (v, h) → buffer_capacity (v, h) = Done B (v, h) →
  (dir_size v + b2z (extra_buffer v)) * 4 = D → extra_buffer v = false →
  (big_buffer v = true → last_buffer_size v = 0) →
  ∃ n v' h' ptrs' bs' D' B',
    size (v, h) = Done n (v, h) ∧
    downsize (v, h) = Done tt (v', h') ∧
    shape v' h' ptrs' bs' ∧ assert_valid (v', h') = Done tt (v', h') ∧
    size (v', h') = Done n (v', h') ∧
    (∀ i, 0 ≤ i < n →
       ∃ c, get i (v, h) = Done c (v, h) ∧ get i (v', h') = Done c (v', h')) ∧
    big_buffer v' = negb (big_buffer v) ∧
    dir_capacity (v', h') = Done D' (v', h') ∧
    buffer_capacity (v', h') = Done B' (v', h') ∧
    2 * (D' * B') = D * B.
Proof.
  intros Hsh HD HB Heq He Hbl.
  pose proof (shape_wf _ _ _ _ Hsh) as Hwf. caps v.
  rewrite dir_capacity_run in HD by lia. injection HD as <-.
  rewrite buffer_capacity_run in HB by lia. injection HB as <-.
  fold (held v) in Heq.
  assert (Hwp : wp downsize (v, h) (λ _ s, ∃ v' h' ptrs' bs', s = (v', h') ∧
            shape v' h' ptrs' bs' ∧ sz v' = sz v ∧ cells_of v' bs' = cells_of v bs)).
  { eapply wp_downsize; [done..|]. intros v' h' ptrs' bs' ? _ ? ? _.
    by exists v', h', ptrs', bs'. }
  apply wp_elim in Hwp as ([] & s' & Hrun & v' & h' & ptrs' & bs' & -> & Hsh' & Hsz' & Hcells').
  pose proof (shape_wf _ _ _ _ Hsh') as Hwf'. pose proof (wf_log _ Hwf') as HL'.
  exists (sz v), v', h', ptrs', bs', (Dcap v'), (Bcap v').
  split; [by apply size_run|]. split; [done|]. split; [done|].
  split; [apply assert_valid_run; [done|by eapply shape_dir]|].
  split; [rewrite <- Hsz'; by apply size_run|]. split.
  { intros i Hi.
    destruct (get_run v h ptrs bs i Hsh Hi) as (c & Hc & Hget).
    destruct (get_run v' h' ptrs' bs' i Hsh' ltac:(lia)) as (c' & Hc' & Hget').
    exists c. split; [done|]. rewrite Hcells' in Hc'. congruence. }
  assert (Hmem : big_buffer v' = negb (big_buffer v) ∧
                 log_buffer_capacity v' = log_buffer_capacity v - b2z (big_buffer v)).
  { unfold held in Heq. rewrite He in Heq. cbn [b2z] in Heq.
    revert Hrun. unfold downsize.
    rewrite (bind_done _ _ _ _ _ (size_run v h Hwf)), bind_rd.
    intros Hrun. apply bind_inv in Hrun as ([] & s1 & Hstep & Hrun).
    apply bind_inv in Hrun as (n1 & s2 & Hsize & Hrun).
    apply size_state in Hsize as ->.
    assert (s1 = (v', h')) as ->.
    { revert Hrun. unfold assert. destruct (n1 =? sz v); [|done]. by intros [= ->]. }
    destruct (big_buffer v) eqn:Hbig.
    - assert (wp downsize_buffers (v, h) (λ _ s,
                big_buffer s.1 = false ∧
                log_buffer_capacity s.1 = log_buffer_capacity v - 1)) as Hwp.
      { eapply wp_downsize_buffers; [done|by apply Hbl|done|done|lia|].
        intros h1 ptrs1 bs1 v1 _ _ _. done. }
      apply wp_elim in Hwp as ([] & s2 & Hstep2 & ? & ?).
      rewrite Hstep in Hstep2. injection Hstep2 as <-. cbn [b2z negb fst] in *. done.
    - assert (wp downsize_dir (v, h) (λ _ s,
                big_buffer s.1 = true ∧
                log_buffer_capacity s.1 = log_buffer_capacity v)) as Hwp.
      { eapply wp_downsize_dir; [done|done|done|lia|]. intros h1 _ _. done. }
      apply wp_elim in Hwp as ([] & s2 & Hstep2 & ? & ?).
      rewrite Hstep in Hstep2. injection Hstep2 as <-. cbn [b2z negb fst] in *.
      split; [done|lia]. }
  destruct Hmem as [Hbig' HLv'].
  split; [done|]. split; [apply dir_capacity_run; lia|].
  split; [apply buffer_capacity_run; lia|].
  unfold Dcap, Bcap. rewrite Hbig', HLv'.
  destruct (big_buffer v); cbn [b2z negb]; rewrite ?Z.sub_0_r.
  - rewrite (pow2_pred (log_buffer_capacity v)) by lia. lia.
  - rewrite (pow2_pred (log_buffer_capacity v)) by lia. lia.
Qed.

Lemma downsize_halves_witness :
  shape quarter_v quarter_h [2%nat; 3%nat] [quarter_items; replicate 16 None] ∧
  dir_capacity (quarter_v, quarter_h) = Done 8 (quarter_v, quarter_h) ∧
  buffer_capacity (quarter_v, quarter_h) = Done 16 (quarter_v, quarter_h) ∧
  (dir_size quarter_v + b2z (extra_buffer quarter_v)) * 4 = 8 ∧
  extra_buffer quarter_v = false ∧
  (big_buffer quarter_v = true → last_buffer_size quarter_v = 0) ∧
  ∃ n v' h' ptrs' bs' D' B',
    size (quarter_v, quarter_h) = Done n (quarter_v, quarter_h) ∧
    downsize (quarter_v, quarter_h) = Done tt (v', h') ∧
    shape v' h' ptrs' bs' ∧ assert_valid (v', h') = Done tt (v', h') ∧
    size (v', h') = Done n (v', h') ∧
    (∀ i, 0 ≤ i < n →
       ∃ c, get i (quarter_v, quarter_h) = Done c (quarter_v, quarter_h) ∧
            get i (v', h') = Done c (v', h')) ∧
    big_buffer v' = negb (big_buffer quarter_v) ∧
    dir_capacity (v', h') = Done D' (v', h') ∧
    buffer_capacity (v', h') = Done B' (v', h') ∧
    2 * (D' * B') = 8 * 16.
Proof.
  assert (HD : dir_capacity (quarter_v, quarter_h) = Done 8 (quarter_v, quarter_h))
    by (vm_compute; reflexivity).
  assert (HB : buffer_capacity (quarter_v, quarter_h) = Done 16 (quarter_v, quarter_h))
    by (vm_compute; reflexivity).
  assert (Hq : (dir_size quarter_v + b2z (extra_buffer quarter_v)) * 4 = 8)
    by (vm_compute; reflexivity).
  assert (Hl : big_buffer quarter_v = true → last_buffer_size quarter_v = 0)
    by (intros _; reflexivity).
  split; [exact quarter_shape|]. split; [exact HD|]. split; [exact HB|].
  split; [exact Hq|]. split; [reflexivity|]. split; [exact Hl|].
  exact (downsize_halves quarter_v quarter_h [2%nat; 3%nat]
           [quarter_items; replicate 16 None] 8 16 quarter_shape HD HB Hq eq_refl Hl).
Defined.

(** X15.  [upsize()], called as [push_back] calls it (every slot of the
    directory in use, no extra buffer, and the last buffer just filled),
    returns.  [size()] and the order of the items are what they were,
    there is a free slot in the directory, [big_buffer] has changed, and
    [dir_capacity() * buffer_capacity()] is twice what it was. *)
Theorem upsize_doubles {T} (v : vector) (h : heap T)
    (ptrs : list loc) (bs : list (list (option T))) (D B : Z) :
  1 ≤ log_buffer_capacity v ≤ 28 →
  dir_capacity (v, h) = Done D (v, h) → buffer_capacity (v, h) = Done B (v, h) →
  owns h (dir v) D B ptrs bs → Z.of_nat (length ptrs) = D →
  extra_buffer v = false → dir_size v = D → last_buffer_size v = B →
  ∃ n v' h' ptrs' bs' D' B',
    size (v, h) = Done n (v, h) ∧
    upsize (v, h) = Done tt (v', h') ∧
    dir_capacity (v', h') = Done D' (v', h') ∧
    buffer_capacity (v', h') = Done B' (v', h') ∧
    owns h' (dir v') D' B' ptrs' bs' ∧ Z.of_nat (length ptrs') = dir_size v' ∧
    size (v', h') = Done n (v', h') ∧
    concat bs' = concat bs ∧
    dir_size v' < D' ∧ last_buffer_size v' = B' ∧ extra_buffer v' = false ∧
    big_buffer v' = negb (big_buffer v) ∧
    D' * B' = 2 * (D * B).
Proof.
  intros HL HD HB Hown Hlen He Hds Hlbs.
  rewrite dir_capacity_run in HD by lia. injection HD as <-.
  rewrite buffer_capacity_run in HB by lia. injection HB as <-.
  pose proof (caps_facts v ltac:(lia)) as Hcaps.
  assert (Hsize : size (v, h) = Done (sz v) (v, h)).
  { apply wp_eq, wp_size; [lia..|done]. }
  assert (Hwp : wp upsize (v, h) (λ _ s, ∃ v' h' ptrs' bs', s = (v', h') ∧
            1 ≤ log_buffer_capacity v' ≤ 29 ∧
            owns h' (dir v') (Dcap v') (Bcap v') ptrs' bs' ∧
            Z.of_nat (length ptrs') = dir_size v' ∧ 1 ≤ dir_size v' < Dcap v' ∧
            last_buffer_size v' = Bcap v' ∧ extra_buffer v' = false ∧
            dir_size v' * Bcap v' = dir_size v * Bcap v ∧ concat bs' = concat bs)).
  { eapply (wp_upsize v h ptrs bs); [lia|lia|done|done|done|done|lia|].
    intros v' h' ptrs' bs' ? ? ? ? _ ? ? ? ? _. by exists v', h', ptrs', bs'. }
  apply wp_elim in Hwp as ([] & s' & Hrun & v' & h' & ptrs' & bs' & -> &
                           HL' & Hown' & Hlen' & Hds' & Hlbs' & He' & Hprod & Hcat).
  pose proof (caps_facts v' HL') as Hcaps'.
  assert (Hsz' : sz v' = sz v) by (unfold sz; lia).
  assert (Hmem : big_buffer v' = negb (big_buffer v) ∧
                 log_buffer_capacity v' = log_buffer_capacity v + b2z (negb (big_buffer v))).
  { revert Hrun. unfold upsize. rewrite (bind_done _ _ _ _ _ Hsize), bind_rd.
    intros Hrun. apply bind_inv in Hrun as ([] & s1 & Hstep & Hrun).
    apply bind_inv in Hrun as (n1 & s2 & Hsize1 & Hrun).
    apply size_state in Hsize1 as ->.
    assert (s1 = (v', h')) as ->.
    { revert Hrun. unfold assert. destruct (n1 =? sz v); [|done]. by intros [= ->]. }
    destruct (big_buffer v) eqn:Hbig.
    - assert (wp upsize_dir (v, h) (λ _ s,
                big_buffer s.1 = false ∧
                log_buffer_capacity s.1 = log_buffer_capacity v)) as Hwp.
      { eapply (wp_upsize_dir v h ptrs bs); [lia|done|done|lia|]. intros h1 _ _. done. }
      apply wp_elim in Hwp as ([] & s2 & Hstep2 & ? & ?).
      rewrite Hstep in Hstep2. injection Hstep2 as <-. cbn [b2z negb fst] in *.
      split; [done|lia].
    - assert (wp upsize_buffers (v, h) (λ _ s,
                big_buffer s.1 = true ∧
                log_buffer_capacity s.1 = log_buffer_capacity v + 1)) as Hwp.
      { eapply (wp_upsize_buffers v h ptrs bs); [lia|done|done|done|done|done|lia|].
        intros h1 ptrs1 _ _ _. done. }
      apply wp_elim in Hwp as ([] & s2 & Hstep2 & ? & ?).
      rewrite Hstep in Hstep2. injection Hstep2 as <-. cbn [b2z negb fst] in *. done. }
  destruct Hmem as [Hbig' HLv'].
  exists (sz v), v', h', ptrs', bs', (Dcap v'), (Bcap v').
  split; [done|]. split; [done|].
  split; [apply dir_capacity_run; lia|]. split; [apply buffer_capacity_run; lia|].
  split; [done|]. split; [done|].
  split; [rewrite <- Hsz'; apply wp_eq, wp_size; [lia..|done]|].
  split; [done|]. split; [lia|]. split; [done|]. split; [done|]. split; [done|].
  unfold Dcap, Bcap. rewrite Hbig', HLv'.
  destruct (big_buffer v); cbn [b2z negb]; rewrite ?Z.sub_0_r, ?Z.add_0_r.
  - rewrite (pow2_pred (log_buffer_capacity v)) by lia. lia.
  - rewrite (pow2_succ (log_buffer_capacity v)) by lia.
    replace (log_buffer_capacity v + 1 - 1) with (log_buffer_capacity v) by lia. lia.
Qed.

Lemma upsize_doubles_witness :
  1 ≤ log_buffer_capacity brim2_v ≤ 28 ∧
  dir_capacity (brim2_v, brim2_h) = Done 2 (brim2_v, brim2_h) ∧
  buffer_capacity (brim2_v, brim2_h) = Done 2 (brim2_v, brim2_h) ∧
  owns brim2_h (dir brim2_v) 2 2 [2%nat; 3%nat] [[Some 5; Some 6]; [Some 7; Some 8]] ∧
  Z.of_nat (length [2%nat; 3%nat]) = 2 ∧
  extra_buffer brim2_v = false ∧ dir_size brim2_v = 2 ∧ last_buffer_size brim2_v = 2 ∧
  ∃ n v' h' ptrs' bs' D' B',
    size (brim2_v, brim2_h) = Done n (brim2_v, brim2_h) ∧
    upsize (brim2_v, brim2_h) = Done tt (v', h') ∧
    dir_capacity (v', h') = Done D' (v', h') ∧
    buffer_capacity (v', h') = Done B' (v', h') ∧
    owns h' (dir v') D' B' ptrs' bs' ∧ Z.of_nat (length ptrs') = dir_size v' ∧
    size (v', h') = Done n (v', h') ∧
    concat bs' = concat [[Some 5; Some 6]; [Some 7; Some 8]] ∧
    dir_size v' < D' ∧ last_buffer_size v' = B' ∧ extra_buffer v' = false ∧
    big_buffer v' = negb (big_buffer brim2_v) ∧
    D' * B' = 2 * (2 * 2).
Proof.
  assert (HL : 1 ≤ log_buffer_capacity brim2_v ≤ 28) by (cbn; lia).
  assert (HD : dir_capacity (brim2_v, brim2_h) = Done 2 (brim2_v, brim2_h))
    by (vm_compute; reflexivity).
  assert (HB : buffer_capacity (brim2_v, brim2_h) = Done 2 (brim2_v, brim2_h))
    by (vm_compute; reflexivity).
  split; [exact HL|]. split; [exact HD|]. split; [exact HB|].
  split; [exact brim2_owns|]. split; [reflexivity|]. split; [reflexivity|].
  split; [reflexivity|]. split; [reflexivity|].
  exact (upsize_doubles brim2_v brim2_h [2%nat; 3%nat]
           [[Some 5; Some 6]; [Some 7; Some 8]] 2 2 HL HD HB brim2_owns
           eq_refl eq_refl eq_refl eq_refl).
Defined.

(** ** When the array grows *)

Section growth.
Context {T : Type}.
Implicit Types (v : vector) (h : heap T) (ptrs : list loc).
Implicit Types (bs : list (list (option T))).

(** [upsize()] with its result, and what it does to [big_buffer] and
    [log_buffer_capacity]. *)
Lemma upsize_run v h ptrs bs :
  1 ≤ log_buffer_capacity v ≤ 29 →
  (big_buffer v = false → log_buffer_capacity v ≤ 28) →
  extra_buffer v = false →
  dir_size v = Dcap v → last_buffer_size v = Bcap v →
  owns h (dir v) (Dcap v) (Bcap v) ptrs bs → Z.of_nat (length ptrs) = dir_size v →
  ∃ v' h' ptrs' bs',
    upsize (v, h) = Done tt (v', h') ∧
    1 ≤ log_buffer_capacity v' ≤ 29 ∧
    owns h' (dir v') (Dcap v') (Bcap v') ptrs' bs' ∧
    Z.of_nat (length ptrs') = dir_size v' ∧
    1 ≤ dir_size v' < Dcap v' ∧ Dcap v' < (dir_size v' + 1) * 4 ∧
    last_buffer_size v' = Bcap v' ∧ extra_buffer v' = false ∧
    dir_size v' * Bcap v' = dir_size v * Bcap v ∧
    concat bs' = concat bs ∧ (next h ≤ next h')%nat ∧
    big_buffer v' = negb (big_buffer v) ∧
    log_buffer_capacity v' = log_buffer_capacity v + b2z (negb (big_buffer v)).
Proof.
  intros HL HL28 He Hds Hlbs Hown Hlen.
  pose proof (caps_facts v HL) as Hcaps.
  assert (Hsize : size (v, h) = Done (sz v) (v, h)).
  { apply wp_eq, wp_size; [lia..|done]. }
  assert (Hwp : wp upsize (v, h) (λ _ s, ∃ v' h' ptrs' bs', s = (v', h') ∧
            1 ≤ log_buffer_capacity v' ≤ 29 ∧
            owns h' (dir v') (Dcap v') (Bcap v') ptrs' bs' ∧
            Z.of_nat (length ptrs') = dir_size v' ∧ 1 ≤ dir_size v' < Dcap v' ∧
            Dcap v' < (dir_size v' + 1) * 4 ∧
            last_buffer_size v' = Bcap v' ∧ extra_buffer v' = false ∧
            dir_size v' * Bcap v' = dir_size v * Bcap v ∧ concat bs' = concat bs ∧
            (next h ≤ next h')%nat)).
  { eapply (wp_upsize v h ptrs bs); [done..|].
    intros v' h' ptrs' bs' ? ? ? ? ? ? ? ? ? ?. by exists v', h', ptrs', bs'. }
  apply wp_elim in Hwp as ([] & s' & Hrun & v' & h' & ptrs' & bs' & -> &
      HL' & Hown' & Hlen' & Hds' & Hsp' & Hlbs' & He' & Hprod & Hcat & Hnext).
  exists v', h', ptrs', bs'. do 11 (split; [done|]).
  revert Hrun. unfold upsize. rewrite (bind_done _ _ _ _ _ Hsize), bind_rd.
  intros Hrun. apply bind_inv in Hrun as ([] & s1 & Hstep & Hrun).
  apply bind_inv in Hrun as (n1 & s2 & Hsize1 & Hrun).
  apply size_state in Hsize1 as ->.
  assert (s1 = (v', h')) as ->.
  { revert Hrun. unfold assert. destruct (n1 =? sz v); [|done]. by intros [= ->]. }
  destruct (big_buffer v) eqn:Hbig.
  - assert (wp upsize_dir (v, h) (λ _ s,
              big_buffer s.1 = false ∧
              log_buffer_capacity s.1 = log_buffer_capacity v)) as Hwp.
    { eapply (wp_upsize_dir v h ptrs bs); [lia|done|done|lia|]. intros h1 _ _. done. }
    apply wp_elim in Hwp as ([] & s2 & Hstep2 & ? & ?).
    rewrite Hstep in Hstep2. injection Hstep2 as <-. cbn [b2z negb fst] in *.
    split; [done|lia].
  - assert (wp upsize_buffers (v, h) (λ _ s,
              big_buffer s.1 = true ∧
              log_buffer_capacity s.1 = log_buffer_capacity v + 1)) as Hwp.
    { eapply (wp_upsize_buffers v h ptrs bs); [lia|done|done|done|done|done|lia|].
      intros h1 ptrs1 _ _ _. done. }
    apply wp_elim in Hwp as ([] & s2 & Hstep2 & ? & ?).
    rewrite Hstep in Hstep2. injection Hstep2 as <-. cbn [b2z negb fst] in *. done.
Qed.

(** [push_back] rebuilds the array when, and only when, the new item
    takes the last place of the last buffer that the directory has room
    for.  Otherwise the buffers stay where they are. *)
Lemma push_back_growth v h ptrs bs x :
  shape v h ptrs bs → settled v → sz v < max_items →
  ∃ v' h' ptrs' bs',
    push_back x (v, h) = Done tt (v', h') ∧ shape v' h' ptrs' bs' ∧
    sz v' = sz v + 1 ∧
    (sz v + 1 = Dcap v * Bcap v →
       big_buffer v' = negb (big_buffer v) ∧
       log_buffer_capacity v' = log_buffer_capacity v + b2z (negb (big_buffer v))) ∧
    (sz v + 1 ≠ Dcap v * Bcap v →
       big_buffer v' = big_buffer v ∧
       log_buffer_capacity v' = log_buffer_capacity v ∧ dir v' = dir v ∧
       ptrs `prefix_of` ptrs').
Proof.
  intros Hsh Hset Hmax.
  pose proof (shape_wf _ _ _ _ Hsh) as Hwf.
  pose proof (shape_dir _ _ _ _ Hsh) as Hdir.
  pose proof (shape_sizes _ _ _ _ Hsh) as Hsizes.
  pose proof (shape_length _ _ _ _ Hsh) as Hbslen.
  destruct Hsh as (_ & Hown & Hlen). caps v.
  pose proof (sz_bounds v Hwf) as [Hsz Hcapmax].
  assert (Hheld : dir_size v ≤ held v ≤ dir_size v + 1)
    by (unfold held; destruct (extra_buffer v); cbn [b2z]; lia).
  pose (R := λ (w : vector) (ptrs' : list loc),
    (sz v + 1 = Dcap v * Bcap v →
       big_buffer w = negb (big_buffer v) ∧
       log_buffer_capacity w = log_buffer_capacity v + b2z (negb (big_buffer v))) ∧
    (sz v + 1 ≠ Dcap v * Bcap v →
       big_buffer w = big_buffer v ∧
       log_buffer_capacity w = log_buffer_capacity v ∧ dir w = dir v ∧
       ptrs `prefix_of` ptrs')).
  assert (HRsame : ∀ w ptrs', sz v + 1 ≠ Dcap v * Bcap v →
            big_buffer w = big_buffer v → log_buffer_capacity w = log_buffer_capacity v →
            dir w = dir v → ptrs `prefix_of` ptrs' → R w ptrs').
  { intros w ptrs' Hne ? ? ? ?. split; [by intros ?|done]. }
  assert (HRgrown : ∀ w ptrs', sz v + 1 = Dcap v * Bcap v →
            big_buffer w = negb (big_buffer v) →
            log_buffer_capacity w = log_buffer_capacity v + b2z (negb (big_buffer v)) →
            R w ptrs').
  { intros w ptrs' Heq ? ?. split; [done|by intros ?]. }
  assert (HRkeep : ∀ w w' ptrs' ptrs'', R w ptrs' →
            big_buffer w' = big_buffer w → log_buffer_capacity w' = log_buffer_capacity w →
            dir w' = dir w → ptrs' `prefix_of` ptrs'' → R w' ptrs'').
  { intros w w' ptrs' ptrs'' [HRa HRb] Hb HLw Hd Hpre. split.
    - intros Heq. destruct (HRa Heq) as [? ?]. split; congruence.
    - intros Hne. destruct (HRb Hne) as (? & ? & ? & ?).
      split; [congruence|]. split; [congruence|]. split; [congruence|]. by etrans. }
  cut (wp (push_back x) (v, h)
         (λ _ s, ∃ ptrs' bs', shape s.1 s.2 ptrs' bs' ∧ sz s.1 = sz v + 1 ∧ R s.1 ptrs')).
  { intros Hwp. apply wp_elim in Hwp as ([] & [v' h'] & Hrun & ptrs' & bs' & ? & ? & HR).
    exists v', h', ptrs', bs'. split; [done|]. split; [done|]. split; [done|]. exact HR. }
  clearbody R.
  unfold push_back.
  apply wp_bind, wp_size; [lia..|].
  apply wp_bind, wp_assert_valid; [done..|].
  wp_steps. unwrap.
  (* the item goes into the last buffer *)
  destruct (lookup_lt_is_Some_2 ptrs (Z.to_nat (dir_size v - 1))) as [p Hp]; [lia|].
  destruct (lookup_lt_is_Some_2 bs (Z.to_nat (dir_size v - 1))) as [b Hb]; [lia|].
  pose proof (owns_load h (dir v) _ _ ptrs bs _ p Hown Hp) as Hload.
  rewrite Z2Nat.id in Hload by lia.
  eapply wp_mem_done; [exact Hload|]. cbv beta.
  destruct (owns_store_cell _ _ _ _ _ _ _ _ _ (last_buffer_size v) (Some x) Hown Hp Hb)
    as (h1 & Hst & Hnext1 & Hown1); [lia|].
  wp_step. eapply wp_mem_done; [exact Hst|]. cbv beta. wp_steps. unwrap.
  set (bs1 := <[Z.to_nat (dir_size v - 1) :=
                <[Z.to_nat (last_buffer_size v) := Some x]> b]> bs) in *.
  clearbody bs1. clear Hst Hload.
  match goal with |- wp _ _ ?Q1 =>
    assert (Hfin : ∀ v' h' ptrs' bs',
              shape v' h' ptrs' bs' → sz v' = sz v + 1 → R v' ptrs' → Q1 tt (v', h'))
  end.
  { intros v' h' ptrs' bs' Hsh' Hsz' HR'.
    pose proof (shape_wf _ _ _ _ Hsh') as Hwf'.
    pose proof (caps_facts _ (wf_log _ Hwf')) as Hcaps'.
    pose proof (wf_dir_size _ Hwf'). pose proof (wf_log _ Hwf').
    pose proof (wf_last _ Hwf').
    apply wp_bind, wp_assert_valid; [done|by eapply shape_dir|].
    apply wp_bind, wp_size; [lia..|]. wp_steps. by exists ptrs', bs'. }
  cbv beta in Hfin.
  pose proof (λ v' h' ptrs' bs' Ha Hb Hc,
                wp_unbind _ _ _ _ (Hfin v' h' ptrs' bs' Ha Hb Hc)) as Hend.
  cbv beta in Hend. clear Hfin.
  destruct (Z.eqb_spec (last_buffer_size v + 1) (Bcap v)) as [Hfull|Hroom].
  2: { (* the last buffer has room left *)
    wp_steps.
    apply (Hend _ h1 ptrs bs1).
    - destruct v as [d ds lbs L big e]; explicit.
      split; [|split; [done|explicit; lia]].
      constructor; explicit; try lia; try done.
    - destruct v as [d ds lbs L big e]; explicit. lia.
    - apply HRsame; [|done..]. unfold sz. nia. }
  (* the last buffer is full now *)
  assert (Hfull' : dir_size v * Bcap v = sz v + 1) by (unfold sz; lia).
  wp_steps.
  match goal with |- wp _ _ ?Q2 =>
    assert (Hbump : ∀ w h' ptrs' bs',
              1 ≤ log_buffer_capacity w ≤ 29 →
              owns h' (dir w) (Dcap w) (Bcap w) ptrs' bs' →
              Z.of_nat (length ptrs') = dir_size w + 1 →
              1 ≤ dir_size w < Dcap w → Dcap w ≤ (dir_size w + 1) * 4 →
              dir_size w * Bcap w = sz v + 1 → R w ptrs' →
              Q2 tt (w, h'))
  end.
  { intros w h' ptrs' bs' HL' Hown' Hlen' Hds' Hspace' Hsz' HR'.
    pose proof (caps_facts w HL') as Hcaps'.
    wp_steps. unwrap.
    apply (Hend _ h' ptrs' bs').
    - destruct w as [d' ds' lbs' L' big' e']; explicit.
      split; [|split; [done|explicit; lia]].
      constructor; explicit; try lia; try done.
    - destruct w as [d' ds' lbs' L' big' e']; explicit. lia.
    - eapply HRkeep; [exact HR'|by destruct w..|done]. }
  cbv beta in Hbump.
  destruct (extra_buffer v) eqn:He; cbn [negb].
  { (* the extra buffer is taken into use *)
    apply wp_ret.
    assert (Hlt : dir_size v < Dcap v) by (by apply (wf_extra v Hwf)).
    unfold held in *. rewrite He in *. cbn [b2z] in *.
    apply (Hbump _ h1 ptrs bs1); fields; caps_simpl; try done; try lia.
    apply HRsame; [|done..]. nia. }
  unfold held in *. rewrite He in *. cbn [b2z] in *. rewrite Z.add_0_r in *.
  wp_steps.
  match goal with |- wp _ _ ?Q3 =>
    assert (Happ : ∀ w h' ptrs' bs',
              1 ≤ log_buffer_capacity w ≤ 29 →
              owns h' (dir w) (Dcap w) (Bcap w) ptrs' bs' →
              Z.of_nat (length ptrs') = dir_size w →
              1 ≤ dir_size w < Dcap w → Dcap w < (dir_size w + 1) * 4 →
              last_buffer_size w = Bcap w → extra_buffer w = false →
              dir_size w * Bcap w = sz v + 1 → R w ptrs' →
              Q3 tt (w, h'))
  end.
  { intros w h' ptrs' bs' HL' Hown' Hlen' Hds' Hspace' Hlbs' He' Hsz' HR'.
    pose proof (caps_facts w HL') as Hcaps'.
    wp_steps.
    destruct (owns_append h' (dir w) _ _ ptrs' bs' Hown') as (h2 & Hput & Hnext2 & Hown2);
      [lia..|].
    rewrite Hlen' in Hput.
    eapply wp_mem_done; [exact Hput|].
    apply (Hbump _ h2 (ptrs' ++ [next h']) (bs' ++ [replicate (Z.to_nat (Bcap w)) None]));
      fields; caps_simpl; try done; try lia.
    - rewrite length_app. cbn [length]. lia.
    - eapply HRkeep; [exact HR'|done..|by apply prefix_app_r]. }
  cbv beta in Happ.
  destruct (Z.eqb_spec (dir_size v) (Dcap v)) as [Hdfull|Hdroom].
  - (* no slot is left: the directory or the buffers grow first *)
    destruct (upsize_run (set_last_buffer_size (last_buffer_size v + 1) v) h1 ptrs bs1)
      as (v' & h' & ptrs' & bs' & Hup & HL' & Hown' & Hlen' & Hds' & Hspace' & Hlbs' &
          He' & Hsz' & Hcat' & Hnext' & Hbig' & Hlog');
      fields; caps_simpl; try done; try lia.
    { intros Hbig. apply full_log; [lia|done|]. rewrite <- Hdfull. lia. }
    change (Bcap (set_last_buffer_size (last_buffer_size v + 1) v)) with (Bcap v) in Hsz'.
    eapply wp_done; [exact Hup|].
    apply (Happ v' h' ptrs' bs'); try done; try lia.
    apply HRgrown; [lia|done|done].
  - apply wp_ret. apply (Happ _ h1 ptrs bs1); fields; caps_simpl; try done; try lia.
    apply HRsame; [|done..]. nia.
Qed.
End growth.

(** X16.  [push_back] moves the array to a larger one when, and only
    when, the array is full: the new item takes the last of the
    [dir_capacity() * buffer_capacity()] places.  Then the product of
    the two capacities is twice what it was, and [big_buffer] has
    changed.  Otherwise the two capacities are what they were and the
    directory is the block it was. *)
Theorem push_back_grows_when_full {T} (st : store T) (o : nat) (v : vector) (x : T)
    (n D B : Z) :
  reachable st → objs st !! o = Some v →
  size (v, hp st) = Done n (v, hp st) → n < max_items →
  dir_capacity (v, hp st) = Done D (v, hp st) →
  buffer_capacity (v, hp st) = Done B (v, hp st) →
  ∃ v' h' D' B',
    exec (PushBack o x) st = Done Nothing (Store (<[o := v']> (objs st)) h') ∧
    dir_capacity (v', h') = Done D' (v', h') ∧
    buffer_capacity (v', h') = Done B' (v', h') ∧
    (n + 1 = D * B → D' * B' = 2 * (D * B) ∧ big_buffer v' = negb (big_buffer v)) ∧
    (n + 1 ≠ D * B → D' = D ∧ B' = B ∧ dir v' = dir v).
Proof.
  intros Hreach Ho Hsize Hn HD HB.
  destruct (reachable_shape st o v Hreach Ho) as (ptrs & bs & Hsh & Hset).
  pose proof (shape_wf _ _ _ _ Hsh) as Hwf. caps v.
  rewrite (size_run v _ Hwf) in Hsize. injection Hsize as <-.
  rewrite dir_capacity_run in HD by lia. injection HD as <-.
  rewrite buffer_capacity_run in HB by lia. injection HB as <-.
  destruct (push_back_run v (hp st) ptrs bs x Hsh Hset Hn)
    as (v' & h' & ptrs' & bs' & Hrun & Hsh' & _).
  destruct (push_back_growth v (hp st) ptrs bs x Hsh Hset Hn)
    as (v2 & h2 & ptrs2 & bs2 & Hrun2 & _ & _ & Hgrow & Hsame).
  rewrite Hrun in Hrun2. injection Hrun2 as <- <-.
  pose proof (wf_log _ (shape_wf _ _ _ _ Hsh')) as HL'.
  exists v', h', (Dcap v'), (Bcap v').
  split.
  { destruct st as [os h]. cbn [objs hp exec] in *.
    by rewrite (bind_done _ _ _ _ _ (on_run _ _ _ _ _ _ _ _ Ho Hrun)). }
  split; [apply dir_capacity_run; lia|]. split; [apply buffer_capacity_run; lia|].
  split.
  - intros Hfull. destruct (Hgrow Hfull) as [Hb Hlog]. split; [|done].
    unfold Dcap, Bcap. rewrite Hb, Hlog.
    destruct (big_buffer v); cbn [b2z negb]; rewrite ?Z.sub_0_r, ?Z.add_0_r.
    + rewrite (pow2_pred (log_buffer_capacity v)) by lia. lia.
    + rewrite (pow2_succ (log_buffer_capacity v)) by lia.
      replace (log_buffer_capacity v + 1 - 1) with (log_buffer_capacity v) by lia. lia.
  - intros Hne. destruct (Hsame Hne) as (Hb & Hlog & Hd & _).
    unfold Dcap, Bcap. by rewrite Hb, Hlog.
Qed.

Lemma push_back_grows_when_full_witness :
  reachable example_store ∧ objs example_store !! 0%nat = Some example_a ∧
  size (example_a, hp example_store) = Done 3 (example_a, hp example_store) ∧
  3 < max_items ∧
  dir_capacity (example_a, hp example_store) = Done 2 (example_a, hp example_store) ∧
  buffer_capacity (example_a, hp example_store) = Done 2 (example_a, hp example_store) ∧
  ∃ v' h' D' B',
    exec (PushBack 0%nat 5) example_store
      = Done Nothing (Store (<[0%nat := v']> (objs example_store)) h') ∧
    dir_capacity (v', h') = Done D' (v', h') ∧
    buffer_capacity (v', h') = Done B' (v', h') ∧
    (3 + 1 = 2 * 2 → D' * B' = 2 * (2 * 2) ∧ big_buffer v' = negb (big_buffer example_a)) ∧
    (3 + 1 ≠ 2 * 2 → D' = 2 ∧ B' = 2 ∧ dir v' = dir example_a).
Proof.
  assert (Hsize : size (example_a, hp example_store) = Done 3 (example_a, hp example_store))
    by (vm_compute; reflexivity).
  assert (Hmax : 3 < max_items) by (vm_compute; reflexivity).
  assert (HD : dir_capacity (example_a, hp example_store)
               = Done 2 (example_a, hp example_store)) by (vm_compute; reflexivity).
  assert (HB : buffer_capacity (example_a, hp example_store)
               = Done 2 (example_a, hp example_store)) by (vm_compute; reflexivity).
  split; [exact example_reachable|]. split; [exact example_a_found|]. split; [exact Hsize|].
  split; [exact Hmax|]. split; [exact HD|]. split; [exact HB|].
  exact (push_back_grows_when_full example_store 0%nat example_a 5 3 2 2
           example_reachable example_a_found Hsize Hmax HD HB).
Defined.

(** X17.  [push_back] leaves every item where it is, unless the array
    was full (the new item takes the last of the
    [dir_capacity() * buffer_capacity()] places): the reference that
    [v[i]] gives after the call is the reference it gave before, the
    same offset in the same buffer, so a reference taken before the call
    is still good. *)
Theorem push_back_keeps_references {T} (st : store T) (o : nat) (v : vector) (x : T)
    (n D B i : Z) :
  reachable st → objs st !! o = Some v →
  size (v, hp st) = Done n (v, hp st) → n < max_items →
  dir_capacity (v, hp st) = Done D (v, hp st) →
  buffer_capacity (v, hp st) = Done B (v, hp st) →
  n + 1 ≠ D * B → 0 ≤ i < n →
  ∃ v' h' r,
    exec (PushBack o x) st = Done Nothing (Store (<[o := v']> (objs st)) h') ∧
    index i (v, hp st) = Done r (v, hp st) ∧
    index i (v', h') = Done r (v', h') ∧
    is_Some (bufs (hp st) !! r.1) ∧ is_Some (bufs h' !! r.1).
Proof.
  intros Hreach Ho Hsize Hn HD HB Hroom Hi.
  destruct (reachable_shape st o v Hreach Ho) as (ptrs & bs & Hsh & Hset).
  pose proof (shape_wf _ _ _ _ Hsh) as Hwf. caps v.
  rewrite (size_run v _ Hwf) in Hsize. injection Hsize as <-.
  rewrite dir_capacity_run in HD by lia. injection HD as <-.
  rewrite buffer_capacity_run in HB by lia. injection HB as <-.
  destruct (push_back_growth v (hp st) ptrs bs x Hsh Hset Hn)
    as (v' & h' & ptrs' & bs' & Hrun & Hsh' & Hsz' & _ & Hsame).
  destruct (Hsame Hroom) as (Hb & Hlog & Hd & Hpre).
  assert (HB : Bcap v' = Bcap v) by (unfold Bcap; by rewrite Hlog).
  destruct (locate v i Hwf Hi) as (Hq & _ & _).
  assert (Hlen : Z.of_nat (length ptrs) = held v) by apply Hsh.
  assert (Hheld : dir_size v ≤ held v)
    by (unfold held; destruct (extra_buffer v); cbn [b2z]; lia).
  destruct (lookup_lt_is_Some_2 ptrs (Z.to_nat (i / Bcap v))) as [p Hp]; [lia|].
  assert (Hp' : ptrs' !! Z.to_nat (i / Bcap v) = Some p)
    by (by eapply prefix_lookup_Some).
  assert (wp (pget i) (v, hp st)
            (λ r s, r = (p, i mod Bcap v) ∧ s = (v, hp st) ∧
                    is_Some (bufs (hp st) !! p))) as Hfirst.
  { eapply (wp_pget v (hp st) ptrs bs); [done|done|].
    intros p0 b0 Hp0 _ Hbuf _. rewrite Hp in Hp0. injection Hp0 as <-.
    split; [done|]. split; [done|]. by exists b0. }
  assert (wp (pget i) (v', h')
            (λ r s, r = (p, i mod Bcap v) ∧ s = (v', h') ∧ is_Some (bufs h' !! p)))
    as Hsecond.
  { eapply (wp_pget v' h' ptrs' bs'); [done|lia|]. rewrite HB.
    intros p0 b0 Hp0 _ Hbuf _. rewrite Hp' in Hp0. injection Hp0 as <-.
    split; [done|]. split; [done|]. by exists b0. }
  apply wp_elim in Hfirst as (r1 & s1 & Hrun1 & -> & -> & Hin1).
  apply wp_elim in Hsecond as (r2 & s2 & Hrun2 & -> & -> & Hin2).
  exists v', h', (p, i mod Bcap v).
  split.
  { destruct st as [os h]. cbn [objs hp exec] in *.
    by rewrite (bind_done _ _ _ _ _ (on_run _ _ _ _ _ _ _ _ Ho Hrun)). }
  done.
Qed.

Lemma push_back_keeps_references_witness :
  reachable full_store ∧ objs full_store !! 0%nat = Some full_v ∧
  size (full_v, hp full_store) = Done 4 (full_v, hp full_store) ∧ 4 < max_items ∧
  dir_capacity (full_v, hp full_store) = Done 2 (full_v, hp full_store) ∧
  buffer_capacity (full_v, hp full_store) = Done 4 (full_v, hp full_store) ∧
  4 + 1 ≠ 2 * 4 ∧ 0 ≤ 3 < 4 ∧
  ∃ v' h' r,
    exec (PushBack 0%nat 9) full_store
      = Done Nothing (Store (<[0%nat := v']> (objs full_store)) h') ∧
    index 3 (full_v, hp full_store) = Done r (full_v, hp full_store) ∧
    index 3 (v', h') = Done r (v', h') ∧
    is_Some (bufs (hp full_store) !! r.1) ∧ is_Some (bufs h' !! r.1).
Proof.
  assert (Hreach : reachable full_store) by (apply reachable_after; vm_compute; tauto).
  assert (Hfound : objs full_store !! 0%nat = Some full_v) by (vm_compute; reflexivity).
  assert (Hsize : size (full_v, hp full_store) = Done 4 (full_v, hp full_store))
    by (vm_compute; reflexivity).
  assert (Hmax : 4 < max_items) by (vm_compute; reflexivity).
  assert (HD : dir_capacity (full_v, hp full_store) = Done 2 (full_v, hp full_store))
    by (vm_compute; reflexivity).
  assert (HB : buffer_capacity (full_v, hp full_store) = Done 4 (full_v, hp full_store))
    by (vm_compute; reflexivity).
  assert (Hroom : 4 + 1 ≠ 2 * 4) by lia.
  assert (Hi : 0 ≤ 3 < 4) by lia.
  split; [exact Hreach|]. split; [exact Hfound|]. split; [exact Hsize|].
  split; [exact Hmax|]. split; [exact HD|]. split; [exact HB|].
  split; [exact Hroom|]. split; [exact Hi|].
  exact (push_back_keeps_references full_store 0%nat full_v 9 4 2 4 3
           Hreach Hfound Hsize Hmax HD HB Hroom Hi).
Defined.

(** ** The test program runs *)

Section space_stands.
Context {T : Type}.
Implicit Types (s : state (T:=T)) (l : list T).

Lemma wp_stands_push s l x (Q : unit → state (T:=T) → Prop) :
  stands s l → Z.of_nat (length l) < max_items →
  (∀ s', stands s' (l ++ [x]) → Q tt s') →
  wp (Space.push_back x) s Q.
Proof.
  destruct s as [v h]. intros (ptrs & bs & Hsh & Hset & Hcells) Hmax HQ. cbn [fst snd] in *.
  pose proof (cells_plain_length _ _ _ _ _ Hsh Hcells) as Hlen.
  destruct (space_push_back_run v h ptrs bs x Hsh Hset ltac:(lia))
    as (v' & h' & ptrs' & bs' & Hrun & Hsh' & Hset' & _ & Hcells' & _).
  eapply wp_done; [exact Hrun|]. apply HQ. exists ptrs', bs'. cbn [fst snd].
  split; [done|]. split; [done|]. by rewrite Hcells', Hcells, fmap_app.
Qed.

Lemma wp_stands_pop s l x (Q : unit → state (T:=T) → Prop) :
  stands s (l ++ [x]) → (∀ s', stands s' l → Q tt s') → wp Space.pop_back s Q.
Proof.
  destruct s as [v h]. intros (ptrs & bs & Hsh & Hset & Hcells) HQ. cbn [fst snd] in *.
  pose proof (cells_plain_length _ _ _ _ _ Hsh Hcells) as Hlen.
  rewrite length_app in Hlen. cbn [length] in Hlen.
  destruct (space_pop_back_run v h ptrs bs Hsh Hset ltac:(lia))
    as (v' & h' & ptrs' & bs' & Hrun & Hsh' & Hset' & _ & Hcells' & _).
  eapply wp_done; [exact Hrun|]. apply HQ. exists ptrs', bs'. cbn [fst snd].
  split; [done|]. split; [done|].
  rewrite Hcells', Hcells, fmap_app, take_app_length'; [done|].
  rewrite length_fmap. lia.
Qed.

Lemma wp_stands_size s l (Q : Z → state (T:=T) → Prop) :
  stands s l → Q (Z.of_nat (length l)) s → wp Space.size s Q.
Proof.
  destruct s as [v h]. intros (ptrs & bs & Hsh & Hset & Hcells) HQ. cbn [fst snd] in *.
  pose proof (cells_plain_length _ _ _ _ _ Hsh Hcells) as Hlen.
  change Space.size with (size (T:=T)).
  eapply wp_done; [apply size_run, (shape_wf _ _ _ _ Hsh)|]. by rewrite Hlen.
Qed.

Lemma wp_stands_read s l i x (Q : option T → state (T:=T) → Prop) :
  stands s l → 0 ≤ i → l !! Z.to_nat i = Some x → Q (Some x) s →
  wp (Space.read i) s Q.
Proof.
  destruct s as [v h]. intros (ptrs & bs & Hsh & Hset & Hcells) Hi Hx HQ. cbn [fst snd] in *.
  pose proof (cells_plain_length _ _ _ _ _ Hsh Hcells) as Hlen.
  pose proof (lookup_lt_Some _ _ _ Hx).
  destruct (space_read_run v h ptrs bs i Hsh ltac:(lia)) as (c & Hc & Hrun).
  rewrite Hcells, list_lookup_fmap, Hx in Hc. injection Hc as <-.
  by eapply wp_done; [exact Hrun|].
Qed.

Lemma stands_new :
  ∃ v h, Space.space_new (T:=T) empty_heap = Done v h ∧ stands (v, h) [].
Proof.
  destruct (space_new_run (T:=T) empty_heap ltac:(cbn; lia))
    as (v & h & ptrs & bs & Hnew & Hsh & Hset & _ & Hcells & _).
  exists v, h. split; [done|]. by exists ptrs, bs.
Qed.

Lemma eval_on_done {A} v (m : Mv (T:=T) A) h a s :
  m (v, h) = Done a s → eval_on v m h = Done a s.2.
Proof. unfold eval_on, zoom. by intros ->. Qed.

Lemma stands_holds s l : stands s l → is_Some (dirs s.2 !! dir s.1).
Proof.
  intros (ptrs & bs & Hsh & _). by eapply shape_dir_in.
Qed.
End space_stands.

Section test_program_runs.
Context {double : Type}.
Variables (to_double : Z → double) (double_eqb : double → double → bool).
Variable rand : Z → Z → Z.
Hypothesis to_double_exact : ∀ a b,
  0 ≤ a < 2 ^ 53 → 0 ≤ b < 2 ^ 53 → double_eqb (to_double a) (to_double b) = (a =? b).
Hypothesis rand_range : ∀ i j, 0 ≤ rand i j < 2 ^ 31.


Lemma upto_snoc n : 0 ≤ n → upto to_double (n + 1) = upto to_double n ++ [to_double n].
Proof.
  intros Hn. unfold upto. rewrite seqZ_app by lia. rewrite fmap_app. f_equal.
Qed.

Lemma upto_length n : 0 ≤ n → Z.of_nat (length (upto to_double n)) = n.
Proof. intros Hn. unfold upto. rewrite length_fmap, length_seqZ. lia. Qed.

Lemma upto_lookup n k : 0 ≤ k < n → upto to_double n !! Z.to_nat k = Some (to_double k).
Proof.
  intros Hk. unfold upto. rewrite list_lookup_fmap, lookup_seqZ_lt by lia.
  cbn. f_equal. f_equal. lia.
Qed.

Lemma wp_qux_probe i j s (Q : unit → state (T:=double) → Prop) :
  0 ≤ i < 2 ^ 32 → stands s (upto to_double (i + 1)) → Q tt s →
  wp (qux_probe to_double double_eqb rand i j) s Q.
Proof.
  intros Hi Hs HQ. unfold qux_probe.
  apply wp_bind. eapply wp_stands_size; [done|]. rewrite upto_length by lia.
  destruct (i + 1 =? 0) eqn:Hz; [lia|].
  pose proof (rand_range i j) as Hr.
  pose proof (Z.mod_pos_bound (rand i j) (i + 1) ltac:(lia)) as Hk.
  apply wp_bind. eapply wp_stands_read; [done|lia|by apply upto_lookup|].
  cbv beta iota. apply wp_assert; [|done].
  rewrite to_double_exact by lia. lia.
Qed.

Lemma wp_qux_round i s (Q : unit → state (T:=double) → Prop) :
  0 ≤ i < limit → stands s (upto to_double i) →
  (∀ s', stands s' (upto to_double (i + 1)) → Q tt s') →
  wp (qux_round to_double double_eqb rand i) s Q.
Proof.
  intros Hi Hs HQ. unfold limit in Hi. unfold qux_round.
  assert (Hroot : Z.sqrt limit = 228) by (by vm_compute).
  pose proof (Z.sqrt_nonneg i) as Hsq0.
  pose proof (Z.sqrt_le_lin i ltac:(lia)) as Hsq.
  assert (Hmaxi : 2 ^ 32 < max_items) by (by vm_compute).
  apply wp_bind. eapply wp_stands_push; [done|rewrite upto_length; lia|].
  intros s1 Hs1. rewrite <- upto_snoc in Hs1 by lia.
  apply wp_bind. eapply wp_stands_size; [done|]. rewrite upto_length by lia.
  apply wp_bind. apply wp_assert; [rewrite wrap32_small by lia; lia|].
  apply wp_bind.
  apply (wp_repeat_from (λ _ s', stands s' (upto to_double (i + 1)))); [done| |].
  { intros k s' Hk Hs'. apply wp_qux_probe; [lia|done|done]. }
  intros s2 Hs2. rewrite Hroot.
  set (little := Z.min 228 i).
  assert (Hl : 0 ≤ little ≤ i) by lia.
  apply wp_bind.
  apply (wp_repeat_from (λ k s', stands s' (upto to_double (i + 1 - Z.of_nat k)))).
  { by rewrite Z.sub_0_r. }
  { intros k s' Hk Hs'.
    replace (i + 1 - Z.of_nat k) with (i - Z.of_nat k + 1) in Hs' by lia.
    rewrite upto_snoc in Hs' by lia.
    eapply wp_stands_pop; [exact Hs'|]. intros s'' Hs''.
    by replace (i + 1 - Z.of_nat (S k)) with (i - Z.of_nat k) by lia. }
  intros s3 Hs3. rewrite Z2Nat.id in Hs3 by lia.
  replace (i + 1 - (little + 1)) with (i - little) in Hs3 by lia.
  rewrite (wrap32_small (i - little)) by lia.
  replace (i + 1 - (i - little)) with (little + 1) by lia.
  apply (wp_repeat_from (λ k s', stands s' (upto to_double (i - little + Z.of_nat k)))).
  { by rewrite Z.add_0_r. }
  { intros k s' Hk Hs'. rewrite iter_succ_wrap32 by lia.
    eapply wp_stands_push; [exact Hs'|rewrite upto_length; lia|].
    intros s'' Hs''. rewrite <- upto_snoc in Hs'' by lia.
    by replace (i - little + Z.of_nat (S k)) with (i - little + Z.of_nat k + 1) by lia. }
  intros s4 Hs4. apply HQ.
  by replace (i - little + Z.of_nat (Z.to_nat (little + 1))) with (i + 1) in Hs4 by lia.
Qed.

End test_program_runs.

(** X18.  [qux()] of the test program returns, whatever [rand()]
    returns: none of its own assertions fails ([foo.size() == i+1] after
    the [push_back] of round [i], and [k == foo.get(k)] at every index
    [k] that [rand()] picks), none of the assertions of [space] fails,
    no item is read that was not written and no block is touched that is
    not owned.  When it returns, the blocks of [foo] are still in the
    heap: [space] has no destructor.  (For a [double] that holds the
    integers below [2 ^ 53] as they are, and a [rand()] that returns an
    [int] that is not negative.) *)
Theorem qux_passes {double} (to_double : Z → double)
    (double_eqb : double → double → bool) (rand : Z → Z → Z) :
  (∀ a b, 0 ≤ a < 2 ^ 53 → 0 ≤ b < 2 ^ 53 →
     double_eqb (to_double a) (to_double b) = (a =? b)) →
  (∀ i j, 0 ≤ rand i j < 2 ^ 31) →
  ∃ h, qux to_double double_eqb rand empty_heap = Done tt h ∧ dirs h ≠ ∅.
Proof.
  intros Hexact Hrand.
  destruct (stands_new (T:=double)) as (foo & h0 & Hnew & Hs0).
  unfold qux. rewrite (bind_done _ _ _ _ _ Hnew).
  assert (wp (repeat_from (Z.to_nat limit) (λ i, wrap32 (i + 1)) 0
                (qux_round to_double double_eqb rand)) (foo, h0)
            (λ _ s, stands s (upto to_double limit))) as Hwp.
  { apply (wp_repeat_from (λ k s', stands s' (upto to_double (Z.of_nat k)))); [done| |].
    - intros k s' Hk Hs'. unfold limit in Hk.
      rewrite iter_succ_wrap32 by lia. rewrite Z.add_0_l.
      apply wp_qux_round; [done|done|unfold limit; lia|done|].
      intros s'' Hs''. by replace (Z.of_nat (S k)) with (Z.of_nat k + 1) by lia.
    - intros s' Hs'. by rewrite Z2Nat.id in Hs' by done. }
  apply wp_elim in Hwp as ([] & [v h] & Hrun & Hs).
  exists h. split; [exact (eval_on_done _ _ _ _ _ Hrun)|].
  destruct (stands_holds _ _ Hs) as [slots Hd]. cbn [fst snd] in Hd.
  intros Hnone. by rewrite Hnone, lookup_empty in Hd.
Qed.

Lemma qux_passes_witness :
  (∀ a b, 0 ≤ a < 2 ^ 53 → 0 ≤ b < 2 ^ 53 → (id a =? id b) = (a =? b)) ∧
  (∀ i j, 0 ≤ (7 * i + j) mod 2 ^ 31 < 2 ^ 31) ∧
  ∃ h, qux id Z.eqb (λ i j, (7 * i + j) mod 2 ^ 31) empty_heap = Done tt h ∧ dirs h ≠ ∅.
Proof.
  assert (Hexact : ∀ a b, 0 ≤ a < 2 ^ 53 → 0 ≤ b < 2 ^ 53 → (id a =? id b) = (a =? b))
    by reflexivity.
  assert (Hrand : ∀ i j, 0 ≤ (7 * i + j) mod 2 ^ 31 < 2 ^ 31)
    by (intros i j; apply Z.mod_pos_bound; lia).
  split; [exact Hexact|]. split; [exact Hrand|].
  exact (qux_passes id Z.eqb (λ i j, (7 * i + j) mod 2 ^ 31) Hexact Hrand).
Defined.

(** ** Counting blocks *)

Section tally_heap.
Context {T : Type}.
Implicit Types (h : heap T).

Lemma tally_refl h : tidy h → tally h 0 0 h.
Proof. intros Ht. split; [done|]. split; lia. Qed.

Lemma tally_trans h1 h2 h3 a b c d :
  tally h1 a b h2 → tally h2 c d h3 → tally h1 (a + c) (b + d) h3.
Proof. intros (_ & ? & ?) (? & ? & ?). split; [done|]. split; lia. Qed.

Lemma tally_eq h h' a b a' b' : tally h a b h' → a = a' → b = b' → tally h a' b' h'.
Proof. by intros ? <- <-. Qed.

Lemma tally_tidy h a b h' : tally h a b h' → tidy h'.
Proof. by intros (? & _). Qed.

Lemma tidy_fresh h : tidy h → bufs h !! next h = None ∧ dirs h !! next h = None.
Proof.
  intros [_ Hb]. split.
  - destruct (bufs h !! next h) eqn:E; [|done].
    specialize (Hb (next h) (or_introl (mk_is_Some _ _ E))). lia.
  - destruct (dirs h !! next h) eqn:E; [|done].
    specialize (Hb (next h) (or_intror (mk_is_Some _ _ E))). lia.
Qed.

Lemma new_buf_tally n h p h' :
  new_buf n h = Done p h' → tidy h → tally h 1 0 h'.
Proof.
  unfold new_buf. intros [= <- <-] Ht. destruct (tidy_fresh h Ht) as [Hfresh _].
  destruct Ht as [Hpos Hb]. split; [|split].
  - split; cbn [next bufs dirs]; [lia|]. intros l [Hl|Hl].
    + destruct (decide (l = next h)) as [->|Hne]; [lia|].
      rewrite lookup_insert_ne in Hl by done. specialize (Hb l (or_introl Hl)). lia.
    + specialize (Hb l (or_intror Hl)). lia.
  - unfold nbufs. cbn [bufs]. rewrite map_size_insert_None by done. lia.
  - unfold ndirs. cbn [dirs]. lia.
Qed.

Lemma new_dir_tally n h d h' :
  new_dir n h = Done d h' → tidy h → tally h 0 1 h' ∧ d ≠ 0%nat.
Proof.
  unfold new_dir. intros [= <- <-] Ht. destruct (tidy_fresh h Ht) as [_ Hfresh].
  destruct Ht as [Hpos Hb]. split; [|lia]. split; [|split].
  - split; cbn [next bufs dirs]; [lia|]. intros l [Hl|Hl].
    + specialize (Hb l (or_introl Hl)). lia.
    + destruct (decide (l = next h)) as [->|Hne]; [lia|].
      rewrite lookup_insert_ne in Hl by done. specialize (Hb l (or_intror Hl)). lia.
  - unfold nbufs. cbn [bufs]. lia.
  - unfold ndirs. cbn [dirs]. rewrite map_size_insert_None by done. lia.
Qed.

Lemma delete_buf_tally l h h' :
  delete_buf (Some l) h = Done tt h' → tidy h → l ≠ 0%nat → tally h (-1) 0 h'.
Proof.
  unfold delete_buf. destruct l as [|l]; [intros _ _ Hnull; by destruct Hnull|]. cbv beta iota.
  case_match eqn:E; [|by intros [=]]. intros [= <-] [Hpos Hb] _.
  split; [|split].
  - split; cbn [next bufs dirs]; [lia|]. intros l' [Hl|Hl].
    + destruct (decide (l' = S l)) as [->|Hne]; [by rewrite lookup_delete_eq in Hl; destruct Hl|].
      rewrite lookup_delete_ne in Hl by done. apply Hb. by left.
    + apply Hb. by right.
  - unfold nbufs. cbn [bufs]. rewrite map_size_delete_Some by done.
    pose proof (map_size_ne_0_lookup_2 (bufs h) (S l) (mk_is_Some _ _ E)).
    destruct (base.size (bufs h)); [done|cbn [Init.Nat.pred]; lia].
  - unfold ndirs. cbn [dirs]. lia.
Qed.

Lemma delete_dir_tally d h h' :
  delete_dir d h = Done tt h' → tidy h → d ≠ 0%nat → tally h 0 (-1) h'.
Proof.
  unfold delete_dir. destruct d as [|d]; [intros _ _ Hnull; by destruct Hnull|]. cbv beta iota.
  case_match eqn:E; [|by intros [=]]. intros [= <-] [Hpos Hb] _.
  split; [|split].
  - split; cbn [next bufs dirs]; [lia|]. intros l' [Hl|Hl].
    + apply Hb. by left.
    + destruct (decide (l' = S d)) as [->|Hne]; [by rewrite lookup_delete_eq in Hl; destruct Hl|].
      rewrite lookup_delete_ne in Hl by done. apply Hb. by right.
  - unfold nbufs. cbn [bufs]. lia.
  - unfold ndirs. cbn [dirs]. rewrite map_size_delete_Some by done.
    pose proof (map_size_ne_0_lookup_2 (dirs h) (S d) (mk_is_Some _ _ E)).
    destruct (base.size (dirs h)); [done|cbn [Init.Nat.pred]; lia].
Qed.

Lemma load_slot_inv d i h p h' : load_slot d i h = Done p h' → h' = h.
Proof.
  unfold load_slot. repeat (case_match; [|by intros [=]]). by intros [= _ <-].
Qed.

Lemma load_cell_inv p i h c h' :
  load_cell p i h = Done c h' → h' = h ∧ ∃ l, p = Some l ∧ is_Some (bufs h !! l).
Proof.
  unfold load_cell. destruct p as [l|]; [|by intros [=]].
  case_match eqn:E; [|by intros [=]]. repeat (case_match; [|by intros [=]]).
  intros [= _ <-]. split; [done|]. exists l. split; [done|]. exact (mk_is_Some _ _ E).
Qed.

Lemma item_inv p i h r h' : item p i h = Done r h' → h' = h.
Proof.
  unfold item. destruct p as [l|]; [|by intros [=]].
  repeat (case_match; [|by intros [=]]). by intros [= _ <-].
Qed.

Lemma store_slot_tally d i p h h' :
  store_slot d i p h = Done tt h' → tidy h → tally h 0 0 h'.
Proof.
  unfold store_slot. destruct (dirs h !! d) as [slots|] eqn:E; [|intros Hno; discriminate Hno].
  case_bool_decide; [|intros Hno; discriminate Hno]. intros [= <-] [Hpos Hb]. split; [|split].
  - split; cbn [next bufs dirs]; [lia|]. intros l [Hl|Hl].
    + apply Hb. by left.
    + destruct (decide (l = d)) as [->|Hne]; [apply Hb; right; exact (mk_is_Some _ _ E)|].
      rewrite lookup_insert_ne in Hl by done. apply Hb. by right.
  - unfold nbufs. cbn [bufs]. lia.
  - unfold ndirs. cbn [dirs]. rewrite map_size_insert_Some by exact (mk_is_Some _ _ E). lia.
Qed.

Lemma store_cell_tally p i c h h' :
  store_cell p i c h = Done tt h' → tidy h → tally h 0 0 h'.
Proof.
  unfold store_cell. destruct p as [l|]; [|intros Hno; discriminate Hno].
  destruct (bufs h !! l) as [cells|] eqn:E; [|intros Hno; discriminate Hno].
  case_bool_decide; [|intros Hno; discriminate Hno]. intros [= <-] [Hpos Hb]. split; [|split].
  - split; cbn [next bufs dirs]; [lia|]. intros l' [Hl|Hl].
    + destruct (decide (l' = l)) as [->|Hne]; [apply Hb; left; exact (mk_is_Some _ _ E)|].
      rewrite lookup_insert_ne in Hl by done. apply Hb. by left.
    + apply Hb. by right.
  - unfold nbufs. cbn [bufs]. rewrite map_size_insert_Some by exact (mk_is_Some _ _ E). lia.
  - unfold ndirs. cbn [dirs]. lia.
Qed.

Lemma repeat_from_done {St} (Inv : nat → St → Prop) (n : nat) step (body : Z → M St unit) :
  (∀ k i s s', Inv k s → body i s = Done tt s' → Inv (S k) s') →
  ∀ i s s', Inv 0%nat s → repeat_from n step i body s = Done tt s' → Inv n s'.
Proof.
  revert Inv. induction n as [|n IH]; intros Inv Hstep i s s' H0 Hrun.
  - cbn [repeat_from] in Hrun. by injection Hrun as <-.
  - cbn [repeat_from] in Hrun. apply bind_inv in Hrun as ([] & s1 & Hbody & Hrun).
    apply (IH (λ k, Inv (S k)) (λ k, Hstep (S k)) (step i) s1 s'); [|done].
    by eapply Hstep.
Qed.

Lemma copy_cells_tally src first n dst dfirst h h' :
  copy_cells src first n dst dfirst h = Done tt h' → tidy h →
  tally h 0 0 h' ∧ (0 < n → ∃ l, src = Some l ∧ l ≠ 0%nat).
Proof.
  unfold copy_cells. intros Hrun Ht. split.
  - revert Hrun. apply (repeat_from_done (λ _ h1, tally h 0 0 h1)); [|by apply tally_refl].
    intros _ j h1 h2 Hh1 Hbody.
    apply bind_inv in Hbody as (c & h1' & Hload & Hstore).
    apply load_cell_inv in Hload as [-> _].
    apply store_cell_tally in Hstore; [|by eapply tally_tidy].
    eapply tally_eq; [by eapply tally_trans|lia..].
  - intros Hn. destruct (Z.to_nat n) as [|m] eqn:E; [lia|].
    cbn [repeat_from] in Hrun. apply bind_inv in Hrun as ([] & h1 & Hbody & _).
    apply bind_inv in Hbody as (c & h1' & Hload & _).
    apply load_cell_inv in Hload as [_ (l & -> & Hl)].
    exists l. split; [done|]. destruct Ht as [_ Hb]. specialize (Hb l (or_introl Hl)). lia.
Qed.

Lemma copy_slots_tally src n dst h h' :
  copy_slots src n dst h = Done tt h' → tidy h → tally h 0 0 h'.
Proof.
  unfold copy_slots. intros Hrun Ht. revert Hrun.
  apply (repeat_from_done (λ _ h1, tally h 0 0 h1)); [|by apply tally_refl].
  intros _ j h1 h2 Hh1 Hbody.
  apply bind_inv in Hbody as (c & h1' & Hload & Hstore).
  apply load_slot_inv in Hload as ->.
  apply store_slot_tally in Hstore; [|by eapply tally_tidy].
  eapply tally_eq; [by eapply tally_trans|lia..].
Qed.

Lemma merge_pair_tally d B i h h' :
  merge_pair d B i h = Done tt h' → tidy h → 0 < B → tally h (-1) 0 h'.
Proof.
  unfold merge_pair. intros Hrun Ht HB.
  apply bind_inv in Hrun as (buf1 & h1 & Hl1 & Hrun). apply load_slot_inv in Hl1 as ->.
  apply bind_inv in Hrun as (buf2 & h1 & Hl2 & Hrun). apply load_slot_inv in Hl2 as ->.
  apply bind_inv in Hrun as (q & h1 & Hnew & Hrun). apply new_buf_tally in Hnew; [|done].
  apply bind_inv in Hrun as ([] & h2 & Hst & Hrun).
  apply store_slot_tally in Hst; [|by eapply tally_tidy].
  apply bind_inv in Hrun as ([] & h3 & Hc1 & Hrun).
  apply copy_cells_tally in Hc1 as [Hc1 Hsrc1]; [|by eapply tally_tidy].
  destruct (Hsrc1 HB) as (l1 & -> & Hl1).
  apply bind_inv in Hrun as ([] & h4 & Hc2 & Hrun).
  apply copy_cells_tally in Hc2 as [Hc2 Hsrc2]; [|by eapply tally_tidy].
  destruct (Hsrc2 HB) as (l2 & -> & Hl2).
  apply bind_inv in Hrun as ([] & h5 & Hd1 & Hd2).
  apply delete_buf_tally in Hd1; [|by eapply tally_tidy|done].
  apply delete_buf_tally in Hd2; [|by eapply tally_tidy|done].
  eapply tally_eq;
    [exact (tally_trans _ _ _ _ _ _ _ (tally_trans _ _ _ _ _ _ _ (tally_trans _ _ _ _ _ _ _
       (tally_trans _ _ _ _ _ _ _ (tally_trans _ _ _ _ _ _ _ Hnew Hst) Hc1) Hc2) Hd1) Hd2)
    |lia..].
Qed.

Lemma split_buffer_tally d B k h h' :
  split_buffer d B k h = Done tt h' → tidy h → 0 < B / 2 → tally h 1 0 h'.
Proof.
  unfold split_buffer. intros Hrun Ht HB.
  apply bind_inv in Hrun as (old & h1 & Hl & Hrun). apply load_slot_inv in Hl as ->.
  apply bind_inv in Hrun as (b0 & h1 & Hn0 & Hrun). apply new_buf_tally in Hn0; [|done].
  apply bind_inv in Hrun as ([] & h2 & Hs0 & Hrun).
  apply store_slot_tally in Hs0; [|by eapply tally_tidy].
  apply bind_inv in Hrun as (b1 & h3 & Hn1 & Hrun).
  apply new_buf_tally in Hn1; [|by eapply tally_tidy].
  apply bind_inv in Hrun as ([] & h4 & Hs1 & Hrun).
  apply store_slot_tally in Hs1; [|by eapply tally_tidy].
  apply bind_inv in Hrun as (b0' & h4' & Hl0 & Hrun). apply load_slot_inv in Hl0 as ->.
  apply bind_inv in Hrun as ([] & h5 & Hc0 & Hrun).
  apply copy_cells_tally in Hc0 as [Hc0 Hsrc]; [|by eapply tally_tidy].
  destruct (Hsrc HB) as (l & -> & Hl).
  apply bind_inv in Hrun as (b1' & h5' & Hl1 & Hrun). apply load_slot_inv in Hl1 as ->.
  apply bind_inv in Hrun as ([] & h6 & Hc1 & Hdel).
  apply copy_cells_tally in Hc1 as [Hc1 _]; [|by eapply tally_tidy].
  apply delete_buf_tally in Hdel; [|by eapply tally_tidy|done].
  eapply tally_eq;
    [exact (tally_trans _ _ _ _ _ _ _ (tally_trans _ _ _ _ _ _ _ (tally_trans _ _ _ _ _ _ _
       (tally_trans _ _ _ _ _ _ _ (tally_trans _ _ _ _ _ _ _
       (tally_trans _ _ _ _ _ _ _ Hn0 Hs0) Hn1) Hs1) Hc0) Hc1) Hdel)
    |lia..].
Qed.
End tally_heap.

Section tally_methods.
Context {T : Type}.
Implicit Types (v : vector) (h : heap T) (s : state (T:=T)).

Lemma mem_inv {A} (m : M (heap T) A) v h a s' :
  mem m (v, h) = Done a s' → ∃ h', s' = (v, h') ∧ m h = Done a h'.
Proof.
  unfold mem, zoom. cbn [fst snd]. destruct (m h) as [a' h'| |]; [|done..].
  intros [= <- <-]. by exists h'.
Qed.

Lemma const_call_inv {A} that (m : Mv (T:=T) A) s a s' :
  const_call that m s = Done a s' → s' = s.
Proof. unfold const_call, zoom. destruct (m _); [|done..]. by intros [= _ <-]. Qed.

Lemma shl32_one_state (k : Z) s x s' : shl32_one k s = Done x s' → s' = s.
Proof. unfold shl32_one. case_bool_decide; [|done]. by intros [= _ <-]. Qed.

Lemma dir_capacity_state s D s' : dir_capacity s = Done D s' → s' = s.
Proof.
  destruct s as [v h]. unfold dir_capacity. rewrite bind_rd.
  destruct (0 <? log_buffer_capacity v); [|done].
  rewrite bind_assert by done. rewrite bind_rd. apply shl32_one_state.
Qed.

Lemma buffer_capacity_state s B s' : buffer_capacity s = Done B s' → s' = s.
Proof.
  destruct s as [v h]. unfold buffer_capacity. rewrite bind_rd. apply shl32_one_state.
Qed.

Lemma assert_valid_state s s' : assert_valid s = Done tt s' → s' = s.
Proof.
  unfold assert_valid. intros H.
  repeat first
    [ rewrite bind_bind in H
    | match type of H with
      | bind (rd _) _ ?s0 = _ => destruct s0; rewrite bind_rd in H
      | bind (assert ?b) _ _ = _ =>
          destruct b; [rewrite bind_assert in H by reflexivity|discriminate H]
      | bind dir_capacity _ _ = _ =>
          let HD := fresh "HD" in
          apply bind_inv in H as (? & ? & HD & H); apply dir_capacity_state in HD as ->
      | bind buffer_capacity _ _ = _ =>
          let HD := fresh "HD" in
          apply bind_inv in H as (? & ? & HD & H); apply buffer_capacity_state in HD as ->
      | bind (if ?b then _ else _) _ _ = _ => destruct b
      | bind (ret _) _ _ = _ => rewrite bind_ret in H
      end ].
  all: revert H; unfold assert; repeat case_match; first [by intros [= <-]|by intros [=]].
Qed.
End tally_methods.

(** One step along a run that returned: [H] is the run that is left,
    [Hacc] the tally of the heap so far. *)
Ltac tally_with Hacc Hstep :=
  let Hnew := fresh "Hacc" in
  pose proof (tally_trans _ _ _ _ _ _ _ Hacc Hstep) as Hnew;
  clear Hacc Hstep; rename Hnew into Hacc.

Ltac tally_mem H1 Hacc :=
  lazymatch type of H1 with
  | new_buf _ _ = Done _ _ =>
      apply new_buf_tally in H1; [|exact (tally_tidy _ _ _ _ Hacc)]; tally_with Hacc H1
  | new_dir _ _ = Done _ _ =>
      let Hd := fresh "Hnewdir" in
      apply new_dir_tally in H1 as [H1 Hd]; [|exact (tally_tidy _ _ _ _ Hacc)];
      tally_with Hacc H1
  | store_slot _ _ _ _ = Done _ _ =>
      apply store_slot_tally in H1; [|exact (tally_tidy _ _ _ _ Hacc)]; tally_with Hacc H1
  | store_cell _ _ _ _ = Done _ _ =>
      apply store_cell_tally in H1; [|exact (tally_tidy _ _ _ _ Hacc)]; tally_with Hacc H1
  | store_ref _ _ _ = Done _ _ =>
      unfold store_ref in H1;
      apply store_cell_tally in H1; [|exact (tally_tidy _ _ _ _ Hacc)]; tally_with Hacc H1
  | copy_slots _ _ _ _ = Done _ _ =>
      apply copy_slots_tally in H1; [|exact (tally_tidy _ _ _ _ Hacc)]; tally_with Hacc H1
  | copy_cells _ _ _ _ _ _ = Done _ _ =>
      apply copy_cells_tally in H1 as [H1 _]; [|exact (tally_tidy _ _ _ _ Hacc)];
      tally_with Hacc H1
  | load_slot _ _ _ = Done _ _ =>
      let E := fresh "Hsame" in
      pose proof (load_slot_inv _ _ _ _ _ H1) as E; subst
  | load_cell _ _ _ = Done _ _ =>
      let E := fresh "Hsame" in
      pose proof (proj1 (load_cell_inv _ _ _ _ _ H1)) as E; subst
  | load_ref _ _ = Done _ _ =>
      let E := fresh "Hsame" in
      unfold load_ref in H1;
      pose proof (proj1 (load_cell_inv _ _ _ _ _ H1)) as E; subst
  | item _ _ _ = Done _ _ =>
      let E := fresh "Hsame" in
      pose proof (item_inv _ _ _ _ _ H1) as E; subst
  | delete_dir _ _ = Done _ _ =>
      apply delete_dir_tally in H1; [|exact (tally_tidy _ _ _ _ Hacc)|done];
      tally_with Hacc H1
  | delete_buf (Some _) _ = Done _ _ =>
      apply delete_buf_tally in H1; [|exact (tally_tidy _ _ _ _ Hacc)|done];
      tally_with Hacc H1
  end.

Ltac tstep H Hacc :=
  lazymatch type of H with
  | bind (bind _ _) _ _ = Done _ _ => rewrite bind_bind in H
  | bind (rd _) _ (_, _) = Done _ _ => rewrite bind_rd in H
  | bind (wr _) _ (_, _) = Done _ _ => rewrite bind_wr in H
  | bind (ret _) _ _ = Done _ _ => rewrite bind_ret in H
  | bind (assert ?b) _ _ = Done _ _ =>
      let E := fresh "Hpass" in
      destruct b eqn:E; [rewrite bind_assert in H by reflexivity|discriminate H]
  | bind size _ _ = Done _ _ =>
      let n := fresh "n" in let s1 := fresh "s" in let H1 := fresh "Hrun" in
      apply bind_inv in H as (n & s1 & H1 & H);
      pose proof (size_state _ _ _ H1); subst s1
  | bind assert_valid _ _ = Done _ _ =>
      let s1 := fresh "s" in let H1 := fresh "Hrun" in
      apply bind_inv in H as ([] & s1 & H1 & H); apply assert_valid_state in H1 as ->
  | bind dir_capacity _ (?v, ?h) = Done _ _ =>
      first
        [ rewrite (bind_done _ _ _ _ _ (dir_capacity_run v h ltac:(fields; lia))) in H
        | let D := fresh "D" in let s1 := fresh "s" in let H1 := fresh "HD" in
          apply bind_inv in H as (D & s1 & H1 & H);
          pose proof (dir_capacity_state _ _ _ H1); subst s1 ]
  | bind buffer_capacity _ (?v, ?h) = Done _ _ =>
      first
        [ rewrite (bind_done _ _ _ _ _ (buffer_capacity_run v h ltac:(fields; lia))) in H
        | let B := fresh "B" in let s1 := fresh "s" in let H1 := fresh "HB" in
          apply bind_inv in H as (B & s1 & H1 & H);
          pose proof (buffer_capacity_state _ _ _ H1); subst s1 ]
  | bind (const_call _ _) _ _ = Done _ _ =>
      let x := fresh "x" in let s1 := fresh "s" in let H1 := fresh "Hcall" in
      apply bind_inv in H as (x & s1 & H1 & H); apply const_call_inv in H1 as ->
  | bind (mem _) _ (_, _) = Done _ _ =>
      let x := fresh "x" in let s1 := fresh "s" in let h1 := fresh "h" in
      let H1 := fresh "Hmem" in
      apply bind_inv in H as (x & s1 & H1 & H); apply mem_inv in H1 as (h1 & -> & H1);
      lazymatch type of x with unit => destruct x | _ => idtac end;
      tally_mem H1 Hacc
  end.

Ltac tsteps H Hacc := repeat tstep H Hacc.

(** A branch of the program text. *)
Ltac tbranch H E :=
  lazymatch type of H with
  | bind (if ?c then _ else _) _ _ = Done _ _ => destruct c eqn:E
  | (if ?c then _ else _) _ = Done _ _ => destruct c eqn:E
  end.

(** The last statement of a run. *)
Ltac tlast H :=
  lazymatch type of H with
  | assert ?b _ = Done _ _ =>
      let E := fresh "Hpass" in
      destruct b eqn:E; [|discriminate H]; unfold assert in H; injection H as <- <-
  | wr _ _ = Done _ _ => injection H as <- <-
  | ret _ _ = Done _ _ => injection H as <- <-
  end.

Section tally_rebuild.
Context {T : Type}.
Implicit Types (v : vector) (h : heap T) (s : state (T:=T)).

Lemma upsize_dir_tally v h v' h' :
  upsize_dir (v, h) = Done tt (v', h') → tidy h → dir v ≠ 0%nat →
  tally h 0 0 h' ∧ dir v' ≠ 0%nat ∧ held v' = held v ∧ dir_size v' = dir_size v.
Proof.
  intros H Ht Hd. pose proof (tally_refl h Ht) as Hacc. unfold upsize_dir in H.
  tsteps H Hacc. tlast H.
  split; [eapply tally_eq; [exact Hacc|lia..]|]. split; [done|]. by destruct v.
Qed.

Lemma downsize_dir_tally v h v' h' :
  downsize_dir (v, h) = Done tt (v', h') → tidy h → dir v ≠ 0%nat →
  tally h 0 0 h' ∧ dir v' ≠ 0%nat ∧ held v' = held v ∧ dir_size v' = dir_size v.
Proof.
  intros H Ht Hd. pose proof (tally_refl h Ht) as Hacc. unfold downsize_dir in H.
  tsteps H Hacc. tlast H.
  split; [eapply tally_eq; [exact Hacc|lia..]|]. split; [done|]. by destruct v.
Qed.

Lemma loop_tally (n : nat) step i (body : Z → Mv (T:=T) unit) v h v' h' (d : Z) :
  (∀ j h1 s2, body j (v, h1) = Done tt s2 → tidy h1 → s2.1 = v ∧ tally h1 d 0 s2.2) →
  tidy h →
  repeat_from n step i body (v, h) = Done tt (v', h') →
  v' = v ∧ tally h (Z.of_nat n * d) 0 h'.
Proof.
  intros Hbody Ht Hrun.
  apply (repeat_from_done (λ k s, s.1 = v ∧ tally h (Z.of_nat k * d) 0 s.2)) in Hrun.
  - done.
  - intros k j [v1 h1] s2 [Hv Hk] Hstep. cbn [fst snd] in *. subst v1.
    destruct (Hbody j h1 s2 Hstep (tally_tidy _ _ _ _ Hk)) as [Hv2 Hk2].
    split; [done|]. eapply tally_eq; [exact (tally_trans _ _ _ _ _ _ _ Hk Hk2)|lia..].
  - split; [done|]. eapply tally_eq; [by apply tally_refl|lia..].
Qed.

Lemma upsize_buffers_tally v h v' h' :
  upsize_buffers (v, h) = Done tt (v', h') → tidy h → 1 ≤ log_buffer_capacity v ≤ 29 →
  tally h (- (Dcap v / 2)) 0 h' ∧ dir v' = dir v ∧ dir_size v' = Dcap v / 2 ∧
  extra_buffer v' = false ∧ extra_buffer v = false ∧ Dcap v = 2 * (Dcap v / 2).
Proof.
  intros H Ht HL. pose proof (tally_refl h Ht) as Hacc. unfold upsize_buffers in H.
  pose proof (caps_facts v HL) as Hcaps.
  tsteps H Hacc.
  apply bind_inv in H as ([] & [v1 h1] & Hloop & H).
  apply (loop_tally _ _ _ _ _ _ _ _ (-1)) in Hloop as [-> Hloop]; [| |done].
  2: { intros j h2 s2 Hstep Ht2. rewrite bind_rd in Hstep.
       apply mem_inv in Hstep as (h3 & -> & Hstep). split; [done|].
       apply merge_pair_tally in Hstep; [done|done|]. caps_simpl. lia. }
  tsteps H Hacc. tlast H. fields.
  assert (Heven : Dcap v = 2 * (Dcap v / 2)).
  { match goal with Hp : (Z.land _ 1 =? 0) = true |- _ => apply Z.eqb_eq in Hp;
      change 1 with (Z.ones 1) in Hp; rewrite Z.land_ones in Hp by lia;
      change (2 ^ 1) with 2 in Hp; revert Hp end.
    unfold Dcap. fields. intros Hp.
    pose proof (Z.div_mod (2 ^ (log_buffer_capacity v - b2z (big_buffer v))) 2 ltac:(lia)).
    lia. }
  split.
  { eapply tally_eq; [exact (tally_trans _ _ _ _ _ _ _ Hacc Hloop)|..]; [|lia].
    rewrite Z2Nat.id by (apply Z.div_pos; lia).
    replace ((Dcap v + 1) / 2) with (Dcap v / 2); [lia|].
    rewrite Heven at 2. rewrite (Z.mul_comm 2), Z.div_add_l by lia.
    change (1 / 2) with 0. lia. }
  assert (He : extra_buffer v = false).
  { match goal with Hp : negb (extra_buffer v) = true |- _ =>
      by destruct (extra_buffer v) end. }
  done.
Qed.

Lemma downsize_buffers_tally v h v' h' :
  downsize_buffers (v, h) = Done tt (v', h') → tidy h →
  1 ≤ log_buffer_capacity v ≤ 29 → 1 ≤ dir_size v ≤ 2 ^ 29 →
  (∃ p, load_slot (dir v) (dir_size v - 1) h = Done (Some p) h ∧ p ≠ 0%nat) →
  tally h (dir_size v - 1) 0 h' ∧ dir v' = dir v ∧ dir_size v' = 2 * dir_size v - 1 ∧
  extra_buffer v' = false ∧ extra_buffer v = false.
Proof.
  intros H Ht HL Hds (p & Hlast & Hp). pose proof (tally_refl h Ht) as Hacc.
  unfold downsize_buffers in H.
  pose proof (caps_facts v HL) as Hcaps.
  tsteps H Hacc.
  match goal with Hm : load_slot _ _ _ = Done ?x _ |- _ =>
    rewrite wrap32_small in Hm by lia; rewrite Hlast in Hm; injection Hm as <- end.
  tsteps H Hacc.
  apply bind_inv in H as ([] & [v1 h1] & Hloop & H).
  apply (loop_tally _ _ _ _ _ _ _ _ 1) in Hloop as [-> Hloop];
    [| |exact (tally_tidy _ _ _ _ Hacc)].
  2: { intros j h2 s2 Hstep Ht2. pose proof (tally_refl h2 Ht2) as Hacc2.
       tsteps Hstep Hacc2.
       apply mem_inv in Hstep as (h3 & -> & Hstep). split; [done|].
       apply split_buffer_tally in Hstep; [done|done|].
       unfold Bcap. rewrite (pow2_pred (log_buffer_capacity v)) by lia.
       rewrite Z.mul_comm, Z.div_mul by lia.
       pose proof (pow2_pos (log_buffer_capacity v - 1) ltac:(lia)). lia. }
  tally_with Hacc Hloop. tsteps H Hacc.
  tlast H. fields.
  assert (He : extra_buffer v = false).
  { match goal with Hp : negb (extra_buffer v) = true |- _ =>
      by destruct (extra_buffer v) end. }
  split.
  { eapply tally_eq; [exact Hacc|..]; lia. }
  split; [done|]. split; [|done]. unwrap. lia.
Qed.

Lemma upsize_tally v h v' h' :
  upsize (v, h) = Done tt (v', h') → tidy h →
  1 ≤ log_buffer_capacity v ≤ 29 → dir v ≠ 0%nat → dir_size v = Dcap v →
  tally h (dir_size v' - dir_size v) 0 h' ∧ dir v' ≠ 0%nat ∧
  0 ≤ dir_size v' ≤ dir_size v ∧ extra_buffer v' = extra_buffer v.
Proof.
  intros H Ht HL Hd Hfull. pose proof (caps_facts v HL) as Hcaps. pose proof (tally_refl h Ht) as Hacc. unfold upsize in H.
  tsteps H Hacc.
  apply bind_inv in H as ([] & [v1 h1] & Hstep & H).
  tsteps H Hacc. tlast H.
  destruct (big_buffer v).
  - apply upsize_dir_tally in Hstep as (Hstep & ? & Hheld & Hds); [|done..].
    split; [|split; [done|split; [lia|]]].
    + eapply tally_eq; [exact Hstep|lia..].
    + unfold held in Hheld. rewrite Hds in Hheld.
      destruct (extra_buffer v1), (extra_buffer v); cbn [b2z] in Hheld; first [done|lia].
  - apply upsize_buffers_tally in Hstep as (Hstep & Hdir & Hds & He' & He & Heven);
      [|done..].
    split; [|split; [congruence|split; [lia|congruence]]].
    eapply tally_eq; [exact Hstep|lia..].
Qed.

Lemma downsize_tally v h v' h' :
  downsize (v, h) = Done tt (v', h') → tidy h →
  1 ≤ log_buffer_capacity v ≤ 29 → 1 ≤ dir_size v ≤ 2 ^ 29 → dir v ≠ 0%nat →
  (big_buffer v = true →
   ∃ p, load_slot (dir v) (dir_size v - 1) h = Done (Some p) h ∧ p ≠ 0%nat) →
  tally h (held v' - held v) 0 h' ∧ dir v' ≠ 0%nat.
Proof.
  intros H Ht HL Hds Hd Hlast. pose proof (tally_refl h Ht) as Hacc. unfold downsize in H.
  tsteps H Hacc.
  apply bind_inv in H as ([] & [v1 h1] & Hstep & H).
  tsteps H Hacc. tlast H.
  destruct (big_buffer v).
  - apply downsize_buffers_tally in Hstep as (Hstep & Hdir & Hds' & He' & He);
      [|by auto..].
    split; [|congruence]. eapply tally_eq; [exact Hstep| |lia].
    unfold held. rewrite He, He', Hds'. cbn [b2z]. lia.
  - apply downsize_dir_tally in Hstep as (Hstep & ? & Hheld & _); [|done..].
    split; [|done]. eapply tally_eq; [exact Hstep|lia..].
Qed.

Lemma push_back_tally v h ptrs bs x v' h' :
  push_back x (v, h) = Done tt (v', h') → shape v h ptrs bs → tidy h →
  tally h (held v' - held v) 0 h'.
Proof.
  intros H Hsh Ht. pose proof (tally_refl h Ht) as Hacc.
  pose proof (shape_wf _ _ _ _ Hsh) as Hwf.
  pose proof (shape_dir _ _ _ _ Hsh) as Hdir. caps v.
  unfold push_back in H. tsteps H Hacc. fields.
  tbranch H Hfull.
  2: { tsteps H Hacc. tlast H. eapply tally_eq; [exact Hacc| |lia].
       unfold held. fields. lia. }
  tsteps H Hacc. fields. tbranch H He.
  2: { tsteps H Hacc. tlast H. eapply tally_eq; [exact Hacc| |lia].
       unfold held. fields. destruct (extra_buffer v); [|done]. cbn [b2z]. unwrap. lia. }
  assert (He' : extra_buffer v = false) by (by destruct (extra_buffer v)).
  tsteps H Hacc. fields. tbranch H Hdfull.
  - apply bind_inv in H as ([] & [v2 h2] & Hup & H).
    apply Z.eqb_eq in Hdfull.
    apply upsize_tally in Hup as (Hup & Hd2 & Hds2 & He2);
      [|exact (tally_tidy _ _ _ _ Hacc)|fields; lia|done|exact Hdfull].
    fields. tally_with Hacc Hup. tsteps H Hacc. tlast H.
    eapply tally_eq; [exact Hacc| |lia].
    unfold held. fields. rewrite He'. cbn [b2z]. unwrap. lia.
  - tsteps H Hacc. tlast H. eapply tally_eq; [exact Hacc| |lia].
    unfold held. fields. rewrite He'. cbn [b2z]. unwrap. lia.
Qed.

Lemma shape_slot v h ptrs bs i :
  shape v h ptrs bs → 0 ≤ i < held v →
  ∃ p, load_slot (dir v) i h = Done (Some p) h ∧ p ≠ 0%nat.
Proof.
  intros Hsh Hi. destruct Hsh as (_ & Hown & Hlen).
  destruct (lookup_lt_is_Some_2 ptrs (Z.to_nat i)) as [p Hp]; [lia|].
  exists p. split.
  - pose proof (owns_load h (dir v) _ _ ptrs bs _ p Hown Hp) as Hload.
    by rewrite Z2Nat.id in Hload by lia.
  - destruct Hown as (_ & _ & _ & [_ Hall] & _).
    rewrite Forall_forall in Hall. apply (Hall p). by eapply list_elem_of_lookup_2.
Qed.

Lemma pop_back_shrink_tally v h ptrs bs v' h' :
  pop_back_shrink (v, h) = Done tt (v', h') → shape v h ptrs bs → tidy h →
  tally h (held v' - held v) 0 h'.
Proof.
  intros H Hsh Ht. pose proof (tally_refl h Ht) as Hacc.
  pose proof (shape_wf _ _ _ _ Hsh) as Hwf. caps v.
  unfold pop_back_shrink in H. tsteps H Hacc. tbranch H Hempty.
  - tsteps H Hacc. tlast H. eapply tally_eq; [exact Hacc| |lia].
    unfold held. fields. destruct (extra_buffer v); [done|]. cbn [b2z]. unwrap. lia.
  - tsteps H Hacc. fields. tbranch H Hlast.
    + apply andb_true_iff in Hlast as [_ He].
      destruct (shape_slot v h ptrs bs (dir_size v) Hsh) as (p & Hload & Hp);
        [unfold held; rewrite He; cbn [b2z]; lia|].
      tsteps H Hacc. fields.
      match goal with Hm : load_slot _ _ _ = Done ?x _ |- _ =>
        is_var x; rewrite Hload in Hm; injection Hm as <- end.
      tsteps H Hacc. tlast H. eapply tally_eq; [exact Hacc| |lia].
      unfold held. fields. rewrite He. cbn [b2z]. lia.
    + tlast H. eapply tally_eq; [exact Hacc| |lia]. unfold held. fields. lia.
Qed.

Lemma pop_back_tally v h ptrs bs v' h' :
  pop_back (v, h) = Done tt (v', h') → shape v h ptrs bs → settled v → tidy h →
  tally h (held v' - held v) 0 h'.
Proof.
  intros H Hsh Hset Ht. pose proof (tally_refl h Ht) as Hacc.
  pose proof (shape_wf _ _ _ _ Hsh) as Hwf.
  unfold pop_back in H. tsteps H Hacc.
  apply bind_inv in H as ([] & [v1 h1] & Hshrink & H).
  assert (Hpos : 0 < sz v).
  { match goal with Hs : size (v, h) = Done ?n _, Hp : (0 <? ?n) = true |- _ =>
      rewrite (size_run v h Hwf) in Hs; injection Hs as <-; by apply Z.ltb_lt end. }
  assert (wp pop_back_shrink (v, h) (λ _ s, ∃ ptrs1 bs1, shape s.1 s.2 ptrs1 bs1)) as Hwp.
  { eapply (wp_pop_back_shrink v h ptrs bs); [done..|].
    intros h1' ptrs1 bs1 Hsh1 _ _ _ _ _. by exists ptrs1, bs1. }
  apply wp_elim in Hwp as ([] & s1 & Hrun1 & ptrs1 & bs1 & Hsh1).
  rewrite Hshrink in Hrun1. injection Hrun1 as <-. cbn [fst snd] in Hsh1.
  pose proof (pop_back_shrink_tally _ _ _ _ _ _ Hshrink Hsh Ht) as Hs.
  tally_with Hacc Hs.
  pose proof (shape_wf _ _ _ _ Hsh1) as Hwf1.
  pose proof (shape_dir _ _ _ _ Hsh1) as Hdir1. caps v1.
  tsteps H Hacc. tbranch H Htest.
  - tsteps H Hacc.
    apply bind_inv in H as ([] & [v2 h2] & Hdown & H).
    apply downsize_tally in Hdown as (Hdown & Hd2);
      [|exact (tally_tidy _ _ _ _ Hacc)|lia|lia|done|].
    2: { intros _. apply (shape_slot v1 h1 ptrs1 bs1); [done|].
         unfold held. destruct (extra_buffer v1); cbn [b2z]; lia. }
    tally_with Hacc Hdown. tsteps H Hacc. tlast H.
    eapply tally_eq; [exact Hacc|lia..].
  - tsteps H Hacc. tlast H. eapply tally_eq; [exact Hacc|lia..].
Qed.

Lemma put_tally v h i x v' h' :
  put i x (v, h) = Done tt (v', h') → tidy h → v' = v ∧ tally h 0 0 h'.
Proof.
  intros H Ht. pose proof (tally_refl h Ht) as Hacc.
  unfold put, index, pget in H. tsteps H Hacc.
  apply mem_inv in H as (h1 & [= <- ->] & H). unfold store_ref in H.
  apply store_cell_tally in H; [|exact (tally_tidy _ _ _ _ Hacc)].
  split; [done|]. eapply tally_eq; [exact (tally_trans _ _ _ _ _ _ _ Hacc H)|lia..].
Qed.

Lemma construct_with_inv v (body : Mv (T:=T) unit) h v' h' :
  construct_with v body h = Done v' h' → body (v, h) = Done tt (v', h').
Proof.
  unfold construct_with. destruct (body (v, h)) as [[] [v1 h1]| |]; [|done..].
  by intros [= <- <-].
Qed.

Lemma eval_on_inv {A} v (m : Mv (T:=T) A) h a h' :
  eval_on v m h = Done a h' → ∃ s, m (v, h) = Done a s ∧ h' = s.2.
Proof.
  unfold eval_on, zoom. destruct (m (v, h)) as [a' s| |]; [|done..].
  intros [= <- <-]. by exists s.
Qed.

Lemma construct_tally that v h v' h' :
  construct that (v, h) = Done tt (v', h') → tidy h → 0 ≤ dir_size v →
  v' = v ∧ tally h (held v) 0 h'.
Proof.
  intros H Ht Hds. pose proof (tally_refl h Ht) as Hacc. unfold construct in H.
  tsteps H Hacc.
  apply bind_inv in H as ([] & [v1 h1] & Hloop & H).
  apply (loop_tally _ _ _ _ _ _ _ _ 1) in Hloop as [-> Hloop]; [| |done].
  2: { intros j h2 s2 Hstep Ht2. pose proof (tally_refl h2 Ht2) as Hacc2.
       tsteps Hstep Hacc2.
       apply mem_inv in Hstep as (hend & -> & Hstep). split; [done|].
       apply copy_cells_tally in Hstep as [Hstep _]; [|exact (tally_tidy _ _ _ _ Hacc2)].
       eapply tally_eq; [exact (tally_trans _ _ _ _ _ _ _ Hacc2 Hstep)|lia..]. }
  tally_with Hacc Hloop. tsteps H Hacc. tbranch H He.
  - tsteps H Hacc. apply assert_valid_state in H as [= <- <-].
    split; [done|]. eapply tally_eq; [exact Hacc| |lia].
    unfold held. rewrite He. cbn [b2z]. lia.
  - tsteps H Hacc. apply assert_valid_state in H as [= <- <-].
    split; [done|]. eapply tally_eq; [exact Hacc| |lia].
    unfold held. rewrite He. cbn [b2z]. lia.
Qed.

Lemma vector_new_tally h v h' :
  vector_new h = Done v h' → tidy h → tally h 1 1 h' ∧ held v = 1.
Proof.
  intros H Ht. unfold vector_new in H.
  apply bind_inv in H as (d & h1 & Hdir & H).
  apply new_dir_tally in Hdir as [Hacc Hd]; [|done].
  apply construct_with_inv in H. tsteps H Hacc.
  apply assert_valid_state in H as [= -> ->].
  split; [|done]. eapply tally_eq; [exact Hacc|lia..].
Qed.

Lemma vector_copy_tally that h v h' :
  vector_copy that h = Done v h' → tidy h → 0 ≤ dir_size that →
  tally h (held that) 1 h' ∧ held v = held that.
Proof.
  intros H Ht Hds. unfold vector_copy in H.
  apply bind_inv in H as (cap & h0 & Hcap & H).
  apply eval_on_inv in Hcap as (s & Hcap & ->).
  apply dir_capacity_state in Hcap as ->. cbn [snd] in H.
  apply bind_inv in H as (d & h1 & Hdir & H).
  apply new_dir_tally in Hdir as [Hacc Hd]; [|done].
  apply construct_with_inv in H.
  apply construct_tally in H as [-> H]; [|exact (tally_tidy _ _ _ _ Hacc)|done].
  split; [|done]. eapply tally_eq; [exact (tally_trans _ _ _ _ _ _ _ Hacc H)|..].
  - unfold held. fields. lia.
  - lia.
Qed.

Lemma size_removed {A} (ptrs : list loc) : ∀ (m m' : gmap loc A),
  NoDup ptrs → (∀ l, l ∈ ptrs → is_Some (m !! l)) →
  (∀ l, l ∉ ptrs → m' !! l = m !! l) → (∀ l, l ∈ ptrs → m' !! l = None) →
  base.size m = (base.size m' + length ptrs)%nat.
Proof.
  induction ptrs as [|p ptrs IH]; intros m m' Hnd Hin Hout Hgone.
  - assert (m' = m) as ->; [|cbn; lia].
    apply map_eq. intros l. apply Hout. set_solver.
  - apply NoDup_cons in Hnd as [Hp Hnd].
    assert (Hpin : is_Some (m !! p)) by (apply Hin; set_solver).
    assert (IH' : base.size (delete p m) = (base.size m' + length ptrs)%nat).
    { apply IH; [done| | |].
      + intros l Hl. rewrite lookup_delete_ne by set_solver. apply Hin. set_solver.
      + intros l Hl. destruct (decide (l = p)) as [->|Hne].
        * rewrite lookup_delete_eq. apply Hgone. set_solver.
        * rewrite lookup_delete_ne by done. apply Hout. set_solver.
      + intros l Hl. apply Hgone. set_solver. }
    rewrite map_size_delete_Some in IH' by done.
    pose proof (map_size_ne_0_lookup_2 m p Hpin). cbn [length].
    destruct (base.size m); [done|cbn [Init.Nat.pred] in IH'; lia].
Qed.

Lemma destuct_tally v h ptrs bs :
  shape v h ptrs bs → tidy h →
  ∃ h', destuct (v, h) = Done tt (v, h') ∧ tally h (- held v) (-1) h'.
Proof.
  intros Hsh [Hpos Hb].
  destruct (destuct_run v h ptrs bs Hsh) as (h' & Hrun & Hnext & Hdirs & Hout & Hgone).
  exists h'. split; [done|].
  assert (Hlen : Z.of_nat (length ptrs) = held v) by apply Hsh.
  assert (Hnd : NoDup ptrs) by apply Hsh.
  split; [|split].
  - split; [lia|]. intros l [Hl|Hl]; rewrite Hnext; apply Hb.
    + left. destruct (decide (l ∈ ptrs)) as [Hin|Hin].
      * rewrite (Hgone l Hin) in Hl. by destruct Hl.
      * by rewrite <- (Hout l Hin).
    + right. rewrite Hdirs in Hl. destruct (decide (l = dir v)) as [->|Hne].
      * rewrite lookup_delete_eq in Hl. by destruct Hl.
      * by rewrite lookup_delete_ne in Hl.
  - unfold nbufs.
    rewrite (size_removed ptrs (bufs h) (bufs h')); [lia|done| |done|done].
    intros l Hl. by eapply shape_buf_in.
  - unfold ndirs. rewrite Hdirs.
    pose proof (shape_dir_in _ _ _ _ Hsh) as Hin.
    rewrite map_size_delete_Some by done.
    pose proof (map_size_ne_0_lookup_2 (dirs h) (dir v) Hin).
    destruct (base.size (dirs h)); [done|cbn [Init.Nat.pred]; lia].
Qed.

Lemma get_state i s c s' : get i s = Done c s' → s' = s.
Proof.
  destruct s as [v h]. intros H. unfold get, index, pget in H.
  apply bind_inv in H as (r & s1 & Hp & H).
  assert (s1 = (v, h)) as ->.
  { clear H. pose proof I as Hacc.
    repeat first
      [ rewrite bind_bind in Hp
      | rewrite bind_rd in Hp
      | match type of Hp with
        | bind (assert ?b) _ _ = _ =>
            destruct b; [rewrite bind_assert in Hp by reflexivity|discriminate Hp]
        | bind assert_valid _ _ = _ =>
            let E := fresh in
            apply bind_inv in Hp as ([] & ? & E & Hp); apply assert_valid_state in E as ->
        | bind size _ _ = _ =>
            let E := fresh in
            apply bind_inv in Hp as (? & ? & E & Hp); apply size_state in E as ->
        | bind buffer_capacity _ _ = _ =>
            let E := fresh in
            apply bind_inv in Hp as (? & ? & E & Hp); apply buffer_capacity_state in E as ->
        | bind (mem (load_slot _ _)) _ _ = _ =>
            let E := fresh in
            apply bind_inv in Hp as (? & ? & E & Hp); apply mem_inv in E as (? & -> & E);
            apply load_slot_inv in E as ->
        end ].
    apply mem_inv in Hp as (? & -> & Hp). by apply item_inv in Hp as ->. }
  apply mem_inv in H as (? & -> & H). unfold load_ref in H.
  by apply load_cell_inv in H as [-> _].
Qed.
End tally_rebuild.

Section tally_store.
Context {T : Type}.
Implicit Types (st : store T) (os : gmap nat vector) (v : vector) (h : heap T).

Lemma buffers_held_empty : buffers_held ∅ = 0.
Proof. unfold buffers_held. by rewrite map_fold_empty. Qed.

Lemma buffers_held_insert os o v :
  os !! o = None → buffers_held (<[o := v]> os) = held v + buffers_held os.
Proof.
  intros Ho. unfold buffers_held. rewrite map_fold_insert_L; [done| |done].
  intros. lia.
Qed.

Lemma buffers_held_delete os o v :
  os !! o = Some v → buffers_held os = held v + buffers_held (delete o os).
Proof.
  intros Ho. unfold buffers_held. rewrite (map_fold_delete_L _ _ o v os); [done| |done].
  intros. lia.
Qed.

Lemma buffers_held_update os o v v' :
  os !! o = Some v → buffers_held (<[o := v']> os) = buffers_held os - held v + held v'.
Proof.
  intros Ho. rewrite <- insert_delete_eq.
  rewrite buffers_held_insert by apply lookup_delete_eq.
  rewrite (buffers_held_delete os o v Ho). lia.
Qed.

Lemma no_garbage_update st o v v' h' db :
  no_garbage st → objs st !! o = Some v → tally (hp st) db 0 h' → db = held v' - held v →
  no_garbage (Store (<[o := v']> (objs st)) h').
Proof.
  intros (Ht & Hb & Hd) Ho (Ht' & Hb' & Hd') ->. split; [done|]. cbn [objs hp]. split.
  - rewrite (buffers_held_update _ _ _ _ Ho). lia.
  - rewrite map_size_insert_Some by (by rewrite Ho). lia.
Qed.

Lemma no_garbage_same st o v :
  no_garbage st → objs st !! o = Some v → no_garbage (Store (<[o := v]> (objs st)) (hp st)).
Proof.
  intros Hng Ho. rewrite insert_id by done. by destruct st.
Qed.

Lemma alloc_run_inv {A} (m : M (heap T) A) st x st' :
  alloc m st = Done x st' → ∃ h', m (hp st) = Done x h' ∧ st' = Store (objs st) h'.
Proof.
  unfold alloc, zoom. destruct (m (hp st)) as [a h'| |]; [|done..].
  intros [= <- <-]. by exists h'.
Qed.

Lemma declare_run_inv o v st st' :
  declare o v st = Done tt st' →
  objs st !! o = None ∧ st' = Store (<[o := v]> (objs st)) (hp st).
Proof.
  unfold declare. destruct (objs st !! o); [done|]. by intros [= <-].
Qed.

Lemma no_garbage_declare st o v h' :
  no_garbage st → objs st !! o = None → tally (hp st) (held v) 1 h' →
  no_garbage (Store (<[o := v]> (objs st)) h').
Proof.
  intros (Ht & Hb & Hd) Ho (Ht' & Hb' & Hd'). split; [done|]. cbn [objs hp]. split.
  - rewrite (buffers_held_insert _ _ _ Ho). lia.
  - rewrite map_size_insert_None by done. lia.
Qed.

Lemma no_garbage_forget st o v h' :
  no_garbage st → objs st !! o = Some v → tally (hp st) (- held v) (-1) h' →
  no_garbage (Store (delete o (objs st)) h').
Proof.
  intros (Ht & Hb & Hd) Ho (Ht' & Hb' & Hd'). split; [done|]. cbn [objs hp]. split.
  - rewrite (buffers_held_delete _ _ _ Ho) in Hb. lia.
  - rewrite map_size_delete_Some by (by rewrite Ho).
    pose proof (map_size_ne_0_lookup_2 (objs st) o (mk_is_Some _ _ Ho)).
    destruct (base.size (objs st)); [done|cbn [Init.Nat.pred]; lia].
Qed.

Lemma no_garbage_start : no_garbage (empty_store (T:=T)).
Proof.
  split; [|split].
  - split; [cbn; lia|]. intros l [Hl|Hl]; cbn in Hl; rewrite lookup_empty in Hl;
      by destruct Hl.
  - unfold nbufs. cbn. by rewrite buffers_held_empty, map_size_empty.
  - unfold ndirs. cbn. by rewrite !map_size_empty.
Qed.

Lemma bind_on_rd {A B} (f : vector → A) (k : A → M (store T) B) o os h v :
  os !! o = Some v → bind (on o (rd f)) k (Store os h) = k (f v) (Store os h).
Proof.
  intros Ho. unfold bind, on. cbn [objs hp]. rewrite Ho. cbn. by rewrite insert_id.
Qed.

Lemma bind_on_wr {B} (f : vector → vector) (k : unit → M (store T) B) o os h v :
  os !! o = Some v →
  bind (on o (wr f)) k (Store os h) = k tt (Store (<[o := f v]> os) h).
Proof. intros Ho. unfold bind, on. cbn [objs hp]. by rewrite Ho. Qed.

Lemma bind_on_same {A B} (m : Mv (T:=T) A) (k : A → M (store T) B) o os h v x h' :
  os !! o = Some v → m (v, h) = Done x (v, h') →
  bind (on o m) k (Store os h) = k x (Store os h').
Proof.
  intros Ho Hm. unfold bind, on. cbn [objs hp]. rewrite Ho, Hm. cbn.
  by rewrite insert_id.
Qed.

Lemma assign_tally this that os h v tv ptrs bs st' :
  assign this that (Store os h) = Done tt st' →
  os !! this = Some v → os !! that = Some tv →
  shape v h ptrs bs → wf tv → tidy h →
  ∃ v' h', st' = Store (<[this := v']> os) h' ∧
           tally h (held v' - held v) 0 h'.
Proof.
  intros H Hthis Hthat Hsh Hwft Ht.
  destruct (destuct_tally v h ptrs bs Hsh Ht) as (h1 & Hdes & Hacc).
  pose proof (wf_log _ Hwft) as HLt. pose proof (wf_dir_size _ Hwft) as Hdst.
  unfold assign in H.
  rewrite (bind_on_same _ _ _ _ _ _ _ _ Hthis Hdes) in H.
  rewrite (bind_on_same _ _ _ _ _ _ _ _ Hthat (dir_capacity_run tv h1 ltac:(lia))) in H.
  apply bind_inv in H as (d & st1 & Hnew & H).
  apply alloc_run_inv in Hnew as (h2 & Hnew & ->). cbn [objs hp] in *.
  apply new_dir_tally in Hnew as [Hnew Hd]; [|exact (tally_tidy _ _ _ _ Hacc)].
  tally_with Hacc Hnew.
  assert (Hfin : ∃ vf thatv,
            on this (construct thatv) (Store (<[this := vf]> os) h2) = Done tt st' ∧
            dir_size vf = dir_size tv ∧ extra_buffer vf = extra_buffer tv).
  { destruct (decide (that = this)) as [->|Hne].
    - assert (tv = v) as -> by congruence.
      repeat first
        [ erewrite bind_on_wr in H
            by first [apply lookup_insert_eq|eassumption];
          rewrite ?insert_insert_eq in H
        | erewrite bind_on_rd in H
            by first [apply lookup_insert_eq|eassumption] ].
      eexists _, _. split; [exact H|]. by destruct v.
    - repeat first
        [ erewrite bind_on_wr in H
            by first [apply lookup_insert_eq|eassumption];
          rewrite ?insert_insert_eq in H
        | erewrite bind_on_rd in H
            by (rewrite ?lookup_insert_ne by done; eassumption) ].
      eexists _, _. split; [exact H|]. by destruct v. }
  destruct Hfin as (vf & thatv & Hfin & Hds & He).
  apply on_inv in Hfin as (w & [v' h'] & Hw & Hm & ->). cbn [objs hp fst snd] in *.
  rewrite lookup_insert_eq in Hw. injection Hw as <-.
  apply construct_tally in Hm as [-> Hm]; [|exact (tally_tidy _ _ _ _ Hacc)|lia].
  exists vf, h'. split; [by rewrite insert_insert_eq|].
  eapply tally_eq; [exact (tally_trans _ _ _ _ _ _ _ Hacc Hm)|lia..].
Qed.

Lemma exec_no_garbage (c : call T) st r st' :
  reachable st → exec c st = Done r st' → no_garbage st → no_garbage st'.
Proof.
  intros Hreach H Hng. pose proof Hng as (Ht & _).
  destruct c as [o|o that|o that|o|o x|o|o|o i|o i x]; cbn [exec] in H.
  - (* vector<T> o; *)
    apply bind_inv in H as ([] & st1 & H & [= _ <-]). unfold declare_default in H.
    apply bind_inv in H as (v & st2 & Hnew & H).
    apply alloc_run_inv in Hnew as (h' & Hnew & ->).
    apply declare_run_inv in H as [Ho ->]. cbn [objs hp] in *.
    apply vector_new_tally in Hnew as [Hnew Hheld]; [|done].
    apply no_garbage_declare; [done|done|]. by rewrite Hheld.
  - (* vector<T> o(that); *)
    apply bind_inv in H as ([] & st1 & H & [= _ <-]). unfold declare_copy in H.
    apply bind_inv in H as (tv & st2 & Hrd & H).
    apply on_inv in Hrd as (w & s & Hthat & Hrd & ->). injection Hrd as <- <-.
    cbn [fst snd] in H. rewrite insert_id in H by done.
    destruct (reachable_shape st that w Hreach Hthat) as (ptrs & bs & Hsh & _).
    pose proof (wf_dir_size _ (shape_wf _ _ _ _ Hsh)).
    apply bind_inv in H as (v & st3 & Hnew & H).
    apply alloc_run_inv in Hnew as (h' & Hnew & ->). destruct st as [os h].
    apply declare_run_inv in H as [Ho ->]. cbn [objs hp] in *.
    apply vector_copy_tally in Hnew as [Hnew Hheld]; [|done|lia].
    apply (no_garbage_declare (Store os h)); [done|done|]. by rewrite Hheld.
  - (* o = that; *)
    apply bind_inv in H as ([] & st1 & H & [= _ <-]). destruct st as [os h].
    cbn [objs hp] in *.
    assert (∃ v, os !! o = Some v) as [v Ho].
    { unfold assign in H. apply bind_inv in H as (? & ? & H & _).
      apply on_inv in H as (v & _ & Ho & _). by exists v. }
    assert (∃ tv, os !! that = Some tv) as [tv Hthat].
    { destruct (os !! that) as [tv|] eqn:E; [by exists tv|]. exfalso.
      destruct (reachable_shape _ o v Hreach Ho) as (ptrs & bs & Hsh & _).
      destruct (destuct_tally v h ptrs bs Hsh Ht) as (h1 & Hdes & _).
      unfold assign in H. rewrite (bind_on_same _ _ _ _ _ _ _ _ Ho Hdes) in H.
      apply bind_inv in H as (? & ? & H & _).
      apply on_inv in H as (? & ? & Hl & _). cbn [objs] in Hl. congruence. }
    destruct (reachable_shape _ o v Hreach Ho) as (ptrs & bs & Hsh & _).
    destruct (reachable_shape _ that tv Hreach Hthat) as (tptrs & tbs & Htsh & _).
    destruct (assign_tally o that os h v tv ptrs bs st1 H Ho Hthat Hsh
                (shape_wf _ _ _ _ Htsh) Ht) as (v' & h' & -> & Htally).
    exact (no_garbage_update (Store os h) o v v' h' _ Hng Ho Htally eq_refl).
  - (* the end of the lifetime of o *)
    apply bind_inv in H as ([] & st1 & H & [= _ <-]). unfold destroy in H.
    apply bind_inv in H as ([] & st2 & Hdes & [= <-]).
    apply on_inv in Hdes as (v & s & Ho & Hdes & ->).
    destruct (reachable_shape st o v Hreach Ho) as (ptrs & bs & Hsh & _).
    destruct (destuct_tally v (hp st) ptrs bs Hsh Ht) as (h1 & Hrun & Htally).
    rewrite Hrun in Hdes. injection Hdes as <-. cbn [objs hp fst snd].
    rewrite delete_insert_eq. by apply (no_garbage_forget st o v).
  - (* o.push_back(x) *)
    apply bind_inv in H as ([] & st1 & H & [= _ <-]).
    apply on_inv in H as (v & [v' h'] & Ho & H & ->).
    destruct (reachable_shape st o v Hreach Ho) as (ptrs & bs & Hsh & _).
    apply (no_garbage_update st o v v' h' _ Hng Ho (push_back_tally _ _ _ _ _ _ _ H Hsh Ht)).
    done.
  - (* o.pop_back() *)
    apply bind_inv in H as ([] & st1 & H & [= _ <-]).
    apply on_inv in H as (v & [v' h'] & Ho & H & ->).
    destruct (reachable_shape st o v Hreach Ho) as (ptrs & bs & Hsh & Hset).
    apply (no_garbage_update st o v v' h' _ Hng Ho
             (pop_back_tally _ _ _ _ _ _ H Hsh Hset Ht)).
    done.
  - (* o.size() *)
    apply bind_inv in H as (n & st1 & H & [= _ <-]).
    apply on_inv in H as (v & s & Ho & H & ->). apply size_state in H as ->.
    by apply no_garbage_same.
  - (* o[i] *)
    apply bind_inv in H as (n & st1 & H & [= _ <-]).
    apply on_inv in H as (v & s & Ho & H & ->). apply get_state in H as ->.
    by apply no_garbage_same.
  - (* o[i] = x *)
    apply bind_inv in H as ([] & st1 & H & [= _ <-]).
    apply on_inv in H as (v & [v' h'] & Ho & H & ->).
    apply put_tally in H as [-> H]; [|done].
    apply (no_garbage_update st o v v h' 0 Hng Ho H). lia.
Qed.

Lemma steps_no_garbage st cs rs st' :
  steps st cs rs st' → reachable st → no_garbage st → no_garbage st'.
Proof.
  induction 1 as [st|st c r st1 cs rs st' Hin Hrun Hrest IH]; intros Hreach Hng; [done|].
  apply IH.
  - by eapply reachable_step.
  - by eapply exec_no_garbage.
Qed.
End tally_store.

(** ** Every block has an owner *)

Section owners.
Context {T : Type}.
Implicit Types (st : store T) (os : gmap nat vector) (v : vector) (h : heap T).

(** Blocks that are counted by their owners, each owner's blocks being
    among them, and no two owners sharing one, all have an owner. *)
Lemma counted_have_owner (own : nat → list loc) (w : vector → Z) os : ∀ (B : gset loc),
  (∀ o v, os !! o = Some v →
     NoDup (own o) ∧ Z.of_nat (length (own o)) = w v ∧ ∀ l, l ∈ own o → l ∈ B) →
  (∀ o1 o2 v1 v2, o1 ≠ o2 → os !! o1 = Some v1 → os !! o2 = Some v2 →
     ∀ l, l ∈ own o1 → l ∉ own o2) →
  Z.of_nat (base.size B) = map_fold (λ _ v n, w v + n) 0 os →
  ∀ l, l ∈ B → ∃ o v, os !! o = Some v ∧ l ∈ own o.
Proof.
  induction os as [|i x m Hi IH] using map_ind; intros B Hown Hapart Hcount l Hl.
  - rewrite map_fold_empty in Hcount.
    assert (B ≡ ∅) as HB by (apply size_empty_iff; lia).
    set_solver.
  - rewrite map_fold_insert_L in Hcount; [|intros; lia|done].
    destruct (Hown i x (lookup_insert_eq _ _ _)) as (Hnd & Hlen & Hin).
    destruct (decide (l ∈ own i)) as [Hli|Hli].
    { exists i, x. split; [apply lookup_insert_eq|done]. }
    destruct (IH (B ∖ list_to_set (own i))) with (l := l) as (o & v & Ho & Hlo).
    + intros o v Ho. assert (o ≠ i) by congruence.
      destruct (Hown o v) as (? & ? & Hsub); [by rewrite lookup_insert_ne|].
      split; [done|]. split; [done|]. intros l' Hl'.
      apply elem_of_difference. split; [by apply Hsub|].
      rewrite elem_of_list_to_set.
      apply (Hapart o i v x); [done|by rewrite lookup_insert_ne|apply lookup_insert_eq|done].
    + intros o1 o2 v1 v2 Hne H1 H2.
      assert (o1 ≠ i) by congruence. assert (o2 ≠ i) by congruence.
      apply (Hapart o1 o2 v1 v2); [done|by rewrite lookup_insert_ne..].
    + rewrite size_difference by (intros l'; rewrite elem_of_list_to_set; apply Hin).
      rewrite size_list_to_set by done.
      assert (length (own i) ≤ base.size B)%nat.
      { rewrite <- (size_list_to_set (C:=gset loc)) by done.
        apply subseteq_size. intros l'. rewrite elem_of_list_to_set. apply Hin. }
      lia.
    + apply elem_of_difference. split; [done|]. by rewrite elem_of_list_to_set.
    + exists o, v. assert (o ≠ i) by congruence. split; [by rewrite lookup_insert_ne|done].
Qed.

Lemma count_vectors os : Z.of_nat (base.size os) = map_fold (λ _ (_ : vector) n, 1 + n) 0 os.
Proof.
  induction os as [|i x m Hi IH] using map_ind.
  - by rewrite map_fold_empty, map_size_empty.
  - rewrite map_fold_insert_L; [|intros; lia|done].
    rewrite map_size_insert_None by done. lia.
Qed.
End owners.

(** X19.  Nothing leaks: in every state that a program reaches by public
    operations (constructions, copies, assignments, also of a vector to
    itself, destructions, [push_back], [pop_back], [operator[]]), every
    directory in the heap is the [dir] of a vector in scope, and every
    buffer in the heap is pointed to by one of the first
    [dir_size + (extra_buffer ? 1 : 0)] slots of the directory of a
    vector in scope.  So when the program has destroyed all its vectors,
    the heap is empty. *)
Theorem no_leak {T} (st : store T) :
  reachable st →
  (∀ l, is_Some (dirs (hp st) !! l) → ∃ o v, objs st !! o = Some v ∧ dir v = l) ∧
  (∀ l, is_Some (bufs (hp st) !! l) →
     ∃ o v i, objs st !! o = Some v ∧ 0 ≤ i < dir_size v + b2z (extra_buffer v) ∧
              load_slot (dir v) i (hp st) = Done (Some l) (hp st)) ∧
  (objs st = ∅ → bufs (hp st) = ∅ ∧ dirs (hp st) = ∅).
Proof.
  intros Hreach.
  assert (Hng : no_garbage st).
  { destruct Hreach as (cs & rs & Hsteps).
    apply (steps_no_garbage _ _ _ _ Hsteps); [|apply no_garbage_start].
    exists [], []. constructor. }
  destruct Hng as (_ & Hnb & Hnd).
  destruct (reachable_inv st Hreach) as (a & _ & _ & g & _ & Hsome & Hapart).
  assert (Hdirs : ∀ l, is_Some (dirs (hp st) !! l) →
            ∃ o v, objs st !! o = Some v ∧ dir v = l).
  { intros l Hl.
    destruct (counted_have_owner
                (λ o, match objs st !! o with Some v => [dir v] | None => [] end)
                (λ _, 1) (objs st) (dom (dirs (hp st)))) with (l := l)
      as (o & v & Ho & Hlo).
    - intros o v Ho. rewrite Ho. split; [apply NoDup_singleton|]. split; [done|].
      intros l' ->%list_elem_of_singleton. apply elem_of_dom.
      destruct (Hsome o v Ho) as (ptrs & bs & _ & Hsh & _). by eapply shape_dir_in.
    - intros o1 o2 v1 v2 Hne H1 H2 l'. rewrite H1, H2.
      intros ->%list_elem_of_singleton ?%list_elem_of_singleton.
      destruct (Hsome o1 v1 H1) as (ptrs1 & bs1 & Hg1 & _).
      destruct (Hsome o2 v2 H2) as (ptrs2 & bs2 & Hg2 & _).
      by destruct (Hapart o1 o2 v1 v2 ptrs1 bs1 ptrs2 bs2 Hne H1 H2 Hg1 Hg2) as [? _].
    - rewrite size_dom. unfold ndirs in Hnd. rewrite Hnd. apply count_vectors.
    - by apply elem_of_dom.
    - exists o, v. split; [done|]. rewrite Ho in Hlo.
      by apply list_elem_of_singleton in Hlo. }
  assert (Hbufs : ∀ l, is_Some (bufs (hp st) !! l) →
            ∃ o v i, objs st !! o = Some v ∧ 0 ≤ i < dir_size v + b2z (extra_buffer v) ∧
                     load_slot (dir v) i (hp st) = Done (Some l) (hp st)).
  { intros l Hl.
    destruct (counted_have_owner
                (λ o, match g !! o with Some (ptrs, _) => ptrs | None => [] end)
                held (objs st) (dom (bufs (hp st)))) with (l := l)
      as (o & v & Ho & Hlo).
    - intros o v Ho. destruct (Hsome o v Ho) as (ptrs & bs & Hg & Hsh & _). rewrite Hg.
      split; [apply Hsh|]. split; [apply Hsh|].
      intros l' Hl'. apply elem_of_dom. by eapply shape_buf_in.
    - intros o1 o2 v1 v2 Hne H1 H2 l'.
      destruct (Hsome o1 v1 H1) as (ptrs1 & bs1 & Hg1 & _).
      destruct (Hsome o2 v2 H2) as (ptrs2 & bs2 & Hg2 & _). rewrite Hg1, Hg2.
      by apply (Hapart o1 o2 v1 v2 ptrs1 bs1 ptrs2 bs2 Hne H1 H2 Hg1 Hg2).
    - rewrite size_dom. exact Hnb.
    - by apply elem_of_dom.
    - destruct (Hsome o v Ho) as (ptrs & bs & Hg & Hsh & _). rewrite Hg in Hlo.
      apply list_elem_of_lookup in Hlo as [i Hi].
      exists o, v, (Z.of_nat i). split; [done|].
      pose proof (lookup_lt_Some _ _ _ Hi) as Hlt.
      assert (Hlen : Z.of_nat (length ptrs) = held v) by apply Hsh.
      unfold held in Hlen. split; [lia|].
      destruct Hsh as (_ & Hown & _). exact (owns_load _ _ _ _ ptrs bs i l Hown Hi). }
  split; [done|]. split; [done|].
  intros Hnone. split.
  - apply map_empty. intros l. destruct (bufs (hp st) !! l) eqn:E; [|done].
    destruct (Hbufs l (mk_is_Some _ _ E)) as (o & v & _ & Ho & _).
    by rewrite Hnone, lookup_empty in Ho.
  - apply map_empty. intros l. destruct (dirs (hp st) !! l) eqn:E; [|done].
    destruct (Hdirs l (mk_is_Some _ _ E)) as (o & v & Ho & _).
    by rewrite Hnone, lookup_empty in Ho.
Qed.

Lemma no_leak_witness :
  reachable example_store ∧
  (∀ l, is_Some (dirs (hp example_store) !! l) →
     ∃ o v, objs example_store !! o = Some v ∧ dir v = l) ∧
  (∀ l, is_Some (bufs (hp example_store) !! l) →
     ∃ o v i, objs example_store !! o = Some v ∧
              0 ≤ i < dir_size v + b2z (extra_buffer v) ∧
              load_slot (dir v) i (hp example_store) = Done (Some l) (hp example_store)) ∧
  (objs example_store = ∅ →
     bufs (hp example_store) = ∅ ∧ dirs (hp example_store) = ∅).
Proof.
  split; [exact example_reachable|]. exact (no_leak example_store example_reachable).
Defined.
